(** * Glancey: semantic code search - verification of the pure parts of the core

    The development embeds, as Rocq functions, the parts of the TypeScript
    sources that the specification makes claims about:

    - [parseSearchSimilarArgs]    (src/tools/search-handlers.ts)
    - [calculateKeywordScore], [calculateCombinedScore]  (hybrid search scoring)
    - [OllamaBackend.embedBatch]  (src/embeddings/ollama.ts)
    - [kMeansClustering], [calculateSilhouetteScore] and their helpers
      (search/clustering.ts)

    and, beyond these, the code around them:

    - [parseSearchCodeArgs]       (src/tools/search-handlers.ts)
    - [cosineSimilarity], [assignToCluster]  (search/clustering.ts)
    - [mapWithConcurrency], [mapInBatches]   (src/utils/concurrency.ts)
    - [parseNamePath], [buildNamePath], [matchNamePath] and the accessors of
      name paths                  (src/symbols/name-path.ts)

    Conventions of the embedding.

    - A JavaScript string is a [list ascii]: a sequence of code units, each
      below 256 (the Latin-1 range).  Case conversion, white space and word
      characters are the ones ECMAScript defines on that range.
    - The options of the clustering, the concurrency of
      [mapWithConcurrency], the weights of the combined score and a parsed
      overload index are values of type [number] of module [Numbers]: IEEE
      doubles, given as a rational, an infinity or NaN, with rounded sums
      and products.  Batch sizes are integers [Z]; the numbers that the
      code itself counts (lengths, indices, sizes, loop counters) are [nat]
      or [Z].
    - The keyword score of the hybrid search is an exact rational [Q].  The
      coordinates of embedding vectors, distances and random draws are
      values of an abstract number type (class [JSNum]): the theorems about
      clustering hold for every interpretation of its operations, IEEE
      doubles included.
    - A function that can throw returns a [Completion]; [Math.random] is an
      explicit stream of draws threaded through the code that consumes it. *)

From Stdlib Require Import Ascii String Bool Arith NArith ZArith QArith Qround
  Qminmax Qpower Lia Lqa Psatz List Permutation Sorted.
Import ListNotations.

Close Scope Q_scope.
Local Open Scope list_scope.

(** ** JavaScript strings, arrays and completions *)

Module JS.

Definition jsstring := list ascii.

(** String literals of the sources. *)
Definition lit (s : string) : jsstring := list_ascii_of_string s.

Definition code (c : ascii) : N := N_of_ascii c.

Definition between (lo hi : N) (c : ascii) : bool :=
  ((lo <=? code c) && (code c <=? hi))%N.

(** [String.prototype.toLowerCase] on one code unit of the Latin-1 range:
    A-Z, and the accented capitals U+00C0-U+00DE except the sign U+00D7. *)
Definition toLowerCaseChar (c : ascii) : ascii :=
  if between 65 90 c || (between 192 222 c && negb (code c =? 215)%N)
  then ascii_of_N (code c + 32)
  else c.

Definition toLowerCase (s : jsstring) : jsstring := map toLowerCaseChar s.

(** The class [\s] on the Latin-1 range: TAB, LF, VT, FF, CR, SP, NBSP. *)
Definition isWhiteSpace (c : ascii) : bool :=
  between 9 13 c || (code c =? 32)%N || (code c =? 160)%N.

Definition isLineTerminator (c : ascii) : bool :=
  (code c =? 10)%N || (code c =? 13)%N.

(** The class [\w] (without the unicode flag): [A-Za-z0-9_]. *)
Definition isWordChar (c : ascii) : bool :=
  between 97 122 c || between 65 90 c || between 48 57 c || (code c =? 95)%N.

Definition isAsciiLetter (c : ascii) : bool :=
  between 97 122 c || between 65 90 c.

Definition isAsciiUpper (c : ascii) : bool := between 65 90 c.
Definition isAsciiLower (c : ascii) : bool := between 97 122 c.
Definition isAsciiAlnum (c : ascii) : bool :=
  isAsciiLetter c || between 48 57 c.

Definition streq (a b : jsstring) : bool :=
  if list_eq_dec ascii_dec a b then true else false.

(** [s.split(/\s+/)]: the pieces between maximal runs of white space; a run
    at either end of [s] leaves an empty piece there, and the empty string
    splits into one empty piece. *)
Fixpoint splitWhitespaceFrom (cur : jsstring) (inRun : bool) (s : jsstring)
  : list jsstring :=
  match s with
  | [] => [rev cur]
  | c :: s' =>
      if isWhiteSpace c then
        if inRun then splitWhitespaceFrom [] true s'
        else rev cur :: splitWhitespaceFrom [] true s'
      else splitWhitespaceFrom (c :: cur) false s'
  end.

Definition splitWhitespace (s : jsstring) : list jsstring :=
  splitWhitespaceFrom [] false s.

(** [s.split(sep)] for a one-character separator. *)
Fixpoint splitCharFrom (sep : ascii) (cur : jsstring) (s : jsstring)
  : list jsstring :=
  match s with
  | [] => [rev cur]
  | c :: s' =>
      if Ascii.eqb c sep then rev cur :: splitCharFrom sep [] s'
      else splitCharFrom sep (c :: cur) s'
  end.

Definition splitChar (sep : ascii) (s : jsstring) : list jsstring :=
  splitCharFrom sep [] s.

(** [parts.join(sep)]. *)
Fixpoint join (sep : jsstring) (parts : list jsstring) : jsstring :=
  match parts with
  | [] => []
  | [p] => p
  | p :: rest => p ++ sep ++ join sep rest
  end.

Fixpoint startsWith (p s : jsstring) : bool :=
  match p, s with
  | [], _ => true
  | _ :: _, [] => false
  | a :: p', b :: s' => Ascii.eqb a b && startsWith p' s'
  end.

(** [s.includes(p)]. *)
Fixpoint includes (s p : jsstring) : bool :=
  startsWith p s ||
  match s with
  | [] => false
  | _ :: s' => includes s' p
  end.

(** [arr.slice(0, e)] for an integer [e]; a negative [e] counts from the end
    of the array. *)
Definition slice0 {A : Type} (arr : list A) (e : Z) : list A :=
  let len := Z.of_nat (length arr) in
  let stop := if (e <? 0)%Z then Z.max (len + e) 0 else Z.min e len in
  firstn (Z.to_nat stop) arr.

(** [arr.sort(cmp)]: the sort of the language is stable.  [before a b]
    stands for [cmp(a, b) < 0].  An element is inserted in front of the
    sorted rest of the array, behind the elements that come strictly before
    it, so equal elements keep their order. *)
Fixpoint insertStable {A : Type} (before : A -> A -> bool) (x : A)
  (sorted : list A) : list A :=
  match sorted with
  | [] => [x]
  | y :: rest => if before y x then y :: insertStable before x rest
                 else x :: sorted
  end.

Fixpoint stableSort {A : Type} (before : A -> A -> bool) (arr : list A)
  : list A :=
  match arr with
  | [] => []
  | x :: rest => insertStable before x (stableSort before rest)
  end.

(** A [Map<K, V>]: the entries in insertion order, one per key. *)
Section JSMap.
Variables (K V : Type) (keyEq : K -> K -> bool).

Definition JSMap := list (K * V).

Fixpoint mapGet (m : JSMap) (k : K) : option V :=
  match m with
  | [] => None
  | (k', v) :: m' => if keyEq k' k then Some v else mapGet m' k
  end.

(** [m.set(k, v)]: a present key keeps its place, a new key goes last. *)
Fixpoint mapSet (m : JSMap) (k : K) (v : V) : JSMap :=
  match m with
  | [] => [(k, v)]
  | (k', v') :: m' =>
      if keyEq k' k then (k', v) :: m' else (k', v') :: mapSet m' k v
  end.

Definition mapKeys (m : JSMap) : list K := map fst m.

End JSMap.
Arguments mapGet {K V} keyEq m k.
Arguments mapSet {K V} keyEq m k v.
Arguments mapKeys {K V} m.

(** Outcome of a call: a value, or a thrown exception. *)
Inductive JSError : Type :=
| LanceContextError (message category : jsstring)
    (context : list (jsstring * jsstring))
| Error (message : jsstring)
| SyntaxError (message : jsstring)
| TypeError (message : jsstring)
| RangeError (message : jsstring).

Inductive Completion (A : Type) : Type :=
| Normal (a : A)
| Throw (e : JSError).
Arguments Normal {A} a.
Arguments Throw {A} e.

Definition bind {A B : Type} (c : Completion A) (k : A -> Completion B)
  : Completion B :=
  match c with
  | Normal a => k a
  | Throw e => Throw e
  end.

(** [for (const x of xs) body] with a loop-carried state, left to right,
    stopping at the first exception. *)
Fixpoint forOf {A S : Type} (body : S -> A -> Completion S) (xs : list A)
  (s : S) : Completion S :=
  match xs with
  | [] => Normal s
  | x :: xs' => bind (body s x) (forOf body xs')
  end.

(** [xs.map(f)] for an [f] that can throw. *)
Fixpoint mapM {A B : Type} (f : A -> Completion B) (xs : list A)
  : Completion (list B) :=
  match xs with
  | [] => Normal []
  | x :: xs' =>
      bind (f x) (fun y => bind (mapM f xs') (fun ys => Normal (y :: ys)))
  end.

End JS.

Declare Scope js_scope.
Delimit Scope js_scope with js.
Notation "x <- c ;; k" := (JS.bind c (fun x => k))
  (at level 61, c at next level, right associativity) : js_scope.
Notation "' p <- c ;; k" := (JS.bind c (fun p => k))
  (at level 61, p pattern, c at next level, right associativity) : js_scope.

(** ** JavaScript numbers *)

Module Numbers.
Local Open Scope Q_scope.

(** A JavaScript number is an IEEE 754 double: a rational number, an
    infinity or NaN.  (The sign of a zero is not kept: nothing here divides
    by a zero or prints one.)  Comparisons, [Math.min] and [Math.ceil] are
    exact on these values; sums and products are rounded to the nearest
    double, ties to the even mantissa. *)
Inductive number : Type :=
| Num (q : Q)
| Inf (negative : bool)
| NaN.

Definition pow2 (e : Z) : Q := (2 # 1) ^ e.

(** [floor(log2(q))] for a rational [q > 0]: the quotient lies strictly
    between two powers of 2 that the logarithms of numerator and
    denominator give, and one comparison decides. *)
Definition floorLog2 (q : Q) : Z :=
  let e0 := (Z.log2 (Qnum q) - Z.log2 (Zpos (Qden q)))%Z in
  if Qle_bool (pow2 e0) q then e0 else (e0 - 1)%Z.

(** The integer nearest to [m], the even one at a tie. *)
Definition roundHalfEven (m : Q) : Z :=
  let f := Qfloor m in
  match Qcompare (m - inject_Z f) (1 # 2) with
  | Lt => f
  | Gt => (f + 1)%Z
  | Eq => if Z.even f then f else (f + 1)%Z
  end.

(** The nearest multiple of [2^e]. *)
Definition onGrid (e : Z) (q : Q) : Q :=
  inject_Z (roundHalfEven (q / pow2 e)) * pow2 e.

(** The exponent of the last place of the doubles around [q > 0]: 53 bits
    of mantissa, and no exponent below that of the subnormal numbers. *)
Definition ulpExponent (q : Q) : Z := Z.max (floorLog2 q - 52) (-1074).

(** The double nearest to [q], as a rational, before the overflow check. *)
Definition rounded (q : Q) : Q :=
  match Qcompare q 0 with
  | Eq => 0
  | Gt => onGrid (ulpExponent q) q
  | Lt => - onGrid (ulpExponent (- q)) (- q)
  end.

(** Rounding to a double: a magnitude that rounds up to [2^1024] or beyond
    overflows to an infinity. *)
Definition round (q : Q) : number :=
  let r := rounded q in
  if Qle_bool (pow2 1024) r then Inf false
  else if Qle_bool r (- pow2 1024) then Inf true
  else Num (Qred r).

(** A value of the type is a double when rounding leaves it as it is. *)
Definition isDouble (x : number) : bool :=
  match x with
  | Num q => match round q with
             | Num r => Qeq_bool r q
             | _ => false
             end
  | _ => true
  end.

(** An integer, and a length or an index, as a number. *)
Definition numOfZ (z : Z) : number := Num (inject_Z z).
Definition numOfNat (n : nat) : number := numOfZ (Z.of_nat n).

(** [a + b]. *)
Definition numAdd (a b : number) : number :=
  match a, b with
  | NaN, _ | _, NaN => NaN
  | Num x, Num y => round (x + y)
  | Inf s, Inf t => if Bool.eqb s t then Inf s else NaN
  | Inf s, Num _ | Num _, Inf s => Inf s
  end.

(** [a * b]. *)
Definition numMul (a b : number) : number :=
  match a, b with
  | NaN, _ | _, NaN => NaN
  | Num x, Num y => round (x * y)
  | Inf s, Inf t => Inf (xorb s t)
  | Inf s, Num y | Num y, Inf s =>
      match Qcompare y 0 with
      | Eq => NaN
      | Gt => Inf s
      | Lt => Inf (negb s)
      end
  end.

(** [a < b], [a <= b] and [a === b]. *)
Definition numLt (a b : number) : bool :=
  match a, b with
  | Num x, Num y => negb (Qle_bool y x)
  | Num _, Inf s => negb s
  | Inf s, Num _ => s
  | Inf s, Inf t => s && negb t
  | _, _ => false
  end.

Definition numEq (a b : number) : bool :=
  match a, b with
  | Num x, Num y => Qeq_bool x y
  | Inf s, Inf t => Bool.eqb s t
  | _, _ => false
  end.

Definition numLe (a b : number) : bool := numLt a b || numEq a b.

(** [Math.min(a, b)]. *)
Definition numMin (a b : number) : number :=
  match a, b with
  | NaN, _ | _, NaN => NaN
  | _, _ => if numLt b a then b else a
  end.

(** How often the loop [for (let c = 0; c < x; c++)] runs: the number of
    integers from 0 on that are below [x].  No number ([None]) when the
    counter does not end the loop: for Infinity, and for an [x] above 2^53,
    where [c++] leaves the counter at 2^53. *)
Definition countBelow (x : number) : option nat :=
  match x with
  | Num q =>
      if Qle_bool q (inject_Z (2 ^ 53)) then Some (Z.to_nat (Qceiling q))
      else None
  | Inf true | NaN => Some 0%nat
  | Inf false => None
  end.

(** The length [x] as [Array(x)] and [new Array(x)] take it: an integer
    from 0 to 2^32 - 1; anything else makes them throw a RangeError. *)
Definition arrayLength (x : number) : option nat :=
  match x with
  | Num q =>
      if Qeq_bool q (inject_Z (Qfloor q)) && (0 <=? Qfloor q)%Z
         && (Qfloor q <? 2 ^ 32)%Z
      then Some (Z.to_nat (Qfloor q)) else None
  | _ => None
  end.

(** [ToIntegerOrInfinity(x)], as [slice] applies it to an argument, cut to
    the range of the index arithmetic: NaN counts as 0, a fraction is cut
    off towards 0, and an infinity is as good as any index beyond [len]. *)
Definition toIntegerWithin (len : nat) (x : number) : Z :=
  match x with
  | Num q => if Qle_bool 0 q then Qfloor q else Qceiling q
  | Inf false => Z.of_nat len
  | Inf true => (- Z.of_nat len)%Z
  | NaN => 0%Z
  end.

End Numbers.

(** ** Tool handlers: argument parsing (src/tools/search-handlers.ts) *)

Module SearchHandlers.
Import JS.
Local Open Scope js_scope.

(** The values a tool call can carry ([unknown] in the sources). *)
Inductive JSValue : Type :=
| JSUndefined
| JSNull
| JSBoolean (b : bool)
| JSNumber (n : Q)
| JSString (s : jsstring)
| JSObject.   (* an object, array or function; its contents play no role *)

(** [Record<string, unknown> | undefined]. *)
Definition Args := option (list (jsstring * JSValue)).

(** [args?.name]: [undefined] when [args] is [undefined] or has no such
    property. *)
Definition prop (args : Args) (name : string) : JSValue :=
  match args with
  | None => JSUndefined
  | Some fields =>
      match mapGet streq fields (lit name) with
      | Some v => v
      | None => JSUndefined
      end
  end.

(** Modelled from the spec: utils/type-guards.js is not among the sources.
    [isString] and [isNumber] are the type guards their use as TypeScript
    type predicates requires ([typeof v === 'string'], [typeof v ===
    'number']); the model has no NaN. *)
Definition isString (v : JSValue) : option jsstring :=
  match v with JSString s => Some s | _ => None end.

Definition isNumber (v : JSValue) : option Q :=
  match v with JSNumber n => Some n | _ => None end.

(** [!s] for [s : string | undefined]. *)
Definition falsy (s : option jsstring) : bool :=
  match s with
  | None => true
  | Some [] => true
  | Some (_ :: _) => false
  end.

(** [v !== false]. *)
Definition notStrictlyFalse (v : JSValue) : bool :=
  match v with
  | JSBoolean false => false
  | _ => true
  end.

Record SearchSimilarArgs : Type := {
  code : option jsstring;
  filepath : option jsstring;
  startLine : option Q;
  endLine : option Q;
  limit : option Q;
  threshold : option Q;
  excludeSelf : option bool
}.

Definition validationError : JSError :=
  LanceContextError (lit "Either code or filepath must be provided")
    (lit "validation") [(lit "tool", lit "search_similar")].

(** The [category] property of a thrown error, when it has one. *)
Definition category (e : JSError) : option jsstring :=
  match e with
  | LanceContextError _ c _ => Some c
  | _ => None
  end.

Definition parseSearchSimilarArgs (args : Args) : Completion SearchSimilarArgs :=
  let code := isString (prop args "code") in
  let filepath := isString (prop args "filepath") in
  if falsy code && falsy filepath then Throw validationError
  else
    Normal {|
      code := code;
      filepath := filepath;
      startLine := isNumber (prop args "startLine");
      endLine := isNumber (prop args "endLine");
      limit := match isNumber (prop args "limit") with
               | Some n => Some n
               | None => Some (10 # 1)%Q
               end;
      threshold := isNumber (prop args "threshold");
      excludeSelf := Some (notStrictlyFalse (prop args "excludeSelf"))
    |}.

(** The call throws an error whose category is 'validation'. *)
Definition throwsValidation {A : Type} (c : Completion A) : Prop :=
  exists e, c = Throw e /\ category e = Some (lit "validation").

(** The argument is a string that is not empty. *)
Definition nonEmptyString (v : JSValue) : bool :=
  match v with
  | JSString (_ :: _) => true
  | _ => false
  end.

(** The argument is a string. *)
Definition stringValued (v : JSValue) : bool :=
  match v with
  | JSString _ => true
  | _ => false
  end.

Definition numberValued (v : JSValue) : bool :=
  match v with
  | JSNumber _ => true
  | _ => false
  end.

(** *** search_code *)

Module SearchCode.

Section WithGuard.

(** The guard [isStringArray] imported from '../utils/type-guards.js', which
    is not among the sources: whatever it answers, the value that passes is
    handed on as it is. *)
Variable isStringArray : JSValue -> bool.

Record SearchCodeArgs : Type := {
  query : jsstring;
  limit : option Q;
  pathPattern : option jsstring;
  languages : option JSValue
}.

Definition queryRequiredError : JSError :=
  LanceContextError (lit "query is required") (lit "validation")
    [(lit "tool", lit "search_code")].

Definition parseSearchCodeArgs (args : Args) : Completion SearchCodeArgs :=
  let query := match isString (prop args "query") with
               | Some s => s
               | None => []
               end in
  match query with
  | [] => Throw queryRequiredError
  | _ :: _ =>
      Normal {|
        query := query;
        limit := match isNumber (prop args "limit") with
                 | Some n => Some n
                 | None => Some (10 # 1)%Q
                 end;
        pathPattern := isString (prop args "pathPattern");
        languages := if isStringArray (prop args "languages")
                     then Some (prop args "languages") else None
      |}
  end.

End WithGuard.

End SearchCode.

End SearchHandlers.

(** ** Regular expressions: the fragment the keyword score can build

    [calculateKeywordScore] builds [new RegExp("\\b" + term + "\\b", "i")]
    from a query term, without escaping it.  The fragment below gives the
    pattern syntax of the language (without the unicode flag) for pattern
    characters, [.], [\b] and escaped syntax characters, and reports the
    early errors that need no more than that to be certain.  Any other
    construct (classes, groups that close, alternation, valid quantifiers,
    other escapes) is outside the fragment: [RegExp] then has no answer
    ([None]). *)

Module RegExp.
Import JS.

Inductive Node : Type :=
| Char (c : ascii)       (* a pattern character, or an escaped syntax character *)
| AnyChar                (* [.] *)
| WordBoundary.          (* [\b] *)

Definition isOneOf (chars : string) (c : ascii) : bool :=
  existsb (Ascii.eqb c) (lit chars).

(** SyntaxCharacter of the pattern grammar. *)
Definition isSyntaxCharacter (c : ascii) : bool := isOneOf "^$\.*+?()[]{}|" c.

Inductive Parsed : Type :=
| Nodes (ns : list Node)
| Invalid (message : jsstring)
| Beyond.

Definition consNode (n : Node) (p : Parsed) : Parsed :=
  match p with
  | Nodes ns => Nodes (n :: ns)
  | other => other
  end.

(** [quantifiable] tells whether the previous term was an atom, so that a
    quantifier could follow it. *)
Fixpoint parseFrom (quantifiable : bool) (p : jsstring) : Parsed :=
  match p with
  | [] => Nodes []
  | c :: rest =>
      if isOneOf "\" c then
        match rest with
        | [] => Invalid (lit "\ at end of pattern")
        | e :: rest' =>
            if isOneOf "b" e then consNode WordBoundary (parseFrom false rest')
            else if isSyntaxCharacter e || isOneOf "/" e
                 then consNode (Char e) (parseFrom true rest')
                 else Beyond
        end
      else if isOneOf "." c then consNode AnyChar (parseFrom true rest)
      else if isOneOf "*+?" c then
        if quantifiable then Beyond else Invalid (lit "Nothing to repeat")
      else if isOneOf ")" c then Invalid (lit "Unmatched ')'")
      else if isOneOf "(" c then
        if existsb (isOneOf ")") rest then Beyond
        else Invalid (lit "Unterminated group")
      else if isOneOf "[{|^$" c then Beyond
      else consNode (Char c) (parseFrom true rest)
  end.

(** Canonicalize of the language for the [i] flag without the unicode flag:
    the upper-case code point when it is a single code unit (and does not
    fold a non-ASCII character into ASCII).  On the Latin-1 range: a-z,
    U+00E0-U+00FE except U+00F7, U+00FF (to U+0178) and U+00B5 (to U+039C);
    U+00DF has a two-letter upper case and stays. *)
Definition canonicalize (c : ascii) : N :=
  if between 97 122 c || (between 224 254 c && negb (code c =? 247)%N)
  then (code c - 32)%N
  else if (code c =? 255)%N then 376%N
  else if (code c =? 181)%N then 924%N
  else code c.

Definition isWordCharOpt (c : option ascii) : bool :=
  match c with
  | Some x => isWordChar x
  | None => false
  end.

(** Matching a sequence of nodes at one position of the input; [prev] is the
    character just before that position. *)
Fixpoint matchNodes (ns : list Node) (prev : option ascii) (s : jsstring)
  : bool :=
  match ns with
  | [] => true
  | WordBoundary :: ns' =>
      xorb (isWordCharOpt prev) (isWordCharOpt (head s)) && matchNodes ns' prev s
  | Char c :: ns' =>
      match s with
      | [] => false
      | x :: s' => (canonicalize x =? canonicalize c)%N && matchNodes ns' (Some x) s'
      end
  | AnyChar :: ns' =>
      match s with
      | [] => false
      | x :: s' => negb (isLineTerminator x) && matchNodes ns' (Some x) s'
      end
  end.

Fixpoint searchFrom (ns : list Node) (prev : option ascii) (s : jsstring)
  : bool :=
  matchNodes ns prev s ||
  match s with
  | [] => false
  | x :: s' => searchFrom ns (Some x) s'
  end.

(** A regular expression object with the [i] flag. *)
Record RegExpObject : Type := { nodes : list Node }.

(** [new RegExp(pattern, 'i')]. *)
Definition RegExp (pattern : jsstring) : option (Completion RegExpObject) :=
  match parseFrom false pattern with
  | Nodes ns => Some (Normal {| nodes := ns |})
  | Invalid msg => Some (Throw (SyntaxError msg))
  | Beyond => None
  end.

(** [re.test(s)]. *)
Definition test (re : RegExpObject) (s : jsstring) : bool :=
  searchFrom (nodes re) None s.

End RegExp.

(** ** Hybrid search scoring (calculateKeywordScore, calculateCombinedScore) *)

Module HybridSearch.
Import JS.
Local Open Scope Q_scope.

(** Sequencing for code whose regular expression may lie outside the
    modelled fragment. *)
Definition andThen {A B : Type} (c : option (Completion A))
  (k : A -> option (Completion B)) : option (Completion B) :=
  match c with
  | None => None
  | Some (Throw e) => Some (Throw e)
  | Some (Normal a) => k a
  end.

Definition ret {A : Type} (a : A) : option (Completion A) := Some (Normal a).

(** The loop-carried variables [matchCount] and [exactMatchBonus]. *)
Record Counters : Type := { matchCount : Q; exactMatchBonus : Q }.

(** One iteration of [for (const term of queryTerms)]. *)
Definition scoreTerm (content contentLower filepathLower : jsstring)
  (st : Counters) (term : jsstring) : option (Completion Counters) :=
  andThen
    (if includes contentLower term then
       andThen (RegExp.RegExp (lit "\b" ++ term ++ lit "\b")) (fun re =>
         ret {| matchCount := matchCount st + 1;
                exactMatchBonus :=
                  if RegExp.test re content
                  then exactMatchBonus st + (1 # 2)
                  else exactMatchBonus st |})
     else ret st)
    (fun st' =>
       ret {| matchCount :=
                if includes filepathLower term
                then matchCount st' + (1 # 2)
                else matchCount st';
              exactMatchBonus := exactMatchBonus st' |}).

Fixpoint scoreTerms (content contentLower filepathLower : jsstring)
  (terms : list jsstring) (st : Counters) : option (Completion Counters) :=
  match terms with
  | [] => ret st
  | term :: rest =>
      andThen (scoreTerm content contentLower filepathLower st term)
        (scoreTerms content contentLower filepathLower rest)
  end.

(** [t.length > 2]. *)
Definition longerThan2 (t : jsstring) : bool := (2 <? length t)%nat.

Definition queryTermsOf (query : jsstring) : list jsstring :=
  filter longerThan2 (splitWhitespace (toLowerCase query)).

Definition lengthQ {A : Type} (l : list A) : Q := inject_Z (Z.of_nat (length l)).

Definition calculateKeywordScore (query content filepath : jsstring)
  : option (Completion Q) :=
  let queryTerms := queryTermsOf query in
  if (length queryTerms =? 0)%nat then ret 0
  else
    let contentLower := toLowerCase content in
    let filepathLower := toLowerCase filepath in
    andThen
      (scoreTerms content contentLower filepathLower queryTerms
         {| matchCount := 0; exactMatchBonus := 0 |})
      (fun st =>
         let baseScore := matchCount st / lengthQ queryTerms in
         let bonusScore := Qmin (exactMatchBonus st / lengthQ queryTerms) (1 # 2) in
         ret (Qmin (baseScore + bonusScore) 1)).

(** [semanticWeight * semanticScore + keywordWeight * keywordScore] on
    doubles: two rounded products and their rounded sum. *)
Definition calculateCombinedScore
  (semanticScore keywordScore semanticWeight keywordWeight : Numbers.number)
  : Numbers.number :=
  Numbers.numAdd (Numbers.numMul semanticWeight semanticScore)
                 (Numbers.numMul keywordWeight keywordScore).

(** *** The score as the specification words it *)

(** Equality of two characters up to case. *)
Definition sameLetter (a b : ascii) : bool :=
  Ascii.eqb (toLowerCaseChar a) (toLowerCaseChar b).

Fixpoint startsWithIgnoreCase (p s : jsstring) : bool :=
  match p, s with
  | [], _ => true
  | _ :: _, [] => false
  | a :: p', b :: s' => sameLetter a b && startsWithIgnoreCase p' s'
  end.

(** [term] occurs in [text] as a substring, case-insensitively. *)
Fixpoint occursIgnoreCase (term text : jsstring) : bool :=
  startsWithIgnoreCase term text ||
  match text with
  | [] => false
  | _ :: text' => occursIgnoreCase term text'
  end.

Definition wordCharOpt (c : option ascii) : bool :=
  match c with
  | Some x => isWordChar x
  | None => false
  end.

(** There is a word boundary between two neighbouring positions when
    exactly one of them holds a word character. *)
Definition boundaryBetween (before after : option ascii) : bool :=
  xorb (wordCharOpt before) (wordCharOpt after).

(** [term] matches at the head of [s], ignoring case, between two word
    boundaries; [prev] is the character before [s]. *)
Definition wholeWordHere (term : jsstring) (prev : option ascii)
  (s : jsstring) : bool :=
  boundaryBetween prev (head s) &&
  startsWithIgnoreCase term s &&
  boundaryBetween (last (map Some (firstn (length term) s)) prev)
                  (head (skipn (length term) s)).

Fixpoint wholeWordFrom (term : jsstring) (prev : option ascii)
  (s : jsstring) : bool :=
  wholeWordHere term prev s ||
  match s with
  | [] => false
  | x :: s' => wholeWordFrom term (Some x) s'
  end.

(** A case-insensitive whole-word match for [term] exists in [text]. *)
Definition wholeWordMatch (term text : jsstring) : bool :=
  wholeWordFrom term None text.

(** The whitespace-separated tokens of a string: its maximal runs of
    characters that are not white space. *)
Fixpoint tokensFrom (cur : jsstring) (s : jsstring) : list jsstring :=
  match s with
  | [] => match cur with [] => [] | _ :: _ => [rev cur] end
  | c :: s' =>
      if isWhiteSpace c then
        match cur with
        | [] => tokensFrom [] s'
        | _ :: _ => rev cur :: tokensFrom [] s'
        end
      else tokensFrom (c :: cur) s'
  end.

Definition tokens (s : jsstring) : list jsstring := tokensFrom [] s.

(** The lowercased tokens of length above 2. *)
Definition specTerms (query : jsstring) : list jsstring :=
  map toLowerCase (filter longerThan2 (tokens query)).

Fixpoint sumQ (l : list Q) : Q :=
  match l with
  | [] => 0
  | x :: l' => x + sumQ l'
  end.

Definition specMatchCount (terms : list jsstring) (content filepath : jsstring) : Q :=
  sumQ (map (fun t =>
          (if occursIgnoreCase t content then 1 else 0) +
          (if occursIgnoreCase t filepath then 1 # 2 else 0)) terms).

Definition specExactBonus (terms : list jsstring) (content : jsstring) : Q :=
  sumQ (map (fun t =>
          if occursIgnoreCase t content && wholeWordMatch t content
          then 1 # 2 else 0) terms).

(** [min(1, matchCount/termCount + min(0.5, exactBonus/termCount))]. *)
Definition specKeywordScore (query content filepath : jsstring) : Q :=
  let terms := specTerms query in
  Qmin 1 (specMatchCount terms content filepath / lengthQ terms +
          Qmin (1 # 2) (specExactBonus terms content / lengthQ terms)).

(** A term that the pattern grammar reads as itself. *)
Definition plainTerm (t : jsstring) : bool :=
  forallb (fun c => negb (RegExp.isSyntaxCharacter c)) t.

End HybridSearch.

(** ** Embedding backend (src/embeddings/ollama.ts) *)

Module Embeddings.
Import JS.

(** Modelled from the spec: chunkArray (embeddings/types.ts) is not among
    the sources, only its tests are.  It "splits an arbitrary-length text
    list into fixed-size groups": consecutive groups of [size] elements, the
    last one holding the remainder.  For a size below 1 the spec fixes no
    more than that a group holds [size] elements at most: the groups of the
    definition are empty there. *)
Fixpoint chunkArrayFuel {A : Type} (fuel : nat) (array : list A) (size : nat)
  : list (list A) :=
  match fuel with
  | O => []
  | S fuel' =>
      match array with
      | [] => []
      | _ :: _ => firstn size array :: chunkArrayFuel fuel' (skipn size array) size
      end
  end.

Definition chunkArray {A : Type} (array : list A) (size : Z) : list (list A) :=
  chunkArrayFuel (length array) array (Z.to_nat size).

(** [EmbeddingConfig], as far as the constructor reads it. *)
Record EmbeddingConfig : Type := {
  configModel : option jsstring;
  configBaseUrl : option jsstring;
  configBatchSize : option Z
}.

Definition DEFAULT_BATCH_SIZE : Z := 10.

Record OllamaBackend : Type := {
  name : jsstring;
  model : jsstring;
  baseUrl : jsstring;
  dimensions : Z;
  batchSize : Z
}.

(** [a || b] on strings: the empty string is falsy. *)
Definition orElse (a : option jsstring) (b : jsstring) : jsstring :=
  match a with
  | Some (c :: s) => c :: s
  | _ => b
  end.

Definition newOllamaBackend (config : EmbeddingConfig) : OllamaBackend :=
  {| name := lit "ollama";
     model := orElse (configModel config) (lit "nomic-embed-text");
     baseUrl := orElse (configBaseUrl config) (lit "http://localhost:11434");
     dimensions := 768;
     batchSize := match configBatchSize config with
                  | Some n => n
                  | None => DEFAULT_BATCH_SIZE
                  end |}.

(** *** Promise.all

    The promises of one group are all started, and each settles at some
    later time with the outcome of its request.  [order] lists the promises
    by index in the order in which they settle.  [Promise.all] keeps one
    slot per promise, stores each value in the slot of its promise, rejects
    at the first rejection, and resolves with the slots once every promise
    has settled ([None]: it stays pending). *)
Fixpoint setSlot {A : Type} (slots : list (option A)) (i : nat) (v : A)
  : list (option A) :=
  match slots, i with
  | [], _ => []
  | _ :: rest, O => Some v :: rest
  | s :: rest, S i' => s :: setSlot rest i' v
  end.

Fixpoint settle {A : Type} (outcomes : list (Completion A)) (order : list nat)
  (slots : list (option A)) : Completion (list (option A)) :=
  match order with
  | [] => Normal slots
  | i :: order' =>
      match nth_error outcomes i with
      | Some (Normal v) => settle outcomes order' (setSlot slots i v)
      | Some (Throw e) => Throw e
      | None => settle outcomes order' slots
      end
  end.

Fixpoint allFilled {A : Type} (slots : list (option A)) : option (list A) :=
  match slots with
  | [] => Some []
  | None :: _ => None
  | Some v :: rest =>
      match allFilled rest with
      | Some vs => Some (v :: vs)
      | None => None
      end
  end.

Definition promiseAll {A : Type} (outcomes : list (Completion A))
  (order : list nat) : option (Completion (list A)) :=
  match settle outcomes order (repeat None (length outcomes)) with
  | Throw e => Some (Throw e)
  | Normal slots =>
      match allFilled slots with
      | Some vs => Some (Normal vs)
      | None => None
      end
  end.

Section EmbedBatch.

(** An embedding vector ([number[]]). *)
Variable Vector : Type.

(** [this.embed(t)]: the outcome of the request for one text. *)
Variable embed : jsstring -> Completion Vector.

(** The helper imported from './types.js'. *)
Variable chunkArrayImpl : list jsstring -> Z -> list (list jsstring).

(** The [for (const chunk of chunks)] loop; [schedule] gives, group by
    group, the order in which the requests of the group complete. *)
Fixpoint embedChunks (chunks : list (list jsstring))
  (schedule : list (list nat)) (results : list Vector)
  : option (Completion (list Vector)) :=
  match chunks with
  | [] => Some (Normal results)
  | chunk :: chunks' =>
      match promiseAll (map embed chunk) (hd [] schedule) with
      | None => None
      | Some (Throw e) => Some (Throw e)
      | Some (Normal chunkResults) =>
          embedChunks chunks' (tl schedule) (results ++ chunkResults)
      end
  end.

Definition embedBatch (this : OllamaBackend) (texts : list jsstring)
  (schedule : list (list nat)) : option (Completion (list Vector)) :=
  let chunks := chunkArrayImpl texts (batchSize this) in
  embedChunks chunks schedule [].

End EmbedBatch.
Arguments embedChunks {Vector} embed chunks schedule results.
Arguments embedBatch {Vector} embed chunkArrayImpl this texts schedule.

(** A schedule under which every request of every group completes, once. *)
Definition completes (chunks : list (list jsstring))
  (schedule : list (list nat)) : Prop :=
  Forall2 (fun chunk order => Permutation order (seq 0 (length chunk)))
    chunks schedule.

End Embeddings.

(** ** Concept clustering (search/clustering.ts) *)

Module Clustering.
Import JS.
Local Open Scope js_scope.

(** *** Numbers

    The operations of the language on the numbers that hold coordinates,
    distances and random draws.  Nothing is assumed about them. *)
Class JSNum (num : Type) : Type := {
  ofQ : Q -> num;                 (* a numeric literal *)
  ofNat : nat -> num;             (* a length or a count *)
  nan : num;                      (* [undefined] read as a number *)
  infinity : num;
  add : num -> num -> num;
  sub : num -> num -> num;
  mul : num -> num -> num;
  div : num -> num -> num;
  sqrt : num -> num;              (* [Math.sqrt] *)
  floor : num -> num;             (* [Math.floor] *)
  maxNum : num -> num -> num;     (* [Math.max] *)
  lt : num -> num -> bool;        (* [a < b] *)
  le : num -> num -> bool;        (* [a <= b] *)
  strictEq : num -> num -> bool;  (* [a === b] *)
  toIndex : num -> option nat     (* the array index a number denotes, if any *)
}.

(** [Math.random]: the stream of draws, and a cursor into it. *)
Definition Rand (num A : Type) : Type :=
  (nat -> num) -> nat -> Completion (A * nat).

Section WithNumbers.
Context {num : Type} {N : JSNum num}.

Definition retR {A : Type} (a : A) : Rand num A :=
  fun _ cursor => Normal (a, cursor).

Definition bindR {A B : Type} (m : Rand num A) (k : A -> Rand num B)
  : Rand num B :=
  fun draws cursor =>
    match m draws cursor with
    | Normal (a, cursor') => k a draws cursor'
    | Throw e => Throw e
    end.

Definition liftR {A : Type} (c : Completion A) : Rand num A :=
  fun _ cursor =>
    match c with
    | Normal a => Normal (a, cursor)
    | Throw e => Throw e
    end.

Definition random : Rand num num :=
  fun draws cursor => Normal (draws cursor, S cursor).

Definition vectorsError : JSError := Error (lit "Vectors must have same length").
Definition emptySetError : JSError :=
  Error (lit "Cannot calculate centroid of empty set").
Definition notIterableError : JSError := TypeError (lit "undefined is not iterable").
Definition undefinedReadError : JSError :=
  TypeError (lit "Cannot read properties of undefined").

Record ChunkForClustering : Type := {
  id : jsstring;
  content : jsstring;
  filepath : jsstring;
  embedding : list num;
  symbolName : option jsstring;
  symbolType : option jsstring
}.

(** The field [id] of a cluster is [clusterId] here: [id] names the field of
    a chunk. *)
Record ConceptCluster : Type := {
  clusterId : nat;
  label : jsstring;
  size : nat;
  representativeChunks : list jsstring;
  centroid : list num;
  keywords : list jsstring
}.

Record ClusteringResult : Type := {
  clusterCount : nat;
  clusters : list ConceptCluster;
  assignments : JSMap jsstring nat
}.

(** The options; an absent option is [None].  The numbers of clusters, of
    iterations and of representatives are any numbers of the language:
    fractions, infinities and NaN included. *)
Record ClusteringOptions : Type := {
  numClusters : option Numbers.number;
  maxIterations : option Numbers.number;
  convergenceThreshold : option num;
  numRepresentatives : option Numbers.number
}.

Definition noOptions : ClusteringOptions :=
  {| numClusters := None; maxIterations := None;
     convergenceThreshold := None; numRepresentatives := None |}.

(** *** Distances and centroids *)

(** The loop-carried variables [dotProduct], [normA] and [normB]. *)
Record Products : Type := { dotProduct : num; normA : num; normB : num }.

Definition cosineSimilarity (a b : list num) : Completion num :=
  if negb (length a =? length b)%nat then Throw vectorsError
  else
    let sums :=
      fold_left (fun st ab =>
                   {| dotProduct := add (dotProduct st) (mul (fst ab) (snd ab));
                      normA := add (normA st) (mul (fst ab) (fst ab));
                      normB := add (normB st) (mul (snd ab) (snd ab)) |})
                (combine a b)
                {| dotProduct := ofQ 0%Q; normA := ofQ 0%Q; normB := ofQ 0%Q |} in
    let normA := sqrt (normA sums) in
    let normB := sqrt (normB sums) in
    if strictEq normA (ofQ 0%Q) || strictEq normB (ofQ 0%Q) then Normal (ofQ 0%Q)
    else Normal (div (dotProduct sums) (mul normA normB)).

Definition euclideanDistance (a b : list num) : Completion num :=
  if negb (length a =? length b)%nat then Throw vectorsError
  else
    Normal (sqrt (fold_left
                    (fun sum ab => let diff := sub (fst ab) (snd ab) in
                                   add sum (mul diff diff))
                    (combine a b) (ofQ 0%Q))).

(** [centroid[i] += vec[i]] for [i] below [dimensions]; a vector that is too
    short yields [undefined] there. *)
Definition addInto (dimensions : nat) (centroid vec : list num) : list num :=
  map (fun i => add (nth i centroid nan) (nth i vec nan)) (seq 0 dimensions).

Definition calculateCentroid (vectors : list (list num)) : Completion (list num) :=
  match vectors with
  | [] => Throw emptySetError
  | first :: _ =>
      let dimensions := length first in
      let sums := fold_left (addInto dimensions) vectors
                    (repeat (ofQ 0%Q) dimensions) in
      Normal (map (fun c => div c (ofNat (length vectors))) sums)
  end.

(** [[...embeddings[idx]]] for a number [idx]. *)
Definition copyAt (embeddings : list (list num)) (idx : num)
  : Completion (list num) :=
  match toIndex idx with
  | Some i =>
      match nth_error embeddings i with
      | Some v => Normal v
      | None => Throw notIterableError
      end
  | None => Throw notIterableError
  end.

(** [Math.floor(Math.random() * n)]. *)
Definition randomIndex (n : nat) : Rand num num :=
  bindR random (fun r => retR (floor (mul r (ofNat n)))).

(** The distance from [point] to the nearest of [centroids], starting from
    [Infinity]. *)
Definition minDistance (point : list num) (centroids : list (list num))
  : Completion num :=
  forOf (fun minDist centroid =>
           dist <- euclideanDistance point centroid ;;
           Normal (if lt dist minDist then dist else minDist))
        centroids infinity.

(** The weighted selection loop: [rand -= distances[i]; if (rand <= 0)
    { selectedIdx = i; break; }]. *)
Fixpoint selectWeighted (distances : list num) (i : nat) (rand : num) : nat :=
  match distances with
  | [] => 0
  | d :: rest =>
      let rand' := sub rand d in
      if le rand' (ofQ 0%Q) then i else selectWeighted rest (S i) rand'
  end.

(** One round of [for (let c = 1; c < k; c++)] in the seeding. *)
Definition seedNext (embeddings : list (list num)) (centroids : list (list num))
  : Rand num (list (list num)) :=
  bindR (liftR (mapM (fun e => d <- minDistance e centroids ;;
                               Normal (mul d d)) embeddings))
    (fun distances =>
       let totalDist := fold_left add distances (ofQ 0%Q) in
       bindR random (fun r =>
         let selectedIdx := selectWeighted distances 0 (mul r totalDist) in
         match nth_error embeddings selectedIdx with
         | Some v => retR (centroids ++ [v])
         | None => liftR (Throw notIterableError)
         end)).

Fixpoint seedRounds (rounds : nat) (embeddings : list (list num))
  (centroids : list (list num)) : Rand num (list (list num)) :=
  match rounds with
  | O => retR centroids
  | S rounds' =>
      bindR (seedNext embeddings centroids) (seedRounds rounds' embeddings)
  end.

Definition initializeCentroidsKMeansPP (embeddings : list (list num)) (k : nat)
  : Rand num (list (list num)) :=
  let n := length embeddings in
  bindR (randomIndex n) (fun firstIdx =>
  bindR (liftR (copyAt embeddings firstIdx)) (fun first =>
  seedRounds (k - 1) embeddings [first])).

(** *** Keywords and labels *)

Definition stopWords : list jsstring :=
  map lit
    ["function"; "const"; "let"; "var"; "return"; "if"; "else"; "for";
     "while"; "import"; "export"; "from"; "class"; "interface"; "type";
     "async"; "await"; "new"; "this"; "true"; "false"; "null"; "undefined";
     "public"; "private"; "static"; "void"; "string"; "number"; "boolean";
     "any"; "def"; "self"; "none"; "pass"; "try"; "except"; "catch"; "throw";
     "throws"; "extends"; "implements"; "default"; "case"; "break";
     "continue"]%string.

Definition isUnderscore (c : ascii) : bool := (code c =? 95)%N.

(** A finished run of word characters, held in reverse: the match ends at
    its last letter or digit and has two characters at least. *)
Definition closeIdentifier (accRev : jsstring) : list jsstring :=
  let fix dropUnderscores (s : jsstring) : jsstring :=
    match s with
    | [] => []
    | c :: s' => if isUnderscore c then dropUnderscores s' else s
    end in
  let trimmed := dropUnderscores accRev in
  if (2 <=? length trimmed)%nat then [rev trimmed] else [].

(** [content.match(/[a-zA-Z][a-zA-Z0-9_]*[a-zA-Z0-9]/g) || []]. *)
Fixpoint identifiersFrom (accRev : jsstring) (s : jsstring) : list jsstring :=
  match s with
  | [] => closeIdentifier accRev
  | c :: s' =>
      match accRev with
      | [] => if isAsciiLetter c then identifiersFrom [c] s'
              else identifiersFrom [] s'
      | _ :: _ => if isWordChar c then identifiersFrom (c :: accRev) s'
                  else closeIdentifier accRev ++ identifiersFrom [] s'
      end
  end.

Definition matchIdentifiers (s : jsstring) : list jsstring := identifiersFrom [] s.

(** Scanner state for [/[A-Z]?[a-z]+/g]. *)
Inductive CamelState : Type :=
| Outside
| Capital (c : ascii)            (* an upper-case letter, no lower-case yet *)
| Lower (accRev : jsstring).     (* inside a match *)

Fixpoint camelWordsFrom (st : CamelState) (s : jsstring) : list jsstring :=
  match s with
  | [] => match st with Lower accRev => [rev accRev] | _ => [] end
  | c :: s' =>
      if isAsciiLower c then
        match st with
        | Outside => camelWordsFrom (Lower [c]) s'
        | Capital u => camelWordsFrom (Lower [c; u]) s'
        | Lower accRev => camelWordsFrom (Lower (c :: accRev)) s'
        end
      else
        let st' := if isAsciiUpper c then Capital c else Outside in
        match st with
        | Lower accRev => rev accRev :: camelWordsFrom st' s'
        | _ => camelWordsFrom st' s'
        end
  end.

(** [symbolName.match(/[A-Z]?[a-z]+/g) || []]. *)
Definition matchCamelWords (s : jsstring) : list jsstring :=
  camelWordsFrom Outside s.

(** [freq.set(word, (freq.get(word) || 0) + weight)]. *)
Definition bump (weight : nat) (freq : JSMap jsstring nat) (word : jsstring)
  : JSMap jsstring nat :=
  let old := match mapGet streq freq word with Some n => n | None => 0%nat end in
  mapSet streq freq word (old + weight)%nat.

Definition countWords (weight : nat) (freq : JSMap jsstring nat)
  (words : list jsstring) : JSMap jsstring nat :=
  fold_left (fun f word =>
               let lower := toLowerCase word in
               if (4 <=? length lower)%nat && negb (existsb (streq lower) stopWords)
               then bump weight f lower else f)
            words freq.

Definition extractKeywords (chunks : list ChunkForClustering) : list jsstring :=
  let wordFreq :=
    fold_left (fun freq chunk =>
                 let freq' := countWords 1 freq (matchIdentifiers (content chunk)) in
                 match symbolName chunk with
                 | Some (c :: s) => countWords 3 freq' (matchCamelWords (c :: s))
                 | _ => freq'
                 end)
              chunks [] in
  let sorted := stableSort (fun a b => (snd b <? snd a)%nat) wordFreq in
  map fst (slice0 sorted 10).

(** The first entry with the largest count above 0, or the empty string. *)
Definition dominant (counts : JSMap jsstring nat) : jsstring :=
  fst (fold_left (fun best entry =>
                    if (snd best <? snd entry)%nat then entry else best)
                 counts ([], 0%nat)).

Definition generateClusterLabel (allChunks representatives : list ChunkForClustering)
  : jsstring :=
  let symbolTypes :=
    fold_left (fun m chunk =>
                 match symbolType chunk with
                 | Some (c :: s) => bump 1 m (c :: s)
                 | _ => m
                 end) allChunks [] in
  let dirPaths :=
    fold_left (fun m chunk =>
                 let parts := splitChar "/"%char (filepath chunk) in
                 if (1 <? length parts)%nat
                 then bump 1 m (join (lit "/") (slice0 parts (-1)))
                 else m) allChunks [] in
  let dominantType := dominant symbolTypes in
  let dominantDir := dominant dirPaths in
  let parts :=
    (match dominantDir with
     | [] => []
     | _ :: _ => [last (splitChar "/"%char dominantDir) []]
     end) ++
    (match dominantType with
     | [] => []
     | _ :: _ => [dominantType ++ lit "s"]
     end) in
  match parts with
  | [] =>
      let keywords := extractKeywords representatives in
      match keywords with
      | [] => lit "Code"
      | _ :: _ => join (lit " & ") (slice0 keywords 2)
      end
  | _ :: _ => join (lit " ") parts
  end.

(** *** k-means *)

(** [Math.ceil(Math.sqrt(n / 2))] for a length [n], computed exactly: the
    square root of the language is correctly rounded, and the root of a
    half-integer that is not a perfect square stays away from the integers
    by far more than a rounding step. *)
Definition ceilSqrtHalf (n : nat) : Z := Z.sqrt_up ((Z.of_nat n + 1) / 2).

(** The default of the [numClusters] option. *)
Definition defaultNumClusters (n : nat) : Z :=
  Z.max 3 (Z.min 20 (ceilSqrtHalf n)).

(** [k = Math.min(numClusters, chunks.length)], with the default of
    [numClusters]. *)
Definition targetClusters (chunks : list ChunkForClustering)
  (options : ClusteringOptions) : Numbers.number :=
  let numClusters := match numClusters options with
                     | Some c => c
                     | None => Numbers.numOfZ (defaultNumClusters (length chunks))
                     end in
  Numbers.numMin numClusters (Numbers.numOfNat (length chunks)).

Definition orDefault {A : Type} (o : option A) (d : A) : A :=
  match o with
  | Some a => a
  | None => d
  end.

(** [centroids[c]], read where [undefined] would make the caller throw. *)
Definition centroidAt (centroids : list (list num)) (c : nat)
  : Completion (list num) :=
  match nth_error centroids c with
  | Some v => Normal v
  | None => Throw undefinedReadError
  end.

(** The inner loop of the assignment step, for one point. *)
Definition nearestCentroid (k : nat) (centroids : list (list num))
  (point : list num) : Completion nat :=
  st <- forOf (fun (st : num * nat) c =>
                 centroid <- centroidAt centroids c ;;
                 dist <- euclideanDistance point centroid ;;
                 Normal (if lt dist (fst st) then (dist, c) else st))
              (seq 0 k) (infinity, 0%nat) ;;
  Normal (snd st).

Definition assignStep (k : nat) (centroids embeddings : list (list num))
  : Completion (list nat) :=
  mapM (nearestCentroid k centroids) embeddings.

(** [changed]: some point moved to another cluster. *)
Definition differ (newAssignments clusterAssignments : list nat) : bool :=
  existsb (fun ab => negb (fst ab =? snd ab)%nat)
          (combine newAssignments clusterAssignments).

(** The items whose assignment is [c], in order. *)
Definition membersOf {A : Type} (c : nat) (clusterAssignments : list nat)
  (items : list A) : list A :=
  map snd (filter (fun p => (fst p =? c)%nat) (combine clusterAssignments items)).

(** One round of [for (let c = 0; c < k; c++)] in the update step; the state
    is [newCentroids] and [maxShift]. *)
Definition updateCentroid (embeddings centroids : list (list num))
  (clusterAssignments : list nat) (st : list (list num) * num) (c : nat)
  : Rand num (list (list num) * num) :=
  let clusterVectors := membersOf c clusterAssignments embeddings in
  if (0 <? length clusterVectors)%nat then
    liftR (newCentroid <- calculateCentroid clusterVectors ;;
           old <- centroidAt centroids c ;;
           shift <- euclideanDistance old newCentroid ;;
           Normal (fst st ++ [newCentroid], maxNum (snd st) shift))
  else
    bindR (randomIndex (length embeddings)) (fun randomIdx =>
    bindR (liftR (copyAt embeddings randomIdx)) (fun v =>
    retR (fst st ++ [v], snd st))).

Fixpoint forOfR {A S : Type} (body : S -> A -> Rand num S) (xs : list A)
  (s : S) : Rand num S :=
  match xs with
  | [] => retR s
  | x :: xs' => bindR (body s x) (forOfR body xs')
  end.

Definition updateStep (k : nat) (embeddings centroids : list (list num))
  (clusterAssignments : list nat) : Rand num (list (list num) * num) :=
  forOfR (updateCentroid embeddings centroids clusterAssignments)
         (seq 0 k) ([], ofQ 0%Q).

(** [for (let iteration = 0; iteration < maxIterations; iteration++)], with
    its two [break]s; the result is [centroids] and [clusterAssignments]. *)
Fixpoint lloyd (iterations : nat) (k : nat) (threshold : num)
  (embeddings centroids : list (list num)) (clusterAssignments : list nat)
  : Rand num (list (list num) * list nat) :=
  match iterations with
  | O => retR (centroids, clusterAssignments)
  | S iterations' =>
      bindR (liftR (assignStep k centroids embeddings)) (fun newAssignments =>
      if negb (differ newAssignments clusterAssignments)
      then retR (centroids, newAssignments)
      else
        bindR (updateStep k embeddings centroids newAssignments) (fun upd =>
        if lt (snd upd) threshold then retR (fst upd, newAssignments)
        else lloyd iterations' k threshold embeddings (fst upd) newAssignments))
  end.

(** [const aByDistance = [...chunksInCluster].sort(...)]: the comparator,
    and with it [euclideanDistance], runs only when there is something to
    compare. *)
Definition sortByDistance (centroid : list num)
  (chunksInCluster : list ChunkForClustering)
  : Completion (list ChunkForClustering) :=
  match chunksInCluster with
  | [] | [_] => Normal chunksInCluster
  | _ =>
      keyed <- mapM (fun ch => d <- euclideanDistance (embedding ch) centroid ;;
                               Normal (d, ch)) chunksInCluster ;;
      Normal (map snd (stableSort
                         (fun a b => lt (sub (fst a) (fst b)) (ofQ 0%Q)) keyed))
  end.

(** One round of the loop that creates the cluster objects. *)
Definition makeCluster (numRepresentatives : Z) (chunks : list ChunkForClustering)
  (centroids : list (list num)) (clusterAssignments : list nat)
  (acc : list ConceptCluster) (c : nat) : Completion (list ConceptCluster) :=
  let chunksInCluster := membersOf c clusterAssignments chunks in
  match chunksInCluster with
  | [] => Normal acc
  | _ :: _ =>
      centroid <- centroidAt centroids c ;;
      sortedByDistance <- sortByDistance centroid chunksInCluster ;;
      let representatives := slice0 sortedByDistance numRepresentatives in
      Normal (acc ++
              [{| clusterId := c;
                  label := generateClusterLabel chunksInCluster representatives;
                  size := length chunksInCluster;
                  representativeChunks := map id representatives;
                  centroid := centroid;
                  keywords := extractKeywords chunksInCluster |}])
  end.

Definition withId (cluster : ConceptCluster) (newId : nat) : ConceptCluster :=
  {| clusterId := newId;
     label := label cluster;
     size := size cluster;
     representativeChunks := representativeChunks cluster;
     centroid := centroid cluster;
     keywords := keywords cluster |}.

(** [clusters.forEach((cluster, newId) => ...)]: the mapping from old to new
    ids, and the clusters with their new ids. *)
Definition renumber (clusters : list ConceptCluster)
  : JSMap nat nat * list ConceptCluster :=
  let indexed := combine (seq 0 (length clusters)) clusters in
  (fold_left (fun m ic => mapSet Nat.eqb m (clusterId (snd ic)) (fst ic))
             indexed [],
   map (fun ic => withId (snd ic) (fst ic)) indexed).

(** [for (const [chunkId, oldClusterId] of assignments)]: every entry is
    visited once, and the loop only replaces the value of the entry it
    visits. *)
Definition remapAssignments (idMapping : JSMap nat nat)
  (assignments : JSMap jsstring nat) : JSMap jsstring nat :=
  fold_left (fun m entry =>
               match mapGet Nat.eqb idMapping (snd entry) with
               | Some newClusterId => mapSet streq m (fst entry) newClusterId
               | None => m
               end)
            assignments assignments.

(** The single-cluster case ([k <= 1]). *)
Definition singleCluster (numRepresentatives : Z)
  (chunks : list ChunkForClustering) : Completion ClusteringResult :=
  let allEmbeddings := map embedding chunks in
  centroid <- calculateCentroid allEmbeddings ;;
  let assignments :=
    fold_left (fun m chunk => mapSet streq m (id chunk) 0%nat) chunks [] in
  Normal {| clusterCount := 1;
            clusters :=
              [{| clusterId := 0;
                  label := generateClusterLabel chunks
                             (slice0 chunks numRepresentatives);
                  size := length chunks;
                  representativeChunks :=
                    map id (slice0 chunks numRepresentatives);
                  centroid := centroid;
                  keywords := extractKeywords chunks |}];
            assignments := assignments |}.

(** The part of [kMeansClustering] from "Build cluster results" on. *)
Definition buildResult (numRepresentatives : Z) (k : nat)
  (chunks : list ChunkForClustering) (centroids : list (list num))
  (clusterAssignments : list nat) : Completion ClusteringResult :=
  (* clusterChunks[clusterAssignments[i]].push(chunks[i]) *)
  if negb (forallb (fun a => (a <? k)%nat) clusterAssignments)
  then Throw undefinedReadError
  else
    let assignments :=
      fold_left (fun m ca => mapSet streq m (id (fst ca)) (snd ca))
                (combine chunks clusterAssignments) [] in
    clusters <- forOf (makeCluster numRepresentatives chunks centroids
                         clusterAssignments) (seq 0 k) [] ;;
    let sorted := stableSort (fun a b => (size b <? size a)%nat) clusters in
    let renumbered := renumber sorted in
    Normal {| clusterCount := length (snd renumbered);
              clusters := snd renumbered;
              assignments := remapAssignments (fst renumbered) assignments |}.

(** The same loop when its counter never reaches [maxIterations] (Infinity,
    or a number above 2^53): only a [break] ends it.
    [fuel] bounds the rounds that are followed; [None]: the loop has not
    ended within them. *)
Fixpoint lloydUnbounded (fuel : nat) (k : nat) (threshold : num)
  (embeddings centroids : list (list num)) (clusterAssignments : list nat)
  (draws : nat -> num) (cursor : nat)
  : option (Completion ((list (list num) * list nat) * nat)) :=
  match fuel with
  | O => None
  | S fuel' =>
      match assignStep k centroids embeddings with
      | Throw e => Some (Throw e)
      | Normal newAssignments =>
          if negb (differ newAssignments clusterAssignments)
          then Some (Normal ((centroids, newAssignments), cursor))
          else
            match updateStep k embeddings centroids newAssignments draws cursor with
            | Throw e => Some (Throw e)
            | Normal (upd, cursor') =>
                if lt (snd upd) threshold
                then Some (Normal ((fst upd, newAssignments), cursor'))
                else lloydUnbounded fuel' k threshold embeddings (fst upd)
                       newAssignments draws cursor'
            end
      end
  end.

(** [for (let iteration = 0; iteration < maxIterations; iteration++)] for
    any number [maxIterations]: so many rounds at most as there are
    integers from 0 on below it, and no bound when the counter does not
    reach it. *)
Definition iterate (maxIterations : Numbers.number) (fuel : nat) (k : nat)
  (threshold : num) (embeddings centroids : list (list num))
  (clusterAssignments : list nat) (draws : nat -> num) (cursor : nat)
  : option (Completion ((list (list num) * list nat) * nat)) :=
  match Numbers.countBelow maxIterations with
  | Some iterations =>
      Some (lloyd iterations k threshold embeddings centroids clusterAssignments
              draws cursor)
  | None =>
      lloydUnbounded fuel k threshold embeddings centroids clusterAssignments
        draws cursor
  end.

Definition rangeError : JSError := RangeError (lit "Invalid array length").

(** [kMeansClustering(chunks, options)].  The loops over the clusters,
    [for (let c = 0; c < k; c++)], run once for each integer from 0 on
    below [k], whatever number [k] is; [Array(k)] throws unless [k] is a
    length.  [fuel] only matters when the counter of the iterations does
    not reach [maxIterations], and [None] says that the iteration has not
    ended. *)
Definition kMeansClustering (chunks : list ChunkForClustering)
  (options : ClusteringOptions) (fuel : nat) (draws : nat -> num) (cursor : nat)
  : option (Completion (ClusteringResult * nat)) :=
  let maxIterations := orDefault (maxIterations options) (Numbers.numOfZ 100) in
  let convergenceThreshold :=
    orDefault (convergenceThreshold options) (ofQ (1 # 1000)%Q) in
  let numRepresentatives :=
    Numbers.toIntegerWithin (length chunks)
      (orDefault (numRepresentatives options) (Numbers.numOfZ 3)) in
  match chunks with
  | [] => Some (Normal ({| clusterCount := 0; clusters := []; assignments := [] |},
                        cursor))
  | _ :: _ =>
      let k := targetClusters chunks options in
      if Numbers.numLe k (Numbers.numOfZ 1)
      then Some (liftR (singleCluster numRepresentatives chunks) draws cursor)
      else
        match Numbers.countBelow k with
        | None => None
        | Some rounds =>
            let embeddings := map embedding chunks in
            match initializeCentroidsKMeansPP embeddings rounds draws cursor with
            | Throw e => Some (Throw e)
            | Normal (centroids0, cursor1) =>
                match iterate maxIterations fuel rounds convergenceThreshold
                        embeddings centroids0 (repeat 0%nat (length chunks))
                        draws cursor1 with
                | None => None
                | Some (Throw e) => Some (Throw e)
                | Some (Normal (final, cursor2)) =>
                    match Numbers.arrayLength k with
                    | None => Some (Throw rangeError)
                    | Some _ =>
                        Some (liftR (buildResult numRepresentatives rounds chunks
                                       (fst final) (snd final)) draws cursor2)
                    end
                end
            end
        end
  end.

(** *** Nearest cluster *)

(** The loop-carried variables are [minDist] and [nearestCluster]. *)
Definition assignToCluster (vector : list num) (clusters : list ConceptCluster)
  : Completion nat :=
  st <- forOf (fun (st : num * nat) cluster =>
                 dist <- euclideanDistance vector (centroid cluster) ;;
                 Normal (if lt dist (fst st) then (dist, clusterId cluster)
                         else st))
              clusters (infinity, 0%nat) ;;
  Normal (snd st).

(** *** Silhouette score *)

Definition assignedTo (assignments : JSMap jsstring nat)
  (chunk : ChunkForClustering) (cluster : nat) : bool :=
  match mapGet streq assignments (id chunk) with
  | Some c => (c =? cluster)%nat
  | None => false
  end.

(** Sum and number of the distances from [chunk] to the chunks that [keep]
    selects. *)
Definition sumDistances (chunk : ChunkForClustering)
  (keep : ChunkForClustering -> bool) (chunks : list ChunkForClustering)
  : Completion (num * nat) :=
  forOf (fun (st : num * nat) other =>
           if keep other then
             d <- euclideanDistance (embedding chunk) (embedding other) ;;
             Normal (add (fst st) d, S (snd st))
           else Normal st)
        chunks (ofQ 0%Q, 0%nat).

Definition silhouetteOf (chunks : list ChunkForClustering)
  (assignments : JSMap jsstring nat) (clusters : list ConceptCluster)
  (chunk : ChunkForClustering) (cluster : nat) : Completion num :=
  intra <- sumDistances chunk
             (fun other => negb (streq (id other) (id chunk)) &&
                           assignedTo assignments other cluster) chunks ;;
  let a := if (0 <? snd intra)%nat then div (fst intra) (ofNat (snd intra))
           else ofQ 0%Q in
  minInterClusterDist <-
    forOf (fun minDist otherCluster =>
             if (clusterId otherCluster =? cluster)%nat then Normal minDist
             else
               inter <- sumDistances chunk
                          (fun other => assignedTo assignments other
                                          (clusterId otherCluster)) chunks ;;
               if (0 <? snd inter)%nat then
                 let avgDist := div (fst inter) (ofNat (snd inter)) in
                 Normal (if lt avgDist minDist then avgDist else minDist)
               else Normal minDist)
          clusters infinity ;;
  let b := if strictEq minInterClusterDist infinity then ofQ 0%Q
           else minInterClusterDist in
  let maxAB := maxNum a b in
  Normal (if lt (ofQ 0%Q) maxAB then div (sub b a) maxAB else ofQ 0%Q).

Definition calculateSilhouetteScore (chunks : list ChunkForClustering)
  (assignments : JSMap jsstring nat) (clusters : list ConceptCluster)
  : Completion num :=
  if (length clusters <=? 1)%nat || (length chunks <=? 1)%nat then Normal (ofQ 0%Q)
  else
    st <- forOf (fun (st : num * nat) chunk =>
                   match mapGet streq assignments (id chunk) with
                   | None => Normal st
                   | Some cluster =>
                       s <- silhouetteOf chunks assignments clusters chunk cluster ;;
                       Normal (add (fst st) s, S (snd st))
                   end)
                chunks (ofQ 0%Q, 0%nat) ;;
    Normal (if (0 <? snd st)%nat then div (fst st) (ofNat (snd st)) else ofQ 0%Q).

(** *** Properties of inputs and results *)

(** The clusters come largest first, their ids are 0, 1, ... in list order,
    the size of each is the number of chunks the assignment map sends to its
    id, and every value of the assignment map is the id of a cluster. *)
Definition wellFormedResult (chunks : list ChunkForClustering)
  (r : ClusteringResult) : Prop :=
  StronglySorted (fun a b => size b <= size a) (clusters r) /\
  map clusterId (clusters r) = seq 0 (clusterCount r) /\
  (forall cl, In cl (clusters r) ->
     size cl = length (filter (fun ch => assignedTo (assignments r) ch (clusterId cl))
                              chunks)) /\
  (forall key v, In (key, v) (assignments r) ->
     exists cl, In cl (clusters r) /\ clusterId cl = v).

(** All embeddings have the same number of coordinates. *)
Definition sameDimension (chunks : list ChunkForClustering) : Prop :=
  exists d, Forall (fun ch => length (embedding ch) = d) chunks.

(** [Array(k)] does not throw where it is reached: the target [k] is 1 or
    less (the single-cluster case), or it is a length. *)
Definition lengthTarget (chunks : list ChunkForClustering)
  (options : ClusteringOptions) : Prop :=
  let k := targetClusters chunks options in
  Numbers.numLe k (Numbers.numOfZ 1) = true \/ Numbers.arrayLength k <> None.

(** The iterations are bounded: [maxIterations] is 2^53 at most (or NaN),
    so that the counter of the loop reaches it. *)
Definition boundedIterations (options : ClusteringOptions) : Prop :=
  Numbers.countBelow (orDefault (maxIterations options) (Numbers.numOfZ 100))
  <> None.

(** Every draw [r] behaves like a number of [0, 1): [Math.floor(r * n)] is
    an index below [n]. *)
Definition unitDraws (draws : nat -> num) : Prop :=
  forall cursor n, 0 < n ->
    exists j, toIndex (floor (mul (draws cursor) (ofNat n))) = Some j /\ j < n.

(** The three ways in which [kMeansClustering] returns a result. *)
Inductive Returned (chunks : list ChunkForClustering)
  (options : ClusteringOptions) (draws : nat -> num) (cursor : nat)
  (r : ClusteringResult) (cursor' : nat) : Prop :=
| returnedEmpty :
    chunks = [] ->
    r = {| clusterCount := 0; clusters := []; assignments := [] |} ->
    cursor' = cursor ->
    Returned chunks options draws cursor r cursor'
| returnedSingle :
    chunks <> [] ->
    Numbers.numLe (targetClusters chunks options) (Numbers.numOfZ 1) = true ->
    singleCluster
      (Numbers.toIntegerWithin (length chunks)
         (orDefault (numRepresentatives options) (Numbers.numOfZ 3)))
      chunks = Normal r ->
    cursor' = cursor ->
    Returned chunks options draws cursor r cursor'
| returnedClusters (k iterations : nat) (centroids0 : list (list num))
    (cursor1 : nat) (final : list (list num) * list nat) :
    chunks <> [] ->
    Numbers.numLe (targetClusters chunks options) (Numbers.numOfZ 1) = false ->
    Numbers.arrayLength (targetClusters chunks options) = Some k ->
    (2 <= k)%nat ->
    initializeCentroidsKMeansPP (map embedding chunks) k draws cursor =
      Normal (centroids0, cursor1) ->
    lloyd iterations k
      (orDefault (convergenceThreshold options) (ofQ (1 # 1000)%Q))
      (map embedding chunks) centroids0 (repeat 0%nat (length chunks)) draws
      cursor1 = Normal (final, cursor') ->
    (forall bound,
       Numbers.countBelow
         (orDefault (maxIterations options) (Numbers.numOfZ 100)) = Some bound ->
       iterations = bound) ->
    buildResult
      (Numbers.toIntegerWithin (length chunks)
         (orDefault (numRepresentatives options) (Numbers.numOfZ 3)))
      k chunks (fst final) (snd final) = Normal r ->
    Returned chunks options draws cursor r cursor'.

End WithNumbers.

Arguments Products num : clear implicits.
Arguments ChunkForClustering num : clear implicits.
Arguments ConceptCluster num : clear implicits.
Arguments ClusteringResult num : clear implicits.
Arguments ClusteringOptions num : clear implicits.

End Clustering.

(** ** Exact numbers

    An interpretation of [JSNum] for running the clustering code: rationals
    with the two infinities and NaN.  Sums, products and quotients are exact;
    the square root is exact on squares of rationals and rounded down in the
    seventh decimal otherwise. *)

Module ExactNum.
Import Clustering.
Local Open Scope Q_scope.

Inductive exact : Type :=
| Finite (q : Q)
| Infinite (positive : bool)
| NotANumber.

Definition isNegative (q : Q) : bool := Qle_bool q 0 && negb (Qeq_bool q 0).
Definition isZero (q : Q) : bool := Qeq_bool q 0.

Definition exAdd (a b : exact) : exact :=
  match a, b with
  | Finite x, Finite y => Finite (x + y)
  | Finite _, Infinite s | Infinite s, Finite _ => Infinite s
  | Infinite s, Infinite t => if Bool.eqb s t then Infinite s else NotANumber
  | _, _ => NotANumber
  end.

Definition exNeg (a : exact) : exact :=
  match a with
  | Finite x => Finite (- x)
  | Infinite s => Infinite (negb s)
  | NotANumber => NotANumber
  end.

Definition exSub (a b : exact) : exact := exAdd a (exNeg b).

Definition exMul (a b : exact) : exact :=
  match a, b with
  | Finite x, Finite y => Finite (x * y)
  | Finite x, Infinite s | Infinite s, Finite x =>
      if isZero x then NotANumber else Infinite (xorb s (isNegative x))
  | Infinite s, Infinite t => Infinite (Bool.eqb s t)
  | _, _ => NotANumber
  end.

Definition exDiv (a b : exact) : exact :=
  match a, b with
  | Finite x, Finite y =>
      if isZero y then
        if isZero x then NotANumber else Infinite (negb (isNegative x))
      else Finite (x / y)
  | Finite _, Infinite _ => Finite 0
  | Infinite s, Finite y => Infinite (xorb s (isNegative y))
  | _, _ => NotANumber
  end.

Definition sqrtQ (q : Q) : Q :=
  let r := Qred q in
  let scale := 1000000%Z in
  Qred (Z.sqrt (Qnum r * Zpos (Qden r) * scale * scale) # (Qden r * 1000000)).

Definition exSqrt (a : exact) : exact :=
  match a with
  | Finite x => if isNegative x then NotANumber else Finite (sqrtQ x)
  | Infinite true => Infinite true
  | _ => NotANumber
  end.

Definition exFloor (a : exact) : exact :=
  match a with
  | Finite x => Finite (inject_Z (Qfloor x))
  | other => other
  end.

Definition exLt (a b : exact) : bool :=
  match a, b with
  | Finite x, Finite y => Qle_bool x y && negb (Qeq_bool x y)
  | Finite _, Infinite s => s
  | Infinite s, Finite _ => negb s
  | Infinite s, Infinite t => negb s && t
  | _, _ => false
  end.

Definition exEq (a b : exact) : bool :=
  match a, b with
  | Finite x, Finite y => Qeq_bool x y
  | Infinite s, Infinite t => Bool.eqb s t
  | _, _ => false
  end.

Definition exLe (a b : exact) : bool := exLt a b || exEq a b.

Definition exMax (a b : exact) : exact :=
  match a, b with
  | NotANumber, _ | _, NotANumber => NotANumber
  | _, _ => if exLt a b then b else a
  end.

Definition exToIndex (a : exact) : option nat :=
  match a with
  | Finite x =>
      if Qeq_bool x (inject_Z (Qfloor x)) && (0 <=? Qfloor x)%Z
      then Some (Z.to_nat (Qfloor x)) else None
  | _ => None
  end.

#[export] Instance exactNum : JSNum exact := {
  ofQ := Finite;
  ofNat := fun n => Finite (inject_Z (Z.of_nat n));
  nan := NotANumber;
  infinity := Infinite true;
  add := exAdd;
  sub := exSub;
  mul := exMul;
  div := exDiv;
  sqrt := exSqrt;
  floor := exFloor;
  maxNum := exMax;
  lt := exLt;
  le := exLe;
  strictEq := exEq;
  toIndex := exToIndex
}.

(** A source of random draws that always yields [q]. *)
Definition always (q : Q) : nat -> exact := fun _ => Finite q.

End ExactNum.

(** ** Auxiliary definitions for the statements and proofs *)

Module Aux.
Import JS Clustering ExactNum.

(** The 256 characters. *)
Definition allChars : list ascii := map ascii_of_nat (seq 0 256).

(** The exceptions a computation can throw. *)
Definition throwsOnly {A : Type} (P : JSError -> Prop) (c : Completion A) : Prop :=
  forall e, c = Throw e -> P e.

(** A chunk that is only a named point. *)
Definition point (name : string) (coordinates : list Q) : ChunkForClustering exact :=
  {| id := lit name; content := []; filepath := [];
     embedding := map Finite coordinates;
     symbolName := None; symbolType := None |}.

Definition bareCluster (i : nat) (n : nat) (c : list Q) : ConceptCluster exact :=
  {| clusterId := i; label := []; size := n; representativeChunks := [];
     centroid := map Finite c; keywords := [] |}.

(** Four points on a line. *)
Definition fourPoints : list (ChunkForClustering exact) :=
  [point "a" [0%Q]; point "b" [10%Q]; point "c" [11%Q]; point "d" [12%Q]].

(** A chunk of the test suite. *)
Definition chunkOf (name text path : string) (coordinates : list Q)
  (symbol kind : option string) : ChunkForClustering exact :=
  {| id := lit name; content := lit text; filepath := lit path;
     embedding := map Finite coordinates;
     symbolName := option_map lit symbol; symbolType := option_map lit kind |}.

Definition withClusters (n : Numbers.number) : ClusteringOptions exact :=
  {| numClusters := Some n; maxIterations := None;
     convergenceThreshold := None; numRepresentatives := None |}.

(** [{ ...options, numClusters: n }]. *)
Definition withNumClusters {num : Type} (options : ClusteringOptions num)
  (n : Numbers.number) : ClusteringOptions num :=
  {| numClusters := Some n; maxIterations := maxIterations options;
     convergenceThreshold := convergenceThreshold options;
     numRepresentatives := numRepresentatives options |}.

(** The cluster a result assigns to a chunk id. *)
Definition clusterOfId (r : ClusteringResult exact) (name : string) : option nat :=
  mapGet streq (assignments r) (lit name).

(** The number of points assigned to cluster [c]. *)
Definition countOf (c : nat) (clusterAssignments : list nat) : nat :=
  length (filter (fun a => a =? c) clusterAssignments).

(** The id and the size of a cluster. *)
Definition idSize {num : Type} (cl : ConceptCluster num) : nat * nat :=
  (clusterId cl, size cl).

(** The exceptions that the clustering code raises on purpose, through a
    missing array element or through an array length that is none, other
    than the one of an empty centroid set. *)
Definition expectedError (e : JSError) : Prop :=
  e = vectorsError \/ e = notIterableError \/ e = undefinedReadError \/
  e = rangeError.

Definition throwsOnlyR {num A : Type} (P : JSError -> Prop) (m : Rand num A) : Prop :=
  forall draws cursor, throwsOnly P (m draws cursor).

(** Vectors with [d] coordinates each. *)
Definition uniform {num : Type} (d : nat) (vs : list (list num)) : Prop :=
  Forall (fun v => length v = d) vs.

End Aux.
Import Aux.

(** ** Concurrency helpers (src/utils/concurrency.ts) *)

Module Concurrency.
Import JS Embeddings.

(** An index argument of [slice], counted from the end when negative and
    clamped to the array. *)
Definition relativeIndex (len k : Z) : Z :=
  if (k <? 0)%Z then Z.max (len + k) 0 else Z.min k len.

(** [arr.slice(start, end)] for integers [start] and [end]. *)
Definition slice {A : Type} (arr : list A) (start stop : Z) : list A :=
  let len := Z.of_nat (length arr) in
  let from := relativeIndex len start in
  let to := relativeIndex len stop in
  firstn (Z.to_nat (to - from)) (skipn (Z.to_nat from) arr).

Section Mapping.

Variables T R : Type.

Variable items : list T.

(** [fn(item, index)]: the outcome with which the promise of the call
    settles. *)
Variable fn : T -> Z -> Completion R.

(** The outcomes of the calls [fn(items[i], i)], by [i]. *)
Definition outcomes : list (Completion R) :=
  map (fun p => fn (snd p) (Z.of_nat (fst p)))
      (combine (seq 0 (length items)) items).

(** *** mapInBatches *)

(** [batch.map((item, idx) => fn(item, batchStartIndex + idx))]. *)
Definition batchCalls (batch : list T) (batchStartIndex : Z)
  : list (Completion R) :=
  map (fun p => fn (snd p) (batchStartIndex + Z.of_nat (fst p))%Z)
      (combine (seq 0 (length batch)) batch).

(** The [for (let i = 0; i < items.length; i += batchSize)] loop.  [fuel]
    bounds the number of rounds, [schedule] gives, batch by batch, the order
    in which the promises of the batch settle, and [progress] collects the
    arguments of the calls [onBatchComplete?.(results.length, items.length)].
    [None]: the promise that [mapInBatches] returned has not settled. *)
Fixpoint batchLoop (batchSize : Z) (fuel : nat) (i : Z)
  (schedule : list (list nat)) (results : list R) (progress : list (nat * nat))
  : option (Completion (list R * list (nat * nat))) :=
  match fuel with
  | O => None
  | S fuel' =>
      if (i <? Z.of_nat (length items))%Z then
        let batch := slice items i (i + batchSize) in
        let batchStartIndex := i in
        match promiseAll (batchCalls batch batchStartIndex) (hd [] schedule) with
        | None => None
        | Some (Throw e) => Some (Throw e)
        | Some (Normal batchResults) =>
            let results' := results ++ batchResults in
            batchLoop batchSize fuel' (i + batchSize)%Z (tl schedule) results'
              (progress ++ [(length results', length items)])
        end
      else Some (Normal (results, progress))
  end.

Definition mapInBatches (batchSize : option Z) (fuel : nat)
  (schedule : list (list nat))
  : option (Completion (list R * list (nat * nat))) :=
  let batchSize := match batchSize with Some b => b | None => 10%Z end in
  batchLoop batchSize fuel 0%Z schedule [] [].

(** *** mapWithConcurrency *)

(** The variables the workers share: [currentIndex] and [results] (a hole
    of the array is [None]); the indices whose call is awaited, one per
    running worker; and the indices for which [fn] has been called, in the
    order of the calls. *)
Record Workers : Type := {
  currentIndex : nat;
  results : list (option R);
  running : list nat;
  started : list nat
}.

(** [processNext] from the test of its [while] loop to the next [await]:
    the worker takes the next index and calls [fn], or returns. *)
Definition processNext (st : Workers) : Workers :=
  if (currentIndex st <? length items)%nat then
    {| currentIndex := S (currentIndex st);
       results := results st;
       running := running st ++ [currentIndex st];
       started := started st ++ [currentIndex st] |}
  else st.

(** The call for [index] settles with [value]: its worker stores the value
    and goes on with the loop. *)
Definition resume (st : Workers) (index : nat) (value : R) : Workers :=
  processNext {| currentIndex := currentIndex st;
                 results := setSlot (results st) index value;
                 running := remove Nat.eq_dec index (running st);
                 started := started st |}.

(** The calls settle in the order [schedule] lists their indices; an index
    whose call is not awaited at that time stands for no event.  A call that
    rejects makes its worker, and with it [Promise.all(workers)], reject. *)
Fixpoint settleWorkers (schedule : list nat) (st : Workers)
  : Completion Workers :=
  match schedule with
  | [] => Normal st
  | index :: schedule' =>
      if existsb (Nat.eqb index) (running st) then
        match nth_error outcomes index with
        | Some (Normal value) => settleWorkers schedule' (resume st index value)
        | Some (Throw e) => Throw e
        | None => settleWorkers schedule' st
        end
      else settleWorkers schedule' st
  end.

(** [Array(Math.min(concurrency, items.length)).fill(null).map(() =>
    processNext())], for any number [concurrency]: [Array] throws a
    RangeError unless the minimum is a length (a negative number, a
    fraction and NaN are none). *)
Definition startWorkers (concurrency : Numbers.number) : Completion Workers :=
  match Numbers.arrayLength
          (Numbers.numMin concurrency (Numbers.numOfNat (length items))) with
  | None => Throw (RangeError (lit "Invalid array length"))
  | Some count =>
      Normal (Nat.iter count processNext
                {| currentIndex := 0;
                   results := repeat None (length items);
                   running := [];
                   started := [] |})
  end.

(** The state of the workers after the events of [schedule]. *)
Definition workersAfter (concurrency : option Numbers.number)
  (schedule : list nat) : Completion Workers :=
  let concurrency := match concurrency with
                     | Some c => c
                     | None => Numbers.numOfZ 10
                     end in
  bind (startWorkers concurrency) (settleWorkers schedule).

(** [None]: some worker is still running, and the promise that
    [mapWithConcurrency] returned has not settled. *)
Definition mapWithConcurrency (concurrency : option Numbers.number)
  (schedule : list nat)
  : option (Completion (list (option R))) :=
  match workersAfter concurrency schedule with
  | Throw e => Some (Throw e)
  | Normal st =>
      match running st with
      | [] => Some (Normal (results st))
      | _ :: _ => None
      end
  end.

(** *** Properties of the state of the workers *)

(** With [count] workers: every index below [currentIndex] has been taken
    once, in order; the awaited calls are distinct, at most [count], and
    exactly [count] while items are left; a slot of [results] holds the
    value of its call once the call has settled, and is a hole before. *)
Definition wellFormedWorkers (count : nat) (st : Workers) : Prop :=
  currentIndex st <= length items /\
  length (results st) = length items /\
  started st = seq 0 (currentIndex st) /\
  NoDup (running st) /\
  (forall i, In i (running st) -> i < currentIndex st) /\
  length (running st) <= count /\
  (currentIndex st < length items -> length (running st) = count) /\
  (forall i, i < currentIndex st -> ~ In i (running st) ->
     exists v, nth_error outcomes i = Some (Normal v) /\
               nth_error (results st) i = Some (Some v)) /\
  (forall i, i < length items -> currentIndex st <= i \/ In i (running st) ->
     nth_error (results st) i = Some None).

End Mapping.

Arguments outcomes {T R} items fn.
Arguments batchCalls {T R} fn batch batchStartIndex.
Arguments batchLoop {T R} items fn batchSize fuel i schedule results progress.
Arguments mapInBatches {T R} items fn batchSize fuel schedule.
Arguments Workers R : clear implicits.
Arguments currentIndex {R} w.
Arguments results {R} w.
Arguments running {R} w.
Arguments started {R} w.
Arguments processNext {T R} items st.
Arguments resume {T R} items st index value.
Arguments settleWorkers {T R} items fn schedule st.
Arguments startWorkers {T R} items concurrency.
Arguments workersAfter {T R} items fn concurrency schedule.
Arguments mapWithConcurrency {T R} items fn concurrency schedule.
Arguments wellFormedWorkers {T R} items fn count st.

End Concurrency.

(** ** Name paths of symbols (src/symbols/name-path.ts) *)

Module NamePath.
Import JS.

Record ParsedNamePath : Type := {
  isAbsolute : bool;
  segments : list jsstring;
  substringMatch : bool;
  overloadIndex : option Numbers.number
}.

(** [s.trim()]: white space and line terminators go, at both ends. *)
Fixpoint trimStart (s : jsstring) : jsstring :=
  match s with
  | [] => []
  | c :: s' => if isWhiteSpace c then trimStart s' else s
  end.

Definition trim (s : jsstring) : jsstring := rev (trimStart (rev (trimStart s))).

(** The class [\d]. *)
Definition isDigit (c : ascii) : bool := between 48 57 c.

(** The integer that a string of decimal digits denotes. *)
Definition decimalValue (digits : jsstring) : N :=
  fold_left (fun n c => 10 * n + (code c - 48))%N digits 0%N.

(** [parseInt(digits, 10)] for a string of decimal digits: the double
    nearest to the integer that the digits denote, so the integer itself up
    to 2^53, and Infinity beyond the doubles.  (The language lets an engine
    read the digits after the 20th as zeros; the rounding here is the exact
    one.) *)
Definition parseInt (digits : jsstring) : Numbers.number :=
  Numbers.round (inject_Z (Z.of_N (decimalValue digits))).

Fixpoint takeDigits (s : jsstring) : jsstring :=
  match s with
  | [] => []
  | c :: s' => if isDigit c then c :: takeDigits s' else []
  end.

(** [s.match(/\[(\d+)\]$/)]: the digits of the group, when [s] ends with an
    opening bracket, one digit or more, and a closing bracket.  The match is
    read from the end of [s]. *)
Definition matchOverload (s : jsstring) : option jsstring :=
  match rev s with
  | [] => None
  | c :: r =>
      if Ascii.eqb c "]" then
        let digitsRev := takeDigits r in
        match digitsRev, skipn (length digitsRev) r with
        | _ :: _, b :: _ =>
            if Ascii.eqb b "[" then Some (rev digitsRev) else None
        | _, _ => None
        end
      else None
  end.

(** [s.length > 0]. *)
Definition nonEmpty (s : jsstring) : bool := (0 <? length s)%nat.

(** [s.endsWith('*')]. *)
Definition endsWithStar (s : jsstring) : bool :=
  match rev s with
  | [] => false
  | c :: _ => Ascii.eqb c "*"
  end.

(** [s.split('/').filter((s) => s.length > 0)]. *)
Definition pathSegmentsOf (s : jsstring) : list jsstring :=
  filter nonEmpty (splitChar "/" s).

Definition parseNamePath (pattern : jsstring) : ParsedNamePath :=
  let workingPattern := trim pattern in
  let isAbsolute := startsWith (lit "/") workingPattern in
  let workingPattern :=
    if isAbsolute then skipn 1 workingPattern else workingPattern in
  let overloadMatch := matchOverload workingPattern in
  let overloadIndex := option_map parseInt overloadMatch in
  let workingPattern :=
    match overloadMatch with
    | Some digits => slice0 workingPattern (- Z.of_nat (length digits + 2))
    | None => workingPattern
    end in
  let segments := pathSegmentsOf workingPattern in
  let substringMatch :=
    (0 <? length segments)%nat && endsWithStar (last segments []) in
  let segments :=
    if substringMatch && (0 <? length segments)%nat
    then removelast segments ++ [slice0 (last segments []) (-1)]
    else segments in
  {| isAbsolute := isAbsolute;
     segments := segments;
     substringMatch := substringMatch;
     overloadIndex := overloadIndex |}.

(** [!parentPath] holds for [undefined] and for the empty string. *)
Definition buildNamePath (parentPath : option jsstring) (name : jsstring)
  : jsstring :=
  match parentPath with
  | None | Some [] => lit "/" ++ name
  | Some (c :: p) => (c :: p) ++ lit "/" ++ name
  end.

Definition segmentMatches (pathSegment patternSegment : jsstring)
  (useSubstring : bool) : bool :=
  if useSubstring
  then startsWith (toLowerCase patternSegment) (toLowerCase pathSegment)
  else streq pathSegment patternSegment.

(** The two loops read [pathSegments] and [patternSegments] below their
    lengths only; [nth] with a default stands for the reads. *)
Definition matchNamePath (namePath : jsstring) (pattern : ParsedNamePath)
  (useSubstringMatching : option bool) : bool :=
  let normalizedPath :=
    if startsWith (lit "/") namePath then namePath else lit "/" ++ namePath in
  let pathSegments := pathSegmentsOf normalizedPath in
  let patternSegments := segments pattern in
  let shouldSubstring :=
    match useSubstringMatching with
    | Some b => b
    | None => substringMatch pattern
    end in
  if (length patternSegments =? 0)%nat then true
  else if isAbsolute pattern then
    if negb (length pathSegments =? length patternSegments)%nat then false
    else
      forallb (fun i =>
                 let isLastSegment := (i =? length patternSegments - 1)%nat in
                 segmentMatches (nth i pathSegments []) (nth i patternSegments [])
                   (isLastSegment && shouldSubstring))
              (seq 0 (length patternSegments))
  else
    if (length pathSegments <? length patternSegments)%nat then false
    else
      let startIdx := (length pathSegments - length patternSegments)%nat in
      forallb (fun i =>
                 let isLastSegment := (i =? length patternSegments - 1)%nat in
                 segmentMatches (nth (startIdx + i) pathSegments [])
                   (nth i patternSegments []) (isLastSegment && shouldSubstring))
              (seq 0 (length patternSegments)).

(** [segments[segments.length - 1] || '']. *)
Definition getSymbolName (namePath : jsstring) : jsstring :=
  last (pathSegmentsOf namePath) [].

Definition getParentPath (namePath : jsstring) : option jsstring :=
  let segments := pathSegmentsOf namePath in
  if (length segments <=? 1)%nat then None
  else Some (lit "/" ++ join (lit "/") (slice0 segments (-1))).

Definition getNamePathDepth (namePath : jsstring) : Z :=
  let segments := pathSegmentsOf namePath in
  Z.max 0 (Z.of_nat (length segments) - 1).

Definition formatNamePath (namePath : jsstring) : jsstring :=
  if startsWith (lit "/") namePath then skipn 1 namePath else namePath.

(** *** Properties of names and paths *)

(** A name that can be a segment of a path: not empty, without a slash. *)
Definition isSegment (s : jsstring) : bool :=
  nonEmpty s && forallb (fun c => negb (Ascii.eqb c "/")) s.

(** A character without a meaning in a pattern: no slash, no white space,
    no star and no closing bracket. *)
Definition isPlainChar (c : ascii) : bool :=
  negb (Ascii.eqb c "/") && negb (isWhiteSpace c) &&
  negb (Ascii.eqb c "*") && negb (Ascii.eqb c "]").

(** A name that a pattern reads as itself. *)
Definition isPlainSegment (s : jsstring) : bool :=
  nonEmpty s && forallb isPlainChar s.

(** The name path of the symbol under the names [names], outermost first. *)
Definition absolutePath (names : list jsstring) : jsstring :=
  lit "/" ++ join (lit "/") names.

End NamePath.

(** ** Frequencies of words and symbol types, for the statements about
    keywords and labels *)

Module Weights.
Import JS Clustering.

(** The total weight with which [word] occurs among weighted [tokens]. *)
Definition weightIn (tokens : list (jsstring * nat)) (word : jsstring) : nat :=
  list_sum (map snd (filter (fun t => streq (fst t) word) tokens)).

(** A lowercased word that [extractKeywords] counts: four characters at
    least, and no stop word. *)
Definition eligible (lower : jsstring) : bool :=
  (4 <=? length lower)%nat && negb (existsb (streq lower) stopWords).

Section WithNumbers.
Context {num : Type}.

(** The words that a chunk contributes, lowercased: each identifier of its
    content with weight 1, then each word of its symbol name with weight
    3. *)
Definition keywordTokens (chunk : ChunkForClustering num)
  : list (jsstring * nat) :=
  filter (fun t => eligible (fst t))
    (map (fun w => (toLowerCase w, 1%nat)) (matchIdentifiers (content chunk)) ++
     match symbolName chunk with
     | Some (c :: s) =>
         map (fun w => (toLowerCase w, 3%nat)) (matchCamelWords (c :: s))
     | _ => []
     end).

(** The weight of a word in a set of chunks. *)
Definition keywordWeight (chunks : list (ChunkForClustering num))
  (word : jsstring) : nat :=
  weightIn (flat_map keywordTokens chunks) word.



End WithNumbers.

End Weights.
Import Weights.

(** * Theorems *)

(** ** Argument parsing of search_similar *)

Section SearchHandlersFacts.
Import JS SearchHandlers.

Lemma falsy_isString (v : JSValue) :
  falsy (isString v) = negb (nonEmptyString v).
Proof. destruct v as [ | | b | n | [|c s] | ]; reflexivity. Qed.

Lemma parse_throws_iff (args : Args) :
  parseSearchSimilarArgs args = Throw validationError <->
  nonEmptyString (prop args "code") = false /\
  nonEmptyString (prop args "filepath") = false.
Proof.
  unfold parseSearchSimilarArgs.
  rewrite !falsy_isString.
  destruct (nonEmptyString (prop args "code")),
           (nonEmptyString (prop args "filepath")); simpl;
    split; intros H; try discriminate; try (destruct H; discriminate);
    auto.
Qed.

(** C6, as stated, fails: an empty string is a string-valued [code]
    argument, and the call throws the validation error all the same. *)
Lemma parseSearchSimilarArgs_empty_code_counterexample :
  let args : Args := Some [(lit "code", JSString [])] in
  ~ (throwsValidation (parseSearchSimilarArgs args) <->
     stringValued (prop args "code") = false /\
     stringValued (prop args "filepath") = false).
Proof.
  intros args [Hthrow _].
  assert (H : throwsValidation (parseSearchSimilarArgs args)).
  { exists validationError. split; reflexivity. }
  apply Hthrow in H. destruct H as [H _]. discriminate H.
Qed.

(** With a non-empty [code] or [filepath] the call returns, and the result
    carries the parsed arguments. *)
Lemma parse_returns (args : Args) :
  nonEmptyString (prop args "code") = true \/
  nonEmptyString (prop args "filepath") = true ->
  exists r, parseSearchSimilarArgs args = Normal r /\
            code r = isString (prop args "code") /\
            filepath r = isString (prop args "filepath") /\
            (numberValued (prop args "limit") = false -> limit r = Some (10 # 1)%Q) /\
            (forall n, prop args "limit" = JSNumber n -> limit r = Some n).
Proof.
  intros Hsome. unfold parseSearchSimilarArgs.
  rewrite !falsy_isString.
  assert (Hb : negb (nonEmptyString (prop args "code")) &&
               negb (nonEmptyString (prop args "filepath")) = false).
  { destruct Hsome as [H | H]; rewrite H; simpl;
      [reflexivity | apply andb_false_r]. }
  rewrite Hb. eexists. split; [reflexivity |]. simpl.
  repeat split.
  - intros Hn. destruct (prop args "limit"); try reflexivity; discriminate.
  - intros n Hn. rewrite Hn. reflexivity.
Qed.

(** C6, amended: [parseSearchSimilarArgs] throws an error of category
    'validation' if and only if neither [code] nor [filepath] is a non-empty
    string; when at least one is, it returns normally with these two
    arguments, and with [limit] equal to the numeric [limit] argument, or to
    10 when no numeric limit is given. *)
Theorem parseSearchSimilarArgs_validation (args : Args) :
  (throwsValidation (parseSearchSimilarArgs args) <->
   nonEmptyString (prop args "code") = false /\
   nonEmptyString (prop args "filepath") = false) /\
  (nonEmptyString (prop args "code") = true \/
   nonEmptyString (prop args "filepath") = true ->
   exists r, parseSearchSimilarArgs args = Normal r /\
             code r = isString (prop args "code") /\
             filepath r = isString (prop args "filepath") /\
             (numberValued (prop args "limit") = false -> limit r = Some (10 # 1)%Q) /\
             (forall n, prop args "limit" = JSNumber n -> limit r = Some n)).
Proof.
  split; [| apply parse_returns].
  rewrite <- parse_throws_iff. split.
  - intros [e [He Hc]]. unfold parseSearchSimilarArgs in *.
    destruct (falsy _ && falsy _); [reflexivity | discriminate].
  - intros H. exists validationError. split; [assumption | reflexivity].
Qed.

Lemma parseSearchSimilarArgs_validation_witness :
  let args : Args := Some [(lit "filepath", JSString (lit "src/a.ts"))] in
  exists r, parseSearchSimilarArgs args = Normal r /\
            limit r = Some (10 # 1)%Q.
Proof.
  intros args.
  destruct (proj2 (parseSearchSimilarArgs_validation args)) as [r [Hr [_ [_ [Hl _]]]]].
  - right. reflexivity.
  - exists r. split; [exact Hr | apply Hl; reflexivity].
Defined.

(** C10: for every input whose [excludeSelf] argument is not exactly the
    boolean [false] (omitted and non-boolean values included), every result
    that [parseSearchSimilarArgs] returns has [excludeSelf] set to [true];
    and it does return one as soon as [code] or [filepath] is a non-empty
    string. *)
Theorem parseSearchSimilarArgs_excludeSelf (args : Args) :
  prop args "excludeSelf" <> JSBoolean false ->
  (forall r, parseSearchSimilarArgs args = Normal r -> excludeSelf r = Some true) /\
  (nonEmptyString (prop args "code") = true \/
   nonEmptyString (prop args "filepath") = true ->
   exists r, parseSearchSimilarArgs args = Normal r /\ excludeSelf r = Some true).
Proof.
  intros Hne.
  assert (Hx : notStrictlyFalse (prop args "excludeSelf") = true).
  { destruct (prop args "excludeSelf") as [ | | [|] | | | ];
      try reflexivity. contradiction Hne. reflexivity. }
  assert (Hall : forall r, parseSearchSimilarArgs args = Normal r ->
                           excludeSelf r = Some true).
  { intros r Hr. unfold parseSearchSimilarArgs in Hr.
    destruct (falsy _ && falsy _); [discriminate |].
    injection Hr as <-. simpl. rewrite Hx. reflexivity. }
  split; [exact Hall |].
  intros Hsome.
  destruct (parse_returns args Hsome) as [r [Hr _]].
  exists r. split; [exact Hr | apply Hall; exact Hr].
Qed.

Lemma parseSearchSimilarArgs_excludeSelf_witness :
  let args : Args :=
    Some [(lit "code", JSString (lit "x = 1")); (lit "excludeSelf", JSString (lit "no"))] in
  exists r, parseSearchSimilarArgs args = Normal r /\ excludeSelf r = Some true.
Proof.
  intros args.
  apply (parseSearchSimilarArgs_excludeSelf args).
  - discriminate.
  - left. reflexivity.
Defined.

(** The only way to switch self-exclusion off. *)
Lemma parseSearchSimilarArgs_excludeSelf_false (args : Args) (r : SearchSimilarArgs) :
  prop args "excludeSelf" = JSBoolean false ->
  parseSearchSimilarArgs args = Normal r -> excludeSelf r = Some false.
Proof.
  intros Hv Hr. unfold parseSearchSimilarArgs in Hr.
  destruct (falsy _ && falsy _); [discriminate |].
  injection Hr as <-. simpl. rewrite Hv. reflexivity.
Qed.

End SearchHandlersFacts.

(** ** Rounding to the nearest double *)

Section PowerFacts.
Import Numbers.
Local Open Scope Q_scope.

Lemma pow2_pos (e : Z) : 0 < pow2 e.
Proof. apply Qpower_0_lt. reflexivity. Qed.

Lemma pow2_add (a b : Z) : pow2 (a + b) == pow2 a * pow2 b.
Proof. apply Qpower_plus. discriminate. Qed.

Lemma pow2_le (a b : Z) : (a <= b)%Z -> pow2 a <= pow2 b.
Proof. intros H. apply Qpower_le_compat_l; [exact H | discriminate]. Qed.

Lemma pow2_lt (a b : Z) : (a < b)%Z -> pow2 a < pow2 b.
Proof. intros H. apply Qpower_lt_compat_l; [exact H | reflexivity]. Qed.

Lemma pow2_lt_inv (a b : Z) : pow2 a < pow2 b -> (a < b)%Z.
Proof. intros H. apply (Qpower_lt_compat_l_inv (2 # 1)); [exact H | reflexivity]. Qed.

Lemma pow2_Z (n : Z) : (0 <= n)%Z -> pow2 n == inject_Z (2 ^ n).
Proof. intros H. unfold pow2. rewrite (Zpower_Qpower 2 n H). reflexivity. Qed.

(** A product by a power of 2 with exponent [n >= 0], on integers. *)
Lemma pow2_scale (z : Z) (e n : Z) :
  (0 <= n)%Z -> inject_Z z * pow2 (e + n) == inject_Z (z * 2 ^ n) * pow2 e.
Proof.
  intros Hn. rewrite pow2_add, (pow2_Z n Hn), inject_Z_mult. ring.
Qed.

End PowerFacts.

Section LogFacts.
Import Numbers.
Local Open Scope Q_scope.

Lemma log2_bounds (a : Z) :
  (0 < a)%Z -> (2 ^ Z.log2 a <= a < 2 * 2 ^ Z.log2 a)%Z.
Proof.
  intros Ha. destruct (Z.log2_spec a Ha) as [Hlo Hhi].
  split; [exact Hlo |].
  rewrite Z.pow_succ_r in Hhi by apply Z.log2_nonneg. exact Hhi.
Qed.

(** The quotient of the powers of 2 next to numerator and denominator. *)
Lemma quotient_bounds (a : Z) (b : positive) :
  (0 < a)%Z ->
  let e0 := (Z.log2 a - Z.log2 (Zpos b))%Z in
  pow2 (e0 - 1) < a # b /\ a # b < pow2 (e0 + 1).
Proof.
  intros Ha e0.
  set (la := Z.log2 a). set (lb := Z.log2 (Zpos b)).
  assert (Hla : (0 <= la)%Z) by apply Z.log2_nonneg.
  assert (Hlb : (0 <= lb)%Z) by apply Z.log2_nonneg.
  destruct (log2_bounds a Ha) as [Ha1 Ha2]. fold la in Ha1, Ha2.
  destruct (log2_bounds (Zpos b) eq_refl) as [Hb1 Hb2]. fold lb in Hb1, Hb2.
  assert (Hpa : (0 < 2 ^ la)%Z) by (apply Z.pow_pos_nonneg; lia).
  assert (Hpb : (0 < 2 ^ lb)%Z) by (apply Z.pow_pos_nonneg; lia).
  assert (Hq : a # b == inject_Z a / inject_Z (Zpos b)) by apply Qmake_Qdiv.
  assert (Hb0 : 0 < inject_Z (Zpos b)) by reflexivity.
  assert (Hplb : 0 < pow2 lb) by apply pow2_pos.
  split.
  - (* pow2 (la - lb - 1) * b < a *)
    apply Qmult_lt_r with (z := inject_Z (Zpos b) * pow2 (lb + 1)).
    { apply Qmult_lt_0_compat; [exact Hb0 | apply pow2_pos]. }
    assert (H1 : pow2 (e0 - 1) * (inject_Z (Zpos b) * pow2 (lb + 1)) ==
                 inject_Z (Zpos b) * pow2 la).
    { unfold e0. fold la lb. rewrite Qmult_comm, <- Qmult_assoc, <- pow2_add.
      replace (lb + 1 + (la - lb - 1))%Z with la by lia. reflexivity. }
    assert (H2 : (a # b) * (inject_Z (Zpos b) * pow2 (lb + 1)) ==
                 inject_Z a * pow2 (lb + 1)).
    { rewrite Hq. field. discriminate. }
    rewrite H1, H2, (pow2_Z la Hla), (pow2_Z (lb + 1)) by lia.
    rewrite <- !inject_Z_mult, <- Zlt_Qlt.
    rewrite Z.pow_add_r by lia. change (2 ^ 1)%Z with 2%Z. nia.
  - apply Qmult_lt_r with (z := inject_Z (Zpos b) * pow2 lb).
    { apply Qmult_lt_0_compat; [exact Hb0 | apply pow2_pos]. }
    assert (H1 : pow2 (e0 + 1) * (inject_Z (Zpos b) * pow2 lb) ==
                 inject_Z (Zpos b) * pow2 (la + 1)).
    { unfold e0. fold la lb. rewrite Qmult_comm, <- Qmult_assoc, <- pow2_add.
      replace (lb + (la - lb + 1))%Z with (la + 1)%Z by lia. reflexivity. }
    assert (H2 : (a # b) * (inject_Z (Zpos b) * pow2 lb) ==
                 inject_Z a * pow2 lb).
    { rewrite Hq. field. discriminate. }
    rewrite H1, H2, (pow2_Z lb Hlb), (pow2_Z (la + 1)) by lia.
    rewrite <- !inject_Z_mult, <- Zlt_Qlt.
    rewrite Z.pow_add_r by lia. change (2 ^ 1)%Z with 2%Z. nia.
Qed.

(** [floorLog2 q] is the exponent of the binade of [q]. *)
Lemma floorLog2_spec (q : Q) :
  0 < q -> pow2 (floorLog2 q) <= q /\ q < pow2 (floorLog2 q + 1).
Proof.
  intros Hq. destruct q as [a b].
  assert (Ha : (0 < a)%Z).
  { unfold Qlt in Hq. cbn in Hq. lia. }
  destruct (quotient_bounds a b Ha) as [Hlo Hhi]. cbv zeta in Hlo, Hhi.
  unfold floorLog2. cbn [Qnum Qden].
  set (e0 := (Z.log2 a - Z.log2 (Zpos b))%Z) in *.
  destruct (Qle_bool (pow2 e0) (a # b)) eqn:Hle.
  - apply Qle_bool_iff in Hle. split; assumption.
  - split; [apply Qlt_le_weak; exact Hlo |].
    replace (e0 - 1 + 1)%Z with e0 by lia.
    apply Qnot_le_lt. intros H. apply Qle_bool_iff in H. congruence.
Qed.

Lemma floorLog2_mono (x y : Q) :
  0 < x -> x <= y -> (floorLog2 x <= floorLog2 y)%Z.
Proof.
  intros Hx Hxy.
  destruct (floorLog2_spec x Hx) as [Hlo _].
  destruct (floorLog2_spec y (Qlt_le_trans _ _ _ Hx Hxy)) as [_ Hhi].
  assert (H : pow2 (floorLog2 x) < pow2 (floorLog2 y + 1)).
  { apply (Qle_lt_trans _ x); [exact Hlo |].
    apply (Qle_lt_trans _ y); assumption. }
  apply pow2_lt_inv in H. lia.
Qed.

Lemma ulpExponent_mono (x y : Q) :
  0 < x -> x <= y -> (ulpExponent x <= ulpExponent y)%Z.
Proof.
  intros Hx Hxy. unfold ulpExponent.
  pose proof (floorLog2_mono x y Hx Hxy). lia.
Qed.

End LogFacts.

Section NearestFacts.
Import Numbers.
Local Open Scope Q_scope.

Lemma roundHalfEven_bounds (m : Q) :
  (Qfloor m <= roundHalfEven m <= Qfloor m + 1)%Z.
Proof.
  unfold roundHalfEven.
  destruct (Qcompare (m - inject_Z (Qfloor m)) (1 # 2));
    [destruct (Z.even (Qfloor m)) | |]; lia.
Qed.

(** Rounding to the nearest integer keeps the order. *)
Lemma roundHalfEven_mono (m m' : Q) :
  m <= m' -> (roundHalfEven m <= roundHalfEven m')%Z.
Proof.
  intros Hle.
  pose proof (Qfloor_resp_le m m' Hle) as Hf.
  destruct (Z.eq_dec (Qfloor m) (Qfloor m')) as [Heq | Hne].
  - unfold roundHalfEven. rewrite <- Heq.
    set (f := Qfloor m) in *.
    destruct (Qcompare (m - inject_Z f) (1 # 2)) eqn:Hc;
      destruct (Qcompare (m' - inject_Z f) (1 # 2)) eqn:Hc';
      try (destruct (Z.even f)); try lia;
      first [apply Qeq_alt in Hc | apply Qlt_alt in Hc | apply Qgt_alt in Hc];
      first [apply Qeq_alt in Hc' | apply Qlt_alt in Hc' | apply Qgt_alt in Hc'];
      exfalso; clear Hf; subst f; lra.
  - pose proof (roundHalfEven_bounds m). pose proof (roundHalfEven_bounds m'). lia.
Qed.

Lemma roundHalfEven_comp (m m' : Q) :
  m == m' -> roundHalfEven m = roundHalfEven m'.
Proof.
  intros Heq. apply Z.le_antisymm; apply roundHalfEven_mono; rewrite Heq; apply Qle_refl.
Qed.

Lemma roundHalfEven_Z (z : Z) : roundHalfEven (inject_Z z) = z.
Proof.
  unfold roundHalfEven. rewrite Qfloor_Z.
  assert (H : Qcompare (inject_Z z - inject_Z z) (1 # 2) = Lt).
  { apply (proj1 (Qlt_alt _ _)). lra. }
  rewrite H. reflexivity.
Qed.

Lemma roundHalfEven_nonneg (m : Q) : 0 <= m -> (0 <= roundHalfEven m)%Z.
Proof.
  intros H. rewrite <- (roundHalfEven_Z 0). apply roundHalfEven_mono. exact H.
Qed.

(** Rounding to a grid keeps the order, and keeps the points of the grid. *)
Lemma onGrid_mono (e : Z) (q q' : Q) : q <= q' -> onGrid e q <= onGrid e q'.
Proof.
  intros Hle. unfold onGrid.
  pose proof (pow2_pos e) as Hp.
  apply Qmult_le_compat_r; [| apply Qlt_le_weak; exact Hp].
  rewrite <- Zle_Qle. apply roundHalfEven_mono.
  apply Qmult_le_compat_r; [exact Hle |].
  apply Qlt_le_weak. apply Qinv_lt_0_compat. exact Hp.
Qed.

Lemma onGrid_fix (e : Z) (z : Z) :
  onGrid e (inject_Z z * pow2 e) == inject_Z z * pow2 e.
Proof.
  unfold onGrid.
  assert (H : inject_Z z * pow2 e / pow2 e == inject_Z z).
  { field. intros H0. pose proof (pow2_pos e) as Hp. rewrite H0 in Hp.
    discriminate Hp. }
  rewrite (roundHalfEven_comp _ _ H), roundHalfEven_Z. reflexivity.
Qed.

(** A power of 2 lies on every finer grid. *)
Lemma onGrid_pow2 (e E : Z) : (e <= E)%Z -> onGrid e (pow2 E) == pow2 E.
Proof.
  intros H.
  assert (Heq : pow2 E == inject_Z (2 ^ (E - e)) * pow2 e).
  { rewrite <- (pow2_Z (E - e)) by lia. rewrite <- pow2_add.
    replace (E - e + e)%Z with E by lia. reflexivity. }
  assert (Hg : onGrid e (pow2 E) == onGrid e (inject_Z (2 ^ (E - e)) * pow2 e)).
  { unfold onGrid. rewrite (roundHalfEven_comp _ (inject_Z (2 ^ (E - e)) * pow2 e / pow2 e)).
    - reflexivity.
    - rewrite Heq. reflexivity. }
  rewrite Hg, onGrid_fix, <- Heq. reflexivity.
Qed.

Lemma onGrid_nonneg (e : Z) (q : Q) : 0 <= q -> 0 <= onGrid e q.
Proof.
  intros H. unfold onGrid.
  apply Qmult_le_0_compat; [| apply Qlt_le_weak; apply pow2_pos].
  change 0 with (inject_Z 0). rewrite <- Zle_Qle.
  apply roundHalfEven_nonneg.
  apply Qle_shift_div_l; [apply pow2_pos |]. lra.
Qed.

(** Rounding positive numbers to doubles keeps the order: within a binade
    the grid is the same, and across binades a power of 2 lies between. *)
Lemma roundPositive_mono (x y : Q) :
  0 < x -> x <= y ->
  onGrid (ulpExponent x) x <= onGrid (ulpExponent y) y.
Proof.
  intros Hx Hxy.
  assert (Hy : 0 < y) by (apply (Qlt_le_trans _ x); assumption).
  pose proof (ulpExponent_mono x y Hx Hxy) as He.
  destruct (Z.eq_dec (ulpExponent x) (ulpExponent y)) as [Heq | Hne].
  - rewrite Heq. apply onGrid_mono. exact Hxy.
  - assert (Hlt : (ulpExponent x < ulpExponent y)%Z) by lia.
    destruct (floorLog2_spec x Hx) as [_ Hxhi].
    destruct (floorLog2_spec y Hy) as [Hylo _].
    unfold ulpExponent in Hlt.
    set (Ex := floorLog2 x) in *. set (Ey := floorLog2 y) in *.
    assert (HE : (Ex + 1 <= Ey)%Z) by lia.
    assert (Hey : ulpExponent y = (Ey - 52)%Z)
      by (unfold ulpExponent; fold Ey; lia).
    assert (Hex : (ulpExponent x <= Ey)%Z)
      by (unfold ulpExponent; fold Ex; lia).
    apply (Qle_trans _ (pow2 Ey)).
    + rewrite <- (onGrid_pow2 (ulpExponent x) Ey Hex).
      apply onGrid_mono. apply Qlt_le_weak.
      apply (Qlt_le_trans _ _ _ Hxhi). apply pow2_le. exact HE.
    + rewrite <- (onGrid_pow2 (ulpExponent y) Ey) at 1 by (rewrite Hey; lia).
      apply onGrid_mono. exact Hylo.
Qed.

Lemma rounded_zero (q : Q) : q == 0 -> rounded q = 0.
Proof.
  intros H. unfold rounded. apply (proj1 (Qeq_alt _ _)) in H. rewrite H. reflexivity.
Qed.

Lemma rounded_positive (q : Q) : 0 < q -> rounded q = onGrid (ulpExponent q) q.
Proof.
  intros H. unfold rounded.
  assert (Hc : Qcompare q 0 = Gt) by (apply (proj1 (Qgt_alt _ _)); exact H).
  rewrite Hc. reflexivity.
Qed.

Lemma rounded_nonneg (q : Q) : 0 <= q -> 0 <= rounded q.
Proof.
  intros H. destruct (Qlt_le_dec 0 q) as [Hpos | Hzero].
  - rewrite (rounded_positive q Hpos). apply onGrid_nonneg. exact H.
  - rewrite (rounded_zero q) by lra. apply Qle_refl.
Qed.

(** Rounding keeps the order of numbers that are not negative. *)
Lemma rounded_mono (x y : Q) : 0 <= x -> x <= y -> rounded x <= rounded y.
Proof.
  intros Hx Hxy. destruct (Qlt_le_dec 0 x) as [Hpos | Hzero].
  - rewrite (rounded_positive x Hpos).
    rewrite (rounded_positive y) by (apply (Qlt_le_trans _ x); assumption).
    apply roundPositive_mono; assumption.
  - rewrite (rounded_zero x) by lra. apply rounded_nonneg. lra.
Qed.

Lemma rounded_comp (x y : Q) : 0 <= x -> x == y -> rounded x == rounded y.
Proof.
  intros Hx Heq. apply Qle_antisym; apply rounded_mono; lra.
Qed.

Lemma rounded_one : rounded 1 == 1.
Proof. vm_compute. reflexivity. Qed.

(** What [round] returns below the overflow threshold. *)
Lemma round_small (q : Q) :
  0 <= q -> rounded q <= 2 -> round q = Num (Qred (rounded q)).
Proof.
  intros Hq Hr. unfold round. cbv zeta.
  pose proof (rounded_nonneg q Hq) as H0.
  assert (Hbig : 2 < pow2 1024).
  { change 2 with (pow2 1). apply pow2_lt. lia. }
  destruct (Qle_bool (pow2 1024) (rounded q)) eqn:H1.
  { apply Qle_bool_iff in H1. lra. }
  destruct (Qle_bool (rounded q) (- pow2 1024)) eqn:H2.
  { apply Qle_bool_iff in H2. lra. }
  reflexivity.
Qed.

Lemma round_Num_inv (q r : Q) : round q = Num r -> r == rounded q.
Proof.
  unfold round. cbv zeta.
  destruct (Qle_bool (pow2 1024) (rounded q)); [discriminate |].
  destruct (Qle_bool (rounded q) (- pow2 1024)); [discriminate |].
  intros H. injection H as <-. apply Qred_correct.
Qed.

(** A double is left as it is. *)
Lemma isDouble_rounded (q : Q) : isDouble (Num q) = true -> rounded q == q.
Proof.
  unfold isDouble. destruct (round q) as [r | |] eqn:Hr; try discriminate.
  intros H. apply Qeq_bool_iff in H. apply round_Num_inv in Hr.
  rewrite <- Hr. exact H.
Qed.

(** An integer is reduced. *)
Lemma Qred_Z (z : Z) : Qred (inject_Z z) = inject_Z z.
Proof.
  unfold Qred, inject_Z.
  pose proof (Z.ggcd_gcd z 1) as Hg.
  pose proof (Z.ggcd_correct_divisors z 1) as Hd.
  destruct (Z.ggcd z 1) as [g [a b]]. cbn [fst snd] in *.
  rewrite Z.gcd_1_r in Hg. subst g. destruct Hd as [Ha Hb].
  replace a with z by lia. replace b with 1%Z by lia. reflexivity.
Qed.

(** The integers up to 2^53 are doubles. *)
Lemma round_integer (z : Z) : (0 <= z <= 2 ^ 53)%Z -> round (inject_Z z) = numOfZ z.
Proof.
  intros Hz.
  assert (Hcases : z = 0%Z \/ z = (2 ^ 53)%Z \/ (0 < z < 2 ^ 53)%Z) by lia.
  destruct Hcases as [-> | [-> | Hpos]]; [vm_compute; reflexivity .. |].
  assert (Hq : 0 < inject_Z z)
    by (change (inject_Z 0 < inject_Z z); rewrite <- Zlt_Qlt; lia).
  destruct (floorLog2_spec _ Hq) as [Hlo _].
  assert (Hfl : (floorLog2 (inject_Z z) <= 52)%Z).
  { apply Z.lt_succ_r. apply pow2_lt_inv.
    apply (Qle_lt_trans _ (inject_Z z)); [exact Hlo |].
    rewrite (pow2_Z (Z.succ 52)) by lia. rewrite <- Zlt_Qlt. exact (proj2 Hpos). }
  set (e := ulpExponent (inject_Z z)).
  assert (He : (e <= 0)%Z) by (unfold e, ulpExponent; lia).
  assert (Hgrid : inject_Z z == inject_Z (z * 2 ^ (- e)) * pow2 e).
  { rewrite <- (pow2_scale z e (- e)) by lia.
    replace (e + - e)%Z with 0%Z by lia. change (pow2 0) with 1. ring. }
  assert (Hr : rounded (inject_Z z) == inject_Z z).
  { rewrite (rounded_positive _ Hq). fold e.
    rewrite Hgrid at 2. rewrite <- (onGrid_fix e (z * 2 ^ (- e))).
    unfold onGrid. rewrite (roundHalfEven_comp _ _ (Qdiv_comp _ _ Hgrid _ _ (Qeq_refl _))).
    reflexivity. }
  unfold round. cbv zeta.
  assert (Hbig : inject_Z z < pow2 1024).
  { apply (Qlt_le_trans _ (pow2 53)).
    - rewrite (pow2_Z 53) by lia. rewrite <- Zlt_Qlt. exact (proj2 Hpos).
    - apply pow2_le. lia. }
  pose proof (pow2_pos 1024) as Hp.
  destruct (Qle_bool (pow2 1024) (rounded (inject_Z z))) eqn:H1.
  { apply Qle_bool_iff in H1. rewrite Hr in H1. lra. }
  destruct (Qle_bool (rounded (inject_Z z)) (- pow2 1024)) eqn:H2.
  { apply Qle_bool_iff in H2. rewrite Hr in H2. lra. }
  unfold numOfZ. f_equal. rewrite (Qred_complete _ _ Hr). apply Qred_Z.
Qed.

End NearestFacts.

(** ** Comparisons, lengths and loop counts of numbers *)

Section NumberFacts.
Import Numbers.
Local Open Scope Q_scope.

Lemma numLe_Num (x y : Q) : numLe (Num x) (Num y) = true <-> x <= y.
Proof.
  unfold numLe, numLt, numEq. split.
  - intros H. apply orb_prop in H. destruct H as [H | H].
    + apply negb_true_iff in H. apply Qlt_le_weak. apply Qnot_le_lt.
      intros Hle. apply Qle_bool_iff in Hle. congruence.
    + apply Qeq_bool_iff in H. rewrite H. apply Qle_refl.
  - intros H. destruct (Qle_bool y x) eqn:Hyx; [| reflexivity].
    apply Qle_bool_iff in Hyx. cbn [negb orb].
    apply Qeq_bool_iff. apply Qle_antisym; assumption.
Qed.

Lemma numLe_Num_inv (x : number) (y : Q) :
  numLe (Num y) x = true -> numLe x (Num 1) = true -> exists q, x = Num q.
Proof.
  destruct x as [q | [|] |]; intros H1 H2; try discriminate; eauto.
Qed.

Lemma numAdd_Num_inv (a b : number) (q : Q) :
  numEq (numAdd a b) (Num q) = true -> exists x y, a = Num x /\ b = Num y.
Proof.
  destruct a as [x | s |], b as [y | t |]; cbn [numAdd numEq]; intros H;
    try discriminate H; eauto.
  destruct (Bool.eqb s t); discriminate H.
Qed.

Lemma Qle_bool_Z (a b : Z) : Qle_bool (inject_Z a) (inject_Z b) = (a <=? b)%Z.
Proof.
  destruct (Z.leb_spec a b) as [H | H].
  - apply Qle_bool_iff. rewrite <- Zle_Qle. exact H.
  - destruct (Qle_bool (inject_Z a) (inject_Z b)) eqn:Hq; [| reflexivity].
    apply Qle_bool_iff in Hq. rewrite <- Zle_Qle in Hq. lia.
Qed.

Lemma Qeq_bool_Z (a b : Z) : Qeq_bool (inject_Z a) (inject_Z b) = (a =? b)%Z.
Proof.
  destruct (Z.eqb_spec a b) as [-> | H].
  - apply Qeq_bool_iff. reflexivity.
  - destruct (Qeq_bool (inject_Z a) (inject_Z b)) eqn:Hq; [| reflexivity].
    apply Qeq_bool_iff in Hq. unfold Qeq, inject_Z in Hq. cbn [Qnum Qden] in Hq.
    lia.
Qed.

Lemma numLt_Z (a b : Z) : numLt (numOfZ a) (numOfZ b) = (a <? b)%Z.
Proof.
  unfold numOfZ. cbn [numLt]. rewrite Qle_bool_Z.
  destruct (Z.leb_spec b a), (Z.ltb_spec a b); try reflexivity; lia.
Qed.

Lemma numLe_Z (a b : Z) : numLe (numOfZ a) (numOfZ b) = (a <=? b)%Z.
Proof.
  unfold numLe. rewrite numLt_Z. unfold numOfZ. cbn [numEq]. rewrite Qeq_bool_Z.
  destruct (Z.ltb_spec a b), (Z.eqb_spec a b), (Z.leb_spec a b);
    try reflexivity; lia.
Qed.

(** [Math.min] of two integers. *)
Lemma numMin_Z (a b : Z) : numMin (numOfZ a) (numOfZ b) = numOfZ (Z.min a b).
Proof.
  unfold numMin. rewrite numLt_Z. unfold numOfZ.
  destruct (Z.ltb_spec b a) as [H | H]; f_equal; f_equal; lia.
Qed.

Lemma countBelow_Z (z : Z) :
  (z <= 2 ^ 53)%Z -> countBelow (numOfZ z) = Some (Z.to_nat z).
Proof.
  intros Hz. unfold numOfZ. cbn [countBelow]. rewrite Qle_bool_Z.
  apply Z.leb_le in Hz. rewrite Hz, Qceiling_Z. reflexivity.
Qed.

Lemma arrayLength_Z (z : Z) :
  (0 <= z < 2 ^ 32)%Z -> arrayLength (numOfZ z) = Some (Z.to_nat z).
Proof.
  intros [H0 H1]. unfold numOfZ. cbn [arrayLength]. rewrite Qfloor_Z.
  rewrite (proj2 (Qeq_bool_iff _ _) (Qeq_refl _)).
  apply Z.leb_le in H0. apply Z.ltb_lt in H1. rewrite H0, H1. reflexivity.
Qed.

(** A length is an integer from 0 on, and the loops that count up to it
    run that often. *)
Lemma arrayLength_inv (x : number) (m : nat) :
  arrayLength x = Some m ->
  exists q, x = Num q /\ q == inject_Z (Z.of_nat m) /\ countBelow x = Some m.
Proof.
  destruct x as [q | s |]; cbn [arrayLength]; try discriminate.
  destruct (Qeq_bool q (inject_Z (Qfloor q))) eqn:Hint; [| discriminate].
  destruct (0 <=? Qfloor q)%Z eqn:H0; [| discriminate].
  destruct (Qfloor q <? 2 ^ 32)%Z eqn:H1; [| discriminate].
  cbn [andb]. intros H. injection H as <-.
  apply Qeq_bool_iff in Hint. apply Z.leb_le in H0. apply Z.ltb_lt in H1.
  exists q. split; [reflexivity |].
  rewrite Z2Nat.id by exact H0. split; [exact Hint |].
  cbn [countBelow].
  assert (Hsmall : Qle_bool q (inject_Z (2 ^ 53)) = true).
  { apply Qle_bool_iff. rewrite Hint. rewrite <- Zle_Qle.
    apply Z.lt_le_incl. apply (Z.lt_trans _ (2 ^ 32)); [exact H1 | reflexivity]. }
  rewrite Hsmall. f_equal. f_equal.
  assert (Hc : Qceiling q = Qceiling (inject_Z (Qfloor q))).
  { unfold Qceiling. f_equal. apply Qfloor_comp. rewrite <- Hint. reflexivity. }
  rewrite Hc, Qceiling_Z. reflexivity.
Qed.

(** Above 1, the loops over a length run twice at least. *)
Lemma arrayLength_above_one (x : number) (m : nat) :
  arrayLength x = Some m -> numLe x (numOfZ 1) = false -> (2 <= m)%nat.
Proof.
  intros Hlen Hle.
  destruct (arrayLength_inv x m Hlen) as [q [-> [Hq _]]].
  destruct (Nat.le_gt_cases 2 m) as [H | H]; [exact H | exfalso].
  assert (Hle' : numLe (Num q) (numOfZ 1) = true).
  { apply numLe_Num. rewrite Hq. rewrite <- Zle_Qle. lia. }
  congruence.
Qed.

End NumberFacts.

(** ** The combined score of the hybrid search *)

Section CombinedScoreFacts.
Import Numbers HybridSearch.
Local Open Scope Q_scope.

(** A score or weight in [0, 1]. *)
#[local] Abbreviation unit x := (numLe (Num 0) x = true /\ numLe x (Num 1) = true).

(** The rounded product of a weight and a score lies between 0 and the
    weight. *)
Lemma weighted_score (w s : Q) :
  rounded w == w -> 0 <= w <= 1 -> 0 <= s <= 1 ->
  exists p, numMul (Num w) (Num s) = Num p /\ p == rounded (w * s) /\
            0 <= p <= w.
Proof.
  intros Hw [Hw0 Hw1] [Hs0 Hs1].
  assert (H0 : 0 <= w * s) by nra.
  assert (H1 : w * s <= w) by nra.
  assert (Hr : rounded (w * s) <= w).
  { rewrite <- Hw at 2. apply rounded_mono; assumption. }
  exists (Qred (rounded (w * s))). cbn [numMul].
  rewrite round_small; [| exact H0 | lra].
  split; [reflexivity |]. rewrite Qred_correct.
  split; [reflexivity |]. split; [apply rounded_nonneg; exact H0 | exact Hr].
Qed.

(** The rounded sum of two such products. *)
Lemma rounded_sum (p p' w w' : Q) :
  rounded (w + w') == 1 -> 0 <= p <= w -> 0 <= p' <= w' ->
  exists r, numAdd (Num p) (Num p') = Num r /\ r == rounded (p + p') /\
            0 <= r <= 1.
Proof.
  intros Hsum [Hp0 Hp1] [Hp0' Hp1'].
  assert (H0 : 0 <= p + p') by lra.
  assert (Hr : rounded (p + p') <= 1).
  { rewrite <- Hsum. apply rounded_mono; lra. }
  exists (Qred (rounded (p + p'))). cbn [numAdd].
  rewrite round_small; [| exact H0 | lra].
  split; [reflexivity |]. rewrite Qred_correct.
  split; [reflexivity |]. split; [apply rounded_nonneg; exact H0 | exact Hr].
Qed.

(** What the hypotheses on the weights give. *)
Lemma weights_unit (sw kw : Q) :
  isDouble (Num sw) = true -> isDouble (Num kw) = true ->
  0 <= sw -> 0 <= kw ->
  numEq (numAdd (Num sw) (Num kw)) (Num 1) = true ->
  rounded sw == sw /\ rounded kw == kw /\ rounded (sw + kw) == 1 /\
  sw <= 1 /\ kw <= 1.
Proof.
  intros Hdsw Hdkw Hsw Hkw Hsum.
  apply isDouble_rounded in Hdsw. apply isDouble_rounded in Hdkw.
  cbn [numAdd] in Hsum.
  destruct (round (sw + kw)) as [r | |] eqn:Hr; try discriminate Hsum.
  cbn [numEq] in Hsum. apply Qeq_bool_iff in Hsum.
  apply round_Num_inv in Hr. rewrite Hsum in Hr.
  assert (H1 : rounded (sw + kw) == 1) by (symmetry; exact Hr).
  split; [exact Hdsw |]. split; [exact Hdkw |]. split; [exact H1 |].
  split.
  - rewrite <- Hdsw, <- H1. apply rounded_mono; lra.
  - rewrite <- Hdkw, <- H1. apply rounded_mono; lra.
Qed.

(** The combined score, computed. *)
Lemma combined_value (sw kw s k : Q) :
  rounded sw == sw -> rounded kw == kw -> rounded (sw + kw) == 1 ->
  0 <= sw <= 1 -> 0 <= kw <= 1 -> 0 <= s <= 1 -> 0 <= k <= 1 ->
  exists r,
    calculateCombinedScore (Num s) (Num k) (Num sw) (Num kw) = Num r /\
    r == rounded (rounded (sw * s) + rounded (kw * k)) /\ 0 <= r <= 1.
Proof.
  intros Hsw Hkw Hsum Bsw Bkw Bs Bk. unfold calculateCombinedScore.
  destruct (weighted_score sw s Hsw Bsw Bs) as [p [Hp [Hpv Bp]]].
  destruct (weighted_score kw k Hkw Bkw Bk) as [p' [Hp' [Hpv' Bp']]].
  rewrite Hp, Hp'.
  destruct (rounded_sum p p' sw kw Hsum Bp Bp') as [r [Hr [Hrv Br]]].
  exists r. split; [exact Hr |]. split; [| exact Br].
  rewrite Hrv. apply rounded_comp; [lra |]. rewrite Hpv, Hpv'. reflexivity.
Qed.

(** C2: for weights that are doubles from 0 on with [semanticWeight +
    keywordWeight === 1] (the configuration admits weights of [0, 1] only),
    and semantic and keyword scores in [0, 1], the combined score, computed
    in double arithmetic, lies in [0, 1]; with one component score fixed,
    raising the other one within [0, 1] never lowers the combined score;
    and the bounds are met: the combined score of the scores 0 and 0 is 0,
    that of 1 and 1 is 1. *)
Theorem calculateCombinedScore_bounds_monotone
  (semanticWeight keywordWeight semantic keyword semantic' keyword' : number) :
  isDouble semanticWeight = true -> isDouble keywordWeight = true ->
  numLe (Num 0) semanticWeight = true -> numLe (Num 0) keywordWeight = true ->
  numEq (numAdd semanticWeight keywordWeight) (Num 1) = true ->
  unit semantic -> unit keyword ->
  unit (calculateCombinedScore semantic keyword semanticWeight keywordWeight) /\
  (numLe semantic semantic' = true -> numLe semantic' (Num 1) = true ->
   numLe (calculateCombinedScore semantic keyword semanticWeight keywordWeight)
         (calculateCombinedScore semantic' keyword semanticWeight keywordWeight)
   = true) /\
  (numLe keyword keyword' = true -> numLe keyword' (Num 1) = true ->
   numLe (calculateCombinedScore semantic keyword semanticWeight keywordWeight)
         (calculateCombinedScore semantic keyword' semanticWeight keywordWeight)
   = true) /\
  numEq (calculateCombinedScore (Num 0) (Num 0) semanticWeight keywordWeight)
        (Num 0) = true /\
  numEq (calculateCombinedScore (Num 1) (Num 1) semanticWeight keywordWeight)
        (Num 1) = true.
Proof.
  intros Hdsw Hdkw Hsw Hkw Hsum [Hs0 Hs1] [Hk0 Hk1].
  destruct (numLe_Num_inv semantic 0 Hs0 Hs1) as [s ->].
  destruct (numLe_Num_inv keyword 0 Hk0 Hk1) as [k ->].
  destruct (numAdd_Num_inv _ _ _ Hsum) as [sw [kw [-> ->]]].
  apply numLe_Num in Hs0, Hs1, Hk0, Hk1, Hsw, Hkw.
  destruct (weights_unit sw kw Hdsw Hdkw Hsw Hkw Hsum)
    as [Rsw [Rkw [Rsum [Hsw1 Hkw1]]]].
  destruct (combined_value sw kw s k Rsw Rkw Rsum) as [r [Hr [Hrv Br]]];
    try (split; assumption).
  split; [| split; [| split; [| split]]].
  - rewrite Hr. split; apply numLe_Num; apply Br.
  - intros Hle Hle1.
    assert (Hs' : exists s', semantic' = Num s').
    { destruct semantic' as [s' | [|] |]; try discriminate; eauto. }
    destruct Hs' as [s' ->]. apply numLe_Num in Hle, Hle1.
    destruct (combined_value sw kw s' k Rsw Rkw Rsum) as [r' [Hr' [Hrv' Br']]];
      try (split; assumption); [split; lra |].
    rewrite Hr, Hr'. apply numLe_Num. rewrite Hrv, Hrv'.
    assert (Hp : rounded (sw * s) <= rounded (sw * s'))
      by (apply rounded_mono; nra).
    pose proof (rounded_nonneg (sw * s) ltac:(nra)).
    pose proof (rounded_nonneg (kw * k) ltac:(nra)).
    apply rounded_mono; lra.
  - intros Hle Hle1.
    assert (Hk' : exists k', keyword' = Num k').
    { destruct keyword' as [k' | [|] |]; try discriminate; eauto. }
    destruct Hk' as [k' ->]. apply numLe_Num in Hle, Hle1.
    destruct (combined_value sw kw s k' Rsw Rkw Rsum) as [r' [Hr' [Hrv' Br']]];
      try (split; assumption); [split; lra |].
    rewrite Hr, Hr'. apply numLe_Num. rewrite Hrv, Hrv'.
    assert (Hp : rounded (kw * k) <= rounded (kw * k'))
      by (apply rounded_mono; nra).
    pose proof (rounded_nonneg (sw * s) ltac:(nra)).
    pose proof (rounded_nonneg (kw * k) ltac:(nra)).
    apply rounded_mono; lra.
  - destruct (combined_value sw kw 0 0 Rsw Rkw Rsum) as [r0 [Hr0 [Hrv0 _]]];
      try (split; assumption); try (split; lra).
    rewrite Hr0. cbn [numEq]. apply Qeq_bool_iff. rewrite Hrv0.
    assert (Hz : forall w, rounded (w * 0) == 0).
    { intros w. rewrite (rounded_zero (w * 0)); [reflexivity | ring]. }
    rewrite rounded_zero; [reflexivity |]. rewrite !Hz. ring.
  - destruct (combined_value sw kw 1 1 Rsw Rkw Rsum) as [r1 [Hr1 [Hrv1 _]]];
      try (split; assumption); try (split; lra).
    rewrite Hr1. cbn [numEq]. apply Qeq_bool_iff. rewrite Hrv1.
    assert (Hone : forall w, 0 <= w -> rounded w == w -> rounded (w * 1) == w).
    { intros w H0 Hw. apply (Qeq_trans _ (rounded w)); [| exact Hw].
      apply rounded_comp; [lra | ring]. }
    pose proof (Hone sw Hsw Rsw) as Hs. pose proof (Hone kw Hkw Rkw) as Hk.
    apply (Qeq_trans _ (rounded (sw + kw))); [| exact Rsum].
    apply rounded_comp; [| rewrite Hs, Hk; reflexivity].
    rewrite Hs, Hk. lra.
Qed.

End CombinedScoreFacts.

Section CombinedScoreRuns.
Import Numbers HybridSearch.
Local Open Scope Q_scope.

(** The double that a decimal literal denotes. *)
#[local] Abbreviation literal q := (round q).

(** The cases of the test suite, in double arithmetic: the literals are
    rounded, and so are the products and the sum.  0.1 + 0.2 is
    0.30000000000000004, and the score of 0.9 and 1 under the weights 0.7
    and 0.3 is 0.9299999999999999. *)
Example calculateCombinedScore_tests :
  calculateCombinedScore (literal (8 # 10)) (Num 1) (Num 1) (Num 0) =
    literal (8 # 10) /\
  calculateCombinedScore (Num 1) (literal (5 # 10)) (Num 0) (Num 1) =
    literal (5 # 10) /\
  calculateCombinedScore (Num 1) (Num 0) (literal (7 # 10)) (literal (3 # 10)) =
    literal (7 # 10) /\
  calculateCombinedScore (Num 1) (Num 1) (literal (7 # 10)) (literal (3 # 10)) =
    Num 1 /\
  numAdd (literal (1 # 10)) (literal (2 # 10)) =
    Num (1351079888211149 # 4503599627370496) /\
  calculateCombinedScore (literal (9 # 10)) (Num 1)
    (literal (7 # 10)) (literal (3 # 10)) =
    Num (4188347653454561 # 4503599627370496).
Proof. repeat split; vm_compute; reflexivity. Qed.

Lemma calculateCombinedScore_bounds_monotone_witness :
  let score keyword :=
    calculateCombinedScore (literal (9 # 10)) keyword
      (literal (7 # 10)) (literal (3 # 10)) in
  numLe (Num 0) (score (literal (1 # 10))) = true /\
  numLe (score (literal (1 # 10))) (Num 1) = true /\
  numLe (score (literal (1 # 10))) (score (Num 1)) = true.
Proof.
  intros score.
  destruct (calculateCombinedScore_bounds_monotone
              (literal (7 # 10)) (literal (3 # 10))
              (literal (9 # 10)) (literal (1 # 10)) (Num 1) (Num 1))
    as [[H0 H1] [_ [Hm _]]];
    try (split; vm_compute; reflexivity); try (vm_compute; reflexivity).
  split; [exact H0 |]. split; [exact H1 |].
  apply Hm; vm_compute; reflexivity.
Defined.

End CombinedScoreRuns.

(** ** Order of the vectors that embedBatch returns *)

Section EmbeddingsFacts.
Import JS Embeddings.

(** The modelled [chunkArray] on the cases of its test suite. *)
Example chunkArray_tests :
  chunkArray (@nil nat) 10 = [] /\
  chunkArray [1; 2; 3] 10 = [[1; 2; 3]] /\
  chunkArray [1; 2; 3; 4] 2 = [[1; 2]; [3; 4]] /\
  chunkArray [1; 2; 3; 4; 5] 2 = [[1; 2]; [3; 4]; [5]] /\
  chunkArray [1; 2; 3] 1 = [[1]; [2]; [3]].
Proof. repeat split; reflexivity. Qed.

Lemma chunkArrayFuel_concat {A : Type} (size fuel : nat) (array : list A) :
  1 <= size -> length array <= fuel ->
  concat (chunkArrayFuel fuel array size) = array.
Proof.
  intros Hsize. revert array.
  induction fuel as [|fuel IH]; intros array Hlen.
  - destruct array; [reflexivity | simpl in Hlen; lia].
  - destruct array as [|x array']; [reflexivity |].
    cbn [chunkArrayFuel concat].
    rewrite IH.
    + apply firstn_skipn.
    + rewrite length_skipn. cbn [length] in *. lia.
Qed.

(** For a size of 1 or more the groups of [chunkArray], put end to end, are
    the array. *)
Lemma chunkArray_concat {A : Type} (array : list A) (size : Z) :
  (1 <= size)%Z -> concat (chunkArray array size) = array.
Proof.
  intros Hsize. unfold chunkArray.
  apply chunkArrayFuel_concat; lia.
Qed.

Lemma setSlot_length {A : Type} (slots : list (option A)) (i : nat) (v : A) :
  length (setSlot slots i v) = length slots.
Proof.
  revert i. induction slots as [|s slots IH]; intros [|i]; simpl; auto.
Qed.

Lemma setSlot_same {A : Type} (slots : list (option A)) (i : nat) (v : A) :
  i < length slots -> nth_error (setSlot slots i v) i = Some (Some v).
Proof.
  revert i. induction slots as [|s slots IH]; intros [|i] Hi; simpl in *;
    try lia; [reflexivity | apply IH; lia].
Qed.

Lemma setSlot_other {A : Type} (slots : list (option A)) (i j : nat) (v : A) :
  i <> j -> nth_error (setSlot slots i v) j = nth_error slots j.
Proof.
  revert i j. induction slots as [|s slots IH]; intros [|i] [|j] Hij; simpl;
    try reflexivity; try congruence.
  apply IH. congruence.
Qed.

(** What the slots hold once the requests listed in [order] have completed,
    when every request succeeds. *)
Lemma settle_fills {A : Type} (values : list A) (order : list nat) :
  forall slots : list (option A),
    length slots = length values ->
    exists slots',
      settle (map Normal values) order slots = Normal slots' /\
      length slots' = length values /\
      forall j, nth_error slots' j =
                if in_dec Nat.eq_dec j order
                then (if j <? length values then Some (nth_error values j)
                      else nth_error slots j)
                else nth_error slots j.
Proof.
  induction order as [|i order IH]; intros slots Hlen.
  - exists slots. repeat split; auto.
  - cbn [settle]. rewrite nth_error_map.
    destruct (nth_error values i) as [v|] eqn:Hv; cbn [option_map].
    + assert (Hi : i < length values) by (apply nth_error_Some; congruence).
      destruct (IH (setSlot slots i v)) as [slots' [Hs [Hl Hn]]].
      { rewrite setSlot_length. exact Hlen. }
      exists slots'. repeat split; auto.
      intros j. rewrite Hn.
      destruct (in_dec Nat.eq_dec j order) as [Hin|Hnin];
        destruct (in_dec Nat.eq_dec j (i :: order)) as [Hin'|Hnin'];
        try reflexivity.
      * destruct (j <? length values) eqn:Hj; [reflexivity |].
        apply Nat.ltb_ge in Hj.
        rewrite setSlot_other by lia. reflexivity.
      * exfalso. apply Hnin'. right. exact Hin.
      * destruct Hin' as [-> | Hin']; [| contradiction].
        apply Nat.ltb_lt in Hi. rewrite Hi.
        apply Nat.ltb_lt in Hi.
        rewrite setSlot_same by lia. rewrite Hv. reflexivity.
      * apply setSlot_other. intros ->. apply Hnin'. left. reflexivity.
    + assert (Hi : length values <= i) by (apply nth_error_None; exact Hv).
      destruct (IH slots Hlen) as [slots' [Hs [Hl Hn]]].
      exists slots'. repeat split; auto.
      intros j. rewrite Hn.
      destruct (in_dec Nat.eq_dec j order) as [Hin|Hnin];
        destruct (in_dec Nat.eq_dec j (i :: order)) as [Hin'|Hnin'];
        try reflexivity.
      * exfalso. apply Hnin'. right. exact Hin.
      * destruct Hin' as [-> | Hin']; [| contradiction].
        apply Nat.ltb_ge in Hi. rewrite Hi. reflexivity.
Qed.

Lemma allFilled_all {A : Type} (values : list A) :
  forall slots : list (option A),
    length slots = length values ->
    (forall j, j < length values -> nth_error slots j = Some (nth_error values j)) ->
    allFilled slots = Some values.
Proof.
  induction values as [|v values IH]; intros [|s slots] Hlen Hn;
    simpl in Hlen; try discriminate; [reflexivity |].
  assert (H0 := Hn 0 ltac:(simpl; lia)). simpl in H0.
  injection H0 as ->. cbn [allFilled].
  rewrite (IH slots); [reflexivity | lia |].
  intros j Hj. apply (Hn (S j)). simpl. lia.
Qed.

(** [Promise.all] over requests that all succeed resolves with their values
    in the order of the requests, whatever the order of completion. *)
Lemma promiseAll_in_request_order {A : Type} (values : list A) (order : list nat) :
  Permutation order (seq 0 (length values)) ->
  promiseAll (map Normal values) order = Some (Normal values).
Proof.
  intros Hperm. unfold promiseAll. rewrite length_map.
  destruct (settle_fills values order (repeat None (length values)))
    as [slots' [Hs [Hl Hn]]].
  { apply repeat_length. }
  rewrite Hs. rewrite (allFilled_all values slots' Hl); [reflexivity |].
  intros j Hj. rewrite Hn.
  destruct (in_dec Nat.eq_dec j order) as [Hin|Hnin].
  - apply Nat.ltb_lt in Hj. rewrite Hj. reflexivity.
  - exfalso. apply Hnin.
    apply (Permutation_in _ (Permutation_sym Hperm)).
    apply in_seq. lia.
Qed.

Section Batch.
Variable Vector : Type.
Variable embed : jsstring -> Completion Vector.
Variable emb : jsstring -> Vector.

Lemma map_embed_normal (chunk : list jsstring) :
  (forall t, In t chunk -> embed t = Normal (emb t)) ->
  map embed chunk = map Normal (map emb chunk).
Proof.
  intros H. rewrite map_map. apply map_ext_in. exact H.
Qed.

Lemma embedChunks_in_order (chunks : list (list jsstring)) :
  forall (schedule : list (list nat)) (results : list Vector),
    (forall t, In t (concat chunks) -> embed t = Normal (emb t)) ->
    completes chunks schedule ->
    embedChunks embed chunks schedule results =
    Some (Normal (results ++ map emb (concat chunks))).
Proof.
  induction chunks as [|chunk chunks IH]; intros schedule results Hok Hsched.
  - simpl. rewrite app_nil_r. reflexivity.
  - inversion Hsched as [|? order ? schedule' Hperm Hrest]; subst.
    cbn [embedChunks hd tl concat].
    rewrite map_embed_normal.
    2:{ intros t Ht. apply Hok. simpl. apply in_or_app. left. exact Ht. }
    rewrite promiseAll_in_request_order.
    2:{ rewrite length_map. exact Hperm. }
    rewrite IH; auto.
    + rewrite map_app, app_assoc. reflexivity.
    + intros t Ht. apply Hok. simpl. apply in_or_app. right. exact Ht.
Qed.

End Batch.

(** With groups that, put end to end, are the texts, the batch is the map of
    [embed] over the texts. *)
Lemma embedBatch_map
  (Vector : Type) (embed : jsstring -> Completion Vector) (emb : jsstring -> Vector)
  (chunkArrayImpl : list jsstring -> Z -> list (list jsstring))
  (this : OllamaBackend) (texts : list jsstring) (schedule : list (list nat)) :
  concat (chunkArrayImpl texts (batchSize this)) = texts ->
  (forall t, In t texts -> embed t = Normal (emb t)) ->
  completes (chunkArrayImpl texts (batchSize this)) schedule ->
  embedBatch embed chunkArrayImpl this texts schedule = Some (Normal (map emb texts)).
Proof.
  intros Hsplit Hok Hsched. unfold embedBatch.
  rewrite (embedChunks_in_order _ embed emb); auto.
  - rewrite Hsplit. reflexivity.
  - rewrite Hsplit. exact Hok.
Qed.

(** Groups without texts start no request and add no vector. *)
Lemma embedChunks_empty_groups
  (Vector : Type) (embed : jsstring -> Completion Vector)
  (chunks : list (list jsstring)) :
  Forall (fun group => group = []) chunks ->
  forall schedule results,
    embedChunks embed chunks schedule results = Some (Normal results).
Proof.
  assert (H : forall order (slots : list (option Vector)),
            settle (@nil (Completion Vector)) order slots = Normal slots).
  { induction order as [|i order IH]; intros slots; [reflexivity |].
    cbn [settle]. destruct i; cbn [nth_error]; apply IH. }
  induction 1 as [|group chunks Hgroup _ IH]; intros schedule results;
    [reflexivity |].
  subst group. cbn [embedChunks map]. unfold promiseAll.
  cbn [length repeat]. rewrite H. cbn [allFilled].
  rewrite IH, app_nil_r. reflexivity.
Qed.

(** C3, as stated, fails: a batch size of 0 is a batch-size configuration
    (the constructor keeps it), a group of 0 texts holds no text, and
    [embedBatch] returns no vector for the one text it was given, whatever
    the order of completion.  This is so with the modelled [chunkArray], and
    with every [chunkArray] whose groups hold [size] elements at most: what
    [embedBatch] returns, if anything, is the empty list. *)
Lemma embedBatch_batch_size_zero_counterexample :
  let this := newOllamaBackend
                {| configModel := None; configBaseUrl := None;
                   configBatchSize := Some 0%Z |} in
  batchSize this = 0%Z /\
  (forall schedule,
     embedBatch (fun t => Normal (length t)) chunkArray this [lit "alpha"] schedule =
     Some (Normal [])) /\
  (forall chunkArrayImpl : list jsstring -> Z -> list (list jsstring),
     (forall texts size,
        Forall (fun group => (Z.of_nat (length group) <= size)%Z)
               (chunkArrayImpl texts size)) ->
     forall schedule vectors,
       embedBatch (fun t => Normal (length t)) chunkArrayImpl this [lit "alpha"]
         schedule = Some (Normal vectors) ->
       vectors = []).
Proof.
  intros this. split; [reflexivity |].
  assert (Hgroups : forall chunkArrayImpl : list jsstring -> Z -> list (list jsstring),
            (forall texts size,
               Forall (fun group => (Z.of_nat (length group) <= size)%Z)
                      (chunkArrayImpl texts size)) ->
            forall schedule,
              embedBatch (fun t => Normal (length t)) chunkArrayImpl this
                [lit "alpha"] schedule = Some (Normal [])).
  { intros chunkArrayImpl Hsize schedule. unfold embedBatch.
    apply embedChunks_empty_groups.
    apply (Forall_impl _ (P := fun group => (Z.of_nat (length group) <= 0)%Z));
      [| apply Hsize].
    intros group Hgroup. destruct group; [reflexivity | cbn [length] in Hgroup; lia]. }
  split.
  - intros schedule. unfold embedBatch.
    apply embedChunks_empty_groups. repeat constructor.
  - intros chunkArrayImpl Hsize schedule vectors Hrun.
    rewrite (Hgroups chunkArrayImpl Hsize schedule) in Hrun.
    injection Hrun as <-. reflexivity.
Qed.

(** C3, amended: for a batch size of 1 or more, and whatever the order in
    which the requests of each dispatched group complete, [embedBatch]
    returns one vector per text, the vector at index [i] being the embedding
    of [texts[i]]: it returns [texts.map(embed)].  This holds with every
    [chunkArray] whose groups, put end to end, are the texts, and for a batch
    size of 1 or more the groups of [chunkArray] are such. *)
Theorem embedBatch_in_input_order
  (Vector : Type) (embed : jsstring -> Completion Vector) (emb : jsstring -> Vector)
  (this : OllamaBackend) (texts : list jsstring) :
  (1 <= batchSize this)%Z ->
  (forall t, In t texts -> embed t = Normal (emb t)) ->
  concat (chunkArray texts (batchSize this)) = texts /\
  forall (chunkArrayImpl : list jsstring -> Z -> list (list jsstring))
         (schedule : list (list nat)),
    concat (chunkArrayImpl texts (batchSize this)) = texts ->
    completes (chunkArrayImpl texts (batchSize this)) schedule ->
    exists vectors,
      embedBatch embed chunkArrayImpl this texts schedule = Some (Normal vectors) /\
      vectors = map emb texts /\
      length vectors = length texts /\
      forall i t, nth_error texts i = Some t -> nth_error vectors i = Some (emb t).
Proof.
  intros Hsize Hok. split; [apply chunkArray_concat; exact Hsize |].
  intros chunkArrayImpl schedule Hsplit Hsched.
  exists (map emb texts). split; [| split; [reflexivity | split]].
  - apply embedBatch_map; assumption.
  - apply length_map.
  - intros i t Ht. rewrite nth_error_map, Ht. reflexivity.
Qed.

(** With the modelled [chunkArray] the contract holds for every batch size
    of 1 or more, the default of 10 included. *)
Lemma embedBatch_modelled_chunkArray
  (Vector : Type) (embed : jsstring -> Completion Vector) (emb : jsstring -> Vector)
  (this : OllamaBackend) (texts : list jsstring) (schedule : list (list nat)) :
  (1 <= batchSize this)%Z ->
  (forall t, In t texts -> embed t = Normal (emb t)) ->
  completes (chunkArray texts (batchSize this)) schedule ->
  embedBatch embed chunkArray this texts schedule = Some (Normal (map emb texts)).
Proof.
  intros Hsize Hok Hsched. apply embedBatch_map; auto.
  apply chunkArray_concat. exact Hsize.
Qed.

Lemma newOllamaBackend_default_batchSize (model baseUrl : option jsstring) :
  batchSize (newOllamaBackend {| configModel := model; configBaseUrl := baseUrl;
                                 configBatchSize := None |}) = 10%Z.
Proof. reflexivity. Qed.

Lemma embedBatch_in_input_order_witness :
  let this := newOllamaBackend
                {| configModel := None; configBaseUrl := None;
                   configBatchSize := Some 2%Z |} in
  let texts := [lit "alpha"; lit "be"; lit "gam"] in
  embedBatch (fun t => Normal (length t)) chunkArray this texts [[1; 0]; [0]] =
  Some (Normal [5; 2; 3]).
Proof.
  intros this texts.
  destruct (embedBatch_in_input_order nat (fun t => Normal (length t))
              (@length ascii) this texts) as [Hsplit Hbatch].
  - unfold this. cbn. lia.
  - intros t _. reflexivity.
  - destruct (Hbatch chunkArray [[1; 0]; [0]] Hsplit) as [vectors [Hrun [Heq _]]].
    + repeat constructor.
    + rewrite Hrun, Heq. reflexivity.
Defined.

(** A request that fails makes the whole batch fail: no list is returned. *)
Lemma promiseAll_rejects {A : Type} (outcomes : list (Completion A))
  (order : list nat) (i : nat) (e : JSError) :
  In i order -> nth_error outcomes i = Some (Throw e) ->
  exists e', promiseAll outcomes order = Some (Throw e').
Proof.
  intros Hin Hi. unfold promiseAll.
  generalize (repeat (@None A) (length outcomes)) as slots.
  induction order as [|j order IH]; intros slots; [contradiction |].
  cbn [settle].
  destruct (nth_error outcomes j) as [[v|e']|] eqn:Hj.
  - destruct Hin as [-> | Hin]; [congruence | apply IH; exact Hin].
  - exists e'. reflexivity.
  - destruct Hin as [-> | Hin]; [congruence | apply IH; exact Hin].
Qed.

End EmbeddingsFacts.

(** ** The keyword score *)

Section CharacterFacts.
Import JS.

Lemma allChars_complete (c : ascii) : In c allChars.
Proof.
  unfold allChars. rewrite <- (ascii_nat_embedding c).
  apply in_map. apply in_seq.
  pose proof (nat_ascii_bounded c). lia.
Qed.

(** A property of characters that a computation confirms on all 256. *)
Lemma forall_chars (P : ascii -> bool) :
  forallb P allChars = true -> forall c, P c = true.
Proof.
  intros H c. rewrite forallb_forall in H. apply H. apply allChars_complete.
Qed.

Lemma forall_chars2 (P : ascii -> ascii -> bool) :
  forallb (fun a => forallb (P a) allChars) allChars = true ->
  forall a b, P a b = true.
Proof.
  intros H a b.
  apply (forall_chars (P a)). revert a. apply forall_chars. exact H.
Qed.

Lemma toLowerCaseChar_idempotent (c : ascii) :
  toLowerCaseChar (toLowerCaseChar c) = toLowerCaseChar c.
Proof.
  apply Ascii.eqb_eq. revert c. apply forall_chars. vm_compute. reflexivity.
Qed.

Lemma toLowerCase_idempotent (s : jsstring) :
  toLowerCase (toLowerCase s) = toLowerCase s.
Proof.
  unfold toLowerCase. rewrite map_map. apply map_ext.
  apply toLowerCaseChar_idempotent.
Qed.

Lemma isWhiteSpace_toLowerCaseChar (c : ascii) :
  isWhiteSpace (toLowerCaseChar c) = isWhiteSpace c.
Proof.
  apply eqb_prop. revert c. apply forall_chars. vm_compute. reflexivity.
Qed.

(** The case folding of the [i] flag and [toLowerCase] identify the same
    characters. *)
Lemma canonicalize_sameLetter (a b : ascii) :
  (RegExp.canonicalize a =? RegExp.canonicalize b)%N = HybridSearch.sameLetter a b.
Proof.
  apply eqb_prop. revert a b. apply forall_chars2. vm_compute. reflexivity.
Qed.

(** A character that is not a syntax character is read as itself. *)
Lemma plain_char_tests (c : ascii) :
  RegExp.isSyntaxCharacter c = false ->
  RegExp.isOneOf "\" c = false /\ RegExp.isOneOf "." c = false /\
  RegExp.isOneOf "*+?" c = false /\ RegExp.isOneOf ")" c = false /\
  RegExp.isOneOf "(" c = false /\ RegExp.isOneOf "[{|^$" c = false.
Proof.
  intros H.
  assert (Hall : (RegExp.isSyntaxCharacter c ||
                  negb (RegExp.isOneOf "\" c || RegExp.isOneOf "." c ||
                        RegExp.isOneOf "*+?" c || RegExp.isOneOf ")" c ||
                        RegExp.isOneOf "(" c || RegExp.isOneOf "[{|^$" c)) = true).
  { revert c H. intros c _. revert c. apply forall_chars. vm_compute. reflexivity. }
  rewrite H in Hall. simpl in Hall. apply negb_true_iff in Hall.
  do 5 (apply orb_false_iff in Hall; destruct Hall as [Hall ?]).
  repeat split; assumption.
Qed.

End CharacterFacts.

Section TokenFacts.
Import JS HybridSearch.

Lemma split_tokens_from (s : jsstring) :
  forall (cur : jsstring) (inRun : bool),
    (inRun = true -> cur = []) ->
    filter longerThan2 (splitWhitespaceFrom cur inRun s) =
    filter longerThan2 (tokensFrom cur s).
Proof.
  induction s as [|c s IH]; intros cur inRun Hrun.
  - simpl. destruct cur; reflexivity.
  - cbn [splitWhitespaceFrom tokensFrom].
    destruct (isWhiteSpace c).
    + destruct inRun.
      * rewrite (Hrun eq_refl). apply IH. auto.
      * destruct cur as [|x cur].
        -- cbn [filter rev longerThan2 length Nat.ltb Nat.leb]. apply IH. auto.
        -- cbn [filter]. rewrite (IH [] true); auto.
    + apply IH. discriminate.
Qed.

Lemma tokensFrom_toLowerCase (s : jsstring) :
  forall cur : jsstring,
    tokensFrom (toLowerCase cur) (toLowerCase s) =
    map toLowerCase (tokensFrom cur s).
Proof.
  unfold toLowerCase.
  induction s as [|c s IH]; intros cur.
  - destruct cur; [reflexivity |]. cbn [map tokensFrom].
    rewrite map_rev. reflexivity.
  - cbn [map tokensFrom]. rewrite isWhiteSpace_toLowerCaseChar.
    destruct (isWhiteSpace c).
    + destruct cur as [|x cur]; cbn [map].
      * apply (IH []).
      * rewrite <- (IH []). rewrite map_rev. reflexivity.
    + apply (IH (c :: cur)).
Qed.

(** The terms the code works on are the terms of the specification: the
    lowercased whitespace-separated tokens longer than 2. *)
Lemma queryTermsOf_specTerms (query : jsstring) :
  queryTermsOf query = specTerms query.
Proof.
  unfold queryTermsOf, specTerms, splitWhitespace, tokens.
  rewrite split_tokens_from by discriminate.
  change (tokensFrom [] (toLowerCase query))
    with (tokensFrom (toLowerCase []) (toLowerCase query)).
  rewrite (tokensFrom_toLowerCase query []).
  generalize (tokensFrom [] query) as l.
  induction l as [|t l IH]; [reflexivity |].
  cbn [map filter].
  assert (Hlen : longerThan2 (toLowerCase t) = longerThan2 t).
  { unfold longerThan2, toLowerCase. rewrite length_map. reflexivity. }
  rewrite Hlen. destruct (longerThan2 t); cbn [map]; rewrite IH; reflexivity.
Qed.

Lemma queryTerms_lowercase (query : jsstring) :
  Forall (fun t => toLowerCase t = t) (queryTermsOf query).
Proof.
  rewrite queryTermsOf_specTerms. unfold specTerms.
  apply Forall_forall. intros t Ht.
  apply in_map_iff in Ht. destruct Ht as [u [<- _]].
  apply toLowerCase_idempotent.
Qed.

End TokenFacts.

Section RegExpFacts.
Import JS RegExp HybridSearch.

Lemma parseFrom_plain (term : jsstring) :
  plainTerm term = true ->
  forall quantifiable,
    parseFrom quantifiable (term ++ lit "\b") =
    Nodes (map Char term ++ [WordBoundary]).
Proof.
  induction term as [|c term IH]; intros Hplain quantifiable.
  - reflexivity.
  - cbn [plainTerm forallb] in Hplain.
    apply andb_true_iff in Hplain. destruct Hplain as [Hc Hterm].
    apply negb_true_iff in Hc.
    destruct (plain_char_tests c Hc) as [H1 [H2 [H3 [H4 [H5 H6]]]]].
    cbn [app parseFrom]. rewrite H1, H2, H3, H4, H5, H6.
    rewrite (IH Hterm true). reflexivity.
Qed.

(** The regular expression built from a plain term is the term between two
    word boundaries. *)
Lemma RegExp_plain (term : jsstring) :
  plainTerm term = true ->
  RegExp (lit "\b" ++ term ++ lit "\b") =
  Some (Normal {| nodes := WordBoundary :: map Char term ++ [WordBoundary] |}).
Proof.
  intros Hplain. unfold RegExp.
  change (lit "\b" ++ term ++ lit "\b")
    with ("\"%char :: "b"%char :: (term ++ lit "\b")).
  cbn [parseFrom]. 
  change (isOneOf "\" "\"%char) with true.
  change (isOneOf "b" "b"%char) with true.
  cbv iota. rewrite (parseFrom_plain term Hplain false). reflexivity.
Qed.

Lemma last_cons {A : Type} (a d : A) (l : list A) : last (a :: l) d = last l a.
Proof.
  revert a d. induction l as [|b l IH]; intros a d; [reflexivity |].
  change (last (a :: b :: l) d) with (last (b :: l) d).
  rewrite (IH b d), (IH b a). reflexivity.
Qed.

Lemma sameLetter_sym (a b : ascii) : sameLetter a b = sameLetter b a.
Proof. unfold sameLetter. apply Ascii.eqb_sym. Qed.

Lemma matchNodes_literal (term : jsstring) :
  forall (prev : option ascii) (s : jsstring),
    matchNodes (map Char term ++ [WordBoundary]) prev s =
    startsWithIgnoreCase term s &&
    boundaryBetween (last (map Some (firstn (length term) s)) prev)
                    (head (skipn (length term) s)).
Proof.
  induction term as [|c term IH]; intros prev s.
  - cbn. rewrite andb_true_r. reflexivity.
  - destruct s as [|x s]; [reflexivity |].
    cbn [map app matchNodes startsWithIgnoreCase length firstn skipn].
    rewrite IH, canonicalize_sameLetter, last_cons, (sameLetter_sym x c).
    rewrite andb_assoc. reflexivity.
Qed.

(** On a plain term the test of the regular expression is the whole-word
    match of the specification. *)
Lemma test_plain (term content : jsstring) :
  test {| nodes := WordBoundary :: map Char term ++ [WordBoundary] |} content =
  wholeWordMatch term content.
Proof.
  unfold test, wholeWordMatch. cbn [nodes].
  generalize (@None ascii) as prev.
  induction content as [|x content IH]; intros prev.
  - cbn [searchFrom wholeWordFrom matchNodes]. rewrite matchNodes_literal.
    unfold wholeWordHere. rewrite andb_assoc. reflexivity.
  - cbn [searchFrom wholeWordFrom matchNodes]. rewrite matchNodes_literal, IH.
    unfold wholeWordHere. rewrite andb_assoc. reflexivity.
Qed.

Lemma startsWith_lower (term : jsstring) :
  toLowerCase term = term ->
  forall s, startsWith term (toLowerCase s) = startsWithIgnoreCase term s.
Proof.
  induction term as [|c term IH]; intros Hlow s.
  - destruct s; reflexivity.
  - injection Hlow as Hc Hterm.
    destruct s as [|x s]; [reflexivity |].
    cbn [toLowerCase map startsWith startsWithIgnoreCase].
    change (map toLowerCaseChar s) with (toLowerCase s).
    rewrite (IH Hterm). unfold sameLetter. rewrite Hc. reflexivity.
Qed.

(** [contentLower.includes(term)], for a lowercased term, is the
    case-insensitive substring test. *)
Lemma includes_lower (term : jsstring) :
  toLowerCase term = term ->
  forall s, includes (toLowerCase s) term = occursIgnoreCase term s.
Proof.
  intros Hlow. induction s as [|x s IH].
  - cbn [toLowerCase map includes occursIgnoreCase].
    rewrite <- (startsWith_lower term Hlow []). reflexivity.
  - cbn [toLowerCase map includes occursIgnoreCase].
    change (map toLowerCaseChar s) with (toLowerCase s).
    rewrite IH, <- (startsWith_lower term Hlow (x :: s)). reflexivity.
Qed.

End RegExpFacts.

Section KeywordScoreFacts.
Import JS RegExp HybridSearch.
Local Open Scope Q_scope.

(** One round of the loop on a plain, lowercased term. *)
Lemma scoreTerm_plain (content filepath term : jsstring) (st : Counters) :
  plainTerm term = true -> toLowerCase term = term ->
  scoreTerm content (toLowerCase content) (toLowerCase filepath) st term =
  Some (Normal
    {| matchCount :=
         (if occursIgnoreCase term filepath
          then (if occursIgnoreCase term content
                then matchCount st + 1 else matchCount st) + (1 # 2)
          else (if occursIgnoreCase term content
                then matchCount st + 1 else matchCount st));
       exactMatchBonus :=
         (if occursIgnoreCase term content && wholeWordMatch term content
          then exactMatchBonus st + (1 # 2) else exactMatchBonus st) |}).
Proof.
  intros Hplain Hlow. unfold scoreTerm.
  rewrite !(includes_lower term Hlow), (RegExp_plain term Hplain).
  destruct (occursIgnoreCase term content); cbn [andThen ret andb];
    [rewrite test_plain |]; cbn [matchCount exactMatchBonus]; reflexivity.
Qed.

Lemma scoreTerms_plain (content filepath : jsstring) (terms : list jsstring) :
  Forall (fun t => plainTerm t = true) terms ->
  Forall (fun t => toLowerCase t = t) terms ->
  forall st, exists st',
    scoreTerms content (toLowerCase content) (toLowerCase filepath) terms st =
      Some (Normal st') /\
    matchCount st' == matchCount st + specMatchCount terms content filepath /\
    exactMatchBonus st' == exactMatchBonus st + specExactBonus terms content.
Proof.
  induction terms as [|t terms IH]; intros Hplain Hlow st.
  - exists st. split; [reflexivity |].
    unfold specMatchCount, specExactBonus. cbn [map sumQ]. split; ring.
  - inversion Hplain as [|? ? Ht Hts]; inversion Hlow as [|? ? Hl Hls]; subst.
    cbn [scoreTerms]. rewrite (scoreTerm_plain content filepath t st Ht Hl).
    cbn [andThen].
    destruct (IH Hts Hls
      {| matchCount :=
         (if occursIgnoreCase t filepath
          then (if occursIgnoreCase t content
                then matchCount st + 1 else matchCount st) + (1 # 2)
          else (if occursIgnoreCase t content
                then matchCount st + 1 else matchCount st));
       exactMatchBonus :=
         (if occursIgnoreCase t content && wholeWordMatch t content
          then exactMatchBonus st + (1 # 2) else exactMatchBonus st) |})
      as [st' [Hrun [Hm He]]].
    exists st'. split; [exact Hrun |].
    cbn [matchCount exactMatchBonus] in Hm, He.
    unfold specMatchCount, specExactBonus in *. cbn [map sumQ].
    rewrite Hm, He.
    destruct (occursIgnoreCase t filepath), (occursIgnoreCase t content),
             (wholeWordMatch t content); cbn [andb]; split; ring.
Qed.

Lemma lengthQ_pos {A : Type} (l : list A) : l <> [] -> 0 < lengthQ l.
Proof.
  intros Hne. unfold lengthQ.
  destruct l as [|x l']; [contradiction |].
  unfold Qlt. cbn. lia.
Qed.

Lemma length_eqb_0 {A : Type} (l : list A) :
  l <> [] -> (length l =? 0)%nat = false.
Proof. destruct l; [contradiction | reflexivity]. Qed.

(** On queries whose terms contain no syntax character of the pattern
    grammar, the code computes the score of the specification. *)
Lemma calculateKeywordScore_plain_terms (query content filepath : jsstring) :
  specTerms query <> [] ->
  Forall (fun t => plainTerm t = true) (specTerms query) ->
  exists score,
    calculateKeywordScore query content filepath = Some (Normal score) /\
    score == specKeywordScore query content filepath.
Proof.
  intros Hne Hplain.
  unfold calculateKeywordScore, specKeywordScore.
  pose proof (queryTerms_lowercase query) as Hlow.
  rewrite (queryTermsOf_specTerms query) in *.
  rewrite (length_eqb_0 _ Hne).
  destruct (scoreTerms_plain content filepath _ Hplain Hlow
              {| matchCount := 0; exactMatchBonus := 0 |})
    as [st' [Hrun [Hm He]]].
  rewrite Hrun. cbn [andThen ret matchCount exactMatchBonus] in *.
  eexists. split; [reflexivity |].
  rewrite Hm, He, !Qplus_0_l.
  rewrite Q.min_comm.
  rewrite (Q.min_comm (specExactBonus (specTerms query) content /
                       lengthQ (specTerms query)) (1 # 2)).
  reflexivity.
Qed.

Lemma scoreTerm_nonneg (content contentLower filepathLower term : jsstring)
  (st st' : Counters) :
  scoreTerm content contentLower filepathLower st term = Some (Normal st') ->
  0 <= matchCount st -> 0 <= exactMatchBonus st ->
  0 <= matchCount st' /\ 0 <= exactMatchBonus st'.
Proof.
  unfold scoreTerm. intros Hrun Hm He.
  destruct (includes contentLower term).
  - destruct (RegExp.RegExp _) as [[re|e]|]; cbn [andThen ret] in Hrun;
      try discriminate.
    injection Hrun as <-. cbn [matchCount exactMatchBonus].
    destruct (includes filepathLower term), (test re content); split; lra.
  - cbn [andThen ret] in Hrun. injection Hrun as <-.
    cbn [matchCount exactMatchBonus].
    destruct (includes filepathLower term); split; lra.
Qed.

Lemma scoreTerms_nonneg (content contentLower filepathLower : jsstring)
  (terms : list jsstring) :
  forall st st',
    scoreTerms content contentLower filepathLower terms st = Some (Normal st') ->
    0 <= matchCount st -> 0 <= exactMatchBonus st ->
    0 <= matchCount st' /\ 0 <= exactMatchBonus st'.
Proof.
  induction terms as [|t terms IH]; intros st st' Hrun Hm He.
  - injection Hrun as <-. split; assumption.
  - cbn [scoreTerms] in Hrun.
    destruct (scoreTerm content contentLower filepathLower st t)
      as [[st1|e]|] eqn:H1; cbn [andThen] in Hrun; try discriminate.
    destruct (scoreTerm_nonneg _ _ _ _ _ _ H1 Hm He) as [Hm1 He1].
    exact (IH st1 st' Hrun Hm1 He1).
Qed.

Lemma Qdiv_nonneg (a b : Q) : 0 <= a -> 0 < b -> 0 <= a / b.
Proof.
  intros Ha Hb. apply Qle_shift_div_l; [exact Hb | lra].
Qed.

(** Whenever the code returns a score, it lies in [0,1]. *)
Lemma calculateKeywordScore_range (query content filepath : jsstring) (score : Q) :
  calculateKeywordScore query content filepath = Some (Normal score) ->
  0 <= score <= 1.
Proof.
  unfold calculateKeywordScore. intros Hrun.
  destruct (queryTermsOf query) as [|t terms] eqn:Hterms.
  - cbn in Hrun. injection Hrun as <-. split; lra.
  - cbn [length Nat.eqb] in Hrun.
    destruct (scoreTerms _ _ _ _ _) as [[st|e]|] eqn:Hloop;
      cbn [andThen ret] in Hrun; try discriminate.
    injection Hrun as <-.
    destruct (scoreTerms_nonneg _ _ _ _ _ _ Hloop) as [Hm He];
      cbn [matchCount exactMatchBonus]; try lra.
    assert (Hlen : 0 < lengthQ (t :: terms)) by (apply lengthQ_pos; discriminate).
    split.
    + apply Q.min_glb; [| lra].
      assert (0 <= matchCount st / lengthQ (t :: terms))
        by (apply Qdiv_nonneg; assumption).
      assert (0 <= Qmin (exactMatchBonus st / lengthQ (t :: terms)) (1 # 2)).
      { apply Q.min_glb; [apply Qdiv_nonneg; assumption | lra]. }
      lra.
    + apply Q.le_min_r.
Qed.

(** A query without a term longer than 2 characters scores 0, and the
    division by the number of terms is not reached. *)
Lemma calculateKeywordScore_no_terms (query content filepath : jsstring) :
  specTerms query = [] ->
  calculateKeywordScore query content filepath = Some (Normal 0).
Proof.
  intros Hnone. unfold calculateKeywordScore.
  rewrite queryTermsOf_specTerms, Hnone. reflexivity.
Qed.

(** The cases of the test suite. *)
Example calculateKeywordScore_tests :
  (exists s, calculateKeywordScore (lit "hello world") (lit "foo bar")
               (lit "test.ts") = Some (Normal s) /\ s == 0) /\
  calculateKeywordScore (lit "a ab") (lit "a ab") (lit "test.ts")
    = Some (Normal 0) /\
  calculateKeywordScore (lit "") (lit "some content") (lit "test.ts")
    = Some (Normal 0) /\
  (exists s, calculateKeywordScore (lit "hello world")
               (lit "hello world function") (lit "test.ts") = Some (Normal s)
             /\ s == 1) /\
  (exists s, calculateKeywordScore (lit "auth user login") (lit "auth only")
               (lit "test.ts") = Some (Normal s) /\ s == 1 # 2).
Proof.
  split; [| split; [| split; [| split]]];
    try (vm_compute; reflexivity);
    eexists; (split; [vm_compute; reflexivity | reflexivity]).
Qed.

(** C1: the code interpolates the term into the regular expression without
    escaping it, so a dot in a term matches any character.  For the query
    "v1.2 release" and the content "rev1.2 v1x2" the code finds a whole-word
    match ("v1x2") and returns 3/4; the term "v1.2" itself has no whole-word
    match in the content, and the score of the specification is 1/2. *)
Theorem calculateKeywordScore_dot_is_wildcard :
  let query := lit "v1.2 release" in
  let content := lit "rev1.2 v1x2" in
  let filepath := lit "notes.md" in
  exists score,
    calculateKeywordScore query content filepath = Some (Normal score) /\
    score == 3 # 4 /\
    specKeywordScore query content filepath == 1 # 2.
Proof.
  eexists. split; [vm_compute; reflexivity |].
  split; vm_compute; reflexivity.
Qed.

(** C8: the code interpolates the term into the regular expression without
    escaping it, so a term with an opening parenthesis that occurs in the
    content makes [new RegExp] throw a SyntaxError: the call does not return
    a score. *)
Theorem calculateKeywordScore_throws_on_parenthesis :
  calculateKeywordScore (lit "parse(") (lit "x = parse(y)") (lit "main.ts") =
  Some (Throw (SyntaxError (lit "Unterminated group"))).
Proof. vm_compute. reflexivity. Qed.

End KeywordScoreFacts.

(** ** Concept clustering *)

Section SilhouetteFacts.
Import JS Clustering.
Context {num : Type} {N : JSNum num}.

(** C7: with fewer than 2 clusters or fewer than 2 chunks the silhouette
    score is 0, whatever the chunks, the assignment map and the clusters. *)
Theorem calculateSilhouetteScore_degenerate
  (chunks : list (ChunkForClustering num)) (assignments : JSMap jsstring nat)
  (clusters : list (ConceptCluster num)) :
  length clusters < 2 \/ length chunks < 2 ->
  calculateSilhouetteScore chunks assignments clusters = Normal (ofQ 0%Q).
Proof.
  intros H. unfold calculateSilhouetteScore.
  assert (Hguard : (length clusters <=? 1) || (length chunks <=? 1) = true).
  { apply orb_true_iff.
    destruct H as [H | H]; [left | right]; apply Nat.leb_le; lia. }
  rewrite Hguard. reflexivity.
Qed.

End SilhouetteFacts.

Section SilhouetteExamples.
Import JS Clustering ExactNum.
Local Open Scope Q_scope.

(** The test 'should return 0 for single cluster'. *)
Lemma calculateSilhouetteScore_degenerate_witness :
  calculateSilhouetteScore
    [point "a" [1; 0; 0]; point "b" [9 # 10; 1 # 10; 0]]
    [(lit "a", 0%nat); (lit "b", 0%nat)]
    [bareCluster 0 2 [95 # 100; 5 # 100; 0]] = Normal (Finite 0).
Proof.
  refine (calculateSilhouetteScore_degenerate (N := exactNum)
            [point "a" [1; 0; 0]; point "b" [9 # 10; 1 # 10; 0]]
            [(lit "a", 0%nat); (lit "b", 0%nat)]
            [bareCluster 0 2 [95 # 100; 5 # 100; 0]] _).
  left. simpl. lia.
Defined.

(** The test 'should return higher score for well-separated clusters': past
    the guard the score is computed from the distances. *)
Example calculateSilhouetteScore_separated :
  exists score,
    calculateSilhouetteScore
      [point "a1" [1; 0; 0]; point "a2" [99 # 100; 1 # 100; 0];
       point "b1" [0; 1; 0]; point "b2" [1 # 100; 99 # 100; 0]]
      [(lit "a1", 0%nat); (lit "a2", 0%nat); (lit "b1", 1%nat); (lit "b2", 1%nat)]
      [bareCluster 0 2 [1; 0; 0]; bareCluster 1 2 [0; 1; 0]]
    = Normal (Finite score) /\ 1 # 2 < score.
Proof.
  eexists. split; [vm_compute; reflexivity | vm_compute; reflexivity].
Qed.

End SilhouetteExamples.

Section TargetFacts.
Import JS Clustering.
Local Open Scope Z_scope.

(** [ceilSqrtHalf n] is the ceiling of the square root of [n / 2]: the least
    integer [c] with [n / 2 <= c * c]. *)
Lemma ceilSqrtHalf_spec (n : nat) :
  let c := ceilSqrtHalf n in
  0 <= c /\ Z.of_nat n <= 2 * c * c /\
  forall m, 0 <= m -> Z.of_nat n <= 2 * m * m -> c <= m.
Proof.
  unfold ceilSqrtHalf.
  set (a := (Z.of_nat n + 1) / 2).
  assert (Ha : 2 * a <= Z.of_nat n + 1 < 2 * a + 2).
  { unfold a. pose proof (Z.div_mod (Z.of_nat n + 1) 2 ltac:(lia)).
    pose proof (Z.mod_pos_bound (Z.of_nat n + 1) 2 ltac:(lia)). lia. }
  destruct (Z.eq_dec a 0) as [Ha0 | Ha0].
  - rewrite Ha0. change (Z.sqrt_up 0) with 0.
    repeat split; try lia. 
  - assert (Hpos : 0 < a) by lia.
    pose proof (Z.sqrt_up_spec a Hpos) as [Hlo Hhi].
    pose proof (Z.sqrt_up_nonneg a) as Hnn.
    set (c := Z.sqrt_up a) in *.
    unfold Z.pred in Hlo.
    repeat split; try lia.
    intros m Hm Hn.
    destruct (Z_lt_le_dec m c) as [Hlt | Hge]; [| exact Hge].
    exfalso.
    assert (m * m <= (c - 1) * (c - 1)) by nia.
    replace (c + -1) with (c - 1) in Hlo by lia.
    nia.
Qed.

End TargetFacts.

Section CompletionFacts.
Import JS.

Lemma bind_normal_inv {A B : Type} (c : Completion A) (k : A -> Completion B) (b : B) :
  bind c k = Normal b -> exists a, c = Normal a /\ k a = Normal b.
Proof.
  destruct c as [a|e]; simpl; intros H; [eauto | discriminate].
Qed.

Lemma mapM_normal_inv {A B : Type} (f : A -> Completion B) (xs : list A) :
  forall ys, mapM f xs = Normal ys -> Forall2 (fun x y => f x = Normal y) xs ys.
Proof.
  induction xs as [|x xs IH]; intros ys H.
  - injection H as <-. constructor.
  - cbn [mapM] in H.
    apply bind_normal_inv in H. destruct H as [y [Hy H]].
    apply bind_normal_inv in H. destruct H as [ys' [Hys H]].
    injection H as <-. constructor; auto.
Qed.

Lemma mapM_length {A B : Type} (f : A -> Completion B) (xs : list A) (ys : list B) :
  mapM f xs = Normal ys -> length ys = length xs.
Proof.
  intros H. apply mapM_normal_inv in H.
  symmetry. exact (Forall2_length H).
Qed.

Lemma mapM_total {A B : Type} (f : A -> Completion B) (xs : list A) :
  (forall x, In x xs -> exists y, f x = Normal y) ->
  exists ys, mapM f xs = Normal ys.
Proof.
  induction xs as [|x xs IH]; intros H.
  - exists []. reflexivity.
  - destruct (H x (or_introl eq_refl)) as [y Hy].
    destruct IH as [ys Hys]. { intros x' Hx'. apply H. right. exact Hx'. }
    exists (y :: ys). cbn [mapM]. rewrite Hy. cbn [bind]. rewrite Hys. reflexivity.
Qed.

(** A loop whose body keeps an invariant of the state, when it returns. *)
Lemma forOf_invariant {A S : Type} (body : S -> A -> Completion S)
  (I : S -> Prop) (xs : list A) :
  (forall s x s', In x xs -> I s -> body s x = Normal s' -> I s') ->
  forall s s', I s -> forOf body xs s = Normal s' -> I s'.
Proof.
  induction xs as [|x xs IH]; intros Hbody s s' Hs Hrun.
  - injection Hrun as <-. exact Hs.
  - cbn [forOf] in Hrun. apply bind_normal_inv in Hrun.
    destruct Hrun as [s1 [H1 Hrun]].
    apply (IH (fun s x s' Hx => Hbody s x s' (or_intror Hx)) s1 s'); auto.
    apply (Hbody s x s1); auto. left. reflexivity.
Qed.

Lemma forOf_total {A S : Type} (body : S -> A -> Completion S)
  (I : S -> Prop) (xs : list A) :
  (forall s x, In x xs -> I s -> exists s', body s x = Normal s' /\ I s') ->
  forall s, I s -> exists s', forOf body xs s = Normal s' /\ I s'.
Proof.
  induction xs as [|x xs IH]; intros Hbody s Hs.
  - exists s. split; [reflexivity | exact Hs].
  - destruct (Hbody s x (or_introl eq_refl) Hs) as [s1 [H1 Hs1]].
    destruct (IH (fun s x Hx => Hbody s x (or_intror Hx)) s1 Hs1) as [s' [Hrun Hs']].
    exists s'. cbn [forOf]. rewrite H1. cbn [bind]. auto.
Qed.

Lemma throwsOnly_normal {A : Type} (P : JSError -> Prop) (a : A) :
  throwsOnly P (Normal a).
Proof. intros e H. discriminate. Qed.

Lemma throwsOnly_throw {A : Type} (P : JSError -> Prop) (e : JSError) :
  P e -> throwsOnly P (@Throw A e).
Proof. intros He e' H. injection H as <-. exact He. Qed.

Lemma throwsOnly_bind {A B : Type} (P : JSError -> Prop)
  (c : Completion A) (k : A -> Completion B) :
  throwsOnly P c -> (forall a, c = Normal a -> throwsOnly P (k a)) ->
  throwsOnly P (bind c k).
Proof.
  intros Hc Hk e H. destruct c as [a|e']; simpl in H.
  - exact (Hk a eq_refl e H).
  - injection H as <-. apply Hc. reflexivity.
Qed.

Lemma throwsOnly_forOf {A S : Type} (P : JSError -> Prop)
  (body : S -> A -> Completion S) (xs : list A) :
  (forall s x, throwsOnly P (body s x)) ->
  forall s, throwsOnly P (forOf body xs s).
Proof.
  intros Hbody. induction xs as [|x xs IH]; intros s.
  - apply throwsOnly_normal.
  - cbn [forOf]. apply throwsOnly_bind; auto.
Qed.

Lemma throwsOnly_mapM {A B : Type} (P : JSError -> Prop)
  (f : A -> Completion B) (xs : list A) :
  (forall x, throwsOnly P (f x)) -> throwsOnly P (mapM f xs).
Proof.
  intros Hf. induction xs as [|x xs IH].
  - apply throwsOnly_normal.
  - cbn [mapM]. apply throwsOnly_bind; auto.
    intros y _. apply throwsOnly_bind; auto.
    intros ys _. apply throwsOnly_normal.
Qed.

End CompletionFacts.

Section MapFacts.
Import JS.
Context {K V : Type} (keyEq : K -> K -> bool).
Hypothesis keyEq_spec : forall a b, keyEq a b = true <-> a = b.

Lemma keyEq_refl (k : K) : keyEq k k = true.
Proof. apply keyEq_spec. reflexivity. Qed.

Lemma keyEq_neq (a b : K) : a <> b -> keyEq a b = false.
Proof.
  intros Hne. destruct (keyEq a b) eqn:H; [| reflexivity].
  apply keyEq_spec in H. contradiction.
Qed.

Lemma mapSet_fresh (m : JSMap K V) (k : K) (v : V) :
  ~ In k (mapKeys m) -> mapSet keyEq m k v = m ++ [(k, v)].
Proof.
  induction m as [|[k' v'] m IH]; intros Hnin; [reflexivity |].
  cbn [mapSet app]. rewrite keyEq_neq.
  - rewrite IH; [reflexivity |]. intros Hin. apply Hnin. right. exact Hin.
  - intros ->. apply Hnin. left. reflexivity.
Qed.

Lemma mapSet_present (P R : JSMap K V) (k : K) (v v' : V) :
  ~ In k (mapKeys P) ->
  mapSet keyEq (P ++ (k, v) :: R) k v' = P ++ (k, v') :: R.
Proof.
  induction P as [|[k0 v0] P IH]; intros Hnin.
  - cbn [mapSet app]. rewrite keyEq_refl. reflexivity.
  - cbn [mapSet app]. rewrite keyEq_neq.
    + rewrite IH; [reflexivity |]. intros Hin. apply Hnin. right. exact Hin.
    + intros ->. apply Hnin. left. reflexivity.
Qed.

Lemma mapGet_In (m : JSMap K V) (k : K) (v : V) :
  NoDup (mapKeys m) -> In (k, v) m -> mapGet keyEq m k = Some v.
Proof.
  induction m as [|[k' v'] m IH]; intros Hnd Hin; [contradiction |].
  cbn [mapKeys map fst] in Hnd. inversion Hnd as [|? ? Hk Hnd']; subst.
  cbn [mapGet]. destruct Hin as [Heq | Hin].
  - injection Heq as -> ->. rewrite keyEq_refl. reflexivity.
  - rewrite keyEq_neq; [apply IH; assumption |].
    intros ->. apply Hk. apply (in_map fst) in Hin. exact Hin.
Qed.

Lemma mapGet_Some_In (m : JSMap K V) (k : K) (v : V) :
  mapGet keyEq m k = Some v -> In (k, v) m.
Proof.
  induction m as [|[k' v'] m IH]; intros H; [discriminate |].
  cbn [mapGet] in H. destruct (keyEq k' k) eqn:Hk.
  - apply keyEq_spec in Hk. injection H as ->. subst. left. reflexivity.
  - right. apply IH. exact H.
Qed.

Lemma mapGet_key_In (m : JSMap K V) (k : K) :
  In k (mapKeys m) -> exists v, mapGet keyEq m k = Some v.
Proof.
  induction m as [|[k' v'] m IH]; intros Hin; [contradiction |].
  cbn [mapGet]. destruct (keyEq k' k) eqn:Hk; [eauto |].
  destruct Hin as [Heq | Hin]; [| apply IH; exact Hin].
  simpl in Heq. subst. rewrite keyEq_refl in Hk. discriminate.
Qed.

Lemma mapSet_keys_incl (m : JSMap K V) (k k' : K) (v : V) :
  In k' (mapKeys m) -> In k' (mapKeys (mapSet keyEq m k v)).
Proof.
  induction m as [|[k0 v0] m IH]; intros Hin; [contradiction |].
  cbn [mapSet]. destruct (keyEq k0 k); cbn [mapKeys map fst] in *.
  - exact Hin.
  - destruct Hin as [-> | Hin]; [left; reflexivity | right; apply IH; exact Hin].
Qed.

Lemma mapSet_key_In (m : JSMap K V) (k : K) (v : V) :
  In k (mapKeys (mapSet keyEq m k v)).
Proof.
  induction m as [|[k0 v0] m IH]; [left; reflexivity |].
  cbn [mapSet]. destruct (keyEq k0 k) eqn:Hk; cbn [mapKeys map fst].
  - apply keyEq_spec in Hk. left. exact Hk.
  - right. exact IH.
Qed.

Lemma mapSet_values (P : V -> Prop) (m : JSMap K V) (k : K) (v : V) :
  P v -> (forall k' v', In (k', v') m -> P v') ->
  forall k' v', In (k', v') (mapSet keyEq m k v) -> P v'.
Proof.
  intros Hv. induction m as [|[k0 v0] m IH]; intros Hm k' v' Hin.
  - destruct Hin as [Heq | []]. injection Heq as <- <-. exact Hv.
  - cbn [mapSet] in Hin. destruct (keyEq k0 k).
    + destruct Hin as [Heq | Hin].
      * injection Heq as <- <-. exact Hv.
      * apply (Hm k' v'). right. exact Hin.
    + destruct Hin as [Heq | Hin].
      * apply (Hm k' v'). left. exact Heq.
      * apply (IH (fun a b H => Hm a b (or_intror H)) k' v' Hin).
Qed.

(** Filling a map with entries whose keys are new and distinct. *)
Lemma fold_mapSet_fresh {X : Type} (key : X -> K) (val : X -> V) (l : list X) :
  forall m0 : JSMap K V,
    NoDup (map key l) ->
    (forall x, In x l -> ~ In (key x) (mapKeys m0)) ->
    fold_left (fun m x => mapSet keyEq m (key x) (val x)) l m0 =
    m0 ++ map (fun x => (key x, val x)) l.
Proof.
  induction l as [|x l IH]; intros m0 Hnd Hfresh.
  - cbn. rewrite app_nil_r. reflexivity.
  - cbn [map] in Hnd. inversion Hnd as [|? ? Hx Hnd']; subst.
    cbn [fold_left map].
    rewrite mapSet_fresh by (apply Hfresh; left; reflexivity).
    rewrite IH; auto.
    + rewrite <- app_assoc. reflexivity.
    + intros y Hy Hin. unfold mapKeys in Hin. rewrite map_app in Hin.
      apply in_app_or in Hin. destruct Hin as [Hin | Hin].
      * apply (Hfresh y (or_intror Hy)). exact Hin.
      * destruct Hin as [Heq | []]. simpl in Heq.
        apply Hx. rewrite Heq. apply in_map. exact Hy.
Qed.

(** Filling a map with one value only. *)
Lemma fold_mapSet_const {X : Type} (key : X -> K) (c : V) (l : list X) :
  forall m0 : JSMap K V,
    (forall k v, In (k, v) m0 -> v = c) ->
    let m := fold_left (fun m x => mapSet keyEq m (key x) c) l m0 in
    (forall k v, In (k, v) m -> v = c) /\
    (forall k, In k (mapKeys m0) -> In k (mapKeys m)) /\
    (forall x, In x l -> In (key x) (mapKeys m)).
Proof.
  induction l as [|x l IH]; intros m0 Hm0; cbn zeta.
  - repeat split; auto. intros x [].
  - cbn [fold_left].
    destruct (IH (mapSet keyEq m0 (key x) c)) as [Hv [Hk Hl]].
    { apply mapSet_values; auto. }
    repeat split; auto.
    + intros k Hin. apply Hk. apply mapSet_keys_incl. exact Hin.
    + intros y [<- | Hy]; [apply Hk; apply mapSet_key_In | apply Hl; exact Hy].
Qed.

(** The renumbering loop over an assignment map: each value is replaced
    through [f], where [f] has an answer. *)
Lemma remap_entries (f : V -> option V) (l : JSMap K V) :
  forall P : JSMap K V,
    NoDup (mapKeys (P ++ l)) ->
    fold_left (fun acc entry =>
                 match f (snd entry) with
                 | Some nv => mapSet keyEq acc (fst entry) nv
                 | None => acc
                 end) l (P ++ l) =
    P ++ map (fun e => (fst e, match f (snd e) with
                               | Some nv => nv
                               | None => snd e
                               end)) l.
Proof.
  induction l as [|[k v] l IH]; intros P Hnd; [reflexivity |].
  assert (HkP : ~ In k (mapKeys P)).
  { unfold mapKeys in *. rewrite map_app in Hnd. cbn [map fst] in Hnd.
    apply NoDup_remove_2 in Hnd. intros Hin. apply Hnd.
    apply in_or_app. left. exact Hin. }
  cbn [fold_left map fst snd].
  assert (Hstep : forall nv,
    fold_left (fun acc entry =>
                 match f (snd entry) with
                 | Some nv => mapSet keyEq acc (fst entry) nv
                 | None => acc
                 end) l (P ++ (k, nv) :: l) =
    P ++ (k, nv) :: map (fun e => (fst e, match f (snd e) with
                               | Some nv => nv
                               | None => snd e
                               end)) l).
  { intros nv.
    change (P ++ (k, nv) :: l) with (P ++ [(k, nv)] ++ l).
    rewrite app_assoc. rewrite IH.
    - rewrite <- app_assoc. reflexivity.
    - rewrite <- app_assoc. cbn [app].
      unfold mapKeys in *. rewrite map_app in *. cbn [map fst] in *.
      exact Hnd. }
  destruct (f v) as [nv|].
  - rewrite mapSet_present by exact HkP. apply Hstep.
  - apply Hstep.
Qed.

End MapFacts.

Section SortFacts.
Import JS.
Context {A : Type} (key : A -> nat).

#[local] Abbreviation larger := (fun a b : A => key b <? key a).
#[local] Abbreviation descending := (fun a b : A => key b <= key a).

Lemma insertStable_perm (before : A -> A -> bool) (x : A) (l : list A) :
  Permutation (insertStable before x l) (x :: l).
Proof.
  induction l as [|y l IH]; [reflexivity |].
  cbn [insertStable]. destruct (before y x); [| reflexivity].
  rewrite IH. apply perm_swap.
Qed.

Lemma stableSort_perm (before : A -> A -> bool) (l : list A) :
  Permutation (stableSort before l) l.
Proof.
  induction l as [|x l IH]; [reflexivity |].
  cbn [stableSort]. rewrite insertStable_perm. constructor. exact IH.
Qed.

Lemma insertStable_descending (x : A) (l : list A) :
  StronglySorted descending l ->
  StronglySorted descending (insertStable larger x l).
Proof.
  induction l as [|y l IH]; intros Hs.
  - repeat constructor.
  - inversion Hs as [|? ? Hl Hy]; subst.
    cbn [insertStable].
    destruct (key x <? key y) eqn:Hxy.
    + apply Nat.ltb_lt in Hxy. constructor; [apply IH; exact Hl |].
      apply Forall_forall. intros z Hz.
      apply (Permutation_in _ (insertStable_perm larger x l)) in Hz.
      destruct Hz as [<- | Hz]; [lia |].
      rewrite Forall_forall in Hy. apply Hy. exact Hz.
    + apply Nat.ltb_ge in Hxy. constructor; [exact Hs |].
      constructor; [exact Hxy |].
      rewrite Forall_forall in Hy |- *. intros z Hz.
      specialize (Hy z Hz). cbv beta in *. lia.
Qed.

Lemma stableSort_descending (l : list A) :
  StronglySorted descending (stableSort larger l).
Proof.
  induction l as [|x l IH]; [constructor |].
  cbn [stableSort]. apply insertStable_descending. exact IH.
Qed.

End SortFacts.

Section ResultFacts.
Import JS Clustering.
Context {num : Type} {N : JSNum num}.

#[local] Abbreviation Chunk := (ChunkForClustering num).
#[local] Abbreviation Cluster := (ConceptCluster num).

Lemma streq_spec (a b : jsstring) : streq a b = true <-> a = b.
Proof.
  unfold streq. destruct (list_eq_dec ascii_dec a b); split; intros H;
    try reflexivity; try assumption; try discriminate; contradiction.
Qed.

Lemma nat_eqb_spec (a b : nat) : Nat.eqb a b = true <-> a = b.
Proof. apply Nat.eqb_eq. Qed.

Lemma membersOf_length {A : Type} (c : nat) (clusterAssignments : list nat) :
  forall items : list A,
    length clusterAssignments = length items ->
    length (membersOf c clusterAssignments items) = countOf c clusterAssignments.
Proof.
  unfold membersOf, countOf.
  induction clusterAssignments as [|a ca IH]; intros [|x items] Hlen;
    simpl in Hlen; try discriminate; [reflexivity |].
  cbn [combine filter fst]. specialize (IH items ltac:(lia)).
  destruct (a =? c); cbn [map length]; rewrite IH; reflexivity.
Qed.

(** The cluster objects the loop creates: one per cluster index that has
    members, with the number of its members. *)
Lemma makeCluster_loop (numRepresentatives : Z) (chunks : list Chunk)
  (centroids : list (list num)) (clusterAssignments : list nat) (cs : list nat) :
  forall acc clusters,
    forOf (makeCluster numRepresentatives chunks centroids clusterAssignments)
          cs acc = Normal clusters ->
    map idSize clusters =
    map idSize acc ++
    map (fun c => (c, length (membersOf c clusterAssignments chunks)))
        (filter (fun c => 0 <? length (membersOf c clusterAssignments chunks)) cs).
Proof.
  induction cs as [|c cs IH]; intros acc clusters Hrun.
  - injection Hrun as <-. cbn. rewrite app_nil_r. reflexivity.
  - cbn [forOf] in Hrun. apply bind_normal_inv in Hrun.
    destruct Hrun as [acc1 [H1 Hrun]].
    apply IH in Hrun. rewrite Hrun. clear Hrun IH.
    unfold makeCluster in H1. cbn [filter].
    destruct (membersOf c clusterAssignments chunks) as [|m ms] eqn:Hm.
    + injection H1 as <-. reflexivity.
    + apply bind_normal_inv in H1. destruct H1 as [centroid [_ H1]].
      apply bind_normal_inv in H1. destruct H1 as [sorted [_ H1]].
      injection H1 as <-.
      cbn [length Nat.ltb Nat.leb map].
      rewrite Hm, map_app, <- app_assoc. reflexivity.
Qed.

Lemma renumber_clusters (sorted : list Cluster) :
  snd (renumber sorted) =
  map (fun ic => withId (snd ic) (fst ic)) (combine (seq 0 (length sorted)) sorted).
Proof. reflexivity. Qed.

Lemma combine_seq_nth {A : Type} (l : list A) :
  forall start j x,
    nth_error l j = Some x ->
    nth_error (combine (seq start (length l)) l) j = Some (start + j, x).
Proof.
  induction l as [|y l IH]; intros start [|j] x H; simpl in *; try discriminate.
  - injection H as ->. rewrite Nat.add_0_r. reflexivity.
  - rewrite (IH (S start) j x H). f_equal. f_equal. lia.
Qed.

Lemma combine_seq_In {A : Type} (l : list A) :
  forall start i x,
    In (i, x) (combine (seq start (length l)) l) ->
    start <= i /\ nth_error l (i - start) = Some x.
Proof.
  induction l as [|y l IH]; intros start i x H; simpl in *; [contradiction |].
  destruct H as [Heq | H].
  - injection Heq as <- <-. rewrite Nat.sub_diag. split; [lia | reflexivity].
  - apply IH in H. destruct H as [Hle H]. split; [lia |].
    replace (i - start) with (S (i - S start)) by lia. exact H.
Qed.

Lemma map_fst_combine_seq {A : Type} (l : list A) (start : nat) :
  map fst (combine (seq start (length l)) l) = seq start (length l).
Proof.
  revert start. induction l as [|y l IH]; intros start; [reflexivity |].
  cbn. rewrite IH. reflexivity.
Qed.

Lemma map_snd_combine_seq {A : Type} (l : list A) (start : nat) :
  map snd (combine (seq start (length l)) l) = l.
Proof.
  revert start. induction l as [|y l IH]; intros start; [reflexivity |].
  cbn. rewrite IH. reflexivity.
Qed.

(** After the renumbering the ids are the positions, the sizes are
    unchanged, and the mapping sends each old id to the new one. *)
Lemma renumber_spec (sorted : list Cluster) :
  NoDup (map clusterId sorted) ->
  map clusterId (snd (renumber sorted)) = seq 0 (length sorted) /\
  map size (snd (renumber sorted)) = map size sorted /\
  (forall j cl, nth_error sorted j = Some cl ->
     mapGet Nat.eqb (fst (renumber sorted)) (clusterId cl) = Some j) /\
  (forall cl', In cl' (snd (renumber sorted)) ->
     exists j cl, nth_error sorted j = Some cl /\ cl' = withId cl j).
Proof.
  intros Hnd. rewrite renumber_clusters.
  split; [| split; [| split]].
  - rewrite map_map. cbn [withId clusterId].
    rewrite <- (map_fst_combine_seq sorted 0) at 2.
    apply map_ext. reflexivity.
  - rewrite map_map. cbn [withId size].
    rewrite <- (map_snd_combine_seq sorted 0) at 3.
    rewrite map_map. reflexivity.
  - intros j cl Hj. unfold renumber. cbn [fst].
    rewrite (fold_mapSet_fresh Nat.eqb nat_eqb_spec
               (fun ic : nat * Cluster => clusterId (snd ic))
               (fun ic => fst ic)).
    + apply (mapGet_In Nat.eqb nat_eqb_spec).
      * cbn [app]. unfold mapKeys. rewrite map_map. cbn [fst].
        rewrite <- (map_map snd clusterId), map_snd_combine_seq. exact Hnd.
      * cbn [app]. apply in_map_iff. exists (j, cl). split; [reflexivity |].
        apply nth_error_In with (n := j).
        apply (combine_seq_nth sorted 0 j cl Hj).
    + rewrite <- (map_map snd clusterId), map_snd_combine_seq. exact Hnd.
    + intros x _ [].
  - intros cl' Hin. apply in_map_iff in Hin.
    destruct Hin as [[i cl] [<- Hin]].
    apply combine_seq_In in Hin. destruct Hin as [_ Hin].
    rewrite Nat.sub_0_r in Hin. exists i, cl. split; [exact Hin | reflexivity].
Qed.

End ResultFacts.

Section ListFacts.

Lemma combine_fst {A B : Type} (l : list A) :
  forall l' : list B, length l = length l' -> map fst (combine l l') = l.
Proof.
  induction l as [|x l IH]; intros [|y l'] H; simpl in *; try discriminate;
    [reflexivity |]. rewrite IH; [reflexivity | lia].
Qed.

Lemma combine_snd {A B : Type} (l : list A) :
  forall l' : list B, length l = length l' -> map snd (combine l l') = l'.
Proof.
  induction l as [|x l IH]; intros [|y l'] H; simpl in *; try discriminate;
    [reflexivity |]. rewrite IH; [reflexivity | lia].
Qed.

Lemma filter_map_length {A B : Type} (p : B -> bool) (f : A -> B) (l : list A) :
  length (filter p (map f l)) = length (filter (fun x => p (f x)) l).
Proof.
  induction l as [|x l IH]; [reflexivity |].
  cbn [map filter]. destruct (p (f x)); cbn [length]; rewrite IH; reflexivity.
Qed.

Lemma descending_by_key {A : Type} (key : A -> nat) (l : list A) :
  StronglySorted (fun a b => key b <= key a) l <->
  StronglySorted (fun x y => y <= x) (map key l).
Proof.
  induction l as [|a l IH]; [split; constructor |].
  cbn [map]. split; intros H; inversion H as [|? ? Hl Ha]; subst;
    (constructor; [apply IH; exact Hl |]).
  - rewrite Forall_map. exact Ha.
  - rewrite Forall_map in Ha. exact Ha.
Qed.

Lemma NoDup_map_position {A B : Type} (f : A -> B) (l : list A)
  (i j : nat) (x y : A) :
  NoDup (map f l) ->
  nth_error l i = Some x -> nth_error l j = Some y -> f x = f y -> i = j.
Proof.
  intros Hnd Hi Hj Hxy.
  apply (proj1 (NoDup_nth_error (map f l)) Hnd).
  - rewrite length_map. apply nth_error_Some. congruence.
  - rewrite !nth_error_map, Hi, Hj. cbn. congruence.
Qed.

Lemma countOf_pos (a : nat) (l : list nat) : In a l -> 0 < countOf a l.
Proof.
  intros Hin. unfold countOf.
  assert (H : In a (filter (fun x => x =? a) l)).
  { apply filter_In. split; [exact Hin | apply Nat.eqb_refl]. }
  destruct (filter (fun x => x =? a) l); [contradiction | simpl; lia].
Qed.

End ListFacts.

Section BuildResultFacts.
Import JS Clustering.
Context {num : Type} {N : JSNum num}.

#[local] Abbreviation Chunk := (ChunkForClustering num).
#[local] Abbreviation Cluster := (ConceptCluster num).

(** What "Build cluster results" returns, for chunks with distinct ids. *)
Lemma buildResult_wellFormed (numRepresentatives : Z) (k : nat)
  (chunks : list Chunk) (centroids : list (list num))
  (clusterAssignments : list nat) (r : ClusteringResult num) :
  NoDup (map id chunks) ->
  length clusterAssignments = length chunks ->
  buildResult numRepresentatives k chunks centroids clusterAssignments = Normal r ->
  wellFormedResult chunks r /\ clusterCount r <= k /\
  (chunks <> [] -> 1 <= clusterCount r).
Proof.
  intros Hids Hlen Hrun. unfold buildResult in Hrun.
  destruct (forallb (fun a => a <? k) clusterAssignments) eqn:Hall;
    cbn [negb] in Hrun; [| discriminate].
  apply bind_normal_inv in Hrun. destruct Hrun as [clusters0 [Hloop Hrun]].
  cbv zeta in Hrun.
  set (sorted := stableSort (fun a b : Cluster => size b <? size a) clusters0) in Hrun.
  pose proof (renumber_spec sorted) as Hspec.
  destruct (renumber sorted) as [idm cls].
  cbn [fst snd] in Hrun, Hspec.
  injection Hrun as <-. cbn [clusters clusterCount assignments].
  apply makeCluster_loop in Hloop. cbn [map app] in Hloop.
  set (occupied := filter (fun c => 0 <? length (membersOf c clusterAssignments chunks))
                          (seq 0 k)) in *.
  assert (Hperm : Permutation sorted clusters0) by apply stableSort_perm.
  assert (Hids0 : map clusterId clusters0 = occupied).
  { apply (f_equal (map fst)) in Hloop. rewrite !map_map in Hloop.
    cbn [idSize fst] in Hloop. rewrite map_id in Hloop. exact Hloop. }
  assert (Hnd0 : NoDup (map clusterId clusters0)).
  { rewrite Hids0. apply NoDup_filter. apply seq_NoDup. }
  assert (Hnd : NoDup (map clusterId sorted)).
  { apply (Permutation_NoDup (l := map clusterId clusters0)); [| exact Hnd0].
    apply Permutation_map. symmetry. exact Hperm. }
  assert (Hsize : forall cl, In cl sorted ->
            size cl = countOf (clusterId cl) clusterAssignments).
  { intros cl Hcl. apply (Permutation_in _ Hperm) in Hcl.
    apply (in_map idSize) in Hcl. rewrite Hloop in Hcl.
    apply in_map_iff in Hcl. destruct Hcl as [c [Heq _]].
    unfold idSize in Heq. injection Heq as <- <-.
    apply membersOf_length. exact Hlen. }
  assert (Hocc : forall a, In a clusterAssignments ->
            exists j cl, nth_error sorted j = Some cl /\ clusterId cl = a).
  { intros a Ha.
    assert (Hin : In a occupied).
    { apply filter_In. split.
      - apply in_seq. rewrite forallb_forall in Hall.
        specialize (Hall a Ha). apply Nat.ltb_lt in Hall. lia.
      - apply Nat.ltb_lt. rewrite membersOf_length by exact Hlen.
        apply countOf_pos. exact Ha. }
    rewrite <- Hids0 in Hin. apply in_map_iff in Hin.
    destruct Hin as [cl [Hcl Hin]].
    apply (Permutation_in _ (Permutation_sym Hperm)) in Hin.
    apply In_nth_error in Hin. destruct Hin as [j Hj].
    exists j, cl. split; assumption. }
  destruct (Hspec Hnd) as [Hnew [Hsz [Hmap Hcls]]].
  set (pi := fun v => match mapGet Nat.eqb idm v with Some n => n | None => v end).
  set (L := combine chunks clusterAssignments).
  assert (HLfst : map fst L = chunks) by (apply combine_fst; lia).
  assert (HLsnd : map snd L = clusterAssignments) by (apply combine_snd; lia).
  assert (HkeysL : map (fun x : Chunk * nat => id (fst x)) L = map id chunks).
  { rewrite <- (map_map fst id), HLfst. reflexivity. }
  assert (HA0 : fold_left (fun m ca => mapSet streq m (id (fst ca)) (snd ca)) L []
                = map (fun x => (id (fst x), snd x)) L).
  { rewrite (fold_mapSet_fresh streq streq_spec
               (fun x : Chunk * nat => id (fst x)) (fun x => snd x)).
    - reflexivity.
    - rewrite HkeysL. exact Hids.
    - intros x _ []. }
  assert (Hfinal : remapAssignments idm
                     (fold_left (fun m ca => mapSet streq m (id (fst ca)) (snd ca)) L [])
                   = map (fun x => (id (fst x), pi (snd x))) L).
  { rewrite HA0. unfold remapAssignments.
    pose proof (remap_entries streq streq_spec (mapGet Nat.eqb idm)
                  (map (fun x : Chunk * nat => (id (fst x), snd x)) L) []) as Hre.
    cbn [app] in Hre. rewrite Hre.
    - rewrite map_map. reflexivity.
    - unfold mapKeys. rewrite map_map. cbn [fst].
      rewrite HkeysL. exact Hids. }
  fold L. rewrite Hfinal.
  assert (Hlencls : length cls = length sorted).
  { rewrite <- (length_map size cls), Hsz. apply length_map. }
  assert (Hlookup : forall ch a, In (ch, a) L ->
            mapGet streq (map (fun x => (id (fst x), pi (snd x))) L) (id ch)
            = Some (pi a)).
  { intros ch a Hin. apply (mapGet_In streq streq_spec).
    - unfold mapKeys. rewrite map_map. cbn [fst]. rewrite HkeysL. exact Hids.
    - apply in_map_iff. exists (ch, a). split; [reflexivity | exact Hin]. }
  assert (Hpi : forall a, In a clusterAssignments ->
            exists j cl, nth_error sorted j = Some cl /\ clusterId cl = a /\ pi a = j).
  { intros a Ha. destruct (Hocc a Ha) as [j [cl [Hj Hcl]]].
    exists j, cl. repeat split; auto.
    unfold pi. rewrite <- Hcl, (Hmap j cl Hj). reflexivity. }
  assert (HinL : forall ch a, In (ch, a) L -> In a clusterAssignments).
  { intros ch a Hin. rewrite <- HLsnd. apply (in_map snd) in Hin. exact Hin. }
  unfold wellFormedResult. cbn [assignments clusters clusterCount].
  split; [split; [| split; [| split]] | split].
  - (* largest first *)
    apply (proj2 (descending_by_key size cls)). rewrite Hsz.
    apply (proj1 (descending_by_key size sorted)).
    apply (stableSort_descending size).
  - (* ids 0, 1, ... *)
    rewrite Hlencls. exact Hnew.
  - (* sizes and assignments agree *)
    intros cl' Hcl'. destruct (Hcls cl' Hcl') as [j [cl [Hj ->]]].
    cbn [withId size clusterId].
    rewrite (Hsize cl) by (apply nth_error_In with (n := j); exact Hj).
    unfold countOf.
    rewrite <- HLfst at 1. rewrite <- HLsnd.
    rewrite !filter_map_length. f_equal.
    apply filter_ext_in. intros [ch a] Hin. cbn [fst snd].
    unfold assignedTo. rewrite (Hlookup ch a Hin).
    destruct (Hpi a (HinL ch a Hin)) as [ja [cla [Hja [Hida Hpia]]]].
    rewrite Hpia.
    destruct (Nat.eqb_spec a (clusterId cl)) as [Heq | Hne].
    + symmetry. apply Nat.eqb_eq.
      apply (NoDup_map_position clusterId sorted ja j cla cl Hnd Hja Hj).
      congruence.
    + symmetry. apply Nat.eqb_neq. intros ->. apply Hne.
      rewrite Hja in Hj. injection Hj as <-. symmetry. exact Hida.
  - (* every assigned id is the id of a cluster *)
    intros key v Hin. apply in_map_iff in Hin.
    destruct Hin as [[ch a] [Heq Hin]]. cbn [fst snd] in Heq.
    injection Heq as _ <-.
    destruct (Hpi a (HinL ch a Hin)) as [ja [cla [Hja [_ Hpia]]]].
    assert (Hseq : In ja (map clusterId cls)).
    { rewrite Hnew. apply in_seq.
      assert (ja < length sorted) by (apply nth_error_Some; congruence). lia. }
    apply in_map_iff in Hseq. destruct Hseq as [cl' [Hid Hcl']].
    exists cl'. split; [exact Hcl' | congruence].
  - (* at most k clusters *)
    rewrite Hlencls, (Permutation_length Hperm).
    rewrite <- (length_map clusterId clusters0), Hids0.
    unfold occupied.
    pose proof (filter_length_le
      (fun c => 0 <? length (membersOf c clusterAssignments chunks)) (seq 0 k)) as Hle.
    rewrite length_seq in Hle. exact Hle.
  - (* at least one *)
    intros Hne. rewrite Hlencls.
    destruct chunks as [|ch chunks']; [contradiction |].
    destruct clusterAssignments as [|a ca']; [discriminate |].
    destruct (Hocc a (or_introl eq_refl)) as [j [cl [Hj _]]].
    assert (j < length sorted) by (apply nth_error_Some; congruence). lia.
Qed.

End BuildResultFacts.

Section RandFacts.
Import JS Clustering.
Context {num : Type} {N : JSNum num}.

Lemma bindR_inv {A B : Type} (m : Rand num A) (k : A -> Rand num B)
  (draws : nat -> num) (cursor cursor' : nat) (b : B) :
  bindR m k draws cursor = Normal (b, cursor') ->
  exists a cursor1,
    m draws cursor = Normal (a, cursor1) /\
    k a draws cursor1 = Normal (b, cursor').
Proof.
  unfold bindR. destruct (m draws cursor) as [[a cursor1]|e]; intros H;
    [eauto | discriminate].
Qed.

Lemma liftR_inv {A : Type} (c : Completion A)
  (draws : nat -> num) (cursor cursor' : nat) (a : A) :
  liftR c draws cursor = Normal (a, cursor') -> c = Normal a /\ cursor' = cursor.
Proof.
  unfold liftR. destruct c as [a'|e]; intros H; [| discriminate].
  injection H as -> ->. auto.
Qed.

Lemma retR_inv {A : Type} (a a' : A) (draws : nat -> num) (cursor cursor' : nat) :
  retR a draws cursor = Normal (a', cursor') -> a' = a /\ cursor' = cursor.
Proof. unfold retR. intros H. injection H as -> ->. auto. Qed.

(** The assignments that the iteration returns cover every point. *)
Lemma lloyd_assignments_length (k : nat) (threshold : num)
  (embeddings : list (list num)) (iterations : nat) :
  forall centroids clusterAssignments draws cursor centroids' assignments' cursor',
    lloyd iterations k threshold embeddings centroids clusterAssignments
          draws cursor = Normal ((centroids', assignments'), cursor') ->
    length clusterAssignments = length embeddings ->
    length assignments' = length embeddings.
Proof.
  induction iterations as [|iterations IH];
    intros centroids ca draws cursor centroids' ca' cursor' Hrun Hlen.
  - cbn [lloyd] in Hrun. apply retR_inv in Hrun. destruct Hrun as [Heq _].
    injection Heq as _ Ha. subst. exact Hlen.
  - cbn [lloyd] in Hrun. apply bindR_inv in Hrun.
    destruct Hrun as [newAssignments [cursor1 [Hassign Hrun]]].
    apply liftR_inv in Hassign. destruct Hassign as [Hassign ->].
    assert (Hnew : length newAssignments = length embeddings)
      by (apply (mapM_length _ _ _ Hassign)).
    destruct (negb (differ newAssignments ca)).
    + apply retR_inv in Hrun. destruct Hrun as [Heq _].
      injection Heq as _ Ha. subst. exact Hnew.
    + apply bindR_inv in Hrun. destruct Hrun as [upd [cursor2 [_ Hrun]]].
      destruct (lt (snd upd) threshold).
      * apply retR_inv in Hrun. destruct Hrun as [Heq _].
        injection Heq as _ Ha. subst. exact Hnew.
      * apply (IH _ _ _ _ _ _ _ Hrun Hnew).
Qed.

Lemma filter_all {A : Type} (p : A -> bool) (l : list A) :
  (forall x, In x l -> p x = true) -> filter p l = l.
Proof.
  induction l as [|x l IH]; intros H; [reflexivity |].
  cbn [filter]. rewrite (H x (or_introl eq_refl)).
  rewrite IH; [reflexivity |]. intros y Hy. apply H. right. exact Hy.
Qed.

(** The single-cluster case: one cluster with id 0 that holds every chunk. *)
Lemma singleCluster_wellFormed (numRepresentatives : Z)
  (chunks : list (ChunkForClustering num)) (r : ClusteringResult num) :
  singleCluster numRepresentatives chunks = Normal r ->
  wellFormedResult chunks r /\ clusterCount r = 1.
Proof.
  intros Hrun. unfold singleCluster in Hrun.
  apply bind_normal_inv in Hrun. destruct Hrun as [centroid [_ Hrun]].
  injection Hrun as <-.
  unfold wellFormedResult. cbn [clusters clusterCount assignments].
  destruct (fold_mapSet_const streq streq_spec
              (fun ch : ChunkForClustering num => id ch) 0 chunks [])
    as [Hvalues [_ Hkeys]].
  { intros k v []. }
  cbv zeta in Hvalues, Hkeys.
  set (m := fold_left (fun m chunk => mapSet streq m (id chunk) 0) chunks []) in *.
  split; [| reflexivity].
  split; [| split; [| split]].
  - repeat constructor.
  - reflexivity.
  - intros cl [<- | []]. cbn [size clusterId].
    rewrite filter_all; [reflexivity |].
    intros ch Hch. unfold assignedTo.
    destruct (mapGet_key_In streq streq_spec m (id ch) (Hkeys ch Hch)) as [v Hv].
    rewrite Hv.
    apply (mapGet_Some_In streq streq_spec) in Hv. apply Hvalues in Hv.
    subst v. reflexivity.
  - intros key v Hin. apply Hvalues in Hin. subst v.
    eexists. split; [left; reflexivity | reflexivity].
Qed.

End RandFacts.

Section ThrowFacts.
Import JS Clustering.
Context {num : Type} {N : JSNum num}.

Lemma emptySetError_unexpected : ~ expectedError emptySetError.
Proof.
  intros [H | [H | [H | H]]]; vm_compute in H; discriminate.
Qed.

Lemma throwsOnlyR_ret {A : Type} (P : JSError -> Prop) (a : A) :
  throwsOnlyR (num := num) P (retR a).
Proof. intros draws cursor. apply throwsOnly_normal. Qed.

Lemma throwsOnlyR_lift {A : Type} (P : JSError -> Prop) (c : Completion A) :
  throwsOnly P c -> throwsOnlyR (num := num) P (liftR c).
Proof.
  intros Hc draws cursor e H. unfold liftR in H.
  destruct c as [a|e']; [discriminate |]. injection H as <-. apply Hc. reflexivity.
Qed.

Lemma throwsOnlyR_bind {A B : Type} (P : JSError -> Prop)
  (m : Rand num A) (k : A -> Rand num B) :
  throwsOnlyR P m -> (forall a, throwsOnlyR P (k a)) -> throwsOnlyR P (bindR m k).
Proof.
  intros Hm Hk draws cursor e H. unfold bindR in H.
  destruct (m draws cursor) as [[a cursor1]|e'] eqn:Hrun.
  - exact (Hk a draws cursor1 e H).
  - injection H as <-. exact (Hm draws cursor e' Hrun).
Qed.

Lemma throwsOnlyR_forOfR {A S : Type} (P : JSError -> Prop)
  (body : S -> A -> Rand num S) (xs : list A) :
  (forall s x, throwsOnlyR P (body s x)) ->
  forall s, throwsOnlyR P (forOfR body xs s).
Proof.
  intros Hbody. induction xs as [|x xs IH]; intros s.
  - apply throwsOnlyR_ret.
  - cbn [forOfR]. apply throwsOnlyR_bind; auto.
Qed.

Lemma euclideanDistance_throws (a b : list num) :
  throwsOnly expectedError (euclideanDistance a b).
Proof.
  unfold euclideanDistance. destruct (negb _).
  - apply throwsOnly_throw. left. reflexivity.
  - apply throwsOnly_normal.
Qed.

Lemma centroidAt_throws (centroids : list (list num)) (c : nat) :
  throwsOnly expectedError (centroidAt centroids c).
Proof.
  unfold centroidAt. destruct (nth_error centroids c).
  - apply throwsOnly_normal.
  - apply throwsOnly_throw. right. right. left. reflexivity.
Qed.

Lemma copyAt_throws (embeddings : list (list num)) (idx : num) :
  throwsOnly expectedError (copyAt embeddings idx).
Proof.
  unfold copyAt. destruct (toIndex idx) as [i|].
  - destruct (nth_error embeddings i).
    + apply throwsOnly_normal.
    + apply throwsOnly_throw. right. left. reflexivity.
  - apply throwsOnly_throw. right. left. reflexivity.
Qed.

(** The centroid of a set that is not empty exists. *)
Lemma calculateCentroid_nonempty (v : list num) (vs : list (list num)) :
  exists c, calculateCentroid (v :: vs) = Normal c /\ length c = length v.
Proof.
  unfold calculateCentroid. eexists. split; [reflexivity |].
  rewrite length_map.
  assert (H : forall l init, length init = length v ->
                length (fold_left (addInto (length v)) l init) = length v).
  { induction l as [|x l IH]; intros init Hinit; [exact Hinit |].
    cbn [fold_left]. apply IH. unfold addInto.
    rewrite length_map, length_seq. reflexivity. }
  apply H. apply repeat_length.
Qed.

Lemma minDistance_throws (point : list num) (centroids : list (list num)) :
  throwsOnly expectedError (minDistance point centroids).
Proof.
  unfold minDistance. apply throwsOnly_forOf. intros s x.
  apply throwsOnly_bind; [apply euclideanDistance_throws |].
  intros d _. apply throwsOnly_normal.
Qed.

Lemma randomIndex_throws (n : nat) :
  throwsOnlyR (num := num) expectedError (randomIndex n).
Proof.
  intros draws cursor e H. discriminate H.
Qed.

Lemma seedNext_throws (embeddings centroids : list (list num)) :
  throwsOnlyR expectedError (seedNext embeddings centroids).
Proof.
  unfold seedNext. apply throwsOnlyR_bind.
  - apply throwsOnlyR_lift. apply throwsOnly_mapM. intros e.
    apply throwsOnly_bind; [apply minDistance_throws |].
    intros d _. apply throwsOnly_normal.
  - intros distances. apply throwsOnlyR_bind.
    + intros draws cursor e H. discriminate H.
    + intros r. destruct (nth_error embeddings _).
      * apply throwsOnlyR_ret.
      * apply throwsOnlyR_lift. apply throwsOnly_throw. right. left. reflexivity.
Qed.

Lemma initializeCentroidsKMeansPP_throws (embeddings : list (list num)) (k : nat) :
  throwsOnlyR expectedError (initializeCentroidsKMeansPP embeddings k).
Proof.
  unfold initializeCentroidsKMeansPP.
  apply throwsOnlyR_bind; [apply randomIndex_throws |]. intros firstIdx.
  apply throwsOnlyR_bind; [apply throwsOnlyR_lift, copyAt_throws |]. intros first.
  generalize [first] as centroids.
  induction (k - 1) as [|rounds IH]; intros centroids.
  - apply throwsOnlyR_ret.
  - cbn [seedRounds]. apply throwsOnlyR_bind; [apply seedNext_throws | exact IH].
Qed.

Lemma assignStep_throws (k : nat) (centroids embeddings : list (list num)) :
  throwsOnly expectedError (assignStep k centroids embeddings).
Proof.
  unfold assignStep. apply throwsOnly_mapM. intros point.
  unfold nearestCentroid. apply throwsOnly_bind.
  - apply throwsOnly_forOf. intros st c.
    apply throwsOnly_bind; [apply centroidAt_throws |]. intros centroid _.
    apply throwsOnly_bind; [apply euclideanDistance_throws |]. intros d _.
    apply throwsOnly_normal.
  - intros st _. apply throwsOnly_normal.
Qed.

(** A centroid is recomputed from a member set that is not empty; an empty
    cluster is reseeded from a data point. *)
Lemma updateCentroid_throws (embeddings centroids : list (list num))
  (clusterAssignments : list nat) (st : list (list num) * num) (c : nat) :
  throwsOnlyR expectedError
    (updateCentroid embeddings centroids clusterAssignments st c).
Proof.
  unfold updateCentroid.
  destruct (membersOf c clusterAssignments embeddings) as [|v vs].
  - cbn [length Nat.ltb Nat.leb].
    apply throwsOnlyR_bind; [apply randomIndex_throws |]. intros randomIdx.
    apply throwsOnlyR_bind; [apply throwsOnlyR_lift, copyAt_throws |]. intros x.
    apply throwsOnlyR_ret.
  - cbn [length Nat.ltb Nat.leb]. apply throwsOnlyR_lift.
    destruct (calculateCentroid_nonempty v vs) as [newCentroid [Hc _]].
    rewrite Hc. cbn [bind].
    apply throwsOnly_bind; [apply centroidAt_throws |]. intros old _.
    apply throwsOnly_bind; [apply euclideanDistance_throws |]. intros shift _.
    apply throwsOnly_normal.
Qed.

Lemma lloyd_throws (k : nat) (threshold : num) (embeddings : list (list num))
  (iterations : nat) :
  forall centroids clusterAssignments,
    throwsOnlyR expectedError
      (lloyd iterations k threshold embeddings centroids clusterAssignments).
Proof.
  induction iterations as [|iterations IH]; intros centroids ca.
  - apply throwsOnlyR_ret.
  - cbn [lloyd]. apply throwsOnlyR_bind.
    + apply throwsOnlyR_lift, assignStep_throws.
    + intros newAssignments. destruct (negb _); [apply throwsOnlyR_ret |].
      apply throwsOnlyR_bind.
      * unfold updateStep. apply throwsOnlyR_forOfR. intros st c.
        apply updateCentroid_throws.
      * intros upd. destruct (lt _ _); [apply throwsOnlyR_ret | apply IH].
Qed.

Lemma buildResult_throws (numRepresentatives : Z) (k : nat)
  (chunks : list (ChunkForClustering num)) (centroids : list (list num))
  (clusterAssignments : list nat) :
  throwsOnly expectedError
    (buildResult numRepresentatives k chunks centroids clusterAssignments).
Proof.
  unfold buildResult. destruct (negb _).
  - apply throwsOnly_throw. right. right. left. reflexivity.
  - apply throwsOnly_bind; [| intros clusters _; apply throwsOnly_normal].
    apply throwsOnly_forOf. intros acc c. unfold makeCluster.
    destruct (membersOf c clusterAssignments chunks) as [|m ms];
      [apply throwsOnly_normal |].
    apply throwsOnly_bind; [apply centroidAt_throws |]. intros centroid _.
    apply throwsOnly_bind; [| intros sorted _; apply throwsOnly_normal].
    unfold sortByDistance. destruct ms as [|m' ms]; [apply throwsOnly_normal |].
    apply throwsOnly_bind; [| intros keyed _; apply throwsOnly_normal].
    apply throwsOnly_mapM. intros ch.
    apply throwsOnly_bind; [apply euclideanDistance_throws |]. intros d _.
    apply throwsOnly_normal.
Qed.

End ThrowFacts.

Section TotalityFacts.
Import JS Clustering.
Context {num : Type} {N : JSNum num}.
Variable draws : nat -> num.
Hypothesis draws_unit : unitDraws draws.
Variable d : nat.

Lemma bindR_normal {A B : Type} (m : Rand num A) (k : A -> Rand num B)
  (cursor cursor1 : nat) (a : A) :
  m draws cursor = Normal (a, cursor1) ->
  bindR m k draws cursor = k a draws cursor1.
Proof. intros H. unfold bindR. rewrite H. reflexivity. Qed.

Lemma euclideanDistance_total (a b : list num) :
  length a = length b -> exists x, euclideanDistance a b = Normal x.
Proof.
  intros H. unfold euclideanDistance.
  apply Nat.eqb_eq in H. rewrite H. cbn [negb]. eauto.
Qed.

Lemma minDistance_total (point : list num) (centroids : list (list num)) :
  length point = d -> uniform d centroids ->
  exists x, minDistance point centroids = Normal x.
Proof.
  intros Hp Hc. unfold minDistance.
  destruct (forOf_total
              (fun minDist centroid =>
                 bind (euclideanDistance point centroid)
                      (fun dist => Normal (if lt dist minDist then dist else minDist)))
              (fun _ => True) centroids) with (s := infinity) as [x [Hx _]];
    [| exact I | eauto].
  intros s c Hin _. unfold uniform in Hc. rewrite Forall_forall in Hc.
  destruct (euclideanDistance_total point c) as [x Hx].
  { rewrite Hp. symmetry. apply Hc. exact Hin. }
  rewrite Hx. cbn [bind]. eauto.
Qed.

Lemma randomIndex_total (n cursor : nat) :
  0 < n ->
  exists idx j, randomIndex n draws cursor = Normal (idx, S cursor) /\
                toIndex idx = Some j /\ j < n.
Proof.
  intros Hn. destruct (draws_unit cursor n Hn) as [j [Hj Hlt]].
  eexists. exists j. split; [reflexivity | split; assumption].
Qed.

Lemma copyAt_total (embeddings : list (list num)) (idx : num) (j : nat) :
  toIndex idx = Some j -> j < length embeddings ->
  exists v, copyAt embeddings idx = Normal v /\ In v embeddings.
Proof.
  intros Hj Hlt. unfold copyAt. rewrite Hj.
  destruct (nth_error embeddings j) as [v|] eqn:Hv.
  - exists v. split; [reflexivity | apply nth_error_In with (n := j); exact Hv].
  - apply nth_error_None in Hv. lia.
Qed.

Lemma selectWeighted_range (distances : list num) :
  forall i rand,
    selectWeighted distances i rand = 0 \/
    (i <= selectWeighted distances i rand < i + length distances).
Proof.
  induction distances as [|x distances IH]; intros i rand; [left; reflexivity |].
  cbn [selectWeighted length]. destruct (le _ _).
  - right. lia.
  - destruct (IH (S i) (sub rand x)) as [H | H]; [left; exact H | right; lia].
Qed.

Lemma seedNext_total (embeddings centroids : list (list num)) (cursor : nat) :
  embeddings <> [] -> uniform d embeddings -> uniform d centroids ->
  exists v cursor',
    seedNext embeddings centroids draws cursor = Normal (centroids ++ [v], cursor') /\
    In v embeddings.
Proof.
  intros Hne He Hc. unfold seedNext.
  destruct (mapM_total
              (fun e => bind (minDistance e centroids) (fun x => Normal (mul x x)))
              embeddings) as [distances Hd].
  { intros e Hin. unfold uniform in He. rewrite Forall_forall in He.
    destruct (minDistance_total e centroids (He e Hin) Hc) as [x Hx].
    rewrite Hx. cbn [bind]. eauto. }
  pose proof (mapM_length _ _ _ Hd) as Hlen.
  rewrite (bindR_normal _ _ cursor cursor distances)
    by (unfold liftR; rewrite Hd; reflexivity).
  rewrite (bindR_normal _ _ cursor (S cursor) (draws cursor)) by reflexivity.
  set (idx := selectWeighted distances 0 _).
  assert (Hidx : idx < length embeddings).
  { destruct (selectWeighted_range distances 0
                (mul (draws cursor) (fold_left add distances (ofQ 0%Q))))
      as [H | H]; fold idx in H.
    - rewrite H. destruct embeddings; [contradiction | simpl; lia].
    - lia. }
  destruct (nth_error embeddings idx) as [v|] eqn:Hv.
  - exists v, (S cursor). split; [reflexivity |].
    apply nth_error_In with (n := idx). exact Hv.
  - apply nth_error_None in Hv. lia.
Qed.

Lemma uniform_In (vs : list (list num)) (v : list num) :
  uniform d vs -> In v vs -> length v = d.
Proof. intros H Hin. unfold uniform in H. rewrite Forall_forall in H. auto. Qed.

Lemma uniform_snoc (vs : list (list num)) (v : list num) :
  uniform d vs -> length v = d -> uniform d (vs ++ [v]).
Proof.
  intros H Hv. apply Forall_app. split; [exact H | repeat constructor; exact Hv].
Qed.

Lemma seedRounds_total (embeddings : list (list num)) (rounds : nat) :
  embeddings <> [] -> uniform d embeddings ->
  forall centroids cursor,
    uniform d centroids ->
    exists centroids' cursor',
      seedRounds rounds embeddings centroids draws cursor =
        Normal (centroids', cursor') /\
      length centroids' = length centroids + rounds /\ uniform d centroids'.
Proof.
  intros Hne He. induction rounds as [|rounds IH]; intros centroids cursor Hc.
  - exists centroids, cursor. repeat split; [lia | exact Hc].
  - cbn [seedRounds].
    destruct (seedNext_total embeddings centroids cursor Hne He Hc)
      as [v [cursor1 [Hnext Hv]]].
    rewrite (bindR_normal _ _ _ _ _ Hnext).
    destruct (IH (centroids ++ [v]) cursor1) as [cs [cursor2 [Hrun [Hlen Hu]]]].
    { apply uniform_snoc; [exact Hc | apply (uniform_In embeddings); assumption]. }
    exists cs, cursor2. repeat split; auto.
    rewrite Hlen, length_app. simpl. lia.
Qed.

Lemma initializeCentroidsKMeansPP_total (embeddings : list (list num))
  (k cursor : nat) :
  embeddings <> [] -> uniform d embeddings -> 1 <= k ->
  exists centroids cursor',
    initializeCentroidsKMeansPP embeddings k draws cursor =
      Normal (centroids, cursor') /\
    length centroids = k /\ uniform d centroids.
Proof.
  intros Hne He Hk. unfold initializeCentroidsKMeansPP.
  destruct (randomIndex_total (length embeddings) cursor) as [idx [j [Hr [Hj Hlt]]]].
  { destruct embeddings; [contradiction | simpl; lia]. }
  rewrite (bindR_normal _ _ _ _ _ Hr).
  destruct (copyAt_total embeddings idx j Hj Hlt) as [first [Hfirst Hin]].
  rewrite (bindR_normal _ _ (S cursor) (S cursor) first)
    by (unfold liftR; rewrite Hfirst; reflexivity).
  destruct (seedRounds_total embeddings (k - 1) Hne He [first] (S cursor))
    as [cs [cursor' [Hrun [Hlen Hu]]]].
  { repeat constructor. apply (uniform_In embeddings); assumption. }
  exists cs, cursor'. repeat split; auto. rewrite Hlen. simpl. lia.
Qed.

Lemma centroidAt_total (centroids : list (list num)) (c : nat) :
  uniform d centroids -> c < length centroids ->
  exists v, centroidAt centroids c = Normal v /\ length v = d.
Proof.
  intros Hu Hc. unfold centroidAt.
  destruct (nth_error centroids c) as [v|] eqn:Hv.
  - exists v. split; [reflexivity |].
    apply (uniform_In centroids); [exact Hu |].
    apply nth_error_In with (n := c). exact Hv.
  - apply nth_error_None in Hv. lia.
Qed.

Lemma nearestCentroid_total (k : nat) (centroids : list (list num))
  (point : list num) :
  1 <= k -> length centroids = k -> uniform d centroids -> length point = d ->
  exists c, nearestCentroid k centroids point = Normal c /\ c < k.
Proof.
  intros Hk Hlen Hu Hp. unfold nearestCentroid.
  destruct (forOf_total
              (fun (st : num * nat) c =>
                 bind (centroidAt centroids c) (fun centroid =>
                 bind (euclideanDistance point centroid) (fun dist =>
                 Normal (if lt dist (fst st) then (dist, c) else st))))
              (fun st => snd st < k) (seq 0 k)) with (s := (infinity, 0))
    as [st [Hst Hinv]].
  - intros st c Hin Hinv. apply in_seq in Hin.
    destruct (centroidAt_total centroids c Hu ltac:(lia)) as [v [Hv Hvd]].
    rewrite Hv. cbn [bind].
    destruct (euclideanDistance_total point v ltac:(lia)) as [x Hx].
    rewrite Hx. cbn [bind]. eexists. split; [reflexivity |].
    destruct (lt x (fst st)); cbn [snd]; lia.
  - cbn [snd]. lia.
  - rewrite Hst. cbn [bind]. exists (snd st). split; [reflexivity | exact Hinv].
Qed.

Lemma assignStep_total (k : nat) (centroids embeddings : list (list num)) :
  1 <= k -> length centroids = k -> uniform d centroids -> uniform d embeddings ->
  exists ca, assignStep k centroids embeddings = Normal ca /\
             length ca = length embeddings /\ Forall (fun a => a < k) ca.
Proof.
  intros Hk Hlen Hu He. unfold assignStep.
  destruct (mapM_total (nearestCentroid k centroids) embeddings) as [ca Hca].
  { intros p Hin.
    destruct (nearestCentroid_total k centroids p Hk Hlen Hu
                (uniform_In embeddings p He Hin)) as [c [Hc _]]. eauto. }
  exists ca. split; [exact Hca |]. split; [apply (mapM_length _ _ _ Hca) |].
  apply mapM_normal_inv in Hca.
  revert He.
  induction Hca as [|p c ps cs Hpc Hrest IH]; intros He; [constructor |].
  apply Forall_cons_iff in He. destruct He as [Hp He'].
  constructor; [| apply IH; exact He'].
  destruct (nearestCentroid_total k centroids p Hk Hlen Hu Hp)
    as [c' [Hc' Hlt]].
  congruence.
Qed.

Lemma membersOf_In {A : Type} (c : nat) (ca : list nat) (items : list A) (x : A) :
  In x (membersOf c ca items) -> In x items.
Proof.
  unfold membersOf. intros H. apply in_map_iff in H.
  destruct H as [[a y] [<- H]]. apply filter_In in H. destruct H as [H _].
  apply in_combine_r in H. exact H.
Qed.

Lemma updateCentroid_total (embeddings centroids : list (list num))
  (ca : list nat) (st : list (list num) * num) (c cursor : nat) :
  embeddings <> [] -> uniform d embeddings -> uniform d centroids ->
  c < length centroids -> uniform d (fst st) ->
  exists st' cursor',
    updateCentroid embeddings centroids ca st c draws cursor = Normal (st', cursor') /\
    length (fst st') = S (length (fst st)) /\ uniform d (fst st').
Proof.
  intros Hne He Hu Hc Hst. unfold updateCentroid.
  destruct (membersOf c ca embeddings) as [|v vs] eqn:Hm.
  - cbn [length Nat.ltb Nat.leb].
    destruct (randomIndex_total (length embeddings) cursor) as [idx [j [Hr [Hj Hlt]]]].
    { destruct embeddings; [contradiction | simpl; lia]. }
    rewrite (bindR_normal _ _ _ _ _ Hr).
    destruct (copyAt_total embeddings idx j Hj Hlt) as [x [Hx Hin]].
    rewrite (bindR_normal _ _ (S cursor) (S cursor) x)
      by (unfold liftR; rewrite Hx; reflexivity).
    eexists. eexists. split; [reflexivity |]. cbn [fst].
    split; [rewrite length_app; simpl; lia |].
    apply uniform_snoc; [exact Hst | apply (uniform_In embeddings); assumption].
  - cbn [length Nat.ltb Nat.leb].
    destruct (calculateCentroid_nonempty v vs) as [newCentroid [Hnew Hlen]].
    assert (Hv : length v = d).
    { apply (uniform_In embeddings); [exact He |].
      apply (membersOf_In c ca). rewrite Hm. left. reflexivity. }
    destruct (centroidAt_total centroids c Hu Hc) as [old [Hold Hod]].
    destruct (euclideanDistance_total old newCentroid ltac:(lia)) as [shift Hshift].
    unfold liftR. rewrite Hnew. cbn [bind]. rewrite Hold. cbn [bind].
    rewrite Hshift. cbn [bind].
    eexists. eexists. split; [reflexivity |]. cbn [fst].
    split; [rewrite length_app; simpl; lia |].
    apply uniform_snoc; [exact Hst | lia].
Qed.

Lemma updateStep_total (k : nat) (embeddings centroids : list (list num))
  (ca : list nat) (cursor : nat) :
  embeddings <> [] -> uniform d embeddings -> uniform d centroids ->
  length centroids = k ->
  exists upd cursor',
    updateStep k embeddings centroids ca draws cursor = Normal (upd, cursor') /\
    length (fst upd) = k /\ uniform d (fst upd).
Proof.
  intros Hne He Hu Hlen. unfold updateStep.
  assert (H : forall cs st cursor,
            (forall c, In c cs -> c < length centroids) -> uniform d (fst st) ->
            exists st' cursor',
              forOfR (updateCentroid embeddings centroids ca) cs st draws cursor
                = Normal (st', cursor') /\
              length (fst st') = length (fst st) + length cs /\ uniform d (fst st')).
  { induction cs as [|c cs IH]; intros st cur Hcs Hst.
    - exists st, cur. repeat split; [simpl; lia | exact Hst].
    - cbn [forOfR].
      destruct (updateCentroid_total embeddings centroids ca st c cur Hne He Hu
                  (Hcs c (or_introl eq_refl)) Hst) as [st1 [cur1 [H1 [Hl1 Hu1]]]].
      rewrite (bindR_normal _ _ _ _ _ H1).
      destruct (IH st1 cur1 (fun c' Hc' => Hcs c' (or_intror Hc')) Hu1)
        as [st' [cur' [Hrun [Hl' Hu']]]].
      exists st', cur'. repeat split; auto. rewrite Hl', Hl1. simpl. lia. }
  destruct (H (seq 0 k) ([], ofQ 0%Q) cursor) as [upd [cursor' [Hrun [Hl Hu']]]].
  - intros c Hc. apply in_seq in Hc. lia.
  - constructor.
  - exists upd, cursor'. repeat split; auto.
    rewrite Hl, length_seq. reflexivity.
Qed.

Lemma lloyd_total (k : nat) (threshold : num) (embeddings : list (list num))
  (iterations : nat) :
  embeddings <> [] -> uniform d embeddings -> 1 <= k ->
  forall centroids ca cursor,
    length centroids = k -> uniform d centroids ->
    Forall (fun a => a < k) ca ->
    exists centroids' ca' cursor',
      lloyd iterations k threshold embeddings centroids ca draws cursor =
        Normal ((centroids', ca'), cursor') /\
      length centroids' = k /\ uniform d centroids' /\
      Forall (fun a => a < k) ca'.
Proof.
  intros Hne He Hk.
  induction iterations as [|iterations IH]; intros centroids ca cursor Hlen Hu Hca.
  - exists centroids, ca, cursor. repeat split; auto.
  - cbn [lloyd].
    destruct (assignStep_total k centroids embeddings Hk Hlen Hu He)
      as [newAssignments [Hassign [_ Hnew]]].
    rewrite (bindR_normal _ _ cursor cursor newAssignments)
      by (unfold liftR; rewrite Hassign; reflexivity).
    destruct (negb (differ newAssignments ca)).
    + exists centroids, newAssignments, cursor. repeat split; auto.
    + destruct (updateStep_total k embeddings centroids newAssignments cursor
                  Hne He Hu Hlen) as [upd [cursor1 [Hupd [Hl1 Hu1]]]].
      rewrite (bindR_normal _ _ _ _ _ Hupd).
      destruct (lt (snd upd) threshold).
      * exists (fst upd), newAssignments, cursor1. repeat split; auto.
      * apply IH; auto.
Qed.

End TotalityFacts.

Section KMeansTotality.
Import JS Clustering.
Context {num : Type} {N : JSNum num}.

Lemma sortByDistance_total (d : nat) (centroid : list num)
  (chunksInCluster : list (ChunkForClustering num)) :
  length centroid = d ->
  Forall (fun ch => length (embedding ch) = d) chunksInCluster ->
  exists sorted, sortByDistance centroid chunksInCluster = Normal sorted.
Proof.
  intros Hc Hchunks. unfold sortByDistance.
  destruct chunksInCluster as [|m [|m' ms]]; [eauto | eauto |].
  destruct (mapM_total
              (fun ch => bind (euclideanDistance (embedding ch) centroid)
                              (fun x => Normal (x, ch)))
              (m :: m' :: ms)) as [keyed Hk].
  { intros ch Hin. rewrite Forall_forall in Hchunks.
    destruct (euclideanDistance_total (embedding ch) centroid) as [x Hx].
    { rewrite (Hchunks ch Hin). symmetry. exact Hc. }
    rewrite Hx. cbn [bind]. eauto. }
  rewrite Hk. cbn [bind]. eauto.
Qed.

Lemma buildResult_total (d : nat) (numRepresentatives : Z) (k : nat)
  (chunks : list (ChunkForClustering num)) (centroids : list (list num))
  (clusterAssignments : list nat) :
  Forall (fun ch => length (embedding ch) = d) chunks ->
  uniform d centroids -> length centroids = k ->
  Forall (fun a => a < k) clusterAssignments ->
  exists r, buildResult numRepresentatives k chunks centroids clusterAssignments
            = Normal r.
Proof.
  intros Hchunks Hu Hlen Hca. unfold buildResult.
  assert (Hall : forallb (fun a => a <? k) clusterAssignments = true).
  { apply forallb_forall. intros a Ha. rewrite Forall_forall in Hca.
    apply Nat.ltb_lt. apply Hca. exact Ha. }
  rewrite Hall. cbn [negb].
  destruct (forOf_total
              (makeCluster numRepresentatives chunks centroids clusterAssignments)
              (fun _ => True) (seq 0 k)) with (s := @nil (ConceptCluster num))
    as [clusters [Hclusters _]]; [| exact I |].
  - intros acc c Hin _. apply in_seq in Hin. unfold makeCluster.
    destruct (membersOf c clusterAssignments chunks) as [|m ms] eqn:Hm; [eauto |].
    destruct (centroidAt_total d centroids c Hu ltac:(lia)) as [centroid [Hc Hcd]].
    rewrite Hc. cbn [bind].
    destruct (sortByDistance_total d centroid (m :: ms) Hcd) as [sorted Hs].
    { apply Forall_forall. intros ch Hin'. rewrite Forall_forall in Hchunks.
      apply Hchunks. apply (membersOf_In c clusterAssignments). rewrite Hm.
      exact Hin'. }
    rewrite Hs. cbn [bind]. eauto.
  - rewrite Hclusters. cbn [bind]. eauto.
Qed.

(** The number of clusters of a result does not exceed the target. *)
Lemma buildResult_count (numRepresentatives : Z) (k : nat)
  (chunks : list (ChunkForClustering num)) (centroids : list (list num))
  (clusterAssignments : list nat) (r : ClusteringResult num) :
  buildResult numRepresentatives k chunks centroids clusterAssignments = Normal r ->
  clusterCount r <= k.
Proof.
  intros Hrun. unfold buildResult in Hrun.
  destruct (negb _); [discriminate |].
  apply bind_normal_inv in Hrun. destruct Hrun as [clusters0 [Hloop Hrun]].
  injection Hrun as <-. cbn [clusterCount].
  rewrite length_map, length_combine, length_seq, Nat.min_id.
  rewrite (Permutation_length (stableSort_perm _ clusters0)).
  apply makeCluster_loop in Hloop. cbn [map app] in Hloop.
  apply (f_equal (@length _)) in Hloop. rewrite !length_map in Hloop.
  rewrite Hloop.
  pose proof (filter_length_le
    (fun c => 0 <? length (membersOf c clusterAssignments chunks)) (seq 0 k)) as Hle.
  rewrite length_seq in Hle. exact Hle.
Qed.

End KMeansTotality.

(** ** The runs of kMeansClustering *)

Section KMeansRunFacts.
Import JS Clustering Numbers.
Context {num : Type} {N : JSNum num}.

#[local] Abbreviation Chunk := (ChunkForClustering num).

Lemma Some_eq {A : Type} (a b : A) : Some a = Some b -> a = b.
Proof. intros H. injection H as ->. reflexivity. Qed.

(** An unbounded iteration that has ended within [fuel] rounds did what the
    bounded one does in [fuel] rounds. *)
Lemma lloydUnbounded_lloyd (k : nat) (threshold : num)
  (embeddings : list (list num)) (draws : nat -> num) (fuel : nat) :
  forall centroids clusterAssignments cursor c,
    lloydUnbounded fuel k threshold embeddings centroids clusterAssignments
      draws cursor = Some c ->
    lloyd fuel k threshold embeddings centroids clusterAssignments draws cursor = c.
Proof.
  induction fuel as [|fuel IH]; intros centroids ca cursor c Hrun;
    [discriminate Hrun |].
  cbn [lloydUnbounded] in Hrun. cbn [lloyd]. unfold bindR, liftR at 1.
  destruct (assignStep k centroids embeddings) as [newAssignments | e];
    [| injection Hrun as <-; reflexivity].
  destruct (negb (differ newAssignments ca));
    [injection Hrun as <-; reflexivity |].
  fold (@bindR num).
  unfold bindR.
  destruct (updateStep k embeddings centroids newAssignments draws cursor)
    as [[upd cursor'] | e]; [| injection Hrun as <-; reflexivity].
  destruct (lt (snd upd) threshold);
    [injection Hrun as <-; reflexivity |].
  apply IH. exact Hrun.
Qed.

(** The iterations, when they end, are those of the bounded loop for some
    number of rounds. *)
Lemma iterate_lloyd (maxIterations : number) (fuel k : nat) (threshold : num)
  (embeddings centroids : list (list num)) (clusterAssignments : list nat)
  (draws : nat -> num) (cursor : nat)
  (c : Completion ((list (list num) * list nat) * nat)) :
  iterate maxIterations fuel k threshold embeddings centroids clusterAssignments
    draws cursor = Some c ->
  exists iterations,
    lloyd iterations k threshold embeddings centroids clusterAssignments
      draws cursor = c /\
    (forall bound, countBelow maxIterations = Some bound -> iterations = bound).
Proof.
  unfold iterate. destruct (countBelow maxIterations) as [bound |].
  - intros H. injection H as <-. exists bound. split; [reflexivity |].
    intros b Hb. injection Hb as <-. reflexivity.
  - intros H. exists fuel. split; [apply lloydUnbounded_lloyd; exact H |].
    intros b Hb. discriminate Hb.
Qed.

Lemma kMeansClustering_inv (chunks : list Chunk) (options : ClusteringOptions num)
  (fuel : nat) (draws : nat -> num) (cursor : nat)
  (r : ClusteringResult num) (cursor' : nat) :
  kMeansClustering chunks options fuel draws cursor = Some (Normal (r, cursor')) ->
  Returned chunks options draws cursor r cursor'.
Proof.
  intros Hrun. unfold kMeansClustering in Hrun.
  destruct chunks as [|ch chunks'].
  { injection Hrun as <- <-. apply returnedEmpty; reflexivity. }
  set (chunks := ch :: chunks') in *.
  assert (Hne : chunks <> []) by discriminate.
  cbv zeta in Hrun.
  destruct (numLe (targetClusters chunks options) (numOfZ 1)) eqn:Hk.
  - apply Some_eq in Hrun. apply liftR_inv in Hrun. destruct Hrun as [Hrun ->].
    apply returnedSingle; auto.
  - destruct (countBelow (targetClusters chunks options)) as [rounds |] eqn:Hrounds;
      [| discriminate Hrun].
    destruct (initializeCentroidsKMeansPP (map embedding chunks) rounds draws cursor)
      as [[centroids0 cursor1] | e] eqn:Hinit; [| discriminate Hrun].
    destruct (iterate _ fuel rounds _ _ centroids0 _ draws cursor1)
      as [[[final cursor2] | e] |] eqn:Hiter; try discriminate Hrun.
    destruct (arrayLength (targetClusters chunks options)) as [k |] eqn:Hlen;
      [| discriminate Hrun].
    apply Some_eq in Hrun. apply liftR_inv in Hrun. destruct Hrun as [Hrun ->].
    destruct (arrayLength_inv _ _ Hlen) as [q [_ [_ Hcount]]].
    rewrite Hcount in Hrounds. injection Hrounds as <-.
    apply iterate_lloyd in Hiter. destruct Hiter as [iterations [Hlloyd Hbound]].
    apply (returnedClusters chunks options draws cursor r cursor2
             k iterations centroids0 cursor1 final); auto.
    apply (arrayLength_above_one _ _ Hlen Hk).
Qed.

(** The exceptions of [kMeansClustering]. *)
Lemma kMeansClustering_throws (chunks : list Chunk)
  (options : ClusteringOptions num) (fuel : nat) (draws : nat -> num)
  (cursor : nat) (e : JSError) :
  kMeansClustering chunks options fuel draws cursor = Some (Throw e) ->
  expectedError e.
Proof.
  intros Hrun. unfold kMeansClustering in Hrun.
  destruct chunks as [|ch chunks']; [discriminate Hrun |].
  set (chunks := ch :: chunks') in *. cbv zeta in Hrun.
  destruct (numLe (targetClusters chunks options) (numOfZ 1)).
  - apply Some_eq in Hrun. unfold singleCluster, chunks in Hrun. cbn [map] in Hrun.
    destruct (calculateCentroid_nonempty (embedding ch) (map embedding chunks'))
      as [c [Hc _]].
    rewrite Hc in Hrun. discriminate Hrun.
  - destruct (countBelow (targetClusters chunks options)) as [rounds |];
      [| discriminate Hrun].
    destruct (initializeCentroidsKMeansPP (map embedding chunks) rounds draws cursor)
      as [[centroids0 cursor1] | e0] eqn:Hinit.
    2:{ injection Hrun as <-.
        apply (initializeCentroidsKMeansPP_throws _ _ draws cursor _ Hinit). }
    destruct (iterate _ fuel rounds _ _ centroids0 _ draws cursor1)
      as [[[final cursor2] | e0] |] eqn:Hiter; try discriminate Hrun.
    + destruct (arrayLength (targetClusters chunks options)).
      * apply Some_eq in Hrun. unfold liftR in Hrun.
        destruct (buildResult _ rounds chunks (fst final) (snd final))
          as [r | e0] eqn:Hbuild; [discriminate Hrun |].
        injection Hrun as <-. apply (buildResult_throws _ _ _ _ _ _ Hbuild).
      * injection Hrun as <-. right. right. right. reflexivity.
    + injection Hrun as <-.
      apply iterate_lloyd in Hiter. destruct Hiter as [iterations [Hlloyd _]].
      apply (lloyd_throws _ _ _ _ _ _ draws cursor1 _ Hlloyd).
Qed.

(** Every result of [kMeansClustering] on chunks with distinct ids is well
    formed, and has at most as many clusters as the target. *)
Lemma kMeansClustering_wellFormed (chunks : list Chunk)
  (options : ClusteringOptions num) (fuel : nat) (draws : nat -> num)
  (cursor cursor' : nat) (r : ClusteringResult num) :
  chunks <> [] ->
  NoDup (map id chunks) ->
  kMeansClustering chunks options fuel draws cursor = Some (Normal (r, cursor')) ->
  wellFormedResult chunks r /\ 1 <= clusterCount r.
Proof.
  intros Hne Hids Hrun. apply kMeansClustering_inv in Hrun.
  destruct Hrun as [Hempty _ _ | _ _ Hsingle _
                   | k iterations centroids0 cursor1 [centroids ca]
                       _ _ _ _ _ Hlloyd _ Hbuild].
  - contradiction.
  - apply singleCluster_wellFormed in Hsingle. destruct Hsingle as [Hwf Hcount].
    split; [exact Hwf | lia].
  - cbn [fst snd] in Hbuild.
    apply lloyd_assignments_length in Hlloyd.
    2:{ rewrite repeat_length, length_map. reflexivity. }
    rewrite length_map in Hlloyd.
    apply buildResult_wellFormed in Hbuild; auto.
    destruct Hbuild as [Hwf [_ Hge]].
    split; [exact Hwf |]. apply Hge.
    destruct chunks; [contradiction | discriminate].
Qed.

End KMeansRunFacts.

(** ** Results and draws of kMeansClustering *)

Section KMeansReturnFacts.
Import JS Clustering Numbers.
Context {num : Type} {N : JSNum num}.

#[local] Abbreviation Chunk := (ChunkForClustering num).

(** On chunks whose embeddings have the same length, with draws that behave
    like numbers of [0, 1), a target that [Array] accepts and a bound on
    the iterations, [kMeansClustering] returns a result. *)
Lemma kMeansClustering_returns (chunks : list Chunk)
  (options : ClusteringOptions num) (fuel : nat) (draws : nat -> num)
  (cursor : nat) :
  sameDimension chunks -> unitDraws draws ->
  lengthTarget chunks options -> boundedIterations options ->
  exists r cursor',
    kMeansClustering chunks options fuel draws cursor = Some (Normal (r, cursor')).
Proof.
  intros [d Hdim] Hdraws Htarget Hbound. unfold kMeansClustering.
  destruct chunks as [|ch chunks']; [eexists; eexists; reflexivity |].
  set (chunks := ch :: chunks') in *. cbv zeta.
  unfold lengthTarget in Htarget. cbv zeta in Htarget.
  destruct (numLe (targetClusters chunks options) (numOfZ 1)) eqn:Hk.
  - unfold singleCluster, liftR.
    change (map embedding chunks) with (embedding ch :: map embedding chunks').
    destruct (calculateCentroid_nonempty (embedding ch) (map embedding chunks'))
      as [c [Hc _]].
    rewrite Hc. cbn [bind]. eexists. eexists. reflexivity.
  - destruct Htarget as [Hone | Hsome]; [discriminate Hone |].
    destruct (arrayLength (targetClusters chunks options)) as [k |] eqn:Hk';
      [| contradiction].
    destruct (arrayLength_inv _ _ Hk') as [q [_ [_ Hcount]]].
    pose proof (arrayLength_above_one _ _ Hk' Hk) as Hk2.
    rewrite Hcount.
    assert (Hk1 : 1 <= k) by lia.
    assert (Hemb : uniform d (map embedding chunks)).
    { unfold uniform. rewrite Forall_map. exact Hdim. }
    assert (Hne : map embedding chunks <> []) by discriminate.
    destruct (initializeCentroidsKMeansPP_total draws Hdraws d
                (map embedding chunks) k cursor Hne Hemb Hk1)
      as [centroids0 [cursor1 [Hinit [Hlen0 Hu0]]]].
    rewrite Hinit.
    unfold boundedIterations in Hbound. unfold iterate.
    destruct (countBelow (orDefault (maxIterations options) (numOfZ 100)))
      as [iterations |]; [| contradiction].
    destruct (lloyd_total draws Hdraws d k
                (orDefault (convergenceThreshold options) (ofQ (1 # 1000)%Q))
                (map embedding chunks) iterations
                Hne Hemb Hk1 centroids0 (repeat 0 (length chunks)) cursor1
                Hlen0 Hu0)
      as [centroids [ca [cursor2 [Hlloyd [Hlen [Hu Hca]]]]]].
    { apply Forall_forall. intros a Ha. apply repeat_spec in Ha. lia. }
    rewrite Hlloyd. cbn [fst snd].
    destruct (buildResult_total d
                (toIntegerWithin (length chunks)
                   (orDefault (numRepresentatives options) (numOfZ 3)))
                k chunks centroids ca Hdim Hu Hlen Hca) as [r Hr].
    unfold liftR. rewrite Hr. eexists. eexists. reflexivity.
Qed.

(** *** The draws *)

Lemma seedRounds_cursor (embeddings : list (list num)) (draws : nat -> num)
  (rounds : nat) :
  forall centroids cursor result cursor',
    seedRounds rounds embeddings centroids draws cursor = Normal (result, cursor') ->
    cursor' = cursor + rounds.
Proof.
  induction rounds as [|rounds IH]; intros centroids cursor result cursor' Hrun.
  - cbn [seedRounds] in Hrun. apply retR_inv in Hrun. destruct Hrun as [_ ->]. lia.
  - cbn [seedRounds] in Hrun. apply bindR_inv in Hrun.
    destruct Hrun as [next [cursor1 [Hnext Hrun]]].
    apply IH in Hrun. subst cursor'.
    unfold seedNext in Hnext. apply bindR_inv in Hnext.
    destruct Hnext as [distances [cursor2 [Hd Hnext]]].
    apply liftR_inv in Hd. destruct Hd as [_ ->].
    apply bindR_inv in Hnext. destruct Hnext as [rnd [cursor3 [Hr Hnext]]].
    unfold random in Hr. injection Hr as _ <-.
    destruct (nth_error embeddings _).
    + apply retR_inv in Hnext. destruct Hnext as [_ ->]. lia.
    + apply liftR_inv in Hnext. destruct Hnext as [Hnext _]. discriminate Hnext.
Qed.

(** The seeding calls [Math.random] once for each centroid. *)
Lemma initializeCentroidsKMeansPP_cursor (embeddings : list (list num))
  (k : nat) (draws : nat -> num) (cursor cursor' : nat)
  (centroids : list (list num)) :
  initializeCentroidsKMeansPP embeddings k draws cursor =
    Normal (centroids, cursor') ->
  cursor' = cursor + Nat.max k 1.
Proof.
  intros Hrun. unfold initializeCentroidsKMeansPP in Hrun.
  apply bindR_inv in Hrun. destruct Hrun as [firstIdx [cursor1 [Hfirst Hrun]]].
  unfold randomIndex in Hfirst. apply bindR_inv in Hfirst.
  destruct Hfirst as [rnd [cursor0 [Hr Hfirst]]].
  unfold random in Hr. injection Hr as _ <-.
  apply retR_inv in Hfirst. destruct Hfirst as [_ ->].
  apply bindR_inv in Hrun. destruct Hrun as [first [cursor2 [Hcopy Hrun]]].
  apply liftR_inv in Hcopy. destruct Hcopy as [_ ->].
  apply seedRounds_cursor in Hrun. lia.
Qed.

Lemma forOfR_cursor {A S : Type} (body : S -> A -> Rand num S) (xs : list A)
  (draws : nat -> num) :
  (forall s x cursor s' cursor',
     body s x draws cursor = Normal (s', cursor') -> cursor <= cursor') ->
  forall s cursor s' cursor',
    forOfR body xs s draws cursor = Normal (s', cursor') -> cursor <= cursor'.
Proof.
  intros Hbody. induction xs as [|x xs IH]; intros s cursor s' cursor' Hrun.
  - cbn [forOfR] in Hrun. apply retR_inv in Hrun. destruct Hrun as [_ ->]. lia.
  - cbn [forOfR] in Hrun. apply bindR_inv in Hrun.
    destruct Hrun as [s1 [cursor1 [H1 Hrun]]].
    apply Hbody in H1. apply IH in Hrun. lia.
Qed.

Lemma updateStep_cursor (k : nat) (embeddings centroids : list (list num))
  (clusterAssignments : list nat) (draws : nat -> num) (cursor cursor' : nat)
  (upd : list (list num) * num) :
  updateStep k embeddings centroids clusterAssignments draws cursor =
    Normal (upd, cursor') ->
  cursor <= cursor'.
Proof.
  unfold updateStep. apply forOfR_cursor.
  intros st c cur st' cur' Hrun. unfold updateCentroid in Hrun.
  destruct (0 <? length (membersOf c clusterAssignments embeddings)).
  - apply liftR_inv in Hrun. destruct Hrun as [_ ->]. lia.
  - apply bindR_inv in Hrun. destruct Hrun as [idx [cur1 [Hidx Hrun]]].
    unfold randomIndex in Hidx. apply bindR_inv in Hidx.
    destruct Hidx as [rnd [cur0 [Hr Hidx]]].
    unfold random in Hr. injection Hr as _ <-.
    apply retR_inv in Hidx. destruct Hidx as [_ ->].
    apply bindR_inv in Hrun. destruct Hrun as [v [cur2 [Hcopy Hrun]]].
    apply liftR_inv in Hcopy. destruct Hcopy as [_ ->].
    apply retR_inv in Hrun. destruct Hrun as [_ ->]. lia.
Qed.

(** The iterations take no draw back. *)
Lemma lloyd_cursor (k : nat) (threshold : num) (embeddings : list (list num))
  (draws : nat -> num) (iterations : nat) :
  forall centroids clusterAssignments cursor final cursor',
    lloyd iterations k threshold embeddings centroids clusterAssignments
      draws cursor = Normal (final, cursor') ->
    cursor <= cursor'.
Proof.
  induction iterations as [|iterations IH];
    intros centroids ca cursor final cursor' Hrun; cbn [lloyd] in Hrun.
  - apply retR_inv in Hrun. destruct Hrun as [_ ->]. lia.
  - apply bindR_inv in Hrun.
    destruct Hrun as [newAssignments [cursor1 [Hassign Hrun]]].
    apply liftR_inv in Hassign. destruct Hassign as [_ ->].
    destruct (negb (differ newAssignments ca)).
    + apply retR_inv in Hrun. destruct Hrun as [_ ->]. lia.
    + apply bindR_inv in Hrun. destruct Hrun as [upd [cursor2 [Hupd Hrun]]].
      apply updateStep_cursor in Hupd.
      destruct (lt (snd upd) threshold).
      * apply retR_inv in Hrun. destruct Hrun as [_ ->]. exact Hupd.
      * apply IH in Hrun. lia.
Qed.

(** A result has one cluster at least and, beyond the single-cluster case,
    no more than the target; and the run has drawn once per seed at
    least. *)
Lemma kMeansClustering_count (chunks : list Chunk)
  (options : ClusteringOptions num) (fuel : nat) (draws : nat -> num)
  (cursor cursor' : nat) (r : ClusteringResult num) :
  chunks <> [] ->
  kMeansClustering chunks options fuel draws cursor = Some (Normal (r, cursor')) ->
  (numLe (targetClusters chunks options) (numOfZ 1) = true /\
   clusterCount r = 1 /\ cursor' = cursor) \/
  (exists k, arrayLength (targetClusters chunks options) = Some k /\ 2 <= k /\
             clusterCount r <= k /\ cursor + k <= cursor').
Proof.
  intros Hne Hrun. apply kMeansClustering_inv in Hrun.
  destruct Hrun as [Hempty _ _ | _ Hk Hsingle Hcur
                   | k iterations centroids0 cursor1 final
                       _ _ Hlen Hk2 Hinit Hlloyd _ Hbuild].
  - contradiction.
  - left. split; [exact Hk |]. split; [| exact Hcur].
    apply singleCluster_wellFormed in Hsingle. apply Hsingle.
  - right. exists k. split; [exact Hlen |]. split; [exact Hk2 |].
    apply buildResult_count in Hbuild.
    apply initializeCentroidsKMeansPP_cursor in Hinit.
    apply lloyd_cursor in Hlloyd. split; [exact Hbuild | lia].
Qed.

End KMeansReturnFacts.

(** ** The clusters of a result partition the chunks *)

Section CountFacts.

Lemma list_sum_cons (x : nat) (l : list nat) : list_sum (x :: l) = x + list_sum l.
Proof. reflexivity. Qed.

Lemma list_sum_perm (l l' : list nat) :
  Permutation l l' -> list_sum l = list_sum l'.
Proof.
  induction 1 as [| x l l' _ IH | x y l | l l' l'' _ IH1 _ IH2];
    rewrite ?list_sum_cons; lia.
Qed.

Lemma list_sum_map_add {A : Type} (f g : A -> nat) (l : list A) :
  list_sum (map (fun x => f x + g x) l) = list_sum (map f l) + list_sum (map g l).
Proof.
  induction l as [|x l IH]; cbn [map]; rewrite ?list_sum_cons; [reflexivity | lia].
Qed.

Lemma list_sum_indicator (a k : nat) :
  forall s,
    list_sum (map (fun c => if (a =? c)%nat then 1 else 0) (seq s k)) =
    if (s <=? a)%nat && (a <? s + k)%nat then 1 else 0.
Proof.
  induction k as [|k IH]; intros s; cbn [seq map]; rewrite ?list_sum_cons.
  - change (list_sum []) with 0.
    destruct (Nat.leb_spec s a), (Nat.ltb_spec a (s + 0)); cbn [andb]; lia.
  - rewrite IH.
    destruct (Nat.eqb_spec a s), (Nat.leb_spec s a), (Nat.leb_spec (S s) a),
      (Nat.ltb_spec a (S s + k)), (Nat.ltb_spec a (s + S k)); cbn [andb]; lia.
Qed.

Lemma countOf_cons (c a : nat) (l : list nat) :
  countOf c (a :: l) = (if (a =? c)%nat then 1 else 0) + countOf c l.
Proof.
  unfold countOf. cbn [filter]. destruct (a =? c)%nat; reflexivity.
Qed.

(** Every assignment below [k] is counted once. *)
Lemma countOf_sum (k : nat) (l : list nat) :
  Forall (fun a => a < k) l ->
  list_sum (map (fun c => countOf c l) (seq 0 k)) = length l.
Proof.
  induction 1 as [|a l Ha Hl IH].
  - cbn [length]. induction (seq 0 k) as [|c cs IHc]; [reflexivity | exact IHc].
  - rewrite (map_ext _ (fun c => (if (a =? c)%nat then 1 else 0) + countOf c l))
      by (intros c; apply countOf_cons).
    rewrite list_sum_map_add, IH, list_sum_indicator.
    destruct (Nat.leb_spec 0 a), (Nat.ltb_spec a (0 + k)); cbn [andb length]; lia.
Qed.

Lemma list_sum_filter_pos {A : Type} (f : A -> nat) (l : list A) :
  list_sum (map f (filter (fun c => (0 <? f c)%nat) l)) = list_sum (map f l).
Proof.
  induction l as [|x l IH]; [reflexivity |].
  cbn [filter map]. destruct (Nat.ltb_spec 0 (f x)); cbn [map];
    rewrite ?list_sum_cons; lia.
Qed.

Lemma countOf_repeat (c n : nat) :
  countOf c (repeat 0 n) = if (c =? 0)%nat then n else 0.
Proof.
  induction n as [|n IH]; cbn [repeat].
  - destruct (c =? 0)%nat; reflexivity.
  - rewrite countOf_cons, IH. rewrite (Nat.eqb_sym 0 c).
    destruct (c =? 0)%nat; lia.
Qed.

End CountFacts.

Section PartitionFacts.
Import JS Clustering Numbers.
Context {num : Type} {N : JSNum num}.

#[local] Abbreviation Chunk := (ChunkForClustering num).
#[local] Abbreviation Cluster := (ConceptCluster num).

Lemma renumber_idSize (sorted : list Cluster) :
  map idSize (snd (renumber sorted)) =
  combine (seq 0 (length sorted)) (map size sorted).
Proof.
  rewrite renumber_clusters.
  generalize 0 as start.
  induction sorted as [|cl sorted IH]; intros start; [reflexivity |].
  cbn [length seq combine map]. rewrite IH. reflexivity.
Qed.

Lemma renumber_sizes (sorted : list Cluster) :
  map size (snd (renumber sorted)) = map size sorted.
Proof.
  assert (H : map size (snd (renumber sorted)) =
              map snd (map idSize (snd (renumber sorted))))
    by (rewrite map_map; reflexivity).
  rewrite H, renumber_idSize. apply combine_snd.
  rewrite length_seq, length_map. reflexivity.
Qed.

(** The sizes of the clusters that [buildResult] makes. *)
Lemma buildResult_sizes (numRepresentatives : Z) (k : nat)
  (chunks : list Chunk) (centroids : list (list num))
  (clusterAssignments : list nat) (r : ClusteringResult num) :
  length clusterAssignments = length chunks ->
  buildResult numRepresentatives k chunks centroids clusterAssignments = Normal r ->
  Forall (fun a => a < k) clusterAssignments /\
  Permutation (map size (clusters r))
    (map (fun c => countOf c clusterAssignments)
         (filter (fun c => (0 <? countOf c clusterAssignments)%nat) (seq 0 k))) /\
  clusterCount r = length (clusters r).
Proof.
  intros Hlen Hrun. unfold buildResult in Hrun.
  destruct (forallb (fun a => a <? k) clusterAssignments) eqn:Hall;
    cbn [negb] in Hrun; [| discriminate].
  apply bind_normal_inv in Hrun. destruct Hrun as [clusters0 [Hloop Hrun]].
  cbv zeta in Hrun.
  set (sorted := stableSort (fun a b : Cluster => size b <? size a) clusters0) in Hrun.
  pose proof (renumber_sizes sorted) as Hsizes.
  destruct (renumber sorted) as [idm cls].
  cbn [fst snd] in Hrun, Hsizes.
  injection Hrun as <-. cbn [clusters clusterCount].
  apply makeCluster_loop in Hloop. cbn [map app] in Hloop.
  split; [| split; [| reflexivity]].
  - apply Forall_forall. intros a Ha. rewrite forallb_forall in Hall.
    apply Nat.ltb_lt. apply Hall, Ha.
  - rewrite Hsizes.
    assert (Hperm : Permutation sorted clusters0) by apply stableSort_perm.
    apply (Permutation_trans (Permutation_map size Hperm)).
    assert (Hs : map size clusters0 = map snd (map idSize clusters0))
      by (rewrite map_map; reflexivity).
    rewrite Hs, Hloop, map_map. cbn [snd].
    rewrite (filter_ext (fun c => 0 <? length (membersOf c clusterAssignments chunks))
                        (fun c => 0 <? countOf c clusterAssignments))
      by (intros c; rewrite membersOf_length by exact Hlen; reflexivity).
    rewrite (map_ext (fun c => length (membersOf c clusterAssignments chunks))
                     (fun c => countOf c clusterAssignments))
      by (intros c; apply membersOf_length; exact Hlen).
    apply Permutation_refl.
Qed.

(** The clusters of a result partition the chunks: none is empty, and their
    sizes add up to the number of chunks. *)
Lemma kMeansClustering_partition (chunks : list Chunk)
  (options : ClusteringOptions num) (fuel : nat) (draws : nat -> num)
  (cursor cursor' : nat) (r : ClusteringResult num) :
  kMeansClustering chunks options fuel draws cursor = Some (Normal (r, cursor')) ->
  list_sum (map size (clusters r)) = length chunks /\
  Forall (fun cl => 1 <= size cl) (clusters r) /\
  clusterCount r = length (clusters r).
Proof.
  intros Hrun. apply kMeansClustering_inv in Hrun.
  destruct Hrun as [-> -> _ | Hne _ Hsingle _
                   | k iterations centroids0 cursor1 [centroids ca]
                       _ _ _ _ _ Hlloyd _ Hbuild].
  - cbn [clusters clusterCount map length]. repeat split. constructor.
  - unfold singleCluster in Hsingle.
    apply bind_normal_inv in Hsingle. destruct Hsingle as [centroid [_ Hsingle]].
    injection Hsingle as <-. cbn [clusters clusterCount map size length].
    rewrite list_sum_cons. change (list_sum []) with 0.
    split; [rewrite Nat.add_0_r; reflexivity |]. split; [| reflexivity].
    constructor; [| constructor]. cbn [size].
    destruct chunks; [contradiction | cbn [length]; lia].
  - cbn [fst snd] in Hbuild.
    apply lloyd_assignments_length in Hlloyd.
    2:{ rewrite repeat_length, length_map. reflexivity. }
    rewrite length_map in Hlloyd.
    destruct (buildResult_sizes _ _ _ _ _ _ Hlloyd Hbuild) as [Hall [Hperm Hcount]].
    split; [| split; [| exact Hcount]].
    + rewrite (list_sum_perm _ _ Hperm).
      rewrite (list_sum_filter_pos (fun c => countOf c ca)).
      rewrite (countOf_sum _ ca Hall). exact Hlloyd.
    + apply Forall_forall. intros cl Hcl.
      apply (in_map size) in Hcl.
      apply (Permutation_in _ Hperm) in Hcl.
      apply in_map_iff in Hcl. destruct Hcl as [c [<- Hc]].
      apply filter_In in Hc. destruct Hc as [_ Hc].
      apply Nat.ltb_lt in Hc. lia.
Qed.

(** A result for chunks has a cluster. *)
Lemma kMeansClustering_some_cluster (chunks : list Chunk)
  (options : ClusteringOptions num) (fuel : nat) (draws : nat -> num)
  (cursor cursor' : nat) (r : ClusteringResult num) :
  chunks <> [] ->
  kMeansClustering chunks options fuel draws cursor = Some (Normal (r, cursor')) ->
  1 <= clusterCount r.
Proof.
  intros Hne Hrun. apply kMeansClustering_partition in Hrun.
  destruct Hrun as [Hsum [_ Hcount]]. rewrite Hcount.
  destruct (clusters r) as [|cl cls]; [| cbn [length]; lia].
  cbn in Hsum. destruct chunks; [contradiction | discriminate Hsum].
Qed.

End PartitionFacts.

(** ** Runs that leave every point in cluster 0 (search/clustering.ts) *)

Section OneClusterFacts.
Import JS Clustering Numbers.
Context {num : Type} {N : JSNum num}.

#[local] Abbreviation Chunk := (ChunkForClustering num).
#[local] Abbreviation Cluster := (ConceptCluster num).

(** Filling a map with values that are all [c]. *)
Lemma fold_mapSet_all {X : Type} (key : X -> jsstring) (val : X -> nat) (c : nat)
  (l : list X) :
  forall m0 : JSMap jsstring nat,
    (forall k v, In (k, v) m0 -> v = c) ->
    (forall x, In x l -> val x = c) ->
    let m := fold_left (fun m x => mapSet streq m (key x) (val x)) l m0 in
    (forall k v, In (k, v) m -> v = c) /\
    (forall k, In k (mapKeys m0) -> In k (mapKeys m)) /\
    (forall x, In x l -> In (key x) (mapKeys m)).
Proof.
  induction l as [|x l IH]; intros m0 Hm0 Hl; cbn zeta.
  - repeat split; auto. intros x [].
  - cbn [fold_left].
    destruct (IH (mapSet streq m0 (key x) (val x))) as [Hv [Hk Hin]].
    { apply mapSet_values; [apply Hl; left; reflexivity | exact Hm0]. }
    { intros y Hy. apply Hl. right. exact Hy. }
    repeat split; auto.
    + intros k Hk0. apply Hk. apply mapSet_keys_incl. exact Hk0.
    + intros y [<- | Hy];
        [apply Hk; apply (mapSet_key_In streq streq_spec) | apply Hin; exact Hy].
Qed.

(** The renumbering loop, when every new id is [c]. *)
Lemma remap_values (idMapping : JSMap nat nat) (c : nat)
  (entries : JSMap jsstring nat) :
  (forall v nv, mapGet Nat.eqb idMapping v = Some nv -> nv = c) ->
  forall m : JSMap jsstring nat,
    (forall k v, In (k, v) m -> v = c) ->
    let m' := fold_left (fun m entry =>
                           match mapGet Nat.eqb idMapping (snd entry) with
                           | Some newClusterId => mapSet streq m (fst entry) newClusterId
                           | None => m
                           end) entries m in
    (forall k v, In (k, v) m' -> v = c) /\
    (forall k, In k (mapKeys m) -> In k (mapKeys m')).
Proof.
  intros Hid. induction entries as [|[key old] entries IH]; intros m Hm; cbn zeta.
  - split; auto.
  - cbn [fold_left fst snd].
    destruct (mapGet Nat.eqb idMapping old) as [nv|] eqn:Hnv.
    + destruct (IH (mapSet streq m key nv)) as [Hv Hk].
      { apply mapSet_values; [apply (Hid old nv Hnv) | exact Hm]. }
      split; [exact Hv |].
      intros k Hk0. apply Hk. apply mapSet_keys_incl. exact Hk0.
    + apply IH. exact Hm.
Qed.

Lemma combine_repeat_In {A : Type} (x : A) (l : list A) :
  In x l -> In (x, 0) (combine l (repeat 0 (length l))).
Proof.
  induction l as [|y l IH]; intros Hin; [contradiction |].
  cbn [length repeat combine]. destruct Hin as [-> | Hin];
    [left; reflexivity | right; apply IH; exact Hin].
Qed.

Lemma filter_nothing {A : Type} (p : A -> bool) (l : list A) :
  (forall x, In x l -> p x = false) -> filter p l = [].
Proof.
  induction l as [|x l IH]; intros H; [reflexivity |].
  cbn [filter]. rewrite (H x (or_introl eq_refl)).
  apply IH. intros y Hy. apply H. right. exact Hy.
Qed.

(** With every point assigned to cluster 0, the result has one cluster, and
    it holds every chunk. *)
Lemma buildResult_all_zero (numRepresentatives : Z) (k : nat)
  (chunks : list Chunk) (centroids : list (list num)) (r : ClusteringResult num) :
  chunks <> [] ->
  buildResult numRepresentatives k chunks centroids (repeat 0 (length chunks)) =
    Normal r ->
  clusterCount r = 1 /\
  map idSize (clusters r) = [(0, length chunks)] /\
  forall chunk, In chunk chunks ->
    mapGet streq (assignments r) (id chunk) = Some 0.
Proof.
  intros Hne Hrun. unfold buildResult in Hrun.
  set (ca := repeat 0 (length chunks)) in *.
  assert (Hlen : length ca = length chunks) by apply repeat_length.
  assert (Hpos : 0 < length chunks)
    by (destruct chunks; [contradiction | cbn [length]; lia]).
  destruct (forallb (fun a => a <? k) ca) eqn:Hall;
    cbn [negb] in Hrun; [| discriminate].
  assert (Hk : 0 < k).
  { rewrite forallb_forall in Hall. apply Nat.ltb_lt. apply Hall.
    unfold ca. destruct (length chunks); [lia | left; reflexivity]. }
  apply bind_normal_inv in Hrun. destruct Hrun as [clusters0 [Hloop Hrun]].
  apply makeCluster_loop in Hloop. cbn [map app] in Hloop.
  rewrite (filter_ext (fun c => 0 <? length (membersOf c ca chunks))
                      (fun c => 0 <? countOf c ca)) in Hloop
    by (intros c; rewrite membersOf_length by exact Hlen; reflexivity).
  rewrite (map_ext (fun c => (c, length (membersOf c ca chunks)))
                   (fun c => (c, countOf c ca))) in Hloop
    by (intros c; rewrite membersOf_length by exact Hlen; reflexivity).
  assert (Hfilter : filter (fun c => 0 <? countOf c ca) (seq 0 k) = [0]).
  { destruct k as [|k']; [lia |]. cbn [seq filter].
    unfold ca at 1. rewrite countOf_repeat. cbn [Nat.eqb].
    apply Nat.ltb_lt in Hpos. rewrite Hpos. f_equal.
    apply filter_nothing. intros c Hc. apply in_seq in Hc.
    unfold ca. rewrite countOf_repeat.
    destruct (Nat.eqb_spec c 0); [lia | reflexivity]. }
  rewrite Hfilter in Hloop. cbn [map] in Hloop.
  unfold ca in Hloop at 1. rewrite countOf_repeat in Hloop. cbn [Nat.eqb] in Hloop.
  destruct clusters0 as [|cl [|cl2 rest]]; try discriminate Hloop.
  cbn [map] in Hloop. unfold idSize in Hloop. injection Hloop as Hid Hsize.
  cbv zeta in Hrun. cbn [stableSort insertStable] in Hrun.
  unfold renumber in Hrun.
  cbn [length seq combine fold_left map fst snd] in Hrun.
  rewrite Hid in Hrun. cbn [mapSet] in Hrun.
  injection Hrun as <-. cbn [clusterCount clusters assignments map].
  split; [reflexivity |]. split.
  { unfold idSize. cbn [withId clusterId size]. rewrite Hsize. reflexivity. }
  intros chunk Hchunk.
  destruct (fold_mapSet_all (fun cc : Chunk * nat => id (fst cc)) snd 0
              (combine chunks ca) []) as [Hvalues [_ Hkeys]].
  { intros key v []. }
  { intros [ch a] Hin. apply in_combine_r in Hin. cbn [snd].
    apply repeat_spec in Hin. exact Hin. }
  cbv zeta in Hvalues, Hkeys.
  set (assignments0 :=
         fold_left (fun m (cc : Chunk * nat) => mapSet streq m (id (fst cc)) (snd cc))
                   (combine chunks ca) []) in *.
  unfold remapAssignments.
  destruct (remap_values [(0, 0)] 0 assignments0) with (m := assignments0)
    as [Hvalues' Hkeys'].
  { intros v nv Hget. cbn [mapGet] in Hget.
    destruct (0 =? v); [injection Hget as <-; reflexivity | discriminate]. }
  { exact Hvalues. }
  cbv zeta in Hvalues', Hkeys'.
  assert (Hkey : In (id chunk) (mapKeys assignments0)).
  { apply (Hkeys (chunk, 0)). apply combine_repeat_In. exact Hchunk. }
  apply Hkeys' in Hkey.
  destruct (mapGet_key_In streq streq_spec _ (id chunk) Hkey) as [v Hv].
  rewrite Hv. apply (mapGet_Some_In streq streq_spec) in Hv.
  apply Hvalues' in Hv. subst v. reflexivity.
Qed.

(** The single-cluster case, as far as sizes and assignments go. *)
Lemma singleCluster_all_zero (numRepresentatives : Z) (chunks : list Chunk)
  (r : ClusteringResult num) :
  singleCluster numRepresentatives chunks = Normal r ->
  clusterCount r = 1 /\
  map idSize (clusters r) = [(0, length chunks)] /\
  forall chunk, In chunk chunks ->
    mapGet streq (assignments r) (id chunk) = Some 0.
Proof.
  intros Hrun. unfold singleCluster in Hrun.
  apply bind_normal_inv in Hrun. destruct Hrun as [centroid [_ Hrun]].
  injection Hrun as <-. cbn [clusterCount clusters assignments map].
  split; [reflexivity |]. split; [reflexivity |].
  intros chunk Hchunk.
  destruct (fold_mapSet_const streq streq_spec
              (fun ch : Chunk => id ch) 0 chunks [])
    as [Hvalues [_ Hkeys]].
  { intros k v []. }
  cbv zeta in Hvalues, Hkeys.
  destruct (mapGet_key_In streq streq_spec _ (id chunk) (Hkeys chunk Hchunk))
    as [v Hv].
  rewrite Hv. apply (mapGet_Some_In streq streq_spec) in Hv.
  apply Hvalues in Hv. subst v. reflexivity.
Qed.

(** *** The seeds are embeddings *)

Lemma copyAt_In (embeddings : list (list num)) (idx : num) (v : list num) :
  copyAt embeddings idx = Normal v -> In v embeddings.
Proof.
  unfold copyAt. destruct (toIndex idx) as [i|]; [| discriminate].
  destruct (nth_error embeddings i) as [w|] eqn:Hi; [| discriminate].
  intros H. injection H as <-. apply (nth_error_In _ _ Hi).
Qed.

Lemma seedRounds_In (embeddings : list (list num)) (rounds : nat) :
  forall centroids draws cursor result cursor',
    seedRounds rounds embeddings centroids draws cursor = Normal (result, cursor') ->
    Forall (fun c => In c embeddings) centroids ->
    Forall (fun c => In c embeddings) result.
Proof.
  induction rounds as [|rounds IH];
    intros centroids draws cursor result cursor' Hrun Hc.
  - cbn [seedRounds] in Hrun. apply retR_inv in Hrun. destruct Hrun as [-> _].
    exact Hc.
  - cbn [seedRounds] in Hrun. apply bindR_inv in Hrun.
    destruct Hrun as [next [cursor1 [Hnext Hrun]]].
    apply (IH _ _ _ _ _ Hrun). clear Hrun IH.
    unfold seedNext in Hnext. apply bindR_inv in Hnext.
    destruct Hnext as [distances [cursor2 [_ Hnext]]].
    apply bindR_inv in Hnext. destruct Hnext as [rnd [cursor3 [_ Hnext]]].
    destruct (nth_error embeddings _) as [v|] eqn:Hv.
    + apply retR_inv in Hnext. destruct Hnext as [-> _].
      apply Forall_app. split; [exact Hc |].
      constructor; [apply (nth_error_In _ _ Hv) | constructor].
    + apply liftR_inv in Hnext. destruct Hnext as [Hnext _]. discriminate.
Qed.

(** Every centroid that the seeding returns is one of the embeddings. *)
Lemma seeds_In (embeddings : list (list num)) (k : nat)
  (draws : nat -> num) (cursor cursor' : nat) (centroids : list (list num)) :
  initializeCentroidsKMeansPP embeddings k draws cursor = Normal (centroids, cursor') ->
  Forall (fun c => In c embeddings) centroids.
Proof.
  intros Hrun. unfold initializeCentroidsKMeansPP in Hrun.
  apply bindR_inv in Hrun. destruct Hrun as [firstIdx [cursor1 [_ Hrun]]].
  apply bindR_inv in Hrun. destruct Hrun as [first [cursor2 [Hfirst Hrun]]].
  apply liftR_inv in Hfirst. destruct Hfirst as [Hfirst _].
  apply (seedRounds_In _ _ _ _ _ _ _ Hrun).
  constructor; [apply (copyAt_In _ _ _ Hfirst) | constructor].
Qed.

(** *** The assignment step on equal vectors *)

Section Identical.
Variable v : list num.
Hypothesis lt_irrefl : forall x : num, lt x x = false.

#[local] Abbreviation nearer centroids :=
  (fun (st : num * nat) (c : nat) =>
     bind (centroidAt centroids c) (fun centroid =>
     bind (euclideanDistance v centroid) (fun dist =>
     Normal (if lt dist (fst st) then (dist, c) else st)))).

Lemma nearer_step (centroids : list (list num)) (st st' : num * nat) (c : nat) :
  Forall (fun w => w = v) centroids ->
  nearer centroids st c = Normal st' ->
  exists d, euclideanDistance v v = Normal d /\
            st' = if lt d (fst st) then (d, c) else st.
Proof.
  intros Hc Hrun.
  apply bind_normal_inv in Hrun. destruct Hrun as [centroid [Hcen Hrun]].
  apply bind_normal_inv in Hrun. destruct Hrun as [dist [Hdist Hrun]].
  unfold centroidAt in Hcen.
  destruct (nth_error centroids c) as [w|] eqn:Hw; [| discriminate].
  injection Hcen as ->. apply nth_error_In in Hw.
  rewrite Forall_forall in Hc. apply Hc in Hw. subst centroid.
  exists dist. split; [exact Hdist |]. injection Hrun as <-. reflexivity.
Qed.

(** Among centroids that are all the vector itself, the first one stays
    the nearest: no later distance is smaller. *)
Lemma nearestCentroid_identical (k : nat) (centroids : list (list num)) (a : nat) :
  Forall (fun w => w = v) centroids ->
  nearestCentroid k centroids v = Normal a -> a = 0.
Proof.
  intros Hc Hrun. unfold nearestCentroid in Hrun.
  apply bind_normal_inv in Hrun. destruct Hrun as [st [Hloop Hrun]].
  injection Hrun as <-.
  destruct k as [|k]; [injection Hloop as <-; reflexivity |].
  cbn [seq forOf] in Hloop.
  apply bind_normal_inv in Hloop. destruct Hloop as [s1 [Hfirst Hloop]].
  apply (nearer_step centroids) in Hfirst; [| exact Hc].
  destruct Hfirst as [d [Hd Hs1]]. cbn [fst] in Hs1.
  set (I := fun s : num * nat =>
              snd s = 0 /\ (fst s = d \/ (fst s = infinity /\ lt d infinity = false))).
  assert (H1 : I s1).
  { subst s1. unfold I. destruct (lt d infinity) eqn:Hlt; cbn [fst snd]; auto. }
  assert (Hend : I st).
  { apply (forOf_invariant (nearer centroids) I (seq 1 k)) with (s := s1);
      [| exact H1 | exact Hloop].
    intros s c s' _ Hs Hstep.
    apply (nearer_step centroids) in Hstep; [| exact Hc].
    destruct Hstep as [d' [Hd' ->]].
    rewrite Hd in Hd'. injection Hd' as <-.
    destruct Hs as [Hsnd [Hfst | [Hfst Hinf]]]; rewrite Hfst.
    - rewrite lt_irrefl. split; [exact Hsnd | left; exact Hfst].
    - rewrite Hinf. split; [exact Hsnd | right; split; assumption]. }
  apply Hend.
Qed.

Lemma assignStep_identical (k : nat) (centroids embeddings : list (list num))
  (newAssignments : list nat) :
  Forall (fun w => w = v) centroids -> Forall (fun w => w = v) embeddings ->
  assignStep k centroids embeddings = Normal newAssignments ->
  newAssignments = repeat 0 (length embeddings).
Proof.
  intros Hc He Hrun. unfold assignStep in Hrun.
  apply mapM_normal_inv in Hrun.
  induction Hrun as [|e a es newAs Ha _ IH]; [reflexivity |].
  inversion He as [|? ? He1 He2]; subst.
  cbn [length repeat]. f_equal; [| apply IH; exact He2].
  apply (nearestCentroid_identical k centroids a Hc Ha).
Qed.

Lemma differ_same (l : list nat) : differ l l = false.
Proof.
  unfold differ. induction l as [|a l IH]; [reflexivity |].
  cbn [combine existsb fst snd]. rewrite Nat.eqb_refl. exact IH.
Qed.

(** The iteration on equal vectors stops where it began, without a draw. *)
Lemma lloyd_identical (iterations k : nat) (threshold : num)
  (embeddings centroids : list (list num)) (draws : nat -> num)
  (cursor cursor' : nat) (final : list (list num) * list nat) :
  Forall (fun w => w = v) centroids -> Forall (fun w => w = v) embeddings ->
  lloyd iterations k threshold embeddings centroids
        (repeat 0 (length embeddings)) draws cursor = Normal (final, cursor') ->
  snd final = repeat 0 (length embeddings) /\ cursor' = cursor.
Proof.
  intros Hc He Hrun. destruct iterations as [|iterations]; cbn [lloyd] in Hrun.
  - apply retR_inv in Hrun. destruct Hrun as [-> ->]. split; reflexivity.
  - apply bindR_inv in Hrun. destruct Hrun as [newAssignments [cursor1 [Hassign Hrun]]].
    apply liftR_inv in Hassign. destruct Hassign as [Hassign ->].
    apply (assignStep_identical k centroids embeddings _ Hc He) in Hassign.
    subst newAssignments. rewrite differ_same in Hrun. cbn [negb] in Hrun.
    apply retR_inv in Hrun. destruct Hrun as [-> ->]. split; reflexivity.
Qed.

End Identical.

End OneClusterFacts.

(** ** Targets of one cluster, and runs without end (search/clustering.ts) *)

Section TargetFacts.
Import JS Clustering Numbers.
Local Open Scope Q_scope.

Lemma numMin_below (c : number) (n : Z) :
  numLe c (numOfZ 1) = true -> (1 <= n)%Z ->
  numLe (numMin c (numOfZ n)) (numOfZ 1) = true.
Proof.
  intros Hc Hn. destruct c as [q | [|] |]; try discriminate Hc.
  - unfold numOfZ in *. apply numLe_Num in Hc.
    unfold numMin, numLt.
    assert (Hq : Qle_bool q (inject_Z n) = true).
    { apply Qle_bool_iff. apply (Qle_trans _ (inject_Z 1)); [exact Hc |].
      rewrite <- Zle_Qle. exact Hn. }
    rewrite Hq. cbn [negb]. apply numLe_Num. exact Hc.
  - reflexivity.
Qed.

Lemma numMin_one (c : number) :
  c <> NaN -> numLe (numMin c (numOfZ 1)) (numOfZ 1) = true.
Proof.
  intros Hc. destruct c as [q | [|] |]; [| reflexivity | reflexivity | contradiction].
  unfold numOfZ, numMin, numLt.
  destruct (Qle_bool q (inject_Z 1)) eqn:Hq; cbn [negb].
  - apply numLe_Num. apply Qle_bool_iff. exact Hq.
  - reflexivity.
Qed.

(** [Math.min(c, n)] is NaN, minus Infinity, or a number that is [n] at
    most. *)
Lemma numMin_upper (c : number) (n : Z) :
  match numMin c (numOfZ n) with
  | Num q => q <= inject_Z n
  | Inf negative => negative = true
  | NaN => True
  end.
Proof.
  destruct c as [q | [|] |]; unfold numOfZ, numMin, numLt; cbn [negb];
    try exact I; try reflexivity; try apply Qle_refl.
  destruct (Qle_bool q (inject_Z n)) eqn:Hq; cbn [negb].
  - apply Qle_bool_iff. exact Hq.
  - apply Qle_refl.
Qed.

(** The loop [for (let iter = 0; iter < x; iter++)] does not run when
    [0 < x] does not hold. *)
Lemma countBelow_none (x : number) :
  numLt (numOfZ 0) x = false -> countBelow x = Some 0%nat.
Proof.
  intros Hx. destruct x as [q | [|] |]; try reflexivity; [| discriminate Hx].
  unfold numOfZ, numLt in Hx. apply negb_false_iff, Qle_bool_iff in Hx.
  unfold countBelow.
  assert (Hsmall : Qle_bool q (inject_Z (2 ^ 53)) = true).
  { apply Qle_bool_iff. apply (Qle_trans _ (inject_Z 0)); [exact Hx |].
    rewrite <- Zle_Qle. apply Z.pow_nonneg. lia. }
  rewrite Hsmall. f_equal.
  assert (Hc : (Qceiling q <= 0)%Z).
  { change 0%Z with (Qceiling (inject_Z 0)).
    apply Qceiling_resp_le. exact Hx. }
  lia.
Qed.

Context {num : Type} {N : JSNum num}.

#[local] Abbreviation Chunk := (ChunkForClustering num).

(** The loops over the clusters end by their counter: an array has fewer
    than 2^32 elements. *)
Lemma targetClusters_countBelow (chunks : list Chunk)
  (options : ClusteringOptions num) :
  (Z.of_nat (length chunks) < 2 ^ 32)%Z ->
  countBelow (targetClusters chunks options) <> None.
Proof.
  intros Hlen. unfold targetClusters.
  pose proof (numMin_upper
                match numClusters options with
                | Some c => c
                | None => numOfZ (defaultNumClusters (length chunks))
                end (Z.of_nat (length chunks))) as Hup.
  unfold numOfNat.
  destruct (numMin _ _) as [q | [|] |]; cbn [countBelow];
    try discriminate; try congruence.
  assert (Hsmall : Qle_bool q (inject_Z (2 ^ 53)) = true).
  { apply Qle_bool_iff. apply (Qle_trans _ _ _ Hup). rewrite <- Zle_Qle.
    apply Z.lt_le_incl. apply (Z.lt_trans _ (2 ^ 32)); [exact Hlen | reflexivity]. }
  rewrite Hsmall. discriminate.
Qed.

(** With a bound on the iterations, [kMeansClustering] comes to an end on
    an array of chunks: it returns or it throws. *)
Lemma kMeansClustering_total (chunks : list Chunk)
  (options : ClusteringOptions num) (fuel : nat) (draws : nat -> num)
  (cursor : nat) :
  (Z.of_nat (length chunks) < 2 ^ 32)%Z ->
  boundedIterations options ->
  kMeansClustering chunks options fuel draws cursor <> None.
Proof.
  intros Hlen Hbound. unfold kMeansClustering.
  destruct chunks as [|ch chunks']; [discriminate |].
  set (chunks := ch :: chunks') in *. cbv zeta.
  destruct (numLe (targetClusters chunks options) (numOfZ 1)); [discriminate |].
  pose proof (targetClusters_countBelow chunks options Hlen) as Hk.
  destruct (countBelow (targetClusters chunks options)) as [rounds|];
    [| contradiction].
  destruct (initializeCentroidsKMeansPP _ _ _ _) as [[centroids0 cursor1] | e];
    [| discriminate].
  unfold iterate. unfold boundedIterations in Hbound.
  destruct (countBelow (orDefault (maxIterations options) (numOfZ 100)))
    as [iterations|]; [| contradiction].
  destruct (lloyd _ _ _ _ _ _ _ _) as [[final cursor2] | e]; [| discriminate].
  destruct (arrayLength _); discriminate.
Qed.

End TargetFacts.

(** ** The claims about kMeansClustering *)

Section KMeansClaims.
Import JS Clustering Numbers.
Context {num : Type} {N : JSNum num}.

#[local] Abbreviation Chunk := (ChunkForClustering num).

(** The target without a [numClusters] option. *)
Lemma targetClusters_default (chunks : list Chunk) (options : ClusteringOptions num) :
  numClusters options = None ->
  targetClusters chunks options =
  numOfZ (Z.min (defaultNumClusters (length chunks)) (Z.of_nat (length chunks))).
Proof.
  intros Hnone. unfold targetClusters. rewrite Hnone. apply numMin_Z.
Qed.

Lemma defaultNumClusters_range (n : nat) : (3 <= defaultNumClusters n <= 20)%Z.
Proof. unfold defaultNumClusters. lia. Qed.

Lemma lengthTarget_default (chunks : list Chunk) (options : ClusteringOptions num) :
  numClusters options = None -> lengthTarget chunks options.
Proof.
  intros Hnone. unfold lengthTarget. cbv zeta.
  rewrite (targetClusters_default chunks options Hnone).
  pose proof (defaultNumClusters_range (length chunks)) as Hd.
  right. rewrite arrayLength_Z; [discriminate |].
  split; [lia |]. apply (Z.le_lt_trans _ 20); [lia | reflexivity].
Qed.

(** C4, amended: for every non-empty list of chunks with pairwise distinct
    ids, every result of [kMeansClustering] has its clusters sorted by
    non-increasing size, cluster ids 0..clusterCount-1 in list order, each
    size equal to the number of chunks that the assignment map sends to the
    cluster's id, and only ids of returned clusters as values of the
    assignment map; it has a cluster, and the sizes of its clusters add up
    to the number of chunks.  A result is returned whenever all embeddings
    have the same length, the target [min(numClusters, n)] is 1 or less or
    an integer, and [maxIterations] is 2^53 at most, so that the counter of
    the loop reaches it (and the random draws lie in [0, 1)). *)
Theorem kMeansClustering_result_invariants
  (chunks : list Chunk) (options : ClusteringOptions num)
  (draws : nat -> num) (cursor : nat) :
  chunks <> [] ->
  NoDup (map id chunks) ->
  (forall fuel r cursor',
     kMeansClustering chunks options fuel draws cursor = Some (Normal (r, cursor')) ->
     wellFormedResult chunks r /\ clusterCount r = length (clusters r) /\
     1 <= clusterCount r /\
     list_sum (map size (clusters r)) = length chunks) /\
  (sameDimension chunks -> unitDraws draws ->
   lengthTarget chunks options -> boundedIterations options ->
   forall fuel, exists r cursor',
     kMeansClustering chunks options fuel draws cursor = Some (Normal (r, cursor')) /\
     wellFormedResult chunks r).
Proof.
  intros Hne Hids.
  assert (Hall : forall fuel r cursor',
            kMeansClustering chunks options fuel draws cursor =
              Some (Normal (r, cursor')) ->
            wellFormedResult chunks r /\ clusterCount r = length (clusters r) /\
            1 <= clusterCount r /\
            list_sum (map size (clusters r)) = length chunks).
  { intros fuel r cursor' Hrun.
    destruct (kMeansClustering_wellFormed chunks options fuel draws cursor cursor' r
                Hne Hids Hrun) as [Hwf Hsome].
    destruct (kMeansClustering_partition chunks options fuel draws cursor cursor' r
                Hrun) as [Hsum [_ Hcount]].
    split; [exact Hwf |]. split; [exact Hcount |].
    split; [exact Hsome | exact Hsum]. }
  split; [exact Hall |].
  intros Hdim Hdraws Htarget Hbound fuel.
  destruct (kMeansClustering_returns chunks options fuel draws cursor
              Hdim Hdraws Htarget Hbound) as [r [cursor' Hrun]].
  exists r, cursor'. split; [exact Hrun | apply (Hall fuel r cursor' Hrun)].
Qed.

(** C5: without a [numClusters] option and for [n] chunks, [n] not 0,
    [kMeansClustering] works towards [k = min(max(3, min(20, c)), n)]
    clusters, where [c] is the ceiling of the square root of [n / 2] (the
    least integer whose square is at least [n / 2]): the call is the call
    with [numClusters: k], and with [numClusters: max(3, min(20, c))].
    Every result has between 1 and [k] clusters; for 2 chunks or more the
    run has called [Math.random] [k] times at least, once for each of the
    [k] seeds, and exactly [k] times when all embeddings are equal (with a
    [<] that does not hold between a number and itself); and a result is
    returned when all embeddings have the same length and [maxIterations]
    is 2^53 at most, so that the counter of the loop reaches it (with
    random draws in [0, 1)). *)
Theorem kMeansClustering_default_target
  (chunks : list Chunk) (options : ClusteringOptions num)
  (draws : nat -> num) (cursor : nat) :
  chunks <> [] -> numClusters options = None ->
  let n := Z.of_nat (length chunks) in
  exists c k : Z,
    (0 <= c /\ n <= 2 * c * c /\ forall m, 0 <= m -> n <= 2 * m * m -> c <= m)%Z /\
    k = Z.min (Z.max 3 (Z.min 20 c)) n /\
    (forall fuel,
       kMeansClustering chunks options fuel draws cursor =
         kMeansClustering chunks (withNumClusters options (numOfZ k)) fuel
           draws cursor /\
       kMeansClustering chunks options fuel draws cursor =
         kMeansClustering chunks
           (withNumClusters options (numOfZ (Z.max 3 (Z.min 20 c)))) fuel
           draws cursor) /\
    (forall fuel r cursor',
       kMeansClustering chunks options fuel draws cursor = Some (Normal (r, cursor')) ->
       (1 <= Z.of_nat (clusterCount r) <= k)%Z /\
       (2 <= n -> Z.of_nat cursor + k <= Z.of_nat cursor')%Z /\
       ((forall x : num, lt x x = false) ->
        (exists v, Forall (fun ch => embedding ch = v) chunks) ->
        2 <= n -> Z.of_nat cursor' = Z.of_nat cursor + k)%Z) /\
    (sameDimension chunks -> unitDraws draws -> boundedIterations options ->
     forall fuel, exists r cursor',
       kMeansClustering chunks options fuel draws cursor = Some (Normal (r, cursor'))).
Proof.
  intros Hne Hnone n.
  assert (Hn : (1 <= n)%Z).
  { unfold n. destruct chunks; [contradiction | cbn [length]; lia]. }
  exists (ceilSqrtHalf (length chunks)).
  exists (Z.min (defaultNumClusters (length chunks)) n).
  pose proof (defaultNumClusters_range (length chunks)) as Hd.
  pose proof (targetClusters_default chunks options Hnone) as Hk. fold n in Hk.
  set (k := Z.min (defaultNumClusters (length chunks)) n) in *.
  split; [apply ceilSqrtHalf_spec |]. split; [reflexivity |]. split.
  { assert (Hsame : forall options',
              maxIterations options' = maxIterations options ->
              convergenceThreshold options' = convergenceThreshold options ->
              numRepresentatives options' = numRepresentatives options ->
              targetClusters chunks options' = targetClusters chunks options ->
              forall fuel,
                kMeansClustering chunks options fuel draws cursor =
                kMeansClustering chunks options' fuel draws cursor).
    { intros options' Hm Ht Hr Htarget fuel. unfold kMeansClustering.
      rewrite Hm, Ht, Hr, Htarget. reflexivity. }
    intros fuel. split; apply Hsame; try reflexivity.
    - rewrite Hk. unfold targetClusters, withNumClusters.
      cbn [numClusters]. unfold numOfNat. rewrite numMin_Z. fold n.
      f_equal. unfold k. lia.
    - rewrite Hk. unfold targetClusters, withNumClusters.
      cbn [numClusters]. unfold numOfNat. rewrite numMin_Z. fold n.
      reflexivity. }
  split.
  - intros fuel r cursor' Hrun.
    pose proof (kMeansClustering_some_cluster chunks options fuel draws cursor
                  cursor' r Hne Hrun) as Hsome.
    pose proof (kMeansClustering_inv chunks options fuel draws cursor r cursor'
                  Hrun) as Hinv.
    destruct (kMeansClustering_count chunks options fuel draws cursor cursor' r
                Hne Hrun) as [[Hone [Hcount Hcur]] | [kn [Hlen [Hk2 [Hcount Hcur]]]]].
    + rewrite Hk, numLe_Z in Hone. apply Z.leb_le in Hone.
      split; [rewrite Hcount; lia |]. split; [lia |]. intros _ _ H2. lia.
    + rewrite Hk, arrayLength_Z in Hlen
        by (split; [lia | apply (Z.le_lt_trans _ 20); [lia | reflexivity]]).
      injection Hlen as <-.
      split; [lia |]. split; [lia |].
      intros Hirr [v Hsame] _.
      destruct Hinv as [Hempty _ _ | _ Hone _ _
                       | kn iterations centroids0 cursor1 final
                           _ _ Hlen' _ Hinit Hlloyd _ _].
      * contradiction.
      * rewrite Hk, numLe_Z in Hone. apply Z.leb_le in Hone. lia.
      * rewrite Hk, arrayLength_Z in Hlen'
          by (split; [lia | apply (Z.le_lt_trans _ 20); [lia | reflexivity]]).
        injection Hlen' as <-.
        assert (He : Forall (fun w => w = v) (map embedding chunks))
          by (rewrite Forall_map; exact Hsame).
        pose proof (initializeCentroidsKMeansPP_cursor _ _ _ _ _ _ Hinit) as Hc1.
        apply seeds_In in Hinit.
        assert (Hc : Forall (fun w => w = v) centroids0).
        { apply Forall_forall. intros w Hw. rewrite Forall_forall in Hinit, He.
          apply He, Hinit, Hw. }
        rewrite <- (length_map embedding chunks) in Hlloyd.
        apply (lloyd_identical v Hirr _ _ _ _ _ _ _ _ _ Hc He) in Hlloyd.
        destruct Hlloyd as [_ ->]. lia.
  - intros Hdim Hdraws Hbound fuel.
    apply kMeansClustering_returns; auto.
    apply lengthTarget_default. exact Hnone.
Qed.

(** C9, amended: [kMeansClustering] returns the empty result for the empty
    list; on no input does it throw 'Cannot calculate centroid of empty set'
    (a centroid is recomputed from a member set that is not empty, an empty
    cluster is reseeded from a data point, and the single-cluster case has a
    chunk): what it throws is the length mismatch of [euclideanDistance],
    the type error of a missing array element, or the RangeError of
    [Array(k)] for a target [k] above 1 that is no integer, in which case no
    result is returned.  When [maxIterations] is 2^53 at most, so that the
    counter of the loop reaches it, the call comes to an end on every array
    of chunks, and it returns a result on every input whose embeddings all
    have the same length and whose target [min(numClusters, n)] is 1 or less
    or an integer (with random draws in [0, 1)). *)
Theorem kMeansClustering_never_empty_centroid
  (chunks : list Chunk) (options : ClusteringOptions num)
  (draws : nat -> num) (cursor : nat) :
  (forall fuel,
     kMeansClustering [] options fuel draws cursor =
     Some (Normal ({| clusterCount := 0; clusters := []; assignments := [] |},
                   cursor))) /\
  (forall fuel,
     kMeansClustering chunks options fuel draws cursor <> Some (Throw emptySetError)) /\
  (forall fuel e,
     kMeansClustering chunks options fuel draws cursor = Some (Throw e) ->
     expectedError e) /\
  (chunks <> [] -> ~ lengthTarget chunks options ->
   forall fuel r cursor',
     kMeansClustering chunks options fuel draws cursor <> Some (Normal (r, cursor'))) /\
  ((Z.of_nat (length chunks) < 2 ^ 32)%Z -> boundedIterations options ->
   forall fuel, kMeansClustering chunks options fuel draws cursor <> None) /\
  (sameDimension chunks -> unitDraws draws ->
   lengthTarget chunks options -> boundedIterations options ->
   forall fuel, exists r cursor',
     kMeansClustering chunks options fuel draws cursor = Some (Normal (r, cursor')) /\
     (chunks <> [] -> 1 <= clusterCount r)).
Proof.
  split; [reflexivity |].
  split.
  { intros fuel H. apply emptySetError_unexpected.
    exact (kMeansClustering_throws chunks options fuel draws cursor _ H). }
  split; [exact (fun fuel => kMeansClustering_throws chunks options fuel draws cursor) |].
  split.
  - intros Hne Htarget fuel r cursor' Hrun. apply Htarget.
    unfold lengthTarget. cbv zeta.
    apply kMeansClustering_inv in Hrun.
    destruct Hrun as [Hempty _ _ | _ Hone _ _
                     | k iterations centroids0 cursor1 final _ _ Hlen _ _ _ _ _].
    + contradiction.
    + left. exact Hone.
    + right. rewrite Hlen. discriminate.
  - split.
    + intros Hlen Hbound fuel. apply kMeansClustering_total; assumption.
    + intros Hdim Hdraws Htarget Hbound fuel.
      destruct (kMeansClustering_returns chunks options fuel draws cursor
                  Hdim Hdraws Htarget Hbound) as [r [cursor' Hrun]].
      exists r, cursor'. split; [exact Hrun |].
      intros Hne.
      apply (kMeansClustering_some_cluster chunks options fuel draws cursor
               cursor' r Hne Hrun).
Qed.

End KMeansClaims.

Section KMeansRuns.
Import JS Clustering ExactNum Numbers.
Local Open Scope Q_scope.

(** Draws that are all 1/2 behave like numbers of [0, 1). *)
Lemma always_half_unit : unitDraws (always (1 # 2)).
Proof.
  intros cursor n Hn. unfold always.
  cbn [toIndex floor mul ofNat exactNum exMul exFloor exToIndex].
  set (z := Qfloor ((1 # 2) * inject_Z (Z.of_nat n))).
  assert (Hz : z = (Z.of_nat n / 2)%Z).
  { unfold z, Qfloor, Qmult, inject_Z. cbn [Qnum Qden].
    rewrite Z.mul_1_l. reflexivity. }
  rewrite Qfloor_Z, Qeq_bool_refl. cbn [andb].
  assert (Hz0 : (0 <= z)%Z) by (rewrite Hz; apply Z.div_pos; lia).
  apply Z.leb_le in Hz0. rewrite Hz0. apply Z.leb_le in Hz0.
  exists (Z.to_nat z). split; [reflexivity |].
  assert ((z < Z.of_nat n)%Z).
  { rewrite Hz. apply Z.div_lt_upper_bound; lia. }
  lia.
Qed.

(** A run on four points on a line: the three clusters come largest first,
    renumbered, and the assignment map follows. *)
Example kMeansClustering_four_points :
  exists r cursor',
    kMeansClustering fourPoints noOptions 0 (always (1 # 2)) 0%nat =
      Some (Normal (r, cursor')) /\
    map idSize (clusters r) = [(0, 2); (1, 1); (2, 1)]%nat /\
    assignments r =
      [(lit "a", 1); (lit "b", 2); (lit "c", 0); (lit "d", 0)]%nat.
Proof.
  eexists. eexists. split; [vm_compute; reflexivity |].
  split; reflexivity.
Qed.

Lemma kMeansClustering_result_invariants_witness :
  exists r cursor',
    kMeansClustering fourPoints noOptions 0 (always (1 # 2)) 0%nat =
      Some (Normal (r, cursor')) /\
    wellFormedResult fourPoints r.
Proof.
  destruct (kMeansClustering_result_invariants fourPoints noOptions
              (always (1 # 2)) 0%nat) as [_ Hreturns].
  - discriminate.
  - repeat constructor; simpl; intuition discriminate.
  - apply Hreturns.
    + exists 1%nat. repeat constructor.
    + exact always_half_unit.
    + right. vm_compute. discriminate.
    + vm_compute. discriminate.
Defined.

(** Four chunks: the target is 3, the run returns 3 clusters and has drawn
    3 times. *)
Lemma kMeansClustering_default_target_witness :
  exists r cursor',
    kMeansClustering fourPoints noOptions 0 (always (1 # 2)) 0%nat =
      Some (Normal (r, cursor')) /\
    (1 <= clusterCount r <= 3)%nat /\ (3 <= cursor')%nat.
Proof.
  destruct (kMeansClustering_default_target fourPoints noOptions
              (always (1 # 2)) 0%nat) as [c [k [Hc [Hk [_ [Hall Hreturns]]]]]].
  - discriminate.
  - reflexivity.
  - destruct Hreturns with (fuel := 0%nat) as [r [cursor' Hrun]].
    + exists 1%nat. repeat constructor.
    + exact always_half_unit.
    + vm_compute. discriminate.
    + exists r, cursor'. split; [exact Hrun |].
      destruct (Hall 0%nat r cursor' Hrun) as [Hcount [Hdraws _]].
      assert (Hc2 : c = 2%Z).
      { destruct Hc as [Hc0 [Hc1 Hc2]]. cbn [fourPoints length] in Hc1, Hc2.
        specialize (Hc2 2%Z).
        assert (Hcases : c = 0%Z \/ c = 1%Z \/ c = 2%Z) by lia.
        destruct Hcases as [-> | [-> | ->]]; lia. }
      subst c. cbn [fourPoints length] in Hk, Hdraws. lia.
Defined.

Lemma kMeansClustering_never_empty_centroid_witness :
  exists r cursor',
    kMeansClustering fourPoints noOptions 0 (always (1 # 2)) 0%nat =
      Some (Normal (r, cursor')) /\
    (1 <= clusterCount r)%nat.
Proof.
  destruct (kMeansClustering_never_empty_centroid fourPoints noOptions
              (always (1 # 2)) 0%nat) as [_ [_ [_ [_ [_ Hreturns]]]]].
  destruct Hreturns with (fuel := 0%nat) as [r [cursor' [Hrun Hsome]]].
  - exists 1%nat. repeat constructor.
  - exact always_half_unit.
  - right. vm_compute. discriminate.
  - vm_compute. discriminate.
  - exists r, cursor'. split; [exact Hrun |]. apply Hsome. discriminate.
Defined.

(** A target that is no integer, and one that is no number: the seeds are
    drawn, the loop runs, and [Array(k)] throws. *)
Example kMeansClustering_fraction_of_clusters :
  kMeansClustering fourPoints (withClusters (Num (5 # 2))) 0 (always (1 # 2)) 0%nat =
    Some (Throw rangeError) /\
  kMeansClustering [point "a" [0]] (withClusters NaN) 0 (always (1 # 2)) 0%nat =
    Some (Throw rangeError) /\
  kMeansClustering fourPoints (withClusters (Inf false)) 0 (always (1 # 2)) 0%nat =
    kMeansClustering fourPoints (withClusters (Num 4)) 0 (always (1 # 2)) 0%nat.
Proof. repeat split; vm_compute; reflexivity. Qed.

(** C4, as stated, fails: two chunks with the same id land in two clusters
    of size 1, and the assignment map, keyed by id, keeps one of them: the
    cluster with id 0 has size 1 while both chunks are assigned to it. *)
Lemma kMeansClustering_duplicate_ids_counterexample :
  let chunks := [point "x" [0]; point "x" [10]] in
  exists r cursor',
    kMeansClustering chunks noOptions 0 (always (1 # 2)) 0%nat =
      Some (Normal (r, cursor')) /\
    map idSize (clusters r) = [(0, 1); (1, 1)]%nat /\
    assignments r = [(lit "x", 0%nat)] /\
    ~ wellFormedResult chunks r.
Proof.
  intros chunks. eexists. eexists. split; [vm_compute; reflexivity |].
  split; [reflexivity |]. split; [reflexivity |].
  intros [_ [_ [Hsize _]]].
  pose proof (Hsize _ (or_introl eq_refl)) as Hfirst.
  vm_compute in Hfirst. discriminate Hfirst.
Qed.

(** C9, as stated, fails: with embeddings of different lengths the guard of
    [euclideanDistance] throws, and no result is returned. *)
Lemma kMeansClustering_ragged_counterexample :
  let chunks := [point "a" [1]; point "b" [1; 2]] in
  kMeansClustering chunks noOptions 0 (always (1 # 2)) 0%nat =
    Some (Throw vectorsError) /\
  ~ (exists r cursor',
       kMeansClustering chunks noOptions 0 (always (1 # 2)) 0%nat =
      Some (Normal (r, cursor'))).
Proof.
  intros chunks.
  assert (H : kMeansClustering chunks noOptions 0 (always (1 # 2)) 0%nat
              = Some (Throw vectorsError)) by (vm_compute; reflexivity).
  split; [exact H |]. intros [r [cursor' Hr]]. rewrite H in Hr. discriminate.
Qed.

End KMeansRuns.

(** ** The cases of the clustering test suite *)

Section ClusteringTests.
Import JS Clustering ExactNum Numbers.
Local Open Scope Q_scope.

Example euclideanDistance_tests :
  euclideanDistance (map Finite [0; 0]) (map Finite [3; 4]) = Normal (Finite 5) /\
  euclideanDistance (map Finite [1; 2]) (map Finite [1; 2; 3]) = Throw vectorsError.
Proof. split; vm_compute; reflexivity. Qed.

(** 'should create single cluster for single chunk'. *)
Example kMeansClustering_single_chunk :
  exists r cursor',
    kMeansClustering
      [chunkOf "test.ts:1-10" "function test() {}" "test.ts" [1; 0; 0] None None]
      noOptions 0 (always (1 # 2)) 0%nat = Some (Normal (r, cursor')) /\
    clusterCount r = 1%nat /\ clusterOfId r "test.ts:1-10" = Some 0%nat.
Proof.
  eexists. eexists. split; [vm_compute; reflexivity |]. split; reflexivity.
Qed.

(** 'should cluster similar vectors together': two groups near orthogonal
    directions, two clusters. *)
Example kMeansClustering_two_groups :
  exists r cursor',
    kMeansClustering
      [chunkOf "a1" "a1" "a.ts" [1; 1 # 10; 0] None None;
       chunkOf "a2" "a2" "a.ts" [9 # 10; 1 # 10; 1 # 10] None None;
       chunkOf "a3" "a3" "a.ts" [1; 0; 1 # 10] None None;
       chunkOf "b1" "b1" "b.ts" [0; 1; 1 # 10] None None;
       chunkOf "b2" "b2" "b.ts" [1 # 10; 9 # 10; 0] None None;
       chunkOf "b3" "b3" "b.ts" [1 # 10; 1; 1 # 10] None None]
      (withClusters (Num 2)) 0 (always (1 # 2)) 0%nat = Some (Normal (r, cursor')) /\
    clusterCount r = 2%nat /\
    map (clusterOfId r) ["a1"; "a2"; "a3"; "b1"; "b2"; "b3"]%string =
    [Some 1; Some 1; Some 1; Some 0; Some 0; Some 0]%nat.
Proof.
  eexists. eexists. split; [vm_compute; reflexivity |]. split; reflexivity.
Qed.

(** 'should generate labels from symbol types'. *)
Example kMeansClustering_label :
  exists r cursor',
    kMeansClustering
      [chunkOf "a" "fn" "src/utils/helper.ts" [1; 0] None (Some "function"%string);
       chunkOf "b" "fn" "src/utils/util.ts" [9 # 10; 1 # 10] None (Some "function"%string);
       chunkOf "c" "fn" "src/utils/tools.ts" [1; 1 # 10] None (Some "function"%string)]
      (withClusters (Num 1)) 0 (always (1 # 2)) 0%nat = Some (Normal (r, cursor')) /\
    map label (clusters r) = [lit "utils functions"].
Proof.
  eexists. eexists. split; [vm_compute; reflexivity |]. reflexivity.
Qed.

(** 'should extract keywords from content'. *)
Example extractKeywords_test :
  extractKeywords
    [chunkOf "a" "function authenticate(user: User) { return validateUser(user); }"
       "auth.ts" [1; 0; 0] (Some "authenticate"%string) None]
  = [lit "authenticate"; lit "user"; lit "validateuser"].
Proof. vm_compute. reflexivity. Qed.

Example generateClusterLabel_fallbacks :
  generateClusterLabel
    [chunkOf "a" "const tokenBucket = refillTokens(bucket_);" "limiter.ts" [1] None None]
    [chunkOf "a" "const tokenBucket = refillTokens(bucket_);" "limiter.ts" [1] None None]
  = lit "tokenbucket & refilltokens" /\
  generateClusterLabel [chunkOf "a" "x = 1" "a.ts" [1] None None] [] = lit "Code" /\
  matchIdentifiers (lit "a_ ab__ _x1 9lives q") = [lit "ab"; lit "x1"; lit "lives"] /\
  matchCamelWords (lit "getHTTPResponseCode") = [lit "get"; lit "Response"; lit "Code"].
Proof. repeat split; vm_compute; reflexivity. Qed.

End ClusteringTests.

(** ** Batches and workers (src/utils/concurrency.ts) *)

Section PrefixFacts.



End PrefixFacts.

Section PromiseFacts.
Import JS Embeddings.

Lemma map_Normal_inj {A : Type} (vs : list A) :
  forall ws, map (@Normal A) vs = map Normal ws -> vs = ws.
Proof.
  induction vs as [|v vs IH]; intros [|w ws] H; try discriminate;
    [reflexivity |].
  cbn [map] in H. injection H as -> H. f_equal. apply IH, H.
Qed.




(** Every promise settles under [order]. *)
Lemma promiseAll_covering {A : Type} (values : list A) (order : list nat) :
  (forall j, j < length values -> In j order) ->
  promiseAll (map Normal values) order = Some (Normal values).
Proof.
  intros Hcover. unfold promiseAll. rewrite length_map.
  destruct (settle_fills values order (repeat None (length values)))
    as [slots' [Hs [Hl Hn]]].
  { apply repeat_length. }
  rewrite Hs. rewrite (allFilled_all values slots' Hl); [reflexivity |].
  intros j Hj. rewrite Hn.
  destruct (in_dec Nat.eq_dec j order) as [Hin|Hnin].
  - apply Nat.ltb_lt in Hj. rewrite Hj. reflexivity.
  - exfalso. apply Hnin, Hcover, Hj.
Qed.

Lemma settle_throw_In {A : Type} (outcomes : list (Completion A))
  (order : list nat) (e : JSError) :
  forall slots, settle outcomes order slots = Throw e -> In (Throw e) outcomes.
Proof.
  induction order as [|i order IH]; intros slots H; cbn [settle] in H;
    [discriminate |].
  destruct (nth_error outcomes i) as [[v|e']|] eqn:Hi.
  - apply (IH _ H).
  - injection H as <-. apply (nth_error_In _ _ Hi).
  - apply (IH _ H).
Qed.

Lemma promiseAll_throw_In {A : Type} (outcomes : list (Completion A))
  (order : list nat) (e : JSError) :
  promiseAll outcomes order = Some (Throw e) -> In (Throw e) outcomes.
Proof.
  unfold promiseAll. intros H.
  destruct (settle outcomes order (repeat None (length outcomes)))
    as [slots|e'] eqn:Hs.
  - destruct (allFilled slots); discriminate.
  - injection H as <-. apply (settle_throw_In _ _ _ _ Hs).
Qed.

Lemma outcomes_cases {A : Type} (outcomes : list (Completion A)) :
  (exists vs, outcomes = map Normal vs) \/
  (exists i e, nth_error outcomes i = Some (Throw e)).
Proof.
  induction outcomes as [|[v|e] outcomes IH].
  - left. exists []. reflexivity.
  - destruct IH as [[vs ->] | [i [e Hi]]].
    + left. exists (v :: vs). reflexivity.
    + right. exists (S i), e. exact Hi.
  - right. exists 0, e. reflexivity.
Qed.

(** When every promise settles, [Promise.all] settles: with the values in
    the order of the promises, or with the reason of one of them. *)
Lemma promiseAll_settles {A : Type} (outcomes : list (Completion A))
  (order : list nat) :
  (forall j, j < length outcomes -> In j order) ->
  (exists vs, outcomes = map Normal vs /\
              promiseAll outcomes order = Some (Normal vs)) \/
  (exists e, In (Throw e) outcomes /\
             promiseAll outcomes order = Some (Throw e)).
Proof.
  intros Hcover.
  destruct (outcomes_cases outcomes) as [[vs ->] | [i [e Hi]]].
  - left. exists vs. split; [reflexivity |].
    apply promiseAll_covering. intros j Hj. apply Hcover.
    rewrite length_map. exact Hj.
  - right.
    assert (Hin : In i order).
    { apply Hcover. apply nth_error_Some. congruence. }
    destruct (promiseAll_rejects outcomes order i e Hin Hi) as [e' He'].
    exists e'. split; [apply (promiseAll_throw_In _ _ _ He') | exact He'].
Qed.

End PromiseFacts.

Section BatchFacts.
Import JS Embeddings Concurrency.
Context {T R : Type}.
Variable items : list T.
Variable fn : T -> Z -> Completion R.

(** The calls for the items of [l], which stand at [start] and after. *)
#[local] Abbreviation callsFrom start l :=
  (map (fun p : nat * T => fn (snd p) (Z.of_nat (fst p)))
       (combine (seq start (length l)) l)).







Lemma outcomes_length : length (outcomes items fn) = length items.
Proof.
  unfold outcomes. rewrite length_map, length_combine, length_seq. lia.
Qed.


End BatchFacts.

Section MapInBatchesFacts.
Import JS Embeddings Concurrency.
Context {T R : Type}.
Variable items : list T.
Variable fn : T -> Z -> Completion R.






Lemma batchLoop_never_returns (b : Z) :
  (b <= 0)%Z -> items <> [] ->
  forall fuel i schedule results progress r,
    (i <= 0)%Z ->
    batchLoop items fn b fuel i schedule results progress <> Some (Normal r).
Proof.
  intros Hb Hne. induction fuel as [|fuel IH];
    intros i schedule results progress r Hi; cbn [batchLoop]; [discriminate |].
  assert (Hlen : 0 < length items) by (destruct items; [congruence | cbn; lia]).
  destruct (Z.ltb_spec i (Z.of_nat (length items))) as [_|Hge]; [| lia].
  destruct (promiseAll _ (hd [] schedule)) as [[batchResults|e]|];
    try discriminate.
  apply IH. lia.
Qed.

Lemma batchLoop_zero_pending :
  items <> [] ->
  forall fuel schedule results progress,
    batchLoop items fn 0 fuel 0 schedule results progress = None.
Proof.
  intros Hne. induction fuel as [|fuel IH]; intros schedule results progress;
    cbn [batchLoop]; [reflexivity |].
  assert (Hlen : 0 < length items) by (destruct items; [congruence | cbn; lia]).
  destruct (Z.ltb_spec 0 (Z.of_nat (length items))) as [_|Hge]; [| lia].
  assert (Hslice : slice items 0 (0 + 0) = []).
  { unfold slice, relativeIndex. cbn [Z.add Z.ltb Z.compare].
    rewrite Z.sub_diag. reflexivity. }
  rewrite Hslice. cbn [batchCalls length seq combine map].
  unfold promiseAll. cbn [length repeat].
  assert (Hsettle : forall order, settle (@nil (Completion R)) order [] = Normal []).
  { induction order as [|j order IHo]; [reflexivity |].
    cbn [settle]. destruct j; cbn [nth_error]; exact IHo. }
  rewrite Hsettle. cbn [allFilled app]. apply IH.
Qed.

(** X3: with a batch size of 0 or less and at least one item,
    [mapInBatches] never resolves: the loop variable never reaches
    [items.length].  With a batch size of 0 it does not settle at all,
    however many rounds the loop is given. *)
Theorem mapInBatches_never_returns (size : Z) (fuel : nat)
  (schedule : list (list nat)) :
  (size <= 0)%Z -> items <> [] ->
  (forall r, mapInBatches items fn (Some size) fuel schedule <> Some (Normal r)) /\
  (size = 0%Z -> mapInBatches items fn (Some size) fuel schedule = None).
Proof.
  intros Hsize Hne. unfold mapInBatches. split.
  - intros r. apply batchLoop_never_returns; [exact Hsize | exact Hne | lia].
  - intros ->. apply batchLoop_zero_pending, Hne.
Qed.

End MapInBatchesFacts.

Section MapInBatchesExamples.
Import JS Embeddings Concurrency.



Lemma mapInBatches_never_returns_witness :
  mapInBatches [1; 2; 3]%Z (fun item _ => Normal item) (Some 0%Z) 1000 [] = None.
Proof.
  apply (mapInBatches_never_returns [1; 2; 3]%Z (fun item _ => Normal item)
           0%Z 1000 []); [lia | discriminate | reflexivity].
Defined.

End MapInBatchesExamples.


Section WorkerCount.
Import Numbers.
Local Open Scope Q_scope.

(** [Math.min(concurrency, items.length)] as a length: it is at most the
    number of items and at most [concurrency], 1 at least when both are,
    and 0 when [concurrency] is 0 or less. *)
Lemma arrayLength_min (c : number) (n count : nat) :
  arrayLength (numMin c (numOfNat n)) = Some count ->
  (count <= n)%nat /\ numLe (numOfNat count) c = true /\
  (numLe (numOfZ 1) c = true -> (1 <= n)%nat -> (1 <= count)%nat) /\
  (numLe c (numOfZ 0) = true -> count = 0%nat).
Proof.
  intros Hlen. destruct (arrayLength_inv _ _ Hlen) as [m [Hmin [Hm _]]].
  unfold numOfNat, numOfZ in *.
  destruct c as [q | [|] |]; unfold numMin, numLt in Hmin; cbn [negb] in Hmin;
    try discriminate Hmin.
  - destruct (Qle_bool q (inject_Z (Z.of_nat n))) eqn:Hq; cbn [negb] in Hmin;
      injection Hmin as <-.
    + apply Qle_bool_iff in Hq. rewrite Hm in Hq. rewrite <- Zle_Qle in Hq.
      split; [lia |]. split.
      { apply numLe_Num. rewrite Hm. apply Qle_refl. }
      split.
      * intros H1 _. apply numLe_Num in H1. rewrite Hm in H1.
        rewrite <- Zle_Qle in H1. lia.
      * intros H0. apply numLe_Num in H0. rewrite Hm in H0.
        rewrite <- Zle_Qle in H0. lia.
    + assert (Hlt : inject_Z (Z.of_nat n) < q).
      { apply Qnot_le_lt. intros Hle. apply Qle_bool_iff in Hle. congruence. }
      unfold Qeq, inject_Z in Hm. cbn [Qnum Qden] in Hm.
      assert (Hcount : count = n) by lia. subst count.
      split; [lia |]. split.
      { apply numLe_Num. apply Qlt_le_weak. exact Hlt. }
      split; [intros _ H1; exact H1 |].
      intros H0. apply numLe_Num in H0.
      assert (Hn : inject_Z 0 <= inject_Z (Z.of_nat n))
        by (rewrite <- Zle_Qle; lia).
      exfalso. apply (Qlt_irrefl q).
      apply (Qle_lt_trans _ (inject_Z (Z.of_nat n)));
        [apply (Qle_trans _ (inject_Z 0)); assumption | exact Hlt].
  - injection Hmin as <-.
    unfold Qeq, inject_Z in Hm. cbn [Qnum Qden] in Hm.
    assert (Hcount : count = n) by lia. subst count.
    split; [lia |]. split; [reflexivity |].
    split; [intros _ H1; exact H1 | discriminate].
Qed.

End WorkerCount.

Section WorkersFacts.
Import JS Embeddings Concurrency Numbers.
Context {T R : Type}.
Variable items : list T.
Variable fn : T -> Z -> Completion R.

#[local] Abbreviation initial :=
  {| currentIndex := 0; results := repeat (@None R) (length items);
     running := []; started := [] |}.

Lemma remove_NoDup (i : nat) (l : list nat) :
  NoDup l -> NoDup (remove Nat.eq_dec i l).
Proof.
  induction 1 as [|x l Hx Hl IH]; cbn [remove]; [constructor |].
  destruct (Nat.eq_dec i x); [exact IH |].
  constructor; [| exact IH].
  intros Hin. apply in_remove in Hin. tauto.
Qed.

Lemma remove_NoDup_length (i : nat) (l : list nat) :
  NoDup l -> In i l -> S (length (remove Nat.eq_dec i l)) = length l.
Proof.
  induction 1 as [|x l Hx Hl IH]; intros Hin; [contradiction |].
  cbn [remove]. destruct (Nat.eq_dec i x) as [->|Hne].
  - rewrite notin_remove by exact Hx. reflexivity.
  - destruct Hin as [->|Hin]; [congruence |].
    cbn [length]. rewrite (IH Hin). reflexivity.
Qed.

Lemma existsb_eqb_In (i : nat) (l : list nat) :
  existsb (Nat.eqb i) l = true <-> In i l.
Proof.
  rewrite existsb_exists. split.
  - intros [x [Hx Heq]]. apply Nat.eqb_eq in Heq. subst x. exact Hx.
  - intros H. exists i. split; [exact H | apply Nat.eqb_refl].
Qed.

Lemma iter_processNext (j : nat) :
  j <= length items ->
  Nat.iter j (processNext items) initial =
  {| currentIndex := j; results := repeat None (length items);
     running := seq 0 j; started := seq 0 j |}.
Proof.
  induction j as [|j IH]; intros Hj; [reflexivity |].
  rewrite Nat.iter_succ, IH by lia. unfold processNext.
  cbn [currentIndex results running started].
  assert (Hlt : (j <? length items) = true) by (apply Nat.ltb_lt; lia).
  rewrite Hlt. rewrite seq_S. reflexivity.
Qed.

Lemma startWorkers_wellFormed (concurrency : number) (st : Workers R) :
  startWorkers items concurrency = Normal st ->
  exists count,
    arrayLength (numMin concurrency (numOfNat (length items))) = Some count /\
    wellFormedWorkers items fn count st.
Proof.
  unfold startWorkers.
  destruct (arrayLength (numMin concurrency (numOfNat (length items))))
    as [count|] eqn:Hcount; [| discriminate].
  destruct (arrayLength_min _ _ _ Hcount) as [Hle _].
  intros H. injection H as <-. exists count. split; [reflexivity |].
  rewrite iter_processNext by lia.
  unfold wellFormedWorkers. cbn [currentIndex results running started].
  repeat split.
  - lia.
  - apply repeat_length.
  - apply seq_NoDup.
  - intros i Hi. apply in_seq in Hi. lia.
  - rewrite length_seq. lia.
  - intros _. apply length_seq.
  - intros i Hi Hnin. exfalso. apply Hnin. apply in_seq. lia.
  - intros i Hi _. apply nth_error_repeat. exact Hi.
Qed.

(** A step of a worker keeps the state well-formed. *)
Lemma resume_wellFormed (count : nat) (st : Workers R) (index : nat) (value : R) :
  wellFormedWorkers items fn count st ->
  In index (running st) ->
  nth_error (outcomes items fn) index = Some (Normal value) ->
  wellFormedWorkers items fn count (resume items st index value).
Proof.
  intros [Hcur [Hlen [Hstarted [Hnd [Hlt [Hle [Hfull [Hdone Hhole]]]]]]]] Hin Hout.
  pose proof (remove_NoDup index _ Hnd) as Hnd'.
  pose proof (remove_NoDup_length index _ Hnd Hin) as Hlen'.
  pose proof (Hlt index Hin) as Hindex.
  assert (Hdone' : forall i, i < currentIndex st ->
            ~ In i (remove Nat.eq_dec index (running st)) ->
            exists v, nth_error (outcomes items fn) i = Some (Normal v) /\
                      nth_error (setSlot (results st) index value) i = Some (Some v)).
  { intros i Hi Hnin. destruct (Nat.eq_dec index i) as [<-|Hne].
    - exists value. split; [exact Hout |]. apply setSlot_same. lia.
    - rewrite setSlot_other by exact Hne. apply Hdone; [exact Hi |].
      intros Hi'. apply Hnin. apply in_in_remove; [congruence | exact Hi']. }
  assert (Hhole' : forall i, i < length items ->
            currentIndex st <= i \/ In i (remove Nat.eq_dec index (running st)) ->
            nth_error (setSlot (results st) index value) i = Some None).
  { intros i Hi Hor.
    assert (Hne : index <> i).
    { destruct Hor as [Hge|Hr]; [lia |]. apply in_remove in Hr. intuition congruence. }
    rewrite setSlot_other by exact Hne. apply Hhole; [exact Hi |].
    destruct Hor as [Hge|Hr]; [left; exact Hge |].
    right. apply in_remove in Hr. tauto. }
  unfold resume, processNext. cbn [currentIndex results running started].
  destruct (Nat.ltb_spec (currentIndex st) (length items)) as [Hmore|Hend];
    unfold wellFormedWorkers; cbn [currentIndex results running started].
  - repeat split.
    + lia.
    + rewrite setSlot_length. exact Hlen.
    + rewrite Hstarted, seq_S. reflexivity.
    + apply NoDup_app; [exact Hnd' | repeat constructor; intros [] |].
      intros a Ha [<-|[]]. apply in_remove in Ha. destruct Ha as [Ha _].
      specialize (Hlt _ Ha). lia.
    + intros i Hi. apply in_app_or in Hi. destruct Hi as [Hi|[<-|[]]]; [| lia].
      apply in_remove in Hi. destruct Hi as [Hi _]. specialize (Hlt _ Hi). lia.
    + rewrite length_app. cbn [length]. specialize (Hfull Hmore). lia.
    + intros _. rewrite length_app. cbn [length]. specialize (Hfull Hmore). lia.
    + intros i Hi Hnin. apply Hdone'.
      * destruct (Nat.eq_dec i (currentIndex st)) as [->|Hne]; [| lia].
        exfalso. apply Hnin. apply in_or_app. right. left. reflexivity.
      * intros Hr. apply Hnin. apply in_or_app. left. exact Hr.
    + intros i Hi Hor. apply Hhole'; [exact Hi |].
      destruct Hor as [Hge|Hr]; [left; lia |].
      apply in_app_or in Hr. destruct Hr as [Hr|[<-|[]]]; [right; exact Hr | left; lia].
  - repeat split.
    + exact Hcur.
    + rewrite setSlot_length. exact Hlen.
    + exact Hstarted.
    + exact Hnd'.
    + intros i Hi. apply in_remove in Hi. apply Hlt. tauto.
    + lia.
    + intros Hlt'. lia.
    + exact Hdone'.
    + exact Hhole'.
Qed.

Lemma settleWorkers_wellFormed (count : nat) (schedule : list nat) :
  forall st st',
    wellFormedWorkers items fn count st ->
    settleWorkers items fn schedule st = Normal st' ->
    wellFormedWorkers items fn count st'.
Proof.
  induction schedule as [|index schedule IH]; intros st st' Hwf Hrun;
    cbn [settleWorkers] in Hrun.
  - injection Hrun as <-. exact Hwf.
  - destruct (existsb (Nat.eqb index) (running st)) eqn:Hrunning.
    + apply existsb_eqb_In in Hrunning.
      destruct (nth_error (outcomes items fn) index) as [[value|e]|] eqn:Hout.
      * apply (IH _ _ (resume_wellFormed count st index value Hwf Hrunning Hout) Hrun).
      * discriminate.
      * apply (IH _ _ Hwf Hrun).
    + apply (IH _ _ Hwf Hrun).
Qed.

Lemma settleWorkers_throw_In (schedule : list nat) (e : JSError) :
  forall st, settleWorkers items fn schedule st = Throw e ->
             In (Throw e) (outcomes items fn).
Proof.
  induction schedule as [|index schedule IH]; intros st Hrun;
    cbn [settleWorkers] in Hrun; [discriminate |].
  destruct (existsb (Nat.eqb index) (running st)).
  - destruct (nth_error (outcomes items fn) index) as [[value|e']|] eqn:Hout.
    + apply (IH _ Hrun).
    + injection Hrun as <-. apply (nth_error_In _ _ Hout).
    + apply (IH _ Hrun).
  - apply (IH _ Hrun).
Qed.

Lemma workersAfter_wellFormed (concurrency : option number) (schedule : list nat)
  (st : Workers R) :
  let c := match concurrency with Some c => c | None => numOfZ 10 end in
  workersAfter items fn concurrency schedule = Normal st ->
  exists count,
    arrayLength (numMin c (numOfNat (length items))) = Some count /\
    wellFormedWorkers items fn count st.
Proof.
  intros c. unfold workersAfter. fold c. intros Hrun.
  apply bind_normal_inv in Hrun. destruct Hrun as [st0 [Hstart Hrun]].
  destruct (startWorkers_wellFormed c st0 Hstart) as [count [Hcount Hwf]].
  exists count. split; [exact Hcount |].
  apply (settleWorkers_wellFormed _ schedule st0 st Hwf Hrun).
Qed.

(** Slots that hold the values of the calls, one by one. *)
Lemma filled_slots (slots : list (option R)) :
  forall os : list (Completion R),
    length slots = length os ->
    (forall i, i < length os ->
       exists v, nth_error os i = Some (Normal v) /\
                 nth_error slots i = Some (Some v)) ->
    exists vs, os = map Normal vs /\ slots = map Some vs.
Proof.
  induction slots as [|s slots IH]; intros [|o os] Hlen Hall; try discriminate.
  - exists []. split; reflexivity.
  - destruct (Hall 0 ltac:(cbn; lia)) as [v [Ho Hs]].
    cbn [nth_error] in Ho, Hs. injection Ho as ->. injection Hs as ->.
    destruct (IH os) as [vs [-> ->]].
    + cbn [length] in Hlen. lia.
    + intros i Hi. apply (Hall (S i)). cbn [length]. lia.
    + exists (v :: vs). split; reflexivity.
Qed.

Lemma resume_measure (count : nat) (st : Workers R) (index : nat) (value : R) :
  wellFormedWorkers items fn count st ->
  In index (running st) ->
  S (length items - currentIndex (resume items st index value) +
     length (running (resume items st index value))) =
  length items - currentIndex st + length (running st).
Proof.
  intros [Hcur [_ [_ [Hnd _]]]] Hin.
  pose proof (remove_NoDup_length index _ Hnd Hin) as Hlen'.
  unfold resume, processNext. cbn [currentIndex results running started].
  destruct (Nat.ltb_spec (currentIndex st) (length items)) as [Hmore|Hend];
    cbn [currentIndex results running started].
  - rewrite length_app. cbn [length]. lia.
  - lia.
Qed.

(** From a well-formed state, some order of completion lets every worker
    finish when no call fails. *)
Lemma settleWorkers_can_finish (count : nat) (vs : list R) :
  outcomes items fn = map Normal vs ->
  forall measure st,
    wellFormedWorkers items fn count st ->
    length items - currentIndex st + length (running st) <= measure ->
    exists schedule st',
      settleWorkers items fn schedule st = Normal st' /\ running st' = [].
Proof.
  intros Hvs. induction measure as [|measure IH]; intros st Hwf Hm.
  - exists [], st. split; [reflexivity |].
    destruct (running st); [reflexivity | cbn [length] in Hm; lia].
  - destruct (running st) as [|index rest] eqn:Hrunning.
    + exists [], st. split; [reflexivity | exact Hrunning].
    + assert (Hin : In index (running st)) by (rewrite Hrunning; left; reflexivity).
      pose proof Hwf as [Hcur [_ [_ [_ [Hlt _]]]]].
      assert (Hindex : index < length vs).
      { specialize (Hlt _ Hin).
        rewrite <- (length_map (@Normal R) vs), <- Hvs, outcomes_length. lia. }
      destruct (nth_error vs index) as [value|] eqn:Hvalue.
      2:{ apply nth_error_None in Hvalue. lia. }
      assert (Hout : nth_error (outcomes items fn) index = Some (Normal value)).
      { rewrite Hvs, nth_error_map, Hvalue. reflexivity. }
      pose proof (resume_measure count st index value Hwf Hin) as Hless.
      destruct (IH (resume items st index value)) as [schedule [st' [Hrun Hdone]]].
      * apply resume_wellFormed; assumption.
      * rewrite Hrunning in Hless. lia.
      * exists (index :: schedule), st'. split; [| exact Hdone].
        cbn [settleWorkers].
        assert (Hex : existsb (Nat.eqb index) (running st) = true)
          by (apply existsb_eqb_In; exact Hin).
        rewrite Hex, Hout. exact Hrun.
Qed.

(** X4: [mapWithConcurrency] for any number as its concurrency.  When
    [Math.min(concurrency, items.length)] is no array length (a fraction, a
    negative number, NaN) the function rejects with the RangeError of
    [Array], and [fn] has not been called.  With a concurrency of 1 or more
    and an array length as this minimum: whatever the order in which the
    calls complete, a resolved result holds, slot by slot, the values of the
    calls in the order of the items, and a rejection carries the reason of
    one of the calls; and when no call fails there is an order of completion
    under which it resolves. *)
Theorem mapWithConcurrency_in_input_order (concurrency : option number) :
  let c := match concurrency with Some c => c | None => numOfZ 10 end in
  let workers := numMin c (numOfNat (length items)) in
  (arrayLength workers = None ->
   forall schedule,
     workersAfter items fn concurrency schedule =
       Throw (RangeError (lit "Invalid array length")) /\
     mapWithConcurrency items fn concurrency schedule =
       Some (Throw (RangeError (lit "Invalid array length")))) /\
  (numLe (numOfZ 1) c = true -> arrayLength workers <> None ->
   (forall schedule slots,
      mapWithConcurrency items fn concurrency schedule = Some (Normal slots) ->
      exists vs, outcomes items fn = map Normal vs /\ slots = map Some vs) /\
   (forall schedule e,
      mapWithConcurrency items fn concurrency schedule = Some (Throw e) ->
      In (Throw e) (outcomes items fn)) /\
   (forall vs, outcomes items fn = map Normal vs ->
      exists schedule,
        mapWithConcurrency items fn concurrency schedule =
        Some (Normal (map Some vs)))).
Proof.
  intros c workers. split.
  { intros Hnone schedule.
    assert (Hafter : workersAfter items fn concurrency schedule =
                     Throw (RangeError (lit "Invalid array length"))).
    { unfold workersAfter, startWorkers. fold c. fold workers.
      rewrite Hnone. reflexivity. }
    split; [exact Hafter |].
    unfold mapWithConcurrency. rewrite Hafter. reflexivity. }
  intros Hc Hworkers.
  assert (Hsafe : forall schedule slots,
            mapWithConcurrency items fn concurrency schedule = Some (Normal slots) ->
            exists vs, outcomes items fn = map Normal vs /\ slots = map Some vs).
  { intros schedule slots Hrun. unfold mapWithConcurrency in Hrun.
    destruct (workersAfter items fn concurrency schedule) as [st|e] eqn:Hafter;
      [| discriminate].
    destruct (running st) as [|i rest] eqn:Hrunning; [| discriminate].
    injection Hrun as <-.
    apply workersAfter_wellFormed in Hafter. fold c in Hafter.
    destruct Hafter as [count [Hcount Hwf]].
    destruct (arrayLength_min _ _ _ Hcount) as [_ [_ [Hone _]]].
    specialize (Hone Hc).
    destruct Hwf as [Hcur [Hlen [_ [_ [_ [_ [Hfull [Hdone _]]]]]]]].
    rewrite Hrunning in Hfull, Hdone. cbn [length] in Hfull.
    assert (Hall : currentIndex st = length items).
    { destruct (Nat.eq_dec (currentIndex st) (length items)) as [E|NE];
        [exact E |].
      specialize (Hfull ltac:(lia)). lia. }
    apply filled_slots.
    - rewrite outcomes_length. exact Hlen.
    - intros i Hi. rewrite outcomes_length in Hi.
      apply Hdone; [lia | intros []]. }
  destruct (arrayLength workers) as [count|] eqn:Hcount; [| contradiction].
  split; [exact Hsafe |]. split.
  - intros schedule e Hrun. unfold mapWithConcurrency, workersAfter in Hrun.
    fold c in Hrun. unfold startWorkers in Hrun. fold workers in Hrun.
    rewrite Hcount in Hrun. cbn [bind] in Hrun.
    destruct (settleWorkers items fn schedule _) as [st|e'] eqn:Hsettle.
    + destruct (running st); discriminate.
    + injection Hrun as <-. apply (settleWorkers_throw_In _ _ _ Hsettle).
  - intros vs Hvs.
    destruct (@startWorkers T R items c) as [st0|e] eqn:Hstart.
    2:{ unfold startWorkers in Hstart. fold workers in Hstart.
        rewrite Hcount in Hstart. discriminate. }
    destruct (startWorkers_wellFormed c st0 Hstart) as [count' [_ Hwf]].
    destruct (settleWorkers_can_finish _ vs Hvs _ st0 Hwf (Nat.le_refl _))
      as [schedule [st' [Hrun Hdone]]].
    exists schedule.
    assert (Hres : mapWithConcurrency items fn concurrency schedule =
                   Some (Normal (results st'))).
    { unfold mapWithConcurrency, workersAfter. fold c. rewrite Hstart.
      cbn [bind]. rewrite Hrun, Hdone. reflexivity. }
    destruct (Hsafe schedule _ Hres) as [ws [Hws Hslots]].
    rewrite Hres, Hslots. rewrite Hvs in Hws.
    rewrite (map_Normal_inj _ _ Hws). reflexivity.
Qed.

(** X5: at every moment of a run of [mapWithConcurrency], for any number as
    its concurrency, the calls of [fn] that are awaited are distinct and at
    most [concurrency] many (and at most as many as there are items); [fn]
    has been called for the items 0, 1, 2, ... in this order, once each; and
    a slot of the result array is written only when its call has settled. *)
Theorem mapWithConcurrency_limits_running (concurrency : option number)
  (schedule : list nat) (st : Workers R) :
  let c := match concurrency with Some c => c | None => numOfZ 10 end in
  workersAfter items fn concurrency schedule = Normal st ->
  numLe (numOfNat (length (running st))) c = true /\
  (forall z, c = numOfZ z -> (Z.of_nat (length (running st)) <= Z.max 0 z)%Z) /\
  length (running st) <= length items /\
  NoDup (running st) /\
  started st = seq 0 (currentIndex st) /\
  currentIndex st <= length items /\
  incl (running st) (started st) /\
  (forall i, i < length items ->
     nth_error (results st) i <> Some None ->
     In i (started st) /\ ~ In i (running st)).
Proof.
  intros c Hafter. apply workersAfter_wellFormed in Hafter. fold c in Hafter.
  destruct Hafter as [count [Hcount Hwf]].
  destruct (arrayLength_min _ _ _ Hcount) as [Hitems [Hbelow _]].
  destruct Hwf as [Hcur [Hlen [Hstarted [Hnd [Hlt [Hle [_ [_ Hhole]]]]]]]].
  assert (Hrunning : numLe (numOfNat (length (running st))) c = true).
  { destruct c as [q | [|] |]; try discriminate Hbelow; [| reflexivity].
    unfold numOfNat, numOfZ in *. apply numLe_Num. apply numLe_Num in Hbelow.
    apply (Qle_trans _ (inject_Z (Z.of_nat count))); [| exact Hbelow].
    rewrite <- Zle_Qle. lia. }
  split; [exact Hrunning |]. split.
  { intros z Hz. rewrite Hz in Hrunning. unfold numOfNat in Hrunning.
    rewrite numLe_Z in Hrunning. apply Z.leb_le in Hrunning. lia. }
  split; [lia |]. split; [exact Hnd |].
  split; [exact Hstarted |]. split; [exact Hcur |]. split.
  - intros i Hi. rewrite Hstarted. apply in_seq. specialize (Hlt i Hi). lia.
  - intros i Hi Hset. split.
    + rewrite Hstarted. apply in_seq.
      destruct (Nat.lt_ge_cases i (currentIndex st)) as [Hlt'|Hge]; [lia |].
      exfalso. apply Hset. apply Hhole; [exact Hi | left; exact Hge].
    + intros Hin. apply Hset. apply Hhole; [exact Hi | right; exact Hin].
Qed.

Lemma settleWorkers_idle (schedule : list nat) (st : Workers R) :
  running st = [] -> settleWorkers items fn schedule st = Normal st.
Proof.
  intros Hidle. induction schedule as [|index schedule IH]; [reflexivity |].
  cbn [settleWorkers]. rewrite Hidle. cbn [existsb]. exact IH.
Qed.

(** X6: the edge of [mapWithConcurrency] at a concurrency below 1, for
    any number that is 0 or less.  With a concurrency of 0 no worker starts:
    the function resolves at once with an array of holes, one per item, and
    [fn] is never called.  With a negative concurrency it rejects with a
    RangeError, even for no items. *)
Theorem mapWithConcurrency_without_workers (c : number) (schedule : list nat) :
  numLe c (numOfZ 0) = true ->
  (numEq c (numOfZ 0) = true ->
     mapWithConcurrency items fn (Some c) schedule =
       Some (Normal (repeat None (length items))) /\
     exists st, workersAfter items fn (Some c) schedule = Normal st /\
                started st = []) /\
  (numLt c (numOfZ 0) = true ->
     mapWithConcurrency items fn (Some c) schedule =
       Some (Throw (RangeError (lit "Invalid array length")))).
Proof.
  intros Hc. split.
  - intros Hzero.
    assert (Hcount : arrayLength (numMin c (numOfNat (length items))) = Some 0).
    { destruct c as [q | s |]; try discriminate Hzero.
      unfold numOfZ, numEq in Hzero. apply Qeq_bool_iff in Hzero.
      unfold numOfNat, numOfZ, numMin, numLt.
      assert (Hq : Qle_bool q (inject_Z (Z.of_nat (length items))) = true).
      { apply Qle_bool_iff. rewrite Hzero. rewrite <- Zle_Qle. lia. }
      rewrite Hq. cbn [negb arrayLength].
      assert (Hfloor : Qfloor q = 0%Z).
      { rewrite (Qfloor_comp _ _ Hzero). apply Qfloor_Z. }
      rewrite Hfloor.
      rewrite (proj2 (Qeq_bool_iff _ _) Hzero). reflexivity. }
    assert (Hafter : workersAfter items fn (Some c) schedule = Normal initial).
    { unfold workersAfter, startWorkers. rewrite Hcount.
      cbn [Nat.iter bind]. apply settleWorkers_idle. reflexivity. }
    split.
    + unfold mapWithConcurrency. rewrite Hafter. reflexivity.
    + exists initial. split; [exact Hafter | reflexivity].
  - intros Hneg.
    assert (Hcount : arrayLength (numMin c (numOfNat (length items))) = None).
    { destruct (arrayLength (numMin c (numOfNat (length items))))
        as [count|] eqn:Hcount; [| reflexivity].
      destruct (arrayLength_min _ _ _ Hcount) as [_ [Hbelow _]].
      exfalso. destruct c as [q | [|] |]; try discriminate Hneg;
        try discriminate Hbelow.
      unfold numOfNat, numOfZ in *. apply numLe_Num in Hbelow.
      unfold numLt in Hneg. apply negb_true_iff in Hneg.
      assert (H0 : (inject_Z 0 <= q)%Q).
      { apply (Qle_trans _ (inject_Z (Z.of_nat count))); [| exact Hbelow].
        rewrite <- Zle_Qle. lia. }
      apply Qle_bool_iff in H0. congruence. }
    unfold mapWithConcurrency, workersAfter, startWorkers.
    rewrite Hcount. reflexivity.
Qed.

End WorkersFacts.

Section WorkersExamples.
Import JS Embeddings Concurrency Numbers.

(** The test 'should pass index to callback', with the second call
    completing first. *)
Lemma mapWithConcurrency_in_input_order_witness :
  let items := [lit "a"; lit "b"; lit "c"] in
  let fn := fun (item : jsstring) (index : Z) => Normal (item, index) in
  mapWithConcurrency items fn (Some (Num 2)) [1; 2; 0] =
    Some (Normal [Some (lit "a", 0%Z); Some (lit "b", 1%Z); Some (lit "c", 2%Z)]) /\
  (exists vs, outcomes items fn = map Normal vs /\
              [Some (lit "a", 0%Z); Some (lit "b", 1%Z); Some (lit "c", 2%Z)] =
              map Some vs) /\
  mapWithConcurrency items fn (Some (Num (3 # 2))) [1; 2; 0] =
    Some (Throw (RangeError (lit "Invalid array length"))).
Proof.
  intros items fn.
  assert (Hrun : mapWithConcurrency items fn (Some (Num 2)) [1; 2; 0] =
                 Some (Normal [Some (lit "a", 0%Z); Some (lit "b", 1%Z);
                               Some (lit "c", 2%Z)]))
    by (vm_compute; reflexivity).
  split; [exact Hrun |]. split.
  - destruct (mapWithConcurrency_in_input_order items fn (Some (Num 2)))
      as [_ Hruns].
    destruct Hruns as [Hsafe _]; [reflexivity | vm_compute; discriminate |].
    apply (Hsafe [1; 2; 0] _ Hrun).
  - destruct (mapWithConcurrency_in_input_order items fn (Some (Num (3 # 2))))
      as [Hthrows _].
    apply Hthrows. vm_compute. reflexivity.
Defined.

(** Eight items and three workers, as in the test 'should limit concurrent
    operations', after five completions. *)
Lemma mapWithConcurrency_limits_running_witness :
  let items := [1; 2; 3; 4; 5; 6; 7; 8]%Z in
  let fn := fun (item : Z) (_ : Z) => Normal item in
  exists st,
    workersAfter items fn (Some (Num 3)) [2; 0; 3; 1; 5] = Normal st /\
    running st = [4; 6; 7] /\
    (Z.of_nat (length (running st)) <= 3)%Z.
Proof.
  intros items fn.
  assert (Hrun : workersAfter items fn (Some (Num 3)) [2; 0; 3; 1; 5] =
                 Normal {| currentIndex := 8;
                           results := [Some 1; Some 2; Some 3; Some 4; None;
                                       Some 6; None; None]%Z;
                           running := [4; 6; 7];
                           started := [0; 1; 2; 3; 4; 5; 6; 7] |})
    by (vm_compute; reflexivity).
  eexists. split; [exact Hrun |]. split; [reflexivity |].
  destruct (mapWithConcurrency_limits_running items fn (Some (Num 3)) _ _ Hrun)
    as [_ [Hmax _]].
  apply (Hmax 3%Z). reflexivity.
Defined.

Lemma mapWithConcurrency_without_workers_witness :
  mapWithConcurrency [1; 2; 3]%Z (fun item _ => Normal (2 * item)%Z)
    (Some (Num 0)) [0; 1; 2] =
  Some (Normal [None; None; None]).
Proof.
  apply (mapWithConcurrency_without_workers [1; 2; 3]%Z
           (fun item _ => Normal (2 * item)%Z) (Num 0) [0; 1; 2]);
    reflexivity.
Defined.

(** Concurrencies that are no integers: a fraction below the number of
    items and NaN are refused by [Array]; a fraction above the number of
    items, like Infinity, starts a worker per item. *)
Example mapWithConcurrency_fractions :
  let items := [1; 2; 3]%Z in
  let fn := fun (item : Z) (_ : Z) => Normal (2 * item)%Z in
  mapWithConcurrency items fn (Some (Num (5 # 2))) [0; 1; 2] =
    Some (Throw (RangeError (lit "Invalid array length"))) /\
  mapWithConcurrency items fn (Some NaN) [0; 1; 2] =
    Some (Throw (RangeError (lit "Invalid array length"))) /\
  mapWithConcurrency items fn (Some (Num (-1 # 2))) [0; 1; 2] =
    Some (Throw (RangeError (lit "Invalid array length"))) /\
  mapWithConcurrency items fn (Some (Num (7 # 2))) [0; 1; 2] =
    Some (Normal [Some 2; Some 4; Some 6]%Z) /\
  mapWithConcurrency items fn (Some (Inf false)) [2; 1; 0] =
    Some (Normal [Some 2; Some 4; Some 6]%Z) /\
  mapWithConcurrency items fn None [2; 1; 0] =
    Some (Normal [Some 2; Some 4; Some 6]%Z).
Proof. repeat split; vm_compute; reflexivity. Qed.

End WorkersExamples.

(** ** Name paths (src/symbols/name-path.ts) *)

Section SplitFacts.
Import JS NamePath.

#[local] Abbreviation noSlash := (forallb (fun c => negb (Ascii.eqb c "/"))).

Lemma splitCharFrom_plain (sep : ascii) (s : jsstring) :
  forall cur,
    forallb (fun c => negb (Ascii.eqb c sep)) s = true ->
    splitCharFrom sep cur s = [rev cur ++ s].
Proof.
  induction s as [|c s IH]; intros cur H; cbn [splitCharFrom].
  - rewrite app_nil_r. reflexivity.
  - cbn [forallb] in H. apply andb_true_iff in H. destruct H as [Hc Hs].
    apply negb_true_iff in Hc. rewrite Hc, (IH _ Hs).
    cbn [rev]. rewrite <- app_assoc. reflexivity.
Qed.

Lemma splitCharFrom_app (sep : ascii) (a rest : jsstring) :
  forall cur,
    forallb (fun c => negb (Ascii.eqb c sep)) a = true ->
    splitCharFrom sep cur (a ++ sep :: rest) =
    (rev cur ++ a) :: splitCharFrom sep [] rest.
Proof.
  induction a as [|c a IH]; intros cur H; cbn [splitCharFrom app].
  - rewrite Ascii.eqb_refl, app_nil_r. reflexivity.
  - cbn [forallb] in H. apply andb_true_iff in H. destruct H as [Hc Ha].
    apply negb_true_iff in Hc. rewrite Hc, (IH _ Ha).
    cbn [rev]. rewrite <- app_assoc. reflexivity.
Qed.

Lemma isSegment_spec (s : jsstring) :
  isSegment s = true <-> s <> [] /\ noSlash s = true.
Proof.
  unfold isSegment, nonEmpty. rewrite andb_true_iff. split.
  - intros [Hn Hs]. split; [| exact Hs].
    intros ->. discriminate.
  - intros [Hn Hs]. split; [| exact Hs].
    destruct s; [congruence | reflexivity].
Qed.

Lemma isPlainSegment_isSegment (s : jsstring) :
  isPlainSegment s = true -> isSegment s = true.
Proof.
  unfold isPlainSegment, isSegment. rewrite !andb_true_iff.
  intros [Hn Hs]. split; [exact Hn |].
  rewrite forallb_forall in *. intros c Hc. specialize (Hs c Hc).
  unfold isPlainChar in Hs. rewrite !andb_true_iff in Hs. tauto.
Qed.

Lemma splitChar_join (names : list jsstring) :
  Forall (fun s => isSegment s = true) names ->
  names <> [] ->
  splitChar "/" (join (lit "/") names) = names.
Proof.
  unfold splitChar.
  induction names as [|p names IH]; intros Hall Hne; [congruence |].
  apply Forall_cons_iff in Hall. destruct Hall as [Hp Hall].
  apply isSegment_spec in Hp. destruct Hp as [_ Hp].
  destruct names as [|q names].
  - cbn [join]. apply (splitCharFrom_plain "/" p [] Hp).
  - change (join (lit "/") (p :: q :: names))
      with (p ++ "/"%char :: join (lit "/") (q :: names)).
    rewrite (splitCharFrom_app "/" p _ [] Hp). cbn [rev app].
    rewrite IH; [reflexivity | exact Hall | discriminate].
Qed.

Lemma filter_nonEmpty_segments (names : list jsstring) :
  Forall (fun s => isSegment s = true) names -> filter nonEmpty names = names.
Proof.
  induction 1 as [|p names Hp Hall IH]; [reflexivity |].
  cbn [filter]. unfold isSegment in Hp. apply andb_true_iff in Hp.
  destruct Hp as [Hp _]. rewrite Hp, IH. reflexivity.
Qed.

(** The segments of a path that is the names joined by slashes. *)
Lemma pathSegmentsOf_join (names : list jsstring) :
  Forall (fun s => isSegment s = true) names ->
  pathSegmentsOf (join (lit "/") names) = names.
Proof.
  intros Hall. unfold pathSegmentsOf.
  destruct names as [|p names]; [reflexivity |].
  rewrite splitChar_join by (exact Hall || discriminate).
  apply filter_nonEmpty_segments, Hall.
Qed.

Lemma pathSegmentsOf_slash (s : jsstring) :
  pathSegmentsOf ("/"%char :: s) = pathSegmentsOf s.
Proof. reflexivity. Qed.

Lemma pathSegmentsOf_absolutePath (names : list jsstring) :
  Forall (fun s => isSegment s = true) names ->
  pathSegmentsOf (absolutePath names) = names.
Proof.
  intros Hall. unfold absolutePath. cbn [lit list_ascii_of_string app].
  rewrite pathSegmentsOf_slash. apply pathSegmentsOf_join, Hall.
Qed.

Lemma join_snoc (sep : jsstring) (names : list jsstring) (name : jsstring) :
  names <> [] ->
  join sep (names ++ [name]) = join sep names ++ sep ++ name.
Proof.
  induction names as [|p names IH]; intros Hne; [congruence |].
  destruct names as [|q names]; [reflexivity |].
  change (join sep ((p :: q :: names) ++ [name]))
    with (p ++ sep ++ join sep ((q :: names) ++ [name])).
  rewrite IH by discriminate.
  change (join sep (p :: q :: names)) with (p ++ sep ++ join sep (q :: names)).
  rewrite <- !app_assoc. reflexivity.
Qed.

Lemma slice0_drop_last {A : Type} (l : list A) (x : A) :
  slice0 (l ++ [x]) (-1) = l.
Proof.
  unfold slice0. rewrite length_app. cbn [length Z.ltb Z.compare].
  replace (Z.to_nat (Z.max (Z.of_nat (length l + 1) + -1) 0)) with (length l) by lia.
  rewrite firstn_app, Nat.sub_diag, firstn_all. cbn [firstn].
  apply app_nil_r.
Qed.

End SplitFacts.

Section BuildFacts.
Import JS NamePath.

(** X7: the name path that [buildNamePath] makes for a symbol [name] under
    the symbols [names] (no name empty or with a slash) is the names joined
    by slashes behind a leading slash, and the other functions take it
    apart again: [getSymbolName] gives back the name, [getParentPath] the
    parent path ([undefined] at the top level), [getNamePathDepth] the
    number of enclosing symbols, and [formatNamePath] the path without its
    leading slash. *)
Theorem buildNamePath_round_trip (names : list jsstring) (name : jsstring) :
  Forall (fun s => isSegment s = true) names ->
  isSegment name = true ->
  let parentPath := match names with
                    | [] => None
                    | _ :: _ => Some (absolutePath names)
                    end in
  let namePath := buildNamePath parentPath name in
  namePath = absolutePath (names ++ [name]) /\
  getSymbolName namePath = name /\
  getParentPath namePath = parentPath /\
  getNamePathDepth namePath = Z.of_nat (length names) /\
  formatNamePath namePath = join (lit "/") (names ++ [name]).
Proof.
  intros Hnames Hname parentPath namePath.
  assert (Hall : Forall (fun s => isSegment s = true) (names ++ [name])).
  { apply Forall_app. split; [exact Hnames |]. constructor; [exact Hname | constructor]. }
  assert (Hpath : namePath = absolutePath (names ++ [name])).
  { unfold namePath, parentPath. destruct names as [|p names'].
    - reflexivity.
    - unfold absolutePath. rewrite join_snoc by discriminate. reflexivity. }
  split; [exact Hpath |]. rewrite Hpath.
  unfold getSymbolName, getParentPath, getNamePathDepth.
  rewrite (pathSegmentsOf_absolutePath _ Hall).
  split; [apply last_last |]. split; [| split].
  - rewrite length_app. cbn [length]. unfold parentPath.
    destruct names as [|p names'].
    + reflexivity.
    + destruct (Nat.leb_spec (length (p :: names') + 1) 1) as [Hle|_].
      { cbn [length] in Hle. lia. }
      rewrite slice0_drop_last. reflexivity.
  - rewrite length_app. cbn [length]. lia.
  - reflexivity.
Qed.

Lemma buildNamePath_round_trip_witness :
  let namePath := buildNamePath (Some (lit "/MyClass")) (lit "myMethod") in
  namePath = lit "/MyClass/myMethod" /\
  getSymbolName namePath = lit "myMethod" /\
  getParentPath namePath = Some (lit "/MyClass") /\
  getNamePathDepth namePath = 1%Z /\
  formatNamePath namePath = lit "MyClass/myMethod".
Proof.
  apply (buildNamePath_round_trip [lit "MyClass"] (lit "myMethod")).
  - repeat constructor.
  - reflexivity.
Defined.

End BuildFacts.

Section ParseFacts.
Import JS NamePath.

#[local] Abbreviation noSpace := (forallb (fun c => negb (isWhiteSpace c))).
#[local] Abbreviation plain := (fun s : jsstring => isPlainSegment s = true).

Lemma trimStart_noSpace (s : jsstring) : noSpace s = true -> trimStart s = s.
Proof.
  destruct s as [|c s]; [reflexivity |].
  cbn [forallb trimStart]. intros H. apply andb_true_iff in H.
  destruct H as [Hc _]. apply negb_true_iff in Hc. rewrite Hc. reflexivity.
Qed.

Lemma trim_noSpace (s : jsstring) : noSpace s = true -> trim s = s.
Proof.
  intros H. unfold trim. rewrite (trimStart_noSpace s H).
  rewrite trimStart_noSpace; [apply rev_involutive |].
  rewrite forallb_forall in *. intros c Hc. apply H. apply in_rev. exact Hc.
Qed.

Lemma isPlainChar_spec (c : ascii) :
  isPlainChar c = true ->
  Ascii.eqb c "/" = false /\ isWhiteSpace c = false /\
  Ascii.eqb c "*" = false /\ Ascii.eqb c "]" = false.
Proof.
  unfold isPlainChar. rewrite !andb_true_iff, !negb_true_iff. tauto.
Qed.

Lemma plain_chars (s : jsstring) : plain s -> forallb isPlainChar s = true.
Proof.
  unfold isPlainSegment. rewrite andb_true_iff. tauto.
Qed.

Lemma plain_segments (names : list jsstring) :
  Forall plain names -> Forall (fun s => isSegment s = true) names.
Proof.
  intros H. eapply Forall_impl; [| exact H].
  intros s. apply isPlainSegment_isSegment.
Qed.

(** The characters of a pattern made of plain names and slashes. *)
Lemma join_chars (names : list jsstring) (c : ascii) :
  Forall plain names -> In c (join (lit "/") names) ->
  isPlainChar c = true \/ c = "/"%char.
Proof.
  induction names as [|p names IH]; intros Hall Hc; [contradiction |].
  apply Forall_cons_iff in Hall. destruct Hall as [Hp Hall].
  pose proof (plain_chars p Hp) as Hchars. rewrite forallb_forall in Hchars.
  destruct names as [|q names].
  - left. apply Hchars, Hc.
  - change (join (lit "/") (p :: q :: names))
      with (p ++ "/"%char :: join (lit "/") (q :: names)) in Hc.
    apply in_app_or in Hc. destruct Hc as [Hc|[<-|Hc]].
    + left. apply Hchars, Hc.
    + right. reflexivity.
    + apply (IH Hall Hc).
Qed.

Lemma join_noSpace (names : list jsstring) :
  Forall plain names -> noSpace (join (lit "/") names) = true.
Proof.
  intros Hall. apply forallb_forall. intros c Hc.
  destruct (join_chars names c Hall Hc) as [Hplain | ->]; [| reflexivity].
  apply isPlainChar_spec in Hplain. apply negb_true_iff. tauto.
Qed.

(** The last character of a pattern made of plain names. *)
Lemma join_last (names : list jsstring) :
  Forall plain names -> names <> [] ->
  exists s c, join (lit "/") names = s ++ [c] /\ isPlainChar c = true.
Proof.
  induction names as [|p names IH]; intros Hall Hne; [congruence |].
  apply Forall_cons_iff in Hall. destruct Hall as [Hp Hall].
  destruct names as [|q names].
  - pose proof (plain_chars p Hp) as Hchars.
    unfold isPlainSegment, nonEmpty in Hp. apply andb_true_iff in Hp.
    destruct Hp as [Hlen _].
    destruct (exists_last (l := p)) as [s [c ->]].
    { intros ->. discriminate. }
    exists s, c. split; [reflexivity |].
    rewrite forallb_forall in Hchars. apply Hchars.
    apply in_or_app. right. left. reflexivity.
  - destruct (IH Hall ltac:(discriminate)) as [s [c [Hs Hc]]].
    exists (p ++ "/"%char :: s), c. split; [| exact Hc].
    change (join (lit "/") (p :: q :: names))
      with (p ++ "/"%char :: join (lit "/") (q :: names)).
    rewrite Hs, <- app_assoc. reflexivity.
Qed.

Lemma matchOverload_none (s : jsstring) (c : ascii) :
  Ascii.eqb c "]" = false -> matchOverload (s ++ [c]) = None.
Proof.
  intros Hc. unfold matchOverload. rewrite rev_app_distr. cbn [rev app].
  rewrite Hc. reflexivity.
Qed.

Lemma endsWithStar_last (s : jsstring) (c : ascii) :
  endsWithStar (s ++ [c]) = Ascii.eqb c "*".
Proof.
  unfold endsWithStar. rewrite rev_app_distr. reflexivity.
Qed.

Lemma plain_not_star (s : jsstring) : plain s -> endsWithStar s = false.
Proof.
  intros Hp. pose proof (plain_chars s Hp) as Hchars.
  unfold isPlainSegment, nonEmpty in Hp. apply andb_true_iff in Hp.
  destruct (exists_last (l := s)) as [s' [c ->]].
  { intros ->. destruct Hp. discriminate. }
  rewrite endsWithStar_last.
  rewrite forallb_forall in Hchars.
  assert (Hc : isPlainChar c = true).
  { apply Hchars. apply in_or_app. right. left. reflexivity. }
  apply isPlainChar_spec in Hc. tauto.
Qed.

Lemma Forall_last_plain (names : list jsstring) :
  Forall plain names -> names <> [] -> plain (last names []).
Proof.
  intros Hall Hne. destruct (exists_last Hne) as [init [l ->]].
  rewrite last_last. apply Forall_app in Hall. destruct Hall as [_ Hl].
  apply Forall_cons_iff in Hl. tauto.
Qed.

(** What [parseNamePath] does behind [trim] and the test for a leading
    slash, on plain names joined by slashes. *)
Lemma parse_working (names : list jsstring) :
  Forall plain names ->
  matchOverload (join (lit "/") names) = None /\
  pathSegmentsOf (join (lit "/") names) = names /\
  ((0 <? length names) && endsWithStar (last names []) = false).
Proof.
  intros Hall. split; [| split].
  - destruct names as [|p names]; [reflexivity |].
    destruct (join_last (p :: names) Hall ltac:(discriminate)) as [s [c [-> Hc]]].
    apply matchOverload_none. apply isPlainChar_spec in Hc. tauto.
  - apply pathSegmentsOf_join, plain_segments, Hall.
  - destruct names as [|p names]; [reflexivity |].
    rewrite (plain_not_star _ (Forall_last_plain _ Hall ltac:(discriminate))).
    apply andb_false_r.
Qed.

Lemma startsWith_slash_join (names : list jsstring) :
  Forall plain names -> startsWith (lit "/") (join (lit "/") names) = false.
Proof.
  intros Hall. destruct names as [|p names]; [reflexivity |].
  apply Forall_cons_iff in Hall. destruct Hall as [Hp _].
  pose proof (plain_chars p Hp) as Hchars.
  unfold isPlainSegment, nonEmpty in Hp. apply andb_true_iff in Hp.
  destruct p as [|c p]; [destruct Hp; discriminate |].
  cbn [forallb] in Hchars. apply andb_true_iff in Hchars.
  destruct Hchars as [Hc _]. apply isPlainChar_spec in Hc.
  destruct Hc as [Hc _].
  destruct names; cbn [join app lit list_ascii_of_string startsWith];
    rewrite Ascii.eqb_sym, Hc; reflexivity.
Qed.

Lemma absolutePath_cons (names : list jsstring) :
  absolutePath names = "/"%char :: join (lit "/") names.
Proof. reflexivity. Qed.

(** Reading the names joined by slashes behind a leading slash. *)
Lemma parse_plain_absolute (names : list jsstring) :
  Forall (fun s => isPlainSegment s = true) names ->
  parseNamePath (absolutePath names) =
    {| isAbsolute := true; segments := names;
       substringMatch := false; overloadIndex := None |}.
Proof.
  intros Hall.
  destruct (parse_working names Hall) as [Hover [Hsegs Hstar]].
  pose proof (join_noSpace names Hall) as Hspace.
  unfold parseNamePath.
  rewrite absolutePath_cons.
  rewrite trim_noSpace by (cbn [forallb]; rewrite Hspace; reflexivity).
  change (startsWith (lit "/") ("/"%char :: join (lit "/") names)) with true.
  cbn [skipn].
  rewrite Hover. cbn [option_map]. rewrite Hsegs, Hstar. reflexivity.
Qed.

(** Reading the names joined by slashes. *)
Lemma parse_plain_relative (names : list jsstring) :
  Forall (fun s => isPlainSegment s = true) names ->
  parseNamePath (join (lit "/") names) =
    {| isAbsolute := false; segments := names;
       substringMatch := false; overloadIndex := None |}.
Proof.
  intros Hall.
  destruct (parse_working names Hall) as [Hover [Hsegs Hstar]].
  pose proof (join_noSpace names Hall) as Hspace.
  unfold parseNamePath. rewrite trim_noSpace by exact Hspace.
  rewrite (startsWith_slash_join names Hall).
  rewrite Hover. cbn [option_map]. rewrite Hsegs, Hstar. reflexivity.
Qed.

(** X8: a pattern printed from plain names reads back as these names.
    [parseNamePath] maps the names joined by slashes to a relative pattern
    with these segments, and the same behind a leading slash to an absolute
    one; neither has a glob or an overload index. *)
Theorem parseNamePath_round_trip (names : list jsstring) :
  Forall (fun s => isPlainSegment s = true) names ->
  parseNamePath (absolutePath names) =
    {| isAbsolute := true; segments := names;
       substringMatch := false; overloadIndex := None |} /\
  parseNamePath (join (lit "/") names) =
    {| isAbsolute := false; segments := names;
       substringMatch := false; overloadIndex := None |}.
Proof.
  intros Hall. split.
  - apply parse_plain_absolute, Hall.
  - apply parse_plain_relative, Hall.
Qed.

Lemma parseNamePath_round_trip_witness :
  parseNamePath (lit "/MyClass/myMethod") =
    {| isAbsolute := true; segments := [lit "MyClass"; lit "myMethod"];
       substringMatch := false; overloadIndex := None |} /\
  parseNamePath (lit "MyClass/myMethod") =
    {| isAbsolute := false; segments := [lit "MyClass"; lit "myMethod"];
       substringMatch := false; overloadIndex := None |}.
Proof.
  apply (parseNamePath_round_trip [lit "MyClass"; lit "myMethod"]).
  repeat constructor.
Defined.

End ParseFacts.

Section MatchFacts.
Import JS NamePath.

#[local] Abbreviation plain := (fun s : jsstring => isPlainSegment s = true).

Lemma app_inj_length {A : Type} (l1 : list A) :
  forall l1' l2 l2',
    l1 ++ l2 = l1' ++ l2' -> length l1 = length l1' -> l1 = l1' /\ l2 = l2'.
Proof.
  induction l1 as [|x l1 IH]; intros [|x' l1'] l2 l2' H Hlen; try discriminate.
  - split; [reflexivity | exact H].
  - cbn [app] in H. injection H as -> H. injection Hlen as Hlen.
    destruct (IH _ _ _ H Hlen) as [-> ->]. split; reflexivity.
Qed.

Lemma segmentMatches_exact (a b : jsstring) :
  segmentMatches a b false = true <-> a = b.
Proof. apply streq_spec. Qed.

(** The loop of [matchNamePath] over the segments of the pattern, the last
    of which is [ql]; the path has the segments [pre] before the ones that
    the loop reads. *)
Lemma match_loop (pre ps qa : list jsstring) (pl ql : jsstring) (b : bool) :
  length ps = length qa ->
  forallb (fun i =>
             segmentMatches (nth (length pre + i) (pre ++ ps ++ [pl]) [])
               (nth i (qa ++ [ql]) [])
               ((i =? length (qa ++ [ql]) - 1)%nat && b))
          (seq 0 (length (qa ++ [ql]))) = true <->
  ps = qa /\ segmentMatches pl ql b = true.
Proof.
  intros Hlen. unfold jsstring in *. rewrite forallb_forall.
  assert (Hlast : length (qa ++ [ql]) - 1 = length qa)
    by (rewrite length_app; cbn [length]; lia).
  rewrite Hlast.
  assert (Hread : forall i, nth (length pre + i) (pre ++ ps ++ [pl]) [] =
                            nth i (ps ++ [pl]) []).
  { intros i. rewrite app_nth2 by lia. f_equal. lia. }
  split.
  - intros H. split.
    + apply (nth_ext _ _ [] [] Hlen). intros i Hi.
      assert (Hin : In i (seq 0 (length (qa ++ [ql])))).
      { apply in_seq. rewrite length_app. cbn [length]. lia. }
      specialize (H i Hin). rewrite Hread in H.
      rewrite !app_nth1 in H by lia.
      assert (Hne : (i =? length qa)%nat = false) by (apply Nat.eqb_neq; lia).
      rewrite Hne in H. cbn [andb] in H. apply segmentMatches_exact, H.
    + assert (Hin : In (length qa) (seq 0 (length (qa ++ [ql])))).
      { apply in_seq. rewrite length_app. cbn [length]. lia. }
      specialize (H _ Hin). rewrite Hread in H.
      rewrite <- Hlen in H at 1. rewrite !nth_middle in H.
      rewrite Nat.eqb_refl in H. exact H.
  - intros [-> Hm] i Hi. apply in_seq in Hi.
    rewrite length_app in Hi. cbn [length] in Hi. rewrite Hread.
    destruct (Nat.eq_dec i (length qa)) as [->|Hne].
    + rewrite !nth_middle, Nat.eqb_refl. exact Hm.
    + rewrite !app_nth1 by lia.
      assert (Hneq : (i =? length qa)%nat = false) by (apply Nat.eqb_neq; lia).
      rewrite Hneq. apply segmentMatches_exact. reflexivity.
Qed.

(** [matchNamePath] on the path of the symbol under [names], for a pattern
    whose last segment is [ql]: the pattern segments before [ql] stand in
    the path just before its last name, and this name matches [ql]; an
    absolute pattern leaves nothing in front. *)
Lemma matchNamePath_spec (names qa : list jsstring) (ql : jsstring)
  (absolute glob : bool) (overload : option Numbers.number)
  (useSubstringMatching : option bool) :
  Forall (fun s => isSegment s = true) names ->
  let b := match useSubstringMatching with Some u => u | None => glob end in
  matchNamePath (absolutePath names)
    {| isAbsolute := absolute; segments := qa ++ [ql];
       substringMatch := glob; overloadIndex := overload |}
    useSubstringMatching = true <->
  exists pre pl,
    names = pre ++ qa ++ [pl] /\
    (absolute = true -> pre = []) /\
    segmentMatches pl ql b = true.
Proof.
  intros Hnames b. unfold matchNamePath.
  cbn [isAbsolute segments substringMatch]. unfold jsstring in *.
  rewrite absolutePath_cons.
  change (startsWith (lit "/") ("/"%char :: join (lit "/") names)) with true.
  cbv iota. rewrite <- absolutePath_cons.
  rewrite (pathSegmentsOf_absolutePath names Hnames). fold b.
  assert (Hq : length (qa ++ [ql]) = S (length qa))
    by (rewrite length_app; cbn [length]; lia).
  assert (Hnz : (length (qa ++ [ql]) =? 0)%nat = false)
    by (apply Nat.eqb_neq; lia).
  rewrite Hnz.
  destruct absolute.
  - destruct (Nat.eqb_spec (length names) (length (qa ++ [ql]))) as [Heq|Hne];
      cbn [negb].
    + destruct (exists_last (l := names)) as [ps [pl ->]].
      { intros ->. cbn [length] in Heq. lia. }
      assert (Hlen : length ps = length qa).
      { rewrite length_app in Heq. cbn [length] in Heq. lia. }
      assert (Hloop := match_loop [] ps qa pl ql b Hlen).
      unfold jsstring in Hloop. cbn [length app Nat.add] in Hloop. rewrite Hloop.
      split.
      * intros [-> Hm]. exists [], pl.
        split; [reflexivity |]. split; [reflexivity | exact Hm].
      * intros [pre [pl' [Hsplit [Hpre Hm]]]].
        rewrite (Hpre eq_refl) in Hsplit. cbn [app] in Hsplit.
        apply app_inj_tail in Hsplit. destruct Hsplit as [-> ->].
        split; [reflexivity | exact Hm].
    + split; [discriminate |].
      intros [pre [pl [-> [Hpre _]]]]. rewrite (Hpre eq_refl) in Hne.
      cbn [app] in Hne. rewrite !length_app in Hne. cbn [length] in Hne. lia.
  - destruct (Nat.ltb_spec (length names) (length (qa ++ [ql]))) as [Hlt|Hge].
    + split; [discriminate |].
      intros [pre [pl [-> _]]]. rewrite !length_app in Hlt.
      cbn [length] in Hlt. lia.
    + set (start := length names - length (qa ++ [ql])).
      assert (Hsplit : names = firstn start names ++ skipn start names)
        by (symmetry; apply firstn_skipn).
      destruct (exists_last (l := skipn start names)) as [ps [pl Hrest]].
      { intros Hnil. apply (f_equal (@length _)) in Hnil.
        rewrite length_skipn in Hnil. cbn [length] in Hnil. lia. }
      assert (Hlen : length ps = length qa).
      { apply (f_equal (@length _)) in Hrest.
        rewrite length_skipn, length_app in Hrest. cbn [length] in Hrest. lia. }
      assert (Hpre : length (firstn start names) = start).
      { rewrite length_firstn. lia. }
      rewrite Hrest in Hsplit.
      assert (Hloop := match_loop (firstn start names) ps qa pl ql b Hlen).
      unfold jsstring in Hloop. rewrite Hpre, <- Hsplit in Hloop. rewrite Hloop.
      split.
      * intros [-> Hm]. exists (firstn start names), pl.
        split; [exact Hsplit |]. split; [discriminate | exact Hm].
      * intros [pre [pl' [Hnames' [_ Hm]]]].
        rewrite Hnames' in Hsplit at 1.
        assert (Hpre' : length pre = length (firstn start names)).
        { rewrite Hpre. unfold start. rewrite Hnames', !length_app.
          cbn [length]. lia. }
        destruct (app_inj_length _ _ _ _ Hsplit Hpre') as [_ Htail].
        apply app_inj_tail in Htail. destruct Htail as [<- <-].
        split; [reflexivity | exact Hm].
Qed.

(** X9: matching against a pattern printed from plain names.  The path of
    the symbol under [names] matches the relative pattern of [qs] exactly
    when [names] ends with [qs], and the absolute pattern of [qs] exactly
    when [names] is [qs]; the pattern of no names matches every path. *)
Theorem matchNamePath_exact (names qs : list jsstring) (absolute : bool) :
  Forall (fun s => isSegment s = true) names ->
  Forall (fun s => isPlainSegment s = true) qs ->
  let text := if absolute then absolutePath qs else join (lit "/") qs in
  matchNamePath (absolutePath names) (parseNamePath text) None = true <->
  qs = [] \/ exists pre, names = pre ++ qs /\ (absolute = true -> pre = []).
Proof.
  intros Hnames Hqs text.
  assert (Hparse : parseNamePath text =
                   {| isAbsolute := absolute; segments := qs;
                      substringMatch := false; overloadIndex := None |}).
  { pose proof (parse_plain_absolute qs Hqs) as Habs.
    pose proof (parse_plain_relative qs Hqs) as Hrel.
    unfold text. destruct absolute; assumption. }
  rewrite Hparse.
  destruct qs as [|q qs'].
  - split; [left; reflexivity | reflexivity].
  - destruct (exists_last (l := q :: qs')) as [qa [ql Hq]]; [discriminate |].
    rewrite Hq.
    rewrite (matchNamePath_spec names qa ql absolute false None None Hnames).
    split.
    + intros [pre [pl [-> [Hpre Hm]]]]. right. exists pre.
      apply segmentMatches_exact in Hm. subst pl. split; [reflexivity | exact Hpre].
    + intros [Hnil | [pre [-> Hpre]]].
      * destruct qa; discriminate.
      * exists pre, ql. split; [reflexivity |]. split; [exact Hpre |].
        apply segmentMatches_exact. reflexivity.
Qed.

Lemma matchNamePath_exact_witness :
  matchNamePath (lit "/MyClass/myMethod") (parseNamePath (lit "myMethod")) None = true.
Proof.
  apply (matchNamePath_exact [lit "MyClass"; lit "myMethod"] [lit "myMethod"] false).
  - repeat constructor.
  - repeat constructor.
  - right. exists [lit "MyClass"]. split; [reflexivity | discriminate].
Defined.

End MatchFacts.

Section GlobFacts.
Import JS NamePath.

#[local] Abbreviation noSpace := (forallb (fun c => negb (isWhiteSpace c))).

Lemma join_forallb (P : ascii -> bool) (names : list jsstring) :
  P "/"%char = true ->
  Forall (fun s => forallb P s = true) names ->
  forallb P (join (lit "/") names) = true.
Proof.
  intros Hslash. induction 1 as [|p names Hp Hall IH]; [reflexivity |].
  destruct names as [|q names]; [exact Hp |].
  change (join (lit "/") (p :: q :: names))
    with (p ++ "/"%char :: join (lit "/") (q :: names)).
  rewrite forallb_app. cbn [forallb]. rewrite Hp, Hslash, IH. reflexivity.
Qed.

Lemma join_head (names : list jsstring) :
  Forall (fun s => isSegment s = true) names -> names <> [] ->
  exists c rest, join (lit "/") names = c :: rest /\ Ascii.eqb c "/" = false.
Proof.
  intros Hall Hne. destruct names as [|p names]; [congruence |].
  apply Forall_cons_iff in Hall. destruct Hall as [Hp _].
  apply isSegment_spec in Hp. destruct Hp as [Hp Hslash].
  destruct p as [|c p]; [congruence |].
  cbn [forallb] in Hslash. apply andb_true_iff in Hslash.
  destruct Hslash as [Hc _]. apply negb_true_iff in Hc.
  destruct names; eexists c, _; (split; [reflexivity | exact Hc]).
Qed.

Lemma join_last_char (names : list jsstring) (x : jsstring) (c : ascii) :
  exists s, join (lit "/") (names ++ [x ++ [c]]) = s ++ [c].
Proof.
  destruct names as [|p names].
  - exists x. reflexivity.
  - rewrite join_snoc by discriminate.
    exists (join (lit "/") (p :: names) ++ lit "/" ++ x).
    rewrite <- !app_assoc. reflexivity.
Qed.

Lemma removelast_snoc {A : Type} (l : list A) (x : A) : removelast (l ++ [x]) = l.
Proof. apply removelast_last. Qed.

Lemma plain_noSpace (s : jsstring) :
  forallb isPlainChar s = true -> noSpace s = true.
Proof.
  rewrite !forallb_forall. intros H c Hc. specialize (H c Hc).
  apply isPlainChar_spec in H. apply negb_true_iff. tauto.
Qed.

Lemma plain_noSlash (s : jsstring) :
  forallb isPlainChar s = true ->
  forallb (fun c => negb (Ascii.eqb c "/")) s = true.
Proof.
  rewrite !forallb_forall. intros H c Hc. specialize (H c Hc).
  apply isPlainChar_spec in H. apply negb_true_iff. tauto.
Qed.

(** The names of a glob pattern: plain names and a last one that ends with
    a star. *)
Lemma glob_names (qs : list jsstring) (prefix : jsstring) :
  Forall (fun s => isPlainSegment s = true) qs ->
  forallb isPlainChar prefix = true ->
  Forall (fun s => isSegment s = true) (qs ++ [prefix ++ lit "*"]) /\
  Forall (fun s => noSpace s = true) (qs ++ [prefix ++ lit "*"]).
Proof.
  intros Hqs Hprefix. split.
  - apply Forall_app. split; [apply plain_segments, Hqs |].
    constructor; [| constructor].
    apply isSegment_spec. split.
    + destruct prefix; discriminate.
    + rewrite forallb_app, (plain_noSlash _ Hprefix). reflexivity.
  - apply Forall_app. split.
    + eapply Forall_impl; [| exact Hqs]. intros s Hs.
      apply plain_noSpace, plain_chars, Hs.
    + constructor; [| constructor].
      rewrite forallb_app, (plain_noSpace _ Hprefix). reflexivity.
Qed.

(** X10: a pattern whose last name ends with a star.  [parseNamePath]
    reads it as a glob and drops the star; the path of the symbol under
    [names] matches when the names before the last stand, as they are, at
    the end of the path in front of its last name, and this name starts
    with the prefix, compared without regard to case.  An absolute glob
    pattern admits no further names in front. *)
Theorem matchNamePath_glob (names qs : list jsstring) (prefix : jsstring)
  (absolute : bool) :
  Forall (fun s => isSegment s = true) names ->
  Forall (fun s => isPlainSegment s = true) qs ->
  forallb isPlainChar prefix = true ->
  let globNames := qs ++ [prefix ++ lit "*"] in
  let text := if absolute then absolutePath globNames
              else join (lit "/") globNames in
  parseNamePath text =
    {| isAbsolute := absolute; segments := qs ++ [prefix];
       substringMatch := true; overloadIndex := None |} /\
  (matchNamePath (absolutePath names) (parseNamePath text) None = true <->
   exists pre name,
     names = pre ++ qs ++ [name] /\
     (absolute = true -> pre = []) /\
     startsWith (toLowerCase prefix) (toLowerCase name) = true).
Proof.
  intros Hnames Hqs Hprefix globNames text.
  destruct (glob_names qs prefix Hqs Hprefix) as [Hsegs Hspaces].
  fold globNames in Hsegs, Hspaces.
  assert (Hspace : noSpace (join (lit "/") globNames) = true)
    by (apply join_forallb; [reflexivity | exact Hspaces]).
  assert (Hover : matchOverload (join (lit "/") globNames) = None).
  { destruct (join_last_char qs prefix "*"%char) as [s Hs].
    change (prefix ++ ["*"%char]) with (prefix ++ lit "*") in Hs.
    fold globNames in Hs. rewrite Hs. apply matchOverload_none. reflexivity. }
  assert (Hpath : pathSegmentsOf (join (lit "/") globNames) = globNames)
    by (apply pathSegmentsOf_join, Hsegs).
  assert (Hlast : last globNames [] = prefix ++ lit "*")
    by (apply last_last).
  assert (Hlen : (0 <? length globNames)%nat = true).
  { unfold globNames. rewrite length_app. cbn [length].
    apply Nat.ltb_lt. lia. }
  assert (Hstar : endsWithStar (prefix ++ lit "*") = true)
    by (apply (endsWithStar_last prefix "*"%char)).
  assert (Hworking :
    forall w, w = join (lit "/") globNames ->
      (let overloadMatch := matchOverload w in
       let overloadIndex := option_map parseInt overloadMatch in
       let workingPattern :=
         match overloadMatch with
         | Some digits => slice0 w (- Z.of_nat (length digits + 2))
         | None => w
         end in
       let segments := pathSegmentsOf workingPattern in
       let substringMatch :=
         (0 <? length segments)%nat && endsWithStar (last segments []) in
       let segments :=
         if substringMatch && (0 <? length segments)%nat
         then removelast segments ++ [slice0 (last segments []) (-1)]
         else segments in
       {| isAbsolute := absolute; segments := segments;
          substringMatch := substringMatch; overloadIndex := overloadIndex |}) =
      {| isAbsolute := absolute; segments := qs ++ [prefix];
         substringMatch := true; overloadIndex := None |}).
  { intros w ->. cbv zeta. rewrite Hover. cbn [option_map].
    rewrite Hpath, Hlen, Hlast, Hstar. cbn [andb].
    unfold globNames at 1. rewrite removelast_snoc.
    change (prefix ++ lit "*") with (prefix ++ ["*"%char]).
    rewrite (slice0_drop_last prefix "*"%char). reflexivity. }
  assert (Hparse : parseNamePath text =
                   {| isAbsolute := absolute; segments := qs ++ [prefix];
                      substringMatch := true; overloadIndex := None |}).
  { unfold text. destruct absolute.
    - unfold parseNamePath. rewrite absolutePath_cons.
      rewrite trim_noSpace by (cbn [forallb]; rewrite Hspace; reflexivity).
      change (startsWith (lit "/") ("/"%char :: join (lit "/") globNames))
        with true.
      cbn [skipn]. apply (Hworking _ eq_refl).
    - unfold parseNamePath. rewrite trim_noSpace by exact Hspace.
      destruct (join_head globNames Hsegs) as [c [rest [Hjoin Hc]]].
      { unfold globNames. destruct qs; discriminate. }
      assert (Hhead : startsWith (lit "/") (join (lit "/") globNames) = false).
      { rewrite Hjoin. cbn [lit list_ascii_of_string startsWith].
        rewrite Ascii.eqb_sym, Hc. reflexivity. }
      rewrite Hhead. apply (Hworking _ eq_refl). }
  split; [exact Hparse |].
  rewrite Hparse.
  rewrite (matchNamePath_spec names qs prefix absolute true None None Hnames).
  cbv zeta. unfold segmentMatches. reflexivity.
Qed.

Lemma matchNamePath_glob_witness :
  matchNamePath (lit "/MyClass/getValue") (parseNamePath (lit "MyClass/GET*")) None
  = true.
Proof.
  apply (matchNamePath_glob [lit "MyClass"; lit "getValue"] [lit "MyClass"]
           (lit "GET") false).
  - repeat constructor.
  - repeat constructor.
  - reflexivity.
  - exists [], (lit "getValue").
    split; [reflexivity |]. split; [reflexivity | reflexivity].
Defined.

Lemma takeDigits_app (digits rest : jsstring) (c : ascii) :
  forallb isDigit digits = true -> isDigit c = false ->
  takeDigits (digits ++ c :: rest) = digits.
Proof.
  intros Hd Hc. induction digits as [|d digits IH]; cbn [app takeDigits].
  - rewrite Hc. reflexivity.
  - cbn [forallb] in Hd. apply andb_true_iff in Hd. destruct Hd as [Hd Hds].
    rewrite Hd, (IH Hds). reflexivity.
Qed.

Lemma matchOverload_suffix (s digits : jsstring) :
  digits <> [] -> forallb isDigit digits = true ->
  matchOverload (s ++ lit "[" ++ digits ++ lit "]") = Some digits.
Proof.
  intros Hne Hd. unfold matchOverload.
  rewrite !rev_app_distr. cbn [lit list_ascii_of_string rev app].
  change (Ascii.eqb "]" "]") with true. cbv iota.
  rewrite <- app_assoc. cbn [app].
  assert (Hrev : forallb isDigit (rev digits) = true).
  { rewrite forallb_forall in *. intros c Hc. apply Hd. apply in_rev. exact Hc. }
  rewrite (takeDigits_app (rev digits) (rev s) "["%char Hrev eq_refl).
  remember (rev digits) as rd eqn:Hr.
  destruct rd as [|d ds].
  - apply (f_equal (@rev _)) in Hr. rewrite rev_involutive in Hr.
    cbn [rev] in Hr. congruence.
  - rewrite skipn_app, skipn_all, Nat.sub_diag. cbn [app skipn].
    change (Ascii.eqb "[" "[") with true. cbv iota.
    rewrite Hr, rev_involutive. reflexivity.
Qed.

Lemma slice0_drop_suffix {A : Type} (l suffix : list A) :
  suffix <> [] ->
  slice0 (l ++ suffix) (- Z.of_nat (length suffix)) = l.
Proof.
  intros Hne. unfold slice0. rewrite length_app.
  assert (Hpos : 0 < length suffix) by (destruct suffix; [congruence | cbn; lia]).
  destruct (Z.ltb_spec (- Z.of_nat (length suffix)) 0) as [_|Hge]; [| lia].
  replace (Z.to_nat (Z.max (Z.of_nat (length l + length suffix) +
                             - Z.of_nat (length suffix)) 0))
    with (length l) by lia.
  rewrite firstn_app, Nat.sub_diag, firstn_all. cbn [firstn].
  apply app_nil_r.
Qed.

Lemma digits_noSpace (digits : jsstring) :
  forallb isDigit digits = true -> noSpace digits = true.
Proof.
  rewrite !forallb_forall. intros H c Hc. specialize (H c Hc).
  assert (Hall : forall x, negb (isDigit x) || negb (isWhiteSpace x) = true)
    by (apply forall_chars; vm_compute; reflexivity).
  specialize (Hall c). rewrite H in Hall. exact Hall.
Qed.

(** X11: an overload index behind a pattern.  A pattern printed from plain
    names and followed by an opening bracket, decimal digits and a closing
    bracket is read as the pattern without the bracket part, with
    [parseInt] of the digits as its overload index: the double nearest to
    the integer that the digits denote, which is this integer when it is
    2^53 or less; and [matchNamePath] takes no notice of the index. *)
Theorem parseNamePath_overload (qs : list jsstring) (digits : jsstring)
  (absolute : bool) :
  Forall (fun s => isPlainSegment s = true) qs ->
  digits <> [] -> forallb isDigit digits = true ->
  let text := if absolute then absolutePath qs else join (lit "/") qs in
  let indexed := text ++ lit "[" ++ digits ++ lit "]" in
  parseNamePath indexed =
    {| isAbsolute := absolute; segments := qs;
       substringMatch := false; overloadIndex := Some (parseInt digits) |} /\
  ((decimalValue digits <= 2 ^ 53)%N ->
   parseInt digits = Numbers.numOfZ (Z.of_N (decimalValue digits))) /\
  forall namePath useSubstringMatching,
    matchNamePath namePath (parseNamePath indexed) useSubstringMatching =
    matchNamePath namePath (parseNamePath text) useSubstringMatching.
Proof.
  intros Hqs Hne Hd text indexed.
  destruct (parse_working qs Hqs) as [_ [Hsegs Hstar]].
  pose proof (join_noSpace qs Hqs) as Hspace.
  set (suffix := lit "[" ++ digits ++ lit "]").
  assert (Hsuffix : noSpace suffix = true).
  { unfold suffix. rewrite !forallb_app, (digits_noSpace _ Hd). reflexivity. }
  assert (Hlen : length suffix = length digits + 2).
  { unfold suffix. rewrite !length_app. cbn [lit list_ascii_of_string length]. lia. }
  assert (Hworking :
    (let w := join (lit "/") qs ++ suffix in
     let overloadMatch := matchOverload w in
     let overloadIndex := option_map parseInt overloadMatch in
     let workingPattern :=
       match overloadMatch with
       | Some digits => slice0 w (- Z.of_nat (length digits + 2))
       | None => w
       end in
     let segments := pathSegmentsOf workingPattern in
     let substringMatch :=
       (0 <? length segments)%nat && endsWithStar (last segments []) in
     let segments :=
       if substringMatch && (0 <? length segments)%nat
       then removelast segments ++ [slice0 (last segments []) (-1)]
       else segments in
     {| isAbsolute := absolute; segments := segments;
        substringMatch := substringMatch; overloadIndex := overloadIndex |}) =
    {| isAbsolute := absolute; segments := qs;
       substringMatch := false; overloadIndex := Some (parseInt digits) |}).
  { assert (Hm : matchOverload (join (lit "/") qs ++ suffix) = Some digits)
      by (apply (matchOverload_suffix _ digits Hne Hd)).
    cbv zeta. rewrite Hm. cbn [option_map]. rewrite <- Hlen.
    rewrite slice0_drop_suffix by (unfold suffix; discriminate).
    rewrite Hsegs. unfold jsstring in *. rewrite Hstar. reflexivity. }
  assert (Hparse : parseNamePath indexed =
                   {| isAbsolute := absolute; segments := qs;
                      substringMatch := false;
                      overloadIndex := Some (parseInt digits) |}).
  { unfold indexed, text. fold suffix. destruct absolute.
    - unfold parseNamePath. rewrite absolutePath_cons.
      rewrite trim_noSpace
        by (cbn [app forallb]; rewrite forallb_app, Hspace, Hsuffix; reflexivity).
      change (startsWith (lit "/") (("/"%char :: join (lit "/") qs) ++ suffix))
        with true.
      cbn [app skipn]. exact Hworking.
    - unfold parseNamePath.
      rewrite trim_noSpace by (rewrite forallb_app, Hspace, Hsuffix; reflexivity).
      assert (Hhead : startsWith (lit "/") (join (lit "/") qs ++ suffix) = false).
      { destruct qs as [|q qs'].
        - reflexivity.
        - destruct (join_head (q :: qs') (plain_segments _ Hqs) ltac:(discriminate))
            as [c [rest [Hjoin Hc]]].
          rewrite Hjoin. cbn [app lit list_ascii_of_string startsWith].
          rewrite Ascii.eqb_sym, Hc. reflexivity. }
      rewrite Hhead. exact Hworking. }
  split; [exact Hparse |].
  split.
  { intros Hsmall. apply round_integer. split; [lia |].
    change (2 ^ 53)%Z with (Z.of_N (2 ^ 53)). lia. }
  intros namePath u. rewrite Hparse.
  pose proof (parse_plain_absolute qs Hqs) as Habs.
    pose proof (parse_plain_relative qs Hqs) as Hrel.
  unfold text. destruct absolute; [rewrite Habs | rewrite Hrel]; reflexivity.
Qed.

Lemma parseNamePath_overload_witness :
  parseNamePath (lit "MyClass/method[10]") =
    {| isAbsolute := false; segments := [lit "MyClass"; lit "method"];
       substringMatch := false; overloadIndex := Some (Numbers.numOfZ 10) |}.
Proof.
  destruct (parseNamePath_overload [lit "MyClass"; lit "method"] (lit "10") false)
    as [Hparse [Hindex _]].
  - repeat constructor.
  - discriminate.
  - reflexivity.
  - cbv zeta in Hparse. rewrite Hindex in Hparse by (vm_compute; discriminate).
    exact Hparse.
Defined.

(** Above 2^53 the index is the nearest double, and Infinity beyond the
    doubles. *)
Example parseInt_rounds :
  parseInt (lit "9007199254740992") = Numbers.numOfZ 9007199254740992 /\
  parseInt (lit "9007199254740993") = Numbers.numOfZ 9007199254740992 /\
  parseInt (lit "9007199254740995") = Numbers.numOfZ 9007199254740996 /\
  parseInt (lit "007") = Numbers.numOfZ 7 /\
  parseInt (repeat "9"%char 400) = Numbers.Inf false /\
  overloadIndex (parseNamePath (lit "run[9007199254740993]")) =
    Some (Numbers.numOfZ 9007199254740992).
Proof. repeat split; vm_compute; reflexivity. Qed.

End GlobFacts.

(** ** Vector measures of the clustering (search/clustering.ts) *)

Section VectorFacts.
Import JS Clustering.
Context {num : Type} {N : JSNum num}.

#[local] Abbreviation zero := (ofQ 0%Q).

#[local] Abbreviation products :=
  (fun (st : Products num) (ab : num * num) =>
     {| dotProduct := add (dotProduct st) (mul (fst ab) (snd ab));
        normA := add (normA st) (mul (fst ab) (fst ab));
        normB := add (normB st) (mul (snd ab) (snd ab)) |}).

Lemma products_swap (a : list num) :
  (forall x y : num, mul x y = mul y x) ->
  forall b st st',
    dotProduct st = dotProduct st' ->
    normA st = normB st' -> normB st = normA st' ->
    let s := fold_left products (combine a b) st in
    let s' := fold_left products (combine b a) st' in
    dotProduct s = dotProduct s' /\ normA s = normB s' /\ normB s = normA s'.
Proof.
  intros Hcomm. induction a as [|x a IH]; intros b st st' Hd Ha Hb.
  - destruct b; cbn [combine fold_left]; auto.
  - destruct b as [|y b]; cbn [combine fold_left]; [auto |].
    apply IH; cbn [dotProduct normA normB fst snd].
    + rewrite Hd, (Hcomm x y). reflexivity.
    + rewrite Ha. reflexivity.
    + rewrite Hb. reflexivity.
Qed.

(** X12: the cosine similarity does not depend on the order of its two
    arguments, with any arithmetic in which the product of two numbers does
    not (that of IEEE doubles is one): the same value, or the same
    exception. *)
Theorem cosineSimilarity_symmetric (a b : list num) :
  (forall x y : num, mul x y = mul y x) ->
  cosineSimilarity a b = cosineSimilarity b a.
Proof.
  intros Hcomm. unfold cosineSimilarity.
  rewrite (Nat.eqb_sym (length b) (length a)).
  destruct (negb (length a =? length b)); [reflexivity |].
  destruct (products_swap a Hcomm b
              {| dotProduct := zero; normA := zero; normB := zero |}
              {| dotProduct := zero; normA := zero; normB := zero |}
              eq_refl eq_refl eq_refl) as [Hd [Ha Hb]].
  cbv zeta in Hd, Ha, Hb. rewrite Hd, Ha, Hb.
  rewrite orb_comm. rewrite (Hcomm (sqrt (normB _)) (sqrt (normA _))).
  reflexivity.
Qed.

Lemma products_normA_zero (a : list num) :
  mul zero zero = zero -> add zero zero = zero ->
  Forall (eq zero) a ->
  forall b st, normA st = zero ->
    normA (fold_left products (combine a b) st) = zero.
Proof.
  intros Hmul Hadd. induction 1 as [|x a Hx Ha IH]; intros b st Hst.
  - exact Hst.
  - destruct b as [|y b]; [exact Hst |].
    cbn [combine fold_left]. apply IH. cbn [normA fst].
    rewrite Hst, <- Hx, Hmul, Hadd. reflexivity.
Qed.

Lemma products_normB_zero (b : list num) :
  mul zero zero = zero -> add zero zero = zero ->
  Forall (eq zero) b ->
  forall a st, normB st = zero ->
    normB (fold_left products (combine a b) st) = zero.
Proof.
  intros Hmul Hadd. induction 1 as [|y b Hy Hb IH]; intros a st Hst.
  - destruct a; exact Hst.
  - destruct a as [|x a]; [exact Hst |].
    cbn [combine fold_left]. apply IH. cbn [normB snd].
    rewrite Hst, <- Hy, Hmul, Hadd. reflexivity.
Qed.

(** X13: the cosine similarity of two vectors of the same length is 0 as
    soon as one of them is all zeros, whatever the other holds (infinities
    and NaN included): the division by a zero norm is never made.  The
    arithmetic only has to compute 0 * 0, 0 + 0 and the square root of 0
    as 0, and to find 0 equal to itself. *)
Theorem cosineSimilarity_zero_vector (a b : list num) :
  mul zero zero = zero -> add zero zero = zero -> sqrt zero = zero ->
  strictEq zero zero = true ->
  length a = length b ->
  Forall (eq zero) a \/ Forall (eq zero) b ->
  cosineSimilarity a b = Normal zero.
Proof.
  intros Hmul Hadd Hsqrt Heq Hlen Hzero. unfold cosineSimilarity.
  apply Nat.eqb_eq in Hlen. rewrite Hlen. cbn [negb].
  destruct Hzero as [Ha | Hb].
  - rewrite (products_normA_zero a Hmul Hadd Ha) by reflexivity.
    rewrite Hsqrt, Heq. reflexivity.
  - rewrite (products_normB_zero b Hmul Hadd Hb) by reflexivity.
    rewrite Hsqrt, Heq, orb_true_r. reflexivity.
Qed.

Lemma squares_swap (a : list num) :
  (forall x y : num, mul (sub x y) (sub x y) = mul (sub y x) (sub y x)) ->
  forall b s,
    fold_left (fun sum ab => let diff := sub (fst ab) (snd ab) in
                             add sum (mul diff diff)) (combine a b) s =
    fold_left (fun sum ab => let diff := sub (fst ab) (snd ab) in
                             add sum (mul diff diff)) (combine b a) s.
Proof.
  intros Hsq. induction a as [|x a IH]; intros b s.
  - destruct b; reflexivity.
  - destruct b as [|y b]; [reflexivity |].
    cbn [combine fold_left fst snd]. rewrite (Hsq x y). apply IH.
Qed.

(** X14: the Euclidean distance does not depend on the order of its two
    arguments, with any arithmetic in which (x - y)^2 and (y - x)^2 are
    the same number (that of IEEE doubles is one): the same value, or the
    same exception. *)
Theorem euclideanDistance_symmetric (a b : list num) :
  (forall x y : num, mul (sub x y) (sub x y) = mul (sub y x) (sub y x)) ->
  euclideanDistance a b = euclideanDistance b a.
Proof.
  intros Hsq. unfold euclideanDistance.
  rewrite (Nat.eqb_sym (length b) (length a)).
  destruct (negb (length a =? length b)); [reflexivity |].
  rewrite (squares_swap a Hsq b). reflexivity.
Qed.

(** The sums that [calculateCentroid] accumulates, coordinate by
    coordinate. *)
Lemma addInto_sums (dimensions : nat) (vectors : list (list num)) :
  forall sums i,
    length sums = dimensions -> i < dimensions ->
    nth i (fold_left (addInto dimensions) vectors sums) nan =
    fold_left add (map (fun vec => nth i vec nan) vectors) (nth i sums nan).
Proof.
  induction vectors as [|vec vectors IH]; intros sums i Hlen Hi; [reflexivity |].
  cbn [fold_left map]. rewrite IH.
  - f_equal. unfold addInto.
    rewrite (nth_indep _ nan (add (nth 0 sums nan) (nth 0 vec nan)))
      by (rewrite length_map, length_seq; exact Hi).
    rewrite (map_nth (fun j => add (nth j sums nan) (nth j vec nan))).
    rewrite seq_nth by exact Hi. reflexivity.
  - unfold addInto. rewrite length_map, length_seq. reflexivity.
  - exact Hi.
Qed.

(** X15: [calculateCentroid] throws on the empty set only.  On other sets
    it returns a vector with as many coordinates as the first vector has,
    and each coordinate is the sum of this coordinate over the vectors, in
    their order and from 0, divided by their number; a vector that is too
    short contributes [undefined] (NaN as a number) there, and what a
    longer vector holds beyond is ignored. *)
Theorem calculateCentroid_mean (vectors : list (list num)) :
  (calculateCentroid vectors = Throw emptySetError <-> vectors = []) /\
  forall first rest, vectors = first :: rest ->
    exists centroid,
      calculateCentroid vectors = Normal centroid /\
      length centroid = length first /\
      forall i, i < length first ->
        nth i centroid nan =
        div (fold_left add (map (fun vec => nth i vec nan) vectors) zero)
            (ofNat (length vectors)).
Proof.
  split.
  - split.
    + intros H. destruct vectors; [reflexivity | discriminate].
    + intros ->. reflexivity.
  - intros first rest ->. unfold calculateCentroid.
    set (dimensions := length first).
    set (sums := fold_left (addInto dimensions) (first :: rest)
                   (repeat zero dimensions)).
    assert (Hsums : length sums = dimensions).
    { destruct (calculateCentroid_nonempty first rest) as [c [Hc Hlen]].
      unfold calculateCentroid in Hc. injection Hc as <-.
      rewrite length_map in Hlen. exact Hlen. }
    eexists. split; [reflexivity |]. split.
    + rewrite length_map. exact Hsums.
    + intros i Hi.
      rewrite (nth_indep _ nan (div nan (ofNat (length (first :: rest)))))
        by (rewrite length_map, Hsums; exact Hi).
      rewrite (map_nth (fun c => div c (ofNat (length (first :: rest))))).
      f_equal. unfold sums.
      rewrite addInto_sums by (rewrite ?repeat_length; auto).
      f_equal. apply nth_repeat_lt. exact Hi.
Qed.

End VectorFacts.

Section VectorExamples.
Import JS Clustering ExactNum.
Local Open Scope Q_scope.

Lemma Qmult_comm_eq (x y : Q) : Qmult x y = Qmult y x.
Proof.
  unfold Qmult. rewrite (Z.mul_comm (Qnum x)), (Pos.mul_comm (Qden x)).
  reflexivity.
Qed.

(** The product of the exact numbers is commutative. *)
Lemma exMul_comm (x y : exact) : exMul x y = exMul y x.
Proof.
  destruct x as [x|s|], y as [y|t|]; cbn [exMul]; try reflexivity.
  - rewrite Qmult_comm_eq. reflexivity.
  - destruct s, t; reflexivity.
Qed.

Lemma Qsquare_diff (x y : Q) : Qmult (x + - y) (x + - y) = Qmult (y + - x) (y + - x).
Proof.
  unfold Qmult, Qplus, Qopp. cbn [Qnum Qden]. f_equal.
  - ring.
  - rewrite (Pos.mul_comm (Qden x) (Qden y)). reflexivity.
Qed.

(** The squares of the two differences of two exact numbers agree. *)
Lemma exSquare_diff (x y : exact) :
  exMul (exSub x y) (exSub x y) = exMul (exSub y x) (exSub y x).
Proof.
  destruct x as [x|s|], y as [y|t|]; unfold exSub; cbn [exNeg exAdd exMul];
    try reflexivity.
  - rewrite Qsquare_diff. reflexivity.
  - destruct t; reflexivity.
  - destruct s; reflexivity.
  - destruct s, t; reflexivity.
Qed.

(** The test 'should return 0 for orthogonal vectors', both ways round. *)
Lemma cosineSimilarity_symmetric_witness :
  cosineSimilarity (map Finite [1; 0; 0]) (map Finite [0; 1; 0]) =
  cosineSimilarity (map Finite [0; 1; 0]) (map Finite [1; 0; 0]).
Proof.
  apply (cosineSimilarity_symmetric (map Finite [1; 0; 0]) (map Finite [0; 1; 0])).
  exact exMul_comm.
Defined.

(** The test 'should handle zero vectors'. *)
Lemma cosineSimilarity_zero_vector_witness :
  cosineSimilarity (map Finite [0; 0; 0]) (map Finite [1; 2; 3]) = Normal (Finite 0).
Proof.
  refine (cosineSimilarity_zero_vector (map Finite [0; 0; 0])
            (map Finite [1; 2; 3]) _ _ _ _ _ _); try reflexivity.
  left. repeat constructor.
Defined.

(** The test 'should calculate correct distance', both ways round. *)
Lemma euclideanDistance_symmetric_witness :
  euclideanDistance (map Finite [0; 0]) (map Finite [3; 4]) =
  euclideanDistance (map Finite [3; 4]) (map Finite [0; 0]).
Proof.
  apply (euclideanDistance_symmetric (map Finite [0; 0]) (map Finite [3; 4])).
  exact exSquare_diff.
Defined.

Example vector_measures_tests :
  euclideanDistance (map Finite [0; 0]) (map Finite [3; 4]) = Normal (Finite 5) /\
  cosineSimilarity (map Finite [1; 0; 0]) (map Finite [0; 1; 0]) = Normal (Finite 0) /\
  cosineSimilarity (map Finite [1; 0; 0]) (map Finite [-1; 0; 0])
    = Normal (Finite (-1)) /\
  cosineSimilarity (map Finite [1; 2]) (map Finite [1; 2; 3]) = Throw vectorsError.
Proof. vm_compute. repeat split. Qed.

Lemma calculateCentroid_mean_witness :
  exists centroid,
    calculateCentroid [map Finite [1; 2]; map Finite [3; 6]] = Normal centroid /\
    length centroid = 2%nat /\
    forall i, (i < 2)%nat ->
      nth i centroid nan =
      div (fold_left add
             (map (fun vec => nth i vec nan) [map Finite [1; 2]; map Finite [3; 6]])
             (Finite 0))
          (ofNat 2).
Proof.
  destruct (calculateCentroid_mean [map Finite [1; 2]; map Finite [3; 6]])
    as [_ H].
  apply (H (map Finite [1; 2]) [map Finite [3; 6]] eq_refl).
Defined.

End VectorExamples.

(** ** Seeding and nearest cluster (search/clustering.ts) *)

Section SeedFacts.
Import JS Clustering.
Context {num : Type} {N : JSNum num}.
Variable draws : nat -> num.
Hypothesis draws_unit : unitDraws draws.
Variable d : nat.

(** One round of the seeding adds one of the embeddings and takes one
    draw. *)
Lemma seedNext_draw (embeddings centroids : list (list num)) (cursor : nat) :
  embeddings <> [] -> uniform d embeddings -> uniform d centroids ->
  exists v,
    seedNext embeddings centroids draws cursor = Normal (centroids ++ [v], S cursor) /\
    In v embeddings.
Proof.
  intros Hne He Hc.
  destruct (seedNext_total draws d embeddings centroids cursor Hne He Hc)
    as [v [cursor' [Hrun Hin]]].
  exists v. split; [| exact Hin].
  rewrite Hrun. do 2 f_equal.
  unfold seedNext in Hrun.
  apply bindR_inv in Hrun. destruct Hrun as [distances [c1 [Hd Hrun]]].
  apply liftR_inv in Hd. destruct Hd as [_ ->].
  apply bindR_inv in Hrun. destruct Hrun as [r [c2 [Hr Hrun]]].
  unfold random in Hr. injection Hr as _ <-.
  destruct (nth_error embeddings _).
  - apply retR_inv in Hrun. destruct Hrun as [_ ->]. reflexivity.
  - unfold liftR in Hrun. discriminate.
Qed.

Lemma seedRounds_draws (embeddings : list (list num)) (rounds : nat) :
  embeddings <> [] -> uniform d embeddings ->
  forall centroids cursor,
    uniform d centroids ->
    exists added,
      seedRounds rounds embeddings centroids draws cursor =
        Normal (centroids ++ added, cursor + rounds) /\
      length added = rounds /\
      Forall (fun v => In v embeddings) added.
Proof.
  intros Hne He. induction rounds as [|rounds IH]; intros centroids cursor Hc.
  - exists []. rewrite app_nil_r, Nat.add_0_r. repeat split. constructor.
  - cbn [seedRounds].
    destruct (seedNext_draw embeddings centroids cursor Hne He Hc) as [v [Hnext Hv]].
    rewrite (bindR_normal draws _ _ _ _ _ Hnext).
    destruct (IH (centroids ++ [v]) (S cursor)) as [added [Hrun [Hlen Hall]]].
    { apply uniform_snoc; [exact Hc | apply (uniform_In d embeddings); assumption]. }
    exists (v :: added). split; [| split].
    + rewrite Hrun, <- app_assoc. do 2 f_equal. lia.
    + cbn [length]. lia.
    + constructor; assumption.
Qed.

(** X16: the k-means++ seeding, on embeddings of one dimension and with
    draws that behave like numbers of [0, 1), returns max(k, 1) centroids,
    each of which is one of the embeddings, and calls [Math.random] once
    per centroid. *)
Theorem initializeCentroidsKMeansPP_seeds (embeddings : list (list num))
  (k cursor : nat) :
  embeddings <> [] -> uniform d embeddings ->
  exists centroids,
    initializeCentroidsKMeansPP embeddings k draws cursor =
      Normal (centroids, cursor + Nat.max k 1) /\
    length centroids = Nat.max k 1 /\
    Forall (fun c => In c embeddings) centroids.
Proof.
  intros Hne He. unfold initializeCentroidsKMeansPP.
  destruct (randomIndex_total draws draws_unit (length embeddings) cursor)
    as [idx [j [Hr [Hj Hlt]]]].
  { destruct embeddings; [contradiction | cbn [length]; lia]. }
  rewrite (bindR_normal draws _ _ _ _ _ Hr).
  destruct (copyAt_total embeddings idx j Hj Hlt) as [first [Hfirst Hin]].
  rewrite (bindR_normal draws _ _ (S cursor) (S cursor) first)
    by (unfold liftR; rewrite Hfirst; reflexivity).
  destruct (seedRounds_draws embeddings (k - 1) Hne He [first] (S cursor))
    as [added [Hrun [Hlen Hall]]].
  { repeat constructor. apply (uniform_In d embeddings); assumption. }
  exists ([first] ++ added). split; [| split].
  - rewrite Hrun. do 2 f_equal. lia.
  - rewrite length_app. cbn [length]. lia.
  - constructor; assumption.
Qed.

End SeedFacts.

Section NearestFacts.
Import JS Clustering.
Context {num : Type} {N : JSNum num}.

#[local] Abbreviation step vector :=
  (fun (st : num * nat) (cluster : ConceptCluster num) =>
     bind (euclideanDistance vector (centroid cluster))
          (fun dist => Normal (if lt dist (fst st) then (dist, clusterId cluster)
                               else st))).

(** What the loop of [assignToCluster] holds after the clusters [seen],
    whose distances are [dists]: nothing nearer than Infinity so far, or the
    first of the nearest clusters. *)
#[local] Abbreviation nearestSoFar seen dists st :=
  ((fst st = infinity /\ snd st = 0 /\
    forall x, In x dists -> lt x infinity = false) \/
   exists j cl dj,
     nth_error seen j = Some cl /\ nth_error dists j = Some dj /\
     fst st = dj /\ snd st = clusterId cl /\
     lt dj infinity = true /\
     (forall x, In x dists -> lt x dj = false) /\
     (forall i di, i < j -> nth_error dists i = Some di -> lt dj di = true)).

Lemma assignToCluster_loop (vector : list num) (values : list num) :
  (forall a, In a values -> lt a a = false) ->
  (forall a b c, In a values -> In b values -> In c values ->
     lt a b = true -> lt b c = true -> lt a c = true) ->
  (forall a b c, In a values -> In b values -> In c values ->
     lt a b = false -> lt b c = false -> lt a c = false) ->
  In infinity values ->
  forall todo dists,
    mapM (fun cl => euclideanDistance vector (centroid cl)) todo = Normal dists ->
    forall seen seenDists st,
      length seen = length seenDists ->
      (forall x, In x (seenDists ++ dists) -> In x values) ->
      nearestSoFar seen seenDists st ->
      exists st',
        forOf (step vector) todo st = Normal st' /\
        nearestSoFar (seen ++ todo) (seenDists ++ dists) st'.
Proof.
  intros Hirr Htrans Hneg Hinf.
  induction todo as [|cl todo IH];
    intros dists Hd seen seenDists st Hlen Hvals Hst.
  - cbn [mapM] in Hd. injection Hd as <-. exists st.
    rewrite !app_nil_r. split; [reflexivity | exact Hst].
  - cbn [mapM] in Hd.
    apply bind_normal_inv in Hd. destruct Hd as [dist [Hdist Hd]].
    apply bind_normal_inv in Hd. destruct Hd as [rest [Hrest Hd]].
    injection Hd as <-.
    cbn [forOf]. rewrite Hdist. cbn [bind].
    assert (Hdv : In dist values).
    { apply Hvals. apply in_or_app. right. left. reflexivity. }
    assert (Hseenv : forall x, In x seenDists -> In x values).
    { intros x Hx. apply Hvals. apply in_or_app. left. exact Hx. }
    replace (seen ++ cl :: todo) with ((seen ++ [cl]) ++ todo)
      by (rewrite <- app_assoc; reflexivity).
    replace (seenDists ++ dist :: rest) with ((seenDists ++ [dist]) ++ rest)
      by (rewrite <- app_assoc; reflexivity).
    apply (IH rest Hrest).
    + rewrite !length_app. cbn [length]. lia.
    + intros x Hx. apply Hvals. rewrite <- app_assoc in Hx. exact Hx.
    + destruct (lt dist (fst st)) eqn:Hlt.
      * (* the cluster is nearer than all before *)
        right. exists (length seen), cl, dist.
        assert (Hbound : lt dist infinity = true /\
                         (forall x, In x seenDists -> lt x dist = false) /\
                         (forall i di, nth_error seenDists i = Some di ->
                                       lt dist di = true)).
        { destruct Hst as [[Hm [_ Hnone]] | [j [cj [dj [Hj [Hdj [Hm [_ [Hjinf [Hmin Hfirst]]]]]]]]]].
          - rewrite Hm in Hlt. split; [exact Hlt |]. split.
            + intros x Hx. destruct (lt x dist) eqn:Hx'; [| reflexivity].
              rewrite <- (Hnone x Hx). symmetry.
              apply (Htrans x dist infinity); auto.
            + intros i di Hi. apply nth_error_In in Hi.
              destruct (lt dist di) eqn:Hdi; [reflexivity |].
              rewrite <- Hlt. symmetry.
              apply (Hneg dist di infinity); auto.
          - rewrite Hm in Hlt.
            assert (Hdjv : In dj values)
              by (apply Hseenv; apply (nth_error_In _ _ Hdj)).
            split; [apply (Htrans dist dj infinity); auto |]. split.
            + intros x Hx. destruct (lt x dist) eqn:Hx'; [| reflexivity].
              rewrite <- (Hmin x Hx). symmetry.
              apply (Htrans x dist dj); auto.
            + intros i di Hi. apply nth_error_In in Hi.
              destruct (lt dist di) eqn:Hdi; [reflexivity |].
              rewrite <- Hlt. symmetry.
              apply (Hneg dist di dj); auto. }
        destruct Hbound as [Hdinf [Hmin Hfirst]].
        split.
        { rewrite nth_error_app2 by lia. rewrite Nat.sub_diag. reflexivity. }
        split.
        { rewrite Hlen, nth_error_app2 by lia. rewrite Nat.sub_diag. reflexivity. }
        split; [reflexivity |]. split; [reflexivity |].
        split; [exact Hdinf |]. split.
        -- intros x Hx. apply in_app_or in Hx. destruct Hx as [Hx | [<- | []]].
           ++ apply Hmin, Hx.
           ++ apply Hirr, Hdv.
        -- intros i di Hi Hdi. rewrite nth_error_app1 in Hdi by lia.
           apply (Hfirst i di Hdi).
      * (* the state stays *)
        destruct Hst as [[Hm [Hc Hnone]] | [j [cj [dj [Hj [Hdj [Hm [Hc [Hjinf [Hmin Hfirst]]]]]]]]]].
        -- left. split; [exact Hm |]. split; [exact Hc |].
           intros x Hx. apply in_app_or in Hx. destruct Hx as [Hx | [<- | []]].
           ++ apply Hnone, Hx.
           ++ rewrite <- Hm. exact Hlt.
        -- right. exists j, cj, dj.
           assert (Hjlt : j < length seen).
           { apply nth_error_Some. congruence. }
           split; [rewrite nth_error_app1 by lia; exact Hj |].
           split; [rewrite nth_error_app1 by lia; exact Hdj |].
           split; [exact Hm |]. split; [exact Hc |]. split; [exact Hjinf |].
           split.
           ++ intros x Hx. apply in_app_or in Hx. destruct Hx as [Hx | [<- | []]].
              ** apply Hmin, Hx.
              ** rewrite <- Hm. exact Hlt.
           ++ intros i di Hi Hdi. rewrite nth_error_app1 in Hdi by lia.
              apply (Hfirst i di Hi Hdi).
Qed.

(** X17: [assignToCluster] returns the id of the nearest cluster.  When
    the distances from the vector to the centroids can be computed (no
    centroid has another length) and [<] orders them and Infinity strictly
    and weakly (as it does when no distance is NaN), the function returns
    the id of a cluster whose distance is below Infinity and which no
    cluster beats, the first one of them in the array; and it returns 0
    when no distance is below Infinity, so for no clusters at all. *)
Theorem assignToCluster_nearest (vector : list num)
  (clusters : list (ConceptCluster num)) (dists : list num) :
  mapM (fun cl => euclideanDistance vector (centroid cl)) clusters = Normal dists ->
  let values := infinity :: dists in
  (forall a, In a values -> lt a a = false) ->
  (forall a b c, In a values -> In b values -> In c values ->
     lt a b = true -> lt b c = true -> lt a c = true) ->
  (forall a b c, In a values -> In b values -> In c values ->
     lt a b = false -> lt b c = false -> lt a c = false) ->
  exists nearestCluster,
    assignToCluster vector clusters = Normal nearestCluster /\
    ((nearestCluster = 0 /\ forall x, In x dists -> lt x infinity = false) \/
     exists j cl dj,
       nth_error clusters j = Some cl /\ nth_error dists j = Some dj /\
       nearestCluster = clusterId cl /\
       lt dj infinity = true /\
       (forall x, In x dists -> lt x dj = false) /\
       (forall i di, i < j -> nth_error dists i = Some di -> lt dj di = true)).
Proof.
  intros Hd values Hirr Htrans Hneg.
  destruct (assignToCluster_loop vector values Hirr Htrans Hneg
              ltac:(left; reflexivity) clusters dists Hd [] [] (infinity, 0))
    as [st [Hrun Hst]].
  - reflexivity.
  - intros x Hx. right. exact Hx.
  - left. split; [reflexivity |]. split; [reflexivity |]. intros x [].
  - exists (snd st). split.
    + unfold assignToCluster. rewrite Hrun. reflexivity.
    + cbn [app] in Hst.
      destruct Hst as [[_ [Hc Hnone]] | [j [cl [dj [Hj [Hdj [_ [Hc Hrest]]]]]]]].
      * left. split; assumption.
      * right. exists j, cl, dj. split; [exact Hj |]. split; [exact Hdj |].
        split; [exact Hc | exact Hrest].
Qed.

End NearestFacts.

Section NearestExamples.
Import JS Clustering ExactNum.
Local Open Scope Q_scope.

(** The test 'should assign embedding to nearest cluster', second case. *)
Lemma assignToCluster_nearest_witness :
  let clusters := [bareCluster 0 5 [1; 0; 0]; bareCluster 1 5 [0; 1; 0]] in
  assignToCluster (map Finite [1 # 10; 9 # 10; 0]) clusters = Normal 1%nat.
Proof.
  intros clusters.
  set (vector := map Finite [1 # 10; 9 # 10; 0]).
  destruct (mapM (fun cl => euclideanDistance vector (centroid cl)) clusters)
    as [dists|e] eqn:Hd; [| vm_compute in Hd; discriminate].
  destruct (assignToCluster_nearest vector clusters dists Hd)
    as [c [Hrun _]].
  - vm_compute in Hd. injection Hd as <-.
    intros a [<- | [<- | [<- | []]]]; vm_compute; reflexivity.
  - vm_compute in Hd. injection Hd as <-.
    intros a b c [<- | [<- | [<- | []]]] [<- | [<- | [<- | []]]]
      [<- | [<- | [<- | []]]]; vm_compute; congruence.
  - vm_compute in Hd. injection Hd as <-.
    intros a b c [<- | [<- | [<- | []]]] [<- | [<- | [<- | []]]]
      [<- | [<- | [<- | []]]]; vm_compute; congruence.
  - rewrite Hrun. vm_compute in Hrun. injection Hrun as <-. reflexivity.
Defined.

Lemma initializeCentroidsKMeansPP_seeds_witness :
  exists centroids,
    initializeCentroidsKMeansPP (map (@embedding exact) fourPoints) 3
      (always (1 # 2)) 0%nat = Normal (centroids, 3%nat) /\
    length centroids = 3%nat /\
    Forall (fun c => In c (map (@embedding exact) fourPoints)) centroids.
Proof.
  apply (initializeCentroidsKMeansPP_seeds (always (1 # 2)) always_half_unit 1%nat
           (map (@embedding exact) fourPoints) 3 0).
  - discriminate.
  - repeat constructor.
Defined.

End NearestExamples.

(** ** Keywords and labels of a cluster (search/clustering.ts) *)

Section BumpFacts.
Import JS Clustering.

#[local] Abbreviation getOr0 m w :=
  (match mapGet streq m w with Some n => n | None => 0 end).

#[local] Abbreviation foldBump :=
  (fold_left (fun (f : JSMap jsstring nat) (t : jsstring * nat) =>
                bump (snd t) f (fst t))).

Lemma streq_refl (a : jsstring) : streq a a = true.
Proof. apply streq_spec. reflexivity. Qed.

Lemma streq_false (a b : jsstring) : a <> b -> streq a b = false.
Proof.
  intros H. destruct (streq a b) eqn:E; [| reflexivity].
  apply streq_spec in E. contradiction.
Qed.

Lemma mapGet_mapSet (m : JSMap jsstring nat) (k w : jsstring) (v : nat) :
  mapGet streq (mapSet streq m k v) w =
  if streq k w then Some v else mapGet streq m w.
Proof.
  induction m as [|[k' v'] m IH]; cbn [mapSet mapGet]; [reflexivity |].
  destruct (streq k' k) eqn:Hk.
  - apply streq_spec in Hk. subst k'. cbn [mapGet].
    destruct (streq k w); reflexivity.
  - cbn [mapGet]. rewrite IH.
    destruct (streq k' w) eqn:Hw; [| reflexivity].
    apply streq_spec in Hw. subst k'.
    destruct (streq k w) eqn:Hkw; [| reflexivity].
    apply streq_spec in Hkw. subst k. rewrite streq_refl in Hk. discriminate.
Qed.

Lemma mapKeys_mapSet (m : JSMap jsstring nat) (k : jsstring) (v : nat) :
  mapKeys (mapSet streq m k v) =
  mapKeys m ++ (if existsb (fun k' => streq k' k) (mapKeys m) then [] else [k]).
Proof.
  unfold mapKeys.
  induction m as [|[k' v'] m IH]; cbn [mapSet map existsb fst]; [reflexivity |].
  destruct (streq k' k) eqn:Hk; cbn [orb map fst app].
  - rewrite app_nil_r. reflexivity.
  - rewrite IH. reflexivity.
Qed.

Lemma bump_get (m : JSMap jsstring nat) (k w : jsstring) (n : nat) :
  getOr0 (bump n m k) w = getOr0 m w + (if streq k w then n else 0).
Proof.
  unfold bump. rewrite mapGet_mapSet.
  destruct (streq k w) eqn:Hkw.
  - apply streq_spec in Hkw. subst w. reflexivity.
  - lia.
Qed.

Lemma weightIn_cons (t : jsstring * nat) (ts : list (jsstring * nat)) (w : jsstring) :
  weightIn (t :: ts) w = (if streq (fst t) w then snd t else 0) + weightIn ts w.
Proof.
  unfold weightIn. cbn [filter]. destruct (streq (fst t) w); reflexivity.
Qed.

Lemma weightIn_app (ts ts' : list (jsstring * nat)) (w : jsstring) :
  weightIn (ts ++ ts') w = weightIn ts w + weightIn ts' w.
Proof.
  unfold weightIn. rewrite filter_app, map_app, list_sum_app. reflexivity.
Qed.

(** The counts after a run of [freq.set(word, (freq.get(word) || 0) +
    weight)]. *)
Lemma foldBump_get (ts : list (jsstring * nat)) :
  forall m w, getOr0 (foldBump ts m) w = getOr0 m w + weightIn ts w.
Proof.
  induction ts as [|t ts IH]; intros m w; cbn [fold_left].
  - unfold weightIn. cbn. lia.
  - rewrite IH, bump_get, weightIn_cons. lia.
Qed.

Lemma foldBump_keys (ts : list (jsstring * nat)) :
  forall m,
    NoDup (mapKeys m) ->
    NoDup (mapKeys (foldBump ts m)) /\
    forall w, In w (mapKeys (foldBump ts m)) <->
              In w (mapKeys m) \/ In w (map fst ts).
Proof.
  induction ts as [|t ts IH]; intros m Hnd; cbn [fold_left map].
  - split; [exact Hnd |]. intros w. cbn [In]. tauto.
  - assert (Hkeys : mapKeys (bump (snd t) m (fst t)) =
                    mapKeys m ++
                    (if existsb (fun k' => streq k' (fst t)) (mapKeys m)
                     then [] else [fst t]))
      by (apply mapKeys_mapSet).
    assert (Hnd' : NoDup (mapKeys (bump (snd t) m (fst t)))).
    { rewrite Hkeys.
      destruct (existsb (fun k' => streq k' (fst t)) (mapKeys m)) eqn:Hex.
      - rewrite app_nil_r. exact Hnd.
      - apply NoDup_app; [exact Hnd | repeat constructor; intros [] |].
        intros a Ha [Heq | []]. subst a.
        assert (Hex' : existsb (fun k' => streq k' (fst t)) (mapKeys m) = true).
        { apply existsb_exists. exists (fst t).
          split; [exact Ha | apply streq_refl]. }
        congruence. }
    destruct (IH _ Hnd') as [Hnd'' Hin]. split; [exact Hnd'' |].
    intros w. rewrite Hin, Hkeys, in_app_iff. cbn [In].
    destruct (existsb (fun k' => streq k' (fst t)) (mapKeys m)) eqn:Hex.
    + cbn [In]. split; [tauto |].
      intros [H | [<- | H]]; [tauto | | tauto].
      left. left. apply existsb_exists in Hex. destruct Hex as [k' [Hk' Heq]].
      apply streq_spec in Heq. subst k'. exact Hk'.
    + cbn [In]. tauto.
Qed.

Lemma foldBump_entries (ts : list (jsstring * nat)) (k : jsstring) (v : nat) :
  In (k, v) (foldBump ts []) ->
  v = weightIn ts k /\ In k (map fst ts).
Proof.
  intros Hin.
  destruct (foldBump_keys ts [] ltac:(constructor)) as [Hnd Hkeys].
  split.
  - pose proof (mapGet_In streq streq_spec (foldBump ts []) k v Hnd Hin) as Hget.
    pose proof (foldBump_get ts [] k) as Hw. rewrite Hget in Hw.
    cbn [mapGet] in Hw. lia.
  - assert (Hk : In k (mapKeys (foldBump ts []))).
    { unfold mapKeys. apply in_map_iff. exists (k, v). split; [reflexivity | exact Hin]. }
    apply Hkeys in Hk. destruct Hk as [[] | Hk]. exact Hk.
Qed.

End BumpFacts.

Section SortedFacts.

Lemma StronglySorted_app {A : Type} (R : A -> A -> Prop) (l1 l2 : list A) :
  StronglySorted R (l1 ++ l2) ->
  StronglySorted R l1 /\ forall x y, In x l1 -> In y l2 -> R x y.
Proof.
  induction l1 as [|a l1 IH]; intros H.
  - split; [constructor | intros x y []].
  - cbn [app] in H. apply StronglySorted_inv in H. destruct H as [Hs Ha].
    destruct (IH Hs) as [Hs1 Hcross]. split.
    + constructor; [exact Hs1 |].
      rewrite Forall_forall in *. intros x Hx. apply Ha.
      apply in_or_app. left. exact Hx.
    + intros x y [<- | Hx] Hy.
      * rewrite Forall_forall in Ha. apply Ha. apply in_or_app. right. exact Hy.
      * apply Hcross; assumption.
Qed.

Lemma StronglySorted_map_In {A B : Type} (R : A -> A -> Prop) (R' : B -> B -> Prop)
  (f : A -> B) (l : list A) :
  (forall a b, In a l -> In b l -> R a b -> R' (f a) (f b)) ->
  StronglySorted R l -> StronglySorted R' (map f l).
Proof.
  intros Hf. induction 1 as [|a l Hs IH Ha]; [constructor |].
  cbn [map]. constructor.
  - apply IH. intros x y Hx Hy. apply Hf; right; assumption.
  - rewrite Forall_forall in *. intros y Hy. apply in_map_iff in Hy.
    destruct Hy as [b [<- Hb]]. apply Hf; [left; reflexivity | right; exact Hb |].
    apply Ha, Hb.
Qed.

Lemma firstn_NoDup {A : Type} (n : nat) (l : list A) :
  NoDup l -> NoDup (firstn n l).
Proof.
  intros H. rewrite <- (firstn_skipn n l) in H.
  apply NoDup_app_remove_r in H. exact H.
Qed.

End SortedFacts.

Section KeywordFacts.
Import JS Clustering.
Context {num : Type} {N : JSNum num}.

#[local] Abbreviation foldBump :=
  (fold_left (fun (f : JSMap jsstring nat) (t : jsstring * nat) =>
                bump (snd t) f (fst t))).

Lemma countWords_tokens (weight : nat) (words : list jsstring) :
  forall freq,
    countWords weight freq words =
    foldBump (filter (fun t => eligible (fst t))
                (map (fun w => (toLowerCase w, weight)) words)) freq.
Proof.
  unfold countWords.
  induction words as [|w words IH]; intros freq; [reflexivity |].
  cbn [fold_left map filter fst]. unfold eligible at 1.
  destruct ((4 <=? length (toLowerCase w)) &&
            negb (existsb (streq (toLowerCase w)) stopWords)).
  - cbn [fold_left fst snd]. apply IH.
  - apply IH.
Qed.

(** The map [wordFreq] of [extractKeywords] holds the weighted tokens of
    the chunks. *)
Lemma wordFreq_tokens (chunks : list (ChunkForClustering num)) :
  forall freq,
    fold_left (fun freq chunk =>
                 let freq' := countWords 1 freq (matchIdentifiers (content chunk)) in
                 match symbolName chunk with
                 | Some (c :: s) => countWords 3 freq' (matchCamelWords (c :: s))
                 | _ => freq'
                 end)
              chunks freq =
    foldBump (flat_map keywordTokens chunks) freq.
Proof.
  induction chunks as [|chunk chunks IH]; intros freq; [reflexivity |].
  cbn [fold_left flat_map]. rewrite fold_left_app, IH. f_equal.
  unfold keywordTokens. rewrite filter_app, fold_left_app.
  rewrite <- countWords_tokens.
  destruct (symbolName chunk) as [[|c s]|]; cbn [filter fold_left];
    try reflexivity.
  rewrite <- countWords_tokens. reflexivity.
Qed.

Lemma keywordTokens_eligible (chunks : list (ChunkForClustering num))
  (w : jsstring) :
  In w (map fst (flat_map keywordTokens chunks)) ->
  eligible w = true /\ toLowerCase w = w /\ 0 < keywordWeight chunks w.
Proof.
  intros Hin. apply in_map_iff in Hin. destruct Hin as [[w' n] [Hw Hin]].
  cbn [fst] in Hw. subst w'.
  assert (Hpos : 0 < n /\ eligible w = true /\ toLowerCase w = w).
  { apply in_flat_map in Hin. destruct Hin as [chunk [_ Hin]].
    unfold keywordTokens in Hin. apply filter_In in Hin.
    destruct Hin as [Hin Hel]. cbn [fst] in Hel.
    apply in_app_or in Hin. destruct Hin as [Hin | Hin].
    - apply in_map_iff in Hin. destruct Hin as [x [Hx _]].
      injection Hx as <- <-. split; [lia |]. split; [exact Hel |].
      apply toLowerCase_idempotent.
    - destruct (symbolName chunk) as [[|c s]|]; try contradiction.
      apply in_map_iff in Hin. destruct Hin as [x [Hx _]].
      injection Hx as <- <-. split; [lia |]. split; [exact Hel |].
      apply toLowerCase_idempotent. }
  destruct Hpos as [Hn [Hel Hlow]]. split; [exact Hel |]. split; [exact Hlow |].
  unfold keywordWeight.
  apply in_split in Hin. destruct Hin as [l1 [l2 ->]].
  rewrite weightIn_app, weightIn_cons. cbn [fst snd].
  rewrite streq_refl. lia.
Qed.

(** X18: the keywords of a set of chunks are its heaviest words.  A word
    weighs 1 for each identifier of a content, and 3 for each word of a
    symbol name, that is this word up to case; words of less than four
    characters and stop words count for nothing.  [extractKeywords]
    returns at most 10 words, all different, each in lower case and of
    positive weight, in the order of falling weight; no word that is left
    out weighs more than one that is returned; and when fewer than 10 are
    returned, every word of positive weight is among them. *)
Theorem extractKeywords_heaviest (chunks : list (ChunkForClustering num)) :
  let keywords := extractKeywords chunks in
  let weight := keywordWeight chunks in
  length keywords <= 10 /\
  NoDup keywords /\
  (forall w, In w keywords ->
     eligible w = true /\ toLowerCase w = w /\ 0 < weight w) /\
  StronglySorted (fun a b => weight b <= weight a) keywords /\
  (forall k w, In k keywords -> ~ In w keywords -> weight w <= weight k) /\
  (length keywords < 10 -> forall w, 0 < weight w -> In w keywords).
Proof.
  intros keywords weight.
  set (tokens := flat_map keywordTokens chunks).
  set (wordFreq := foldBump tokens []).
  set (sorted := stableSort (fun a b : jsstring * nat => snd b <? snd a) wordFreq).
  set (n := Z.to_nat (Z.min 10 (Z.of_nat (length sorted)))).
  assert (Hkw : keywords = map fst (firstn n sorted)).
  { unfold keywords, extractKeywords. rewrite wordFreq_tokens.
    fold tokens. fold wordFreq. fold sorted. reflexivity. }
  destruct (foldBump_keys tokens [] ltac:(constructor)) as [Hnd Hkeys].
  fold wordFreq in Hnd, Hkeys.
  assert (Hperm : Permutation sorted wordFreq) by (apply stableSort_perm).
  assert (Hsorted : StronglySorted (fun a b => snd b <= snd a) sorted)
    by (apply (stableSort_descending snd)).
  assert (Hentry : forall k v, In (k, v) sorted ->
                     v = weight k /\ In k (map fst tokens)).
  { intros k v Hin. apply (Permutation_in _ Hperm) in Hin.
    apply (foldBump_entries tokens k v Hin). }
  assert (Hnds : NoDup (map fst sorted)).
  { apply (Permutation_NoDup (Permutation_sym (Permutation_map fst Hperm))).
    exact Hnd. }
  assert (Hsplit : sorted = firstn n sorted ++ skipn n sorted)
    by (symmetry; apply firstn_skipn).
  assert (Hhead : forall e, In e (firstn n sorted) -> In e sorted).
  { intros e He. rewrite Hsplit. apply in_or_app. left. exact He. }
  assert (Hin_kw : forall w, In w keywords ->
                     exists v, In (w, v) (firstn n sorted)).
  { intros w Hw. rewrite Hkw in Hw. apply in_map_iff in Hw.
    destruct Hw as [[w' v] [Heq Hin]]. cbn [fst] in Heq. subst w'.
    exists v. exact Hin. }
  split; [| split; [| split; [| split; [| split]]]].
  - rewrite Hkw, length_map, length_firstn. unfold n. lia.
  - rewrite Hkw, <- firstn_map. apply firstn_NoDup, Hnds.
  - intros w Hw. destruct (Hin_kw w Hw) as [v Hv].
    destruct (Hentry w v (Hhead _ Hv)) as [_ Htok].
    apply (keywordTokens_eligible chunks w Htok).
  - rewrite Hkw.
    apply (StronglySorted_map_In (fun a b => snd b <= snd a)).
    + intros [a va] [b vb] Ha Hb Hle. cbn [fst snd] in *.
      destruct (Hentry a va (Hhead _ Ha)) as [-> _].
      destruct (Hentry b vb (Hhead _ Hb)) as [-> _]. exact Hle.
    + rewrite Hsplit in Hsorted. apply StronglySorted_app in Hsorted. tauto.
  - intros k w Hk Hw.
    destruct (Nat.eq_dec (weight w) 0) as [Hz | Hpos]; [lia |].
    destruct (Hin_kw k Hk) as [vk Hvk].
    destruct (Hentry k vk (Hhead _ Hvk)) as [-> _].
    assert (Hwkey : In w (mapKeys wordFreq)).
    { apply Hkeys. right.
      unfold weight, keywordWeight, weightIn in Hpos. fold tokens in Hpos.
      destruct (filter (fun t => streq (fst t) w) tokens) as [|[w' v'] rest] eqn:Hf;
        [cbn in Hpos; lia |].
      assert (Hin : In (w', v') (filter (fun t => streq (fst t) w) tokens))
        by (rewrite Hf; left; reflexivity).
      apply filter_In in Hin. destruct Hin as [Hin Heq]. cbn [fst] in Heq.
      apply streq_spec in Heq. subst w'.
      apply in_map_iff. exists (w, v'). split; [reflexivity | exact Hin]. }
    unfold mapKeys in Hwkey. apply in_map_iff in Hwkey.
    destruct Hwkey as [[w' vw] [Heq Hwin]]. cbn [fst] in Heq. subst w'.
    apply (Permutation_in _ (Permutation_sym Hperm)) in Hwin.
    destruct (Hentry w vw Hwin) as [Hvw _].
    rewrite Hsplit in Hwin. apply in_app_or in Hwin.
    destruct Hwin as [Hwin | Hwin].
    + exfalso. apply Hw. rewrite Hkw. apply in_map_iff.
      exists (w, vw). split; [reflexivity | exact Hwin].
    + rewrite Hsplit in Hsorted. apply StronglySorted_app in Hsorted.
      destruct Hsorted as [_ Hcross].
      specialize (Hcross _ _ Hvk Hwin). cbn [snd] in Hcross. lia.
  - intros Hshort w Hpos.
    assert (Hall : firstn n sorted = sorted).
    { apply firstn_all2. rewrite Hkw, length_map, length_firstn in Hshort.
      unfold n in *. lia. }
    rewrite Hkw, Hall.
    assert (Hwkey : In w (mapKeys wordFreq)).
    { apply Hkeys. right.
      unfold weight, keywordWeight, weightIn in Hpos. fold tokens in Hpos.
      destruct (filter (fun t => streq (fst t) w) tokens) as [|[w' v'] rest] eqn:Hf;
        [cbn in Hpos; lia |].
      assert (Hin : In (w', v') (filter (fun t => streq (fst t) w) tokens))
        by (rewrite Hf; left; reflexivity).
      apply filter_In in Hin. destruct Hin as [Hin Heq]. cbn [fst] in Heq.
      apply streq_spec in Heq. subst w'.
      apply in_map_iff. exists (w, v'). split; [reflexivity | exact Hin]. }
    apply (Permutation_in _ (Permutation_sym (Permutation_map fst Hperm))).
    exact Hwkey.
Qed.

End KeywordFacts.

Section LabelFacts.
Import JS Clustering.
Context {num : Type} {N : JSNum num}.

#[local] Abbreviation foldBump :=
  (fold_left (fun (f : JSMap jsstring nat) (t : jsstring * nat) =>
                bump (snd t) f (fst t))).

#[local] Abbreviation better :=
  (fun best entry : jsstring * nat =>
     if (snd best <? snd entry)%nat then entry else best).





Lemma no_directories (chunks : list (ChunkForClustering num)) :
  Forall (fun chunk => forallb (fun c => negb (Ascii.eqb c "/")) (filepath chunk) = true)
         chunks ->
  forall m,
    fold_left (fun m chunk =>
                 let parts := splitChar "/"%char (filepath chunk) in
                 if (1 <? length parts)%nat
                 then bump 1 m (join (lit "/") (slice0 parts (-1)))
                 else m) chunks m = m.
Proof.
  induction 1 as [|chunk chunks Hc Hall IH]; intros m; [reflexivity |].
  cbn [fold_left]. cbv zeta. unfold splitChar.
  rewrite (splitCharFrom_plain "/"%char (filepath chunk) [] Hc).
  cbn [length Nat.ltb Nat.leb]. apply IH.
Qed.

Lemma no_types (chunks : list (ChunkForClustering num)) :
  Forall (fun chunk => symbolType chunk = None \/ symbolType chunk = Some []) chunks ->
  forall m,
    fold_left (fun m chunk =>
                 match symbolType chunk with
                 | Some (c :: s) => bump 1 m (c :: s)
                 | _ => m
                 end) chunks m = m.
Proof.
  induction 1 as [|chunk chunks Hc Hall IH]; intros m; [reflexivity |].
  cbn [fold_left]. destruct Hc as [-> | ->]; apply IH.
Qed.

(** X20: the label of a cluster without types and directories.  When no
    chunk has a symbol type and no file path has a slash, the label is made
    of the keywords of the representatives: 'Code' when there is none, the
    keyword when there is one, and the first two joined by ' & '
    otherwise. *)
Theorem generateClusterLabel_fallback
  (allChunks representatives : list (ChunkForClustering num)) :
  Forall (fun chunk => symbolType chunk = None \/ symbolType chunk = Some [])
         allChunks ->
  Forall (fun chunk => forallb (fun c => negb (Ascii.eqb c "/")) (filepath chunk) = true)
         allChunks ->
  generateClusterLabel allChunks representatives =
  match extractKeywords representatives with
  | [] => lit "Code"
  | [keyword] => keyword
  | first :: second :: _ => first ++ lit " & " ++ second
  end.
Proof.
  intros Htypes Hpaths. unfold generateClusterLabel. cbv zeta.
  rewrite (no_types allChunks Htypes), (no_directories allChunks Hpaths).
  cbn [dominant fold_left fst app].
  destruct (extractKeywords representatives) as [|k1 [|k2 rest]];
    [reflexivity | reflexivity |].
  assert (Hslice : slice0 (k1 :: k2 :: rest) 2 = [k1; k2]).
  { unfold slice0. cbn [Z.ltb Z.compare length].
    replace (Z.to_nat (Z.min 2 (Z.of_nat (S (S (length rest)))))) with 2%nat by lia.
    reflexivity. }
  rewrite Hslice. reflexivity.
Qed.

End LabelFacts.

Section KeywordExamples.
Import JS Clustering ExactNum.
Local Open Scope Q_scope.

(** Chunks of the test 'should generate meaningful labels for clusters'. *)
Lemma extractKeywords_heaviest_witness :
  let chunks :=
    [chunkOf "auth1" "function login authenticate user password"
       "src/auth/login.ts" [1; 0; 0] (Some "login"%string) (Some "function"%string);
     chunkOf "auth2" "function logout authenticate session"
       "src/auth/logout.ts" [1; 0; 0] (Some "logout"%string) (Some "function"%string)] in
  extractKeywords chunks =
    map lit ["login"; "logout"; "authenticate"; "user"; "password"; "session"]%string /\
  forall k w, In k (extractKeywords chunks) -> ~ In w (extractKeywords chunks) ->
              (keywordWeight chunks w <= keywordWeight chunks k)%nat.
Proof.
  intros chunks. split; [vm_compute; reflexivity |].
  destruct (extractKeywords_heaviest chunks) as [_ [_ [_ [_ [Htop _]]]]].
  exact Htop.
Defined.


Lemma generateClusterLabel_fallback_witness :
  let chunks :=
    [chunkOf "a" "parse tokens" "main.ts" [1; 0] None None;
     chunkOf "b" "parse input tokens" "lexer.ts" [0; 1] None None] in
  generateClusterLabel chunks chunks = lit "parse & tokens".
Proof.
  intros chunks.
  rewrite (generateClusterLabel_fallback chunks chunks).
  - vm_compute. reflexivity.
  - repeat constructor.
  - repeat constructor.
Defined.

End KeywordExamples.

(** ** Results of the clustering (search/clustering.ts) *)

Section PartitionClaims.
Import JS Clustering Numbers.
Context {num : Type} {N : JSNum num}.

#[local] Abbreviation Chunk := (ChunkForClustering num).
#[local] Abbreviation Cluster := (ConceptCluster num).

(** X21: the clusters of a result of [kMeansClustering] partition the
    chunks: no cluster of the result is empty, their sizes add up to the
    number of chunks, and [clusterCount] is the number of clusters.  This
    holds for every result, whatever the ids of the chunks; and a result
    exists when the embeddings have one dimension, the target
    [min(numClusters, n)] is 1 or less or an integer, [maxIterations] is
    2^53 at most, and the draws behave like numbers of [0, 1). *)
Theorem kMeansClustering_sizes (chunks : list Chunk)
  (options : ClusteringOptions num) (draws : nat -> num) (cursor : nat) :
  (forall fuel r cursor',
     kMeansClustering chunks options fuel draws cursor = Some (Normal (r, cursor')) ->
     list_sum (map size (clusters r)) = length chunks /\
     Forall (fun cl => 1 <= size cl) (clusters r) /\
     clusterCount r = length (clusters r)) /\
  (sameDimension chunks -> unitDraws draws ->
   lengthTarget chunks options -> boundedIterations options ->
   forall fuel, exists r cursor',
     kMeansClustering chunks options fuel draws cursor = Some (Normal (r, cursor'))).
Proof.
  split.
  - intros fuel r cursor'. apply kMeansClustering_partition.
  - intros Hdim Hdraws Htarget Hbound fuel.
    apply kMeansClustering_returns; assumption.
Qed.

(** X22: with a target of one cluster (the option [numClusters] is a number
    that is 1 or less, or there is one chunk and [numClusters] is not NaN),
    [kMeansClustering] returns at once one cluster with id 0 that holds
    every chunk: every chunk id is assigned 0, the representatives are the
    first chunks, as [slice(0, numRepresentatives)] cuts them, [Math.random]
    is not called, and embeddings of different lengths raise no
    exception. *)
Theorem kMeansClustering_single_cluster (chunks : list Chunk)
  (options : ClusteringOptions num) (draws : nat -> num) (cursor : nat) :
  chunks <> [] ->
  (exists c, numClusters options = Some c /\ numLe c (numOfZ 1) = true) \/
  (length chunks = 1 /\ numClusters options <> Some NaN) ->
  exists r,
    (forall fuel,
       kMeansClustering chunks options fuel draws cursor = Some (Normal (r, cursor))) /\
    clusterCount r = 1 /\
    map idSize (clusters r) = [(0, length chunks)] /\
    map (@representativeChunks num) (clusters r) =
      [map id (slice0 chunks
                 (toIntegerWithin (length chunks)
                    (orDefault (numRepresentatives options) (numOfZ 3))))] /\
    forall chunk, In chunk chunks ->
      mapGet streq (assignments r) (id chunk) = Some 0.
Proof.
  intros Hne Hone.
  assert (Hk : numLe (targetClusters chunks options) (numOfZ 1) = true).
  { unfold targetClusters, numOfNat.
    destruct Hone as [[c [-> Hc]] | [Hlen Hnan]].
    - apply numMin_below; [exact Hc |].
      destruct chunks; [contradiction | cbn [length]; lia].
    - rewrite Hlen. change (Z.of_nat 1) with 1%Z.
      destruct (numClusters options) as [c|].
      + apply numMin_one. intros ->. apply Hnan. reflexivity.
      + apply numMin_one. discriminate. }
  unfold kMeansClustering.
  destruct chunks as [|ch chunks']; [contradiction |].
  set (chunks := ch :: chunks') in *. cbv zeta.
  rewrite Hk. unfold singleCluster.
  destruct (calculateCentroid_nonempty (embedding ch) (map embedding chunks'))
    as [centroid [Hcentroid _]].
  change (map embedding chunks) with (embedding ch :: map embedding chunks').
  rewrite Hcentroid. cbn [bind liftR].
  eexists. split; [intros fuel; reflexivity |].
  cbn [clusterCount clusters assignments map idSize clusterId size
       representativeChunks].
  split; [reflexivity |]. split; [reflexivity |]. split; [reflexivity |].
  intros chunk Hchunk.
  destruct (fold_mapSet_const streq streq_spec
              (fun ch : Chunk => id ch) 0 chunks [])
    as [Hvalues [_ Hkeys]].
  { intros k v []. }
  cbv zeta in Hvalues, Hkeys.
  destruct (mapGet_key_In streq streq_spec _ (id chunk) (Hkeys chunk Hchunk))
    as [v Hv].
  rewrite Hv. apply (mapGet_Some_In streq streq_spec) in Hv.
  apply Hvalues in Hv. subst v. reflexivity.
Qed.

(** X23: the silhouette score is 0 when the assignment map knows none of
    the chunks: a chunk without an assignment is skipped, no distance is
    computed, and so no exception is raised, whatever the embeddings. *)
Theorem calculateSilhouetteScore_unassigned (chunks : list Chunk)
  (assignments : JSMap jsstring nat) (clusters : list Cluster) :
  (forall chunk, In chunk chunks -> mapGet streq assignments (id chunk) = None) ->
  calculateSilhouetteScore chunks assignments clusters = Normal (ofQ 0%Q).
Proof.
  intros Hnone. unfold calculateSilhouetteScore.
  destruct ((length clusters <=? 1) || (length chunks <=? 1)); [reflexivity |].
  assert (Hloop : forall todo st,
            (forall chunk, In chunk todo -> In chunk chunks) ->
            forOf (fun (st : num * nat) chunk =>
                     match mapGet streq assignments (id chunk) with
                     | None => Normal st
                     | Some cluster =>
                         bind (silhouetteOf chunks assignments clusters chunk cluster)
                              (fun s => Normal (add (fst st) s, S (snd st)))
                     end) todo st = Normal st).
  { induction todo as [|chunk todo IH]; intros st Hsub; [reflexivity |].
    cbn [forOf]. rewrite (Hnone chunk (Hsub chunk (or_introl eq_refl))).
    cbn [bind]. apply IH. intros c Hc. apply Hsub. right. exact Hc. }
  rewrite (Hloop chunks _ (fun c H => H)). reflexivity.
Qed.

End PartitionClaims.

Section PartitionRuns.
Import JS Clustering ExactNum Numbers.
Local Open Scope Q_scope.

Lemma kMeansClustering_sizes_witness :
  exists r cursor',
    kMeansClustering fourPoints noOptions 0 (always (1 # 2)) 0%nat =
      Some (Normal (r, cursor')) /\
    list_sum (map size (clusters r)) = 4%nat /\
    Forall (fun cl => (1 <= size cl)%nat) (clusters r).
Proof.
  destruct (kMeansClustering_sizes fourPoints noOptions (always (1 # 2)) 0%nat)
    as [Hsizes Hruns].
  destruct Hruns with (fuel := 0%nat) as [r [cursor' Hrun]].
  - exists 1%nat. repeat constructor.
  - exact always_half_unit.
  - right. vm_compute. discriminate.
  - vm_compute. discriminate.
  - exists r, cursor'. split; [exact Hrun |].
    destruct (Hsizes 0%nat r cursor' Hrun) as [Hsum [Hpos _]].
    split; [exact Hsum | exact Hpos].
Defined.

(** The four points with a target of one cluster; the ragged pair of
    embeddings with one cluster asked for raises nothing. *)
Lemma kMeansClustering_single_cluster_witness :
  exists r,
    kMeansClustering fourPoints (withClusters (Num 1)) 0 (always (1 # 2)) 0%nat =
      Some (Normal (r, 0%nat)) /\
    map idSize (clusters r) = [(0, 4)]%nat /\
    map (@representativeChunks exact) (clusters r) = [[lit "a"; lit "b"; lit "c"]].
Proof.
  destruct (kMeansClustering_single_cluster fourPoints (withClusters (Num 1))
              (always (1 # 2)) 0%nat) as [r [Hrun [_ [Hsizes [Hreps _]]]]].
  - discriminate.
  - left. exists (Num 1). split; reflexivity.
  - exists r. split; [exact (Hrun 0%nat) |]. split; [exact Hsizes | exact Hreps].
Defined.

(** One cluster asked for, embeddings of different lengths, and any number
    for [numRepresentatives]: a fraction is cut off, NaN is 0, a negative
    number counts from the end. *)
Example kMeansClustering_representatives :
  let run options :=
    match kMeansClustering fourPoints options 0 (always (1 # 2)) 0%nat with
    | Some (Normal (r, _)) => map (@representativeChunks exact) (clusters r)
    | _ => []
    end in
  let options n := {| numClusters := Some (Num 1); maxIterations := None;
                      convergenceThreshold := None;
                      numRepresentatives := Some n |} in
  run (options (Num (5 # 2))) = [[lit "a"; lit "b"]] /\
  run (options NaN) = [[]] /\
  run (options (Num (-1))) = [[lit "a"; lit "b"; lit "c"]] /\
  run (options (Inf false)) = [[lit "a"; lit "b"; lit "c"; lit "d"]].
Proof. repeat split; vm_compute; reflexivity. Qed.

Lemma calculateSilhouetteScore_unassigned_witness :
  calculateSilhouetteScore fourPoints [(lit "z", 0%nat)]
    [bareCluster 0 2 [0]; bareCluster 1 2 [11]] = Normal (Finite 0).
Proof.
  refine (calculateSilhouetteScore_unassigned fourPoints _ _ _).
  intros chunk Hchunk. cbn [fourPoints In] in Hchunk.
  destruct Hchunk as [<- | [<- | [<- | [<- | []]]]]; reflexivity.
Defined.

End PartitionRuns.

(** ** Runs that leave every point in cluster 0 (search/clustering.ts) *)

Section OneClusterClaims.
Import JS Clustering Numbers.
Context {num : Type} {N : JSNum num}.

#[local] Abbreviation Chunk := (ChunkForClustering num).
#[local] Abbreviation Cluster := (ConceptCluster num).

(** X24: without iterations (the option [maxIterations] is a number [m]
    for which [0 < m] does not hold: 0, a negative number or NaN) the seeds
    are drawn, but no chunk is compared with them: every result of
    [kMeansClustering] on chunks has one cluster, with id 0 and all the
    chunks, whatever [numClusters] asks for, and every chunk id is assigned
    0.  A result exists when the embeddings have one dimension, the target
    [min(numClusters, n)] is 1 or less or an integer, and the draws behave
    like numbers of [0, 1). *)
Theorem kMeansClustering_no_iterations (chunks : list Chunk)
  (options : ClusteringOptions num) (draws : nat -> num) (cursor : nat)
  (m : number) :
  chunks <> [] -> maxIterations options = Some m ->
  numLt (numOfZ 0) m = false ->
  (forall fuel r cursor',
     kMeansClustering chunks options fuel draws cursor = Some (Normal (r, cursor')) ->
     clusterCount r = 1 /\
     map idSize (clusters r) = [(0, length chunks)] /\
     forall chunk, In chunk chunks ->
       mapGet streq (assignments r) (id chunk) = Some 0) /\
  (sameDimension chunks -> unitDraws draws -> lengthTarget chunks options ->
   forall fuel, exists r cursor',
     kMeansClustering chunks options fuel draws cursor = Some (Normal (r, cursor'))).
Proof.
  intros Hne Hmax Hm.
  assert (Hcount : countBelow (orDefault (maxIterations options) (numOfZ 100))
                   = Some 0).
  { rewrite Hmax. cbn [orDefault]. apply countBelow_none. exact Hm. }
  split.
  - intros fuel r cursor' Hrun. apply kMeansClustering_inv in Hrun.
    destruct Hrun as [Hempty _ _ | _ _ Hsingle _
                     | k iterations centroids0 cursor1 final
                         _ _ _ _ _ Hlloyd Hbound Hbuild].
    + contradiction.
    + apply (singleCluster_all_zero _ _ _ Hsingle).
    + rewrite (Hbound 0 Hcount) in Hlloyd.
      cbn [lloyd] in Hlloyd. apply retR_inv in Hlloyd. destruct Hlloyd as [Hfinal _].
      subst final. cbn [fst snd] in Hbuild.
      apply (buildResult_all_zero _ _ _ _ _ Hne Hbuild).
  - intros Hdim Hdraws Htarget fuel.
    apply kMeansClustering_returns; try assumption.
    unfold boundedIterations. rewrite Hcount. discriminate.
Qed.

(** X25: chunks whose embeddings are all the same vector end in one
    cluster.  Every seed is this vector, the first assignment step finds no
    centroid nearer than the first one, nothing has changed and the loop
    stops: every result has one cluster, with id 0 and all the chunks,
    whatever [numClusters] asks for; and a result exists when the target
    [min(numClusters, n)] is 1 or less or an integer, [maxIterations] is
    2^53 at most, and the draws behave like numbers of [0, 1).  [<] is taken
    not to hold between a number and itself. *)
Theorem kMeansClustering_identical_embeddings (chunks : list Chunk)
  (options : ClusteringOptions num) (draws : nat -> num) (cursor : nat)
  (v : list num) :
  (forall x : num, lt x x = false) ->
  chunks <> [] -> Forall (fun ch => embedding ch = v) chunks ->
  (forall fuel r cursor',
     kMeansClustering chunks options fuel draws cursor = Some (Normal (r, cursor')) ->
     clusterCount r = 1 /\
     map idSize (clusters r) = [(0, length chunks)] /\
     forall chunk, In chunk chunks ->
       mapGet streq (assignments r) (id chunk) = Some 0) /\
  (unitDraws draws -> lengthTarget chunks options -> boundedIterations options ->
   forall fuel, exists r cursor',
     kMeansClustering chunks options fuel draws cursor = Some (Normal (r, cursor'))).
Proof.
  intros Hirr Hne Hsame. split.
  2:{ intros Hdraws Htarget Hbound fuel.
      apply kMeansClustering_returns; try assumption. exists (length v).
      apply (Forall_impl _ (fun ch (H : embedding ch = v) => f_equal (@length _) H)).
      exact Hsame. }
  intros fuel r cursor' Hrun. apply kMeansClustering_inv in Hrun.
  destruct Hrun as [Hempty _ _ | _ _ Hsingle _
                   | k iterations centroids0 cursor1 final
                       _ _ _ _ Hinit Hlloyd _ Hbuild].
  - contradiction.
  - apply (singleCluster_all_zero _ _ _ Hsingle).
  - assert (He : Forall (fun w => w = v) (map embedding chunks))
      by (rewrite Forall_map; exact Hsame).
    apply seeds_In in Hinit.
    assert (Hc : Forall (fun w => w = v) centroids0).
    { apply Forall_forall. intros w Hw. rewrite Forall_forall in Hinit, He.
      apply He, Hinit, Hw. }
    rewrite <- (length_map embedding chunks) in Hlloyd.
    apply (lloyd_identical v Hirr _ _ _ _ _ _ _ _ _ Hc He) in Hlloyd.
    destruct Hlloyd as [Hfinal _].
    rewrite Hfinal, length_map in Hbuild.
    apply (buildResult_all_zero _ _ _ _ _ Hne Hbuild).
Qed.

End OneClusterClaims.

Section OneClusterRuns.
Import JS Clustering ExactNum Numbers.
Local Open Scope Q_scope.

Lemma exLt_irrefl (x : exact) : exLt x x = false.
Proof.
  destruct x as [q | s |]; cbn [exLt]; [| destruct s; reflexivity | reflexivity].
  rewrite (proj2 (Qeq_bool_iff q q) (Qeq_refl q)). apply andb_false_r.
Qed.

(** Four points, three clusters asked for by default, and no iteration. *)
Lemma kMeansClustering_no_iterations_witness :
  let options := {| numClusters := None; maxIterations := Some (Num 0);
                    convergenceThreshold := None; numRepresentatives := None |} in
  exists r cursor',
    kMeansClustering fourPoints options 0 (always (1 # 2)) 0%nat =
      Some (Normal (r, cursor')) /\
    map idSize (clusters r) = [(0, 4)]%nat.
Proof.
  intros options.
  destruct (kMeansClustering_no_iterations fourPoints options (always (1 # 2))
              0%nat (Num 0)) as [Hone Hruns].
  - discriminate.
  - reflexivity.
  - reflexivity.
  - destruct Hruns with (fuel := 0%nat) as [r [cursor' Hrun]].
    + exists 1%nat. repeat constructor.
    + exact always_half_unit.
    + right. vm_compute. discriminate.
    + exists r, cursor'. split; [exact Hrun |].
      destruct (Hone 0%nat r cursor' Hrun) as [_ [Hsizes _]]. exact Hsizes.
Defined.

(** Three chunks at one point, two clusters asked for. *)
Lemma kMeansClustering_identical_embeddings_witness :
  let chunks := [point "a" [1; 2]; point "b" [1; 2]; point "c" [1; 2]] in
  exists r cursor',
    kMeansClustering chunks (withClusters (Num 2)) 0 (always (1 # 2)) 0%nat =
      Some (Normal (r, cursor')) /\
    map idSize (clusters r) = [(0, 3)]%nat.
Proof.
  intros chunks.
  destruct (kMeansClustering_identical_embeddings chunks (withClusters (Num 2))
              (always (1 # 2)) 0%nat (map Finite [1; 2])) as [Hone Hruns].
  - exact exLt_irrefl.
  - discriminate.
  - repeat constructor.
  - destruct Hruns with (fuel := 0%nat) as [r [cursor' Hrun]].
    + exact always_half_unit.
    + right. vm_compute. discriminate.
    + vm_compute. discriminate.
    + exists r, cursor'. split; [exact Hrun |].
      destruct (Hone 0%nat r cursor' Hrun) as [_ [Hsizes _]]. exact Hsizes.
Defined.

End OneClusterRuns.

(** ** Argument parsing of search_code (src/tools/search-handlers.ts) *)

Section SearchCodeFacts.
Import JS SearchHandlers SearchHandlers.SearchCode.

(** The guard of the [languages] argument, whatever it accepts. *)
Variable isStringArray : JSValue -> bool.

Lemma parseSearchCodeArgs_throws (args : Args) (e : JSError) :
  parseSearchCodeArgs isStringArray args = Throw e ->
  e = queryRequiredError /\ nonEmptyString (prop args "query") = false.
Proof.
  unfold parseSearchCodeArgs.
  destruct (prop args "query") as [ | | b | n | [|c s] | ]; cbn [isString];
    intros H; try discriminate H; injection H as <-; split; reflexivity.
Qed.

(** X26: [parseSearchCodeArgs] throws if and only if the [query] argument
    is not a string with at least one character (missing arguments, a
    number and the empty string included), and the error is then the
    'query is required' error of category 'validation' for the tool
    search_code.  With such a query it returns this query, the [limit]
    argument when it is a number and 10 otherwise, the [pathPattern]
    argument when it is a string, and the [languages] argument as it is
    when the guard accepts it and none otherwise. *)
Theorem parseSearchCodeArgs_validation (args : Args) :
  (forall e, parseSearchCodeArgs isStringArray args = Throw e <->
             e = queryRequiredError /\
             nonEmptyString (prop args "query") = false) /\
  category queryRequiredError = Some (lit "validation") /\
  (forall s, prop args "query" = JSString s -> s <> [] ->
     exists r, parseSearchCodeArgs isStringArray args = Normal r /\
       query r = s /\
       (numberValued (prop args "limit") = false -> limit r = Some (10 # 1)%Q) /\
       (forall n, prop args "limit" = JSNumber n -> limit r = Some n) /\
       pathPattern r = isString (prop args "pathPattern") /\
       languages r = (if isStringArray (prop args "languages")
                      then Some (prop args "languages") else None)).
Proof.
  split; [| split; [reflexivity |]].
  - intros e. split; [apply parseSearchCodeArgs_throws |].
    intros [-> Hq]. unfold parseSearchCodeArgs.
    destruct (prop args "query") as [ | | b | n | [|c s] | ]; cbn [isString];
      try reflexivity; discriminate Hq.
  - intros s Hq Hs. unfold parseSearchCodeArgs. rewrite Hq. cbn [isString].
    destruct s as [|c s]; [contradiction |].
    eexists. split; [reflexivity |].
    cbn [query limit pathPattern languages].
    split; [reflexivity |]. split; [| split; [| split; reflexivity]].
    + intros Hn. destruct (prop args "limit"); try reflexivity; discriminate Hn.
    + intros n Hn. rewrite Hn. reflexivity.
Qed.

End SearchCodeFacts.

Section SearchCodeRuns.
Import JS SearchHandlers SearchHandlers.SearchCode.

Lemma parseSearchCodeArgs_validation_witness :
  let args : Args := Some [(lit "query", JSString (lit "parse args"));
                           (lit "limit", JSString (lit "5"))] in
  exists r, parseSearchCodeArgs (fun _ => false) args = Normal r /\
            query r = lit "parse args" /\ limit r = Some (10 # 1)%Q.
Proof.
  intros args.
  destruct (parseSearchCodeArgs_validation (fun _ => false) args)
    as [_ [_ Hreturns]].
  destruct (Hreturns (lit "parse args") eq_refl) as [r [Hr [Hq [Hl _]]]].
  - discriminate.
  - exists r. split; [exact Hr |]. split; [exact Hq | apply Hl; reflexivity].
Defined.

End SearchCodeRuns.

(** ** Failing requests of a batch (src/embeddings/ollama.ts) *)

Section RejectFacts.
Import JS Embeddings.
Variable Vector : Type.
Variable embed : jsstring -> Completion Vector.

Lemma In_map_Throw (chunk : list jsstring) (e : JSError) :
  In (Throw e) (map embed chunk) -> exists t, In t chunk /\ embed t = Throw e.
Proof.
  intros H. apply in_map_iff in H. destruct H as [t [Ht Hin]].
  exists t. split; assumption.
Qed.

(** A rejection of the loop is the rejection of one of its requests. *)
Lemma embedChunks_throw_In (chunks : list (list jsstring)) :
  forall (schedule : list (list nat)) (results : list Vector) (e : JSError),
    embedChunks embed chunks schedule results = Some (Throw e) ->
    exists t, In t (concat chunks) /\ embed t = Throw e.
Proof.
  induction chunks as [|chunk chunks IH]; intros schedule results e Hrun.
  - discriminate Hrun.
  - cbn [embedChunks] in Hrun.
    destruct (promiseAll (map embed chunk) (hd [] schedule))
      as [[chunkResults|e']|] eqn:Hall; [| | discriminate].
    + destruct (IH _ _ _ Hrun) as [t [Ht He]].
      exists t. split; [| exact He].
      cbn [concat]. apply in_or_app. right. exact Ht.
    + injection Hrun as <-. apply promiseAll_throw_In in Hall.
      destruct (In_map_Throw _ _ Hall) as [t [Ht He]].
      exists t. split; [| exact He].
      cbn [concat]. apply in_or_app. left. exact Ht.
Qed.

(** With a request that fails, the loop rejects once every request of each
    group it reaches has completed. *)
Lemma embedChunks_rejects (chunks : list (list jsstring)) :
  forall (schedule : list (list nat)) (results : list Vector) (t0 : jsstring)
         (e0 : JSError),
    completes chunks schedule ->
    In t0 (concat chunks) -> embed t0 = Throw e0 ->
    exists e, embedChunks embed chunks schedule results = Some (Throw e).
Proof.
  induction chunks as [|chunk chunks IH];
    intros schedule results t0 e0 Hsched Hin Hfail; [contradiction |].
  inversion Hsched as [|? order ? schedule' Hperm Hrest]; subst.
  cbn [embedChunks hd tl].
  destruct (promiseAll_settles (map embed chunk) order)
    as [[vs [Hvs Hall]] | [e [_ Hall]]].
  { intros j Hj. rewrite length_map in Hj.
    apply (Permutation_in _ (Permutation_sym Hperm)). apply in_seq. lia. }
  - rewrite Hall.
    cbn [concat] in Hin. apply in_app_or in Hin. destruct Hin as [Hin | Hin].
    + apply (in_map embed) in Hin. rewrite Hvs, Hfail in Hin.
      apply in_map_iff in Hin. destruct Hin as [v [Hv _]]. discriminate Hv.
    + apply (IH schedule' (results ++ vs) t0 e0 Hrest Hin Hfail).
  - rewrite Hall. exists e. reflexivity.
Qed.

(** X27: [embedBatch] fails when a request fails.  If the request for one
    of the texts is rejected, then, whatever the order in which the
    requests of each group complete, [embedBatch] is rejected, and no list
    of vectors is returned, not even for the groups that succeeded; and the
    error of a rejected [embedBatch] is always the error of the request for
    one of the texts.  ([chunkArray] is taken by its contract: its groups,
    put end to end, are the texts.) *)
Theorem embedBatch_rejects
  (chunkArrayImpl : list jsstring -> Z -> list (list jsstring))
  (this : OllamaBackend) (texts : list jsstring) (schedule : list (list nat)) :
  concat (chunkArrayImpl texts (batchSize this)) = texts ->
  (forall e, embedBatch embed chunkArrayImpl this texts schedule = Some (Throw e) ->
     exists t, In t texts /\ embed t = Throw e) /\
  (completes (chunkArrayImpl texts (batchSize this)) schedule ->
   forall t0 e0, In t0 texts -> embed t0 = Throw e0 ->
     exists e, embedBatch embed chunkArrayImpl this texts schedule = Some (Throw e)).
Proof.
  intros Hsplit. unfold embedBatch. split.
  - intros e Hrun. apply embedChunks_throw_In in Hrun.
    rewrite Hsplit in Hrun. exact Hrun.
  - intros Hsched t0 e0 Hin Hfail.
    apply (embedChunks_rejects _ schedule [] t0 e0 Hsched); [| exact Hfail].
    rewrite Hsplit. exact Hin.
Qed.

End RejectFacts.

Section RejectRuns.
Import JS Embeddings.

(** Three texts in groups of two; the request for the empty text fails, in
    the second group. *)
Lemma embedBatch_rejects_witness :
  let this := newOllamaBackend
                {| configModel := None; configBaseUrl := None;
                   configBatchSize := Some 2%Z |} in
  let embed := fun t => match t with
                        | [] => Throw (Error (lit "Ollama embedding failed: 500"))
                        | _ :: _ => Normal (length t)
                        end in
  embedBatch embed chunkArray this [lit "alpha"; lit "be"; []] [[1; 0]; [0]] =
  Some (Throw (Error (lit "Ollama embedding failed: 500"))).
Proof.
  intros this embed.
  destruct (embedBatch_rejects nat embed chunkArray this
              [lit "alpha"; lit "be"; []] [[1; 0]; [0]] eq_refl)
    as [Hfrom Hrejects].
  destruct (Hrejects ltac:(repeat constructor) []
              (Error (lit "Ollama embedding failed: 500")))
    as [e He].
  - right. right. left. reflexivity.
  - reflexivity.
  - rewrite He. destruct (Hfrom e He) as [t [Ht Het]].
    destruct Ht as [<- | [<- | [<- | []]]]; try discriminate Het.
    injection Het as <-. reflexivity.
Defined.

End RejectRuns.
